(** * Incremental synchronisation engine of the ChatGPT conversation mirror

    A shallow embedding of the two cooperating scripts of the extension:
    the content script, which lists the remote conversations, classifies
    them against the known state and fetches the changed ones, and the
    service worker, which folds the messages it receives into the
    persisted [syncState].

    Conventions of the embedding.
    - Finite JavaScript numbers are integers of [Z]: the engine only
      compares times and takes their maximum, and counts items.
    - A value that is falsy in JavaScript is [0] for a number and the
      empty string for a string; [a || b] is [num_or] / [str_or].
    - Objects used as dictionaries are [gmap string _], the [Set] of seen
      ids is a [gset string], the sparse array [pageStates] is a
      [gmap nat _].
    - The metadata object [{id, title, create_time, update_time}] is always
      stored under its own [id]; the model keeps the id as the key only.
    - [Date.now()] and [nowIso()] are explicit clock arguments.
    - The timer of the service worker is a deadline on the clock of the
      messages: what the content script posts after it is not handled.
    - The status line, the progress bar and the throttled progress posts
      that carry no cursor do not reach [syncState] and are left out. *)

From stdpp Require Import gmap strings list fin_maps sorting.
From Stdlib Require Import ZArith Lia Ascii.

#[local] Open Scope Z_scope.
#[local] Set Primitive Projections.
#[local] Set Warnings "-clear-no-such-hyp".

(** ** JavaScript values at the boundary *)

(** A JSON field handed to [toEpochSeconds] or [Number.parseFloat]. *)
Inductive rawnum : Type :=
  | RNum (z : Z)          (* a finite number *)
  | RStr (p : option Z)   (* a string; [p] is what [Number.parseFloat] reads, [None] for NaN *)
  | ROther.               (* undefined, null, NaN, an infinity, an object *)

(** An ISO timestamp string as [Date.parse] sees it. *)
Inductive isoString : Type :=
  | Iso (ms : Z)          (* parses to [ms] milliseconds *)
  | NotIso.               (* a non-empty string that does not parse *)

Definition Date_parse (s : isoString) : option Z :=
  match s with Iso ms => Some ms | NotIso => None end.

Definition nowIso (now : Z) : isoString := Iso now.

Definition num_or (a b : Z) : Z := if decide (a = 0) then b else a.
Definition str_or (a b : string) : string := if decide (a = EmptyString) then b else a.

(** ** Data model *)

Record item : Type := Item {
  item_id : string;
  item_title : string;
  item_create_time : rawnum;
  item_update_time : rawnum
}.

(** The body returned by [fetchConversation]. *)
Record conversation : Type := Conversation {
  conv_title : string;
  conv_create_time : rawnum;
  conv_update_time : rawnum
}.

Record metaEntry : Type := MetaEntry {
  title : string;
  create_time : Z;
  update_time : Z
}.

Inductive runStatus : Type := StatusUpdated | StatusUnchanged | StatusError.

Record runRecord : Type := RunRecord {
  status : runStatus;
  rr_update_time : Z;
  rr_at : isoString;
  rr_error : option string
}.

Record inventoryCursor : Type := InventoryCursor {
  cur_offset : Z;
  cur_limit : option Z;
  cur_updatedAt : option isoString
}.

Record syncState : Type := SyncState {
  conversations : gmap string Z;
  meta : gmap string metaEntry;
  lastRun : gmap string runRecord;
  lastFullInventoryAt : option isoString;
  ss_inventoryCursor : option inventoryCursor;
  inventoryInProgress : bool
}.

Record options : Type := Options {
  deleteRemoved : bool;
  includeMarkdown : bool;
  includeJson : bool;
  maxParallelFetch : Z
}.

(** The answer of the listing endpoint, after [normalizeConversationList]
    has picked the array of items. *)
Record rawPage : Type := RawPage {
  raw_items : list item;
  raw_total : option Z;        (* [data.total] when it is a finite number *)
  raw_has_more : option bool   (* [data.has_more] when it is a boolean *)
}.

Record page : Type := Page {
  items : list item;
  total : Z;
  hasMore : bool;
  page_limit : Z;
  pageMinUpdate : Z
}.

(** Messages posted by the content script on the port. *)
Inductive message : Type :=
  | MsgSyncMode (fullInventory : bool) (resumeOffset : Z) (limit : Z)
  | MsgSyncProgress (processed : Z) (total : Z) (cursor : option (Z * Z))
  | MsgConversation (id : string) (title : string) (create_time : Z) (update_time : Z)
  | MsgConversationSkip (id : string) (title : string) (create_time : Z) (update_time : Z)
  | MsgConversationError (id : string) (error : string)
  | MsgSyncComplete (total updated skipped errors : Z) (fullInventory : bool)
                    (inventoryCount : Z)
  | MsgSyncError (error : string).

(** ** The content script *)

Module Content.

Definition MAX_PARTIAL_AGE_MS : Z := 24 * 60 * 60 * 1000.
Definition maxPages : nat := 200.

Definition toEpochSeconds (value : rawnum) : Z :=
  match value with
  | RNum z => z
  | RStr (Some z) => z
  | RStr None => 0
  | ROther => 0
  end.

(** [toEpochSeconds(item.update_time) || toEpochSeconds(item.create_time)] *)
Definition observedTime (it : item) : Z :=
  num_or (toEpochSeconds (item_update_time it)) (toEpochSeconds (item_create_time it)).

Definition getMaxKnownUpdateTime (knownConversations : gmap string Z) : Z :=
  map_fold (fun _ value maxTime => if decide (maxTime < value) then value else maxTime)
           0 knownConversations.

Definition shouldForceFullInventory (now : Z) (opts : options)
    (knownConversations : gmap string Z)
    (lastFull : option isoString) : bool :=
  if decide (size knownConversations = 0%nat) then true
  else if deleteRemoved opts then true
  else match lastFull with
       | None => true
       | Some s =>
           match Date_parse s with
           | None => true
           | Some lastFullMs => bool_decide (MAX_PARTIAL_AGE_MS < now - lastFullMs)
           end
       end.

Definition getResumeOffset (now : Z) (cursor : option inventoryCursor) : Z :=
  match cursor with
  | None => 0
  | Some c =>
      match cur_updatedAt c with
      | Some s =>
          match Date_parse s with
          | Some updatedAt =>
              if decide (MAX_PARTIAL_AGE_MS < now - updatedAt) then 0 else cur_offset c
          | None => cur_offset c
          end
      | None => cur_offset c
      end
  end.

Definition getProgressTarget (processed total : Z) (listComplete : bool) : Z :=
  if listComplete then total
  else if decide (total = 0) then (if decide (processed = 0) then 0 else processed + 1)
  else Z.max total (processed + 1).

(** *** Merging the stored state with the index snapshot *)

Record knownState : Type := KnownState {
  ks_conversations : gmap string Z;
  ks_meta : gmap string metaEntry
}.

Definition mergeConversationsStep (id : string) (updateTime : Z)
    (mergedConversations : gmap string Z) : gmap string Z :=
  let existing := num_or (default 0 (mergedConversations !! id)) 0 in
  <[id := Z.max existing (num_or updateTime 0)]> mergedConversations.

Definition mergeMetaStep (id : string) (m : metaEntry)
    (mergedMeta : gmap string metaEntry) : gmap string metaEntry :=
  if decide (id = EmptyString) then mergedMeta
  else match mergedMeta !! id with
       | None => <[id := m]> mergedMeta
       | Some current =>
           let currentTime := num_or (update_time current) 0 in
           let nextTime := num_or (update_time m) 0 in
           if decide (currentTime <= nextTime)
           then <[id := MetaEntry (title m) (create_time m) (Z.max currentTime nextTime)]>
                  mergedMeta
           else mergedMeta
       end.

Definition mergeKnownState (knownConversations : gmap string Z)
    (knownMeta : gmap string metaEntry) (indexState : option knownState) : knownState :=
  match indexState with
  | None => KnownState knownConversations knownMeta
  | Some ix =>
      KnownState (map_fold mergeConversationsStep knownConversations (ks_conversations ix))
                 (map_fold mergeMetaStep knownMeta (ks_meta ix))
  end.

(** *** index.json *)

(** [readIndex]: the entries of the file, in the order of the array; [None]
    when the file is missing or is not an object with a conversations array. *)
Definition readIndexStep (acc : knownState) (entry : item) : knownState :=
  if decide (item_id entry = EmptyString) then acc
  else
    let updateTime := toEpochSeconds (item_update_time entry) in
    let createTime := toEpochSeconds (item_create_time entry) in
    KnownState (<[item_id entry := updateTime]> (ks_conversations acc))
               (<[item_id entry := MetaEntry (item_title entry) createTime updateTime]>
                  (ks_meta acc)).

Definition readIndex (file : option (list item)) : option knownState :=
  match file with
  | None => None
  | Some entries => Some (foldl readIndexStep (KnownState ∅ ∅) entries)
  end.

(** [writeIndex]: the values of [metaMap], newest first, become the entries
    of the file.  Among entries with the same update time the file follows
    the key order of the object, which the map does not record. *)
Definition indexEntry (kv : string * metaEntry) : item :=
  Item kv.1 (title kv.2) (RNum (create_time kv.2)) (RNum (update_time kv.2)).

Definition newerFirst (a b : string * metaEntry) : Prop :=
  update_time b.2 <= update_time a.2.

#[global] Instance newerFirst_dec (a b : string * metaEntry) : Decision (newerFirst a b).
Proof. unfold newerFirst. apply _. Defined.

Definition writeIndex (metaMap : gmap string metaEntry) : list item :=
  indexEntry <$> merge_sort newerFirst (map_to_list metaMap).

(** *** One page of the listing *)

(** The loop of [fetchConversationPage] that computes [pageMinUpdate]. *)
Definition pageMinStep (pageMin : Z) (it : item) : Z :=
  let itemUpdate := observedTime it in
  if decide (pageMin = 0) then itemUpdate
  else if decide (itemUpdate < pageMin) then itemUpdate else pageMin.

Definition computePageMinUpdate (its : list item) : Z := foldl pageMinStep 0 its.

(** [[limit, 100, 50].filter((v, i, self) => self.indexOf(v) === i)] *)
Fixpoint firstOccurrences (seen : list Z) (l : list Z) : list Z :=
  match l with
  | [] => []
  | x :: l' =>
      if decide (x ∈ seen) then firstOccurrences seen l'
      else x :: firstOccurrences (x :: seen) l'
  end.

Definition buildPage (offset candidate : Z) (data : rawPage) : page :=
  let its := raw_items data in
  let tot := default (Z.of_nat (length its)) (raw_total data) in
  let more :=
    match raw_has_more data with
    | Some flag => flag
    | None => bool_decide (offset + Z.of_nat (length its) < tot)
    end in
  Page its tot more candidate (computePageMinUpdate its).

(** [fetchJson offset candidate] is [inl message] when the request throws. *)
Fixpoint tryLimits (fetchJson : Z -> Z -> string + rawPage) (offset : Z)
    (lastError : string) (limits : list Z) : string + page :=
  match limits with
  | [] => inl lastError
  | candidate :: rest =>
      match fetchJson offset candidate with
      | inr data => inr (buildPage offset candidate data)
      | inl err => tryLimits fetchJson offset err rest
      end
  end.

(** [inl message] is the exception thrown once every candidate size has failed. *)
Definition fetchConversationPage (fetchJson : Z -> Z -> string + rawPage)
    (offset limit : Z) : string + page :=
  tryLimits fetchJson offset "Failed to fetch conversations"
            (firstOccurrences [] [limit; 100; 50]).

(** *** The collaborators of a run *)

Record env : Type := Env {
  fetchJson : Z -> Z -> string + rawPage;
  fetchConversation : string -> string + conversation;
  (* [Some message] when writing the artifacts of a fetched body throws *)
  writeConversation : string -> conversation -> option string;
  (* [true] when deleting the artifacts of an id throws *)
  deleteConversation : string -> bool;
  (* [Some message] when writing index.json throws *)
  writeIndexFile : option string
}.

(** *** The state of [runSync] *)

Record pageState : Type := PageState {
  remaining : Z;
  nextOffset : Z;
  ps_limit : Z;
  done : bool
}.

Record payload : Type := Payload {
  p_item : item;
  p_pageIndex : nat
}.

Record state : Type := State {
  processed : Z;
  updatedCount : Z;
  skippedCount : Z;
  errorCount : Z;
  didFullInventory : bool;
  listedCount : Z;
  totalHint : Z;
  offset : Z;
  limit : Z;
  pageCount : nat;
  listComplete : bool;
  metaMap : gmap string metaEntry;
  currentIds : gset string;
  pageStates : gmap nat pageState;
  nextCursorIndex : nat;
  queue : list payload;       (* handed to the pool, not yet finished *)
  outbox : list message;      (* posted on the port, oldest first *)
  deleted : list string       (* ids passed to deleteConversation, oldest first *)
}.

Definition set_processed (v : Z) (c : state) : state :=
  State v (updatedCount c) (skippedCount c) (errorCount c) (didFullInventory c)
    (listedCount c) (totalHint c) (offset c) (limit c) (pageCount c) (listComplete c)
    (metaMap c) (currentIds c) (pageStates c) (nextCursorIndex c) (queue c) (outbox c)
    (deleted c).
Definition set_updatedCount (v : Z) (c : state) : state :=
  State (processed c) v (skippedCount c) (errorCount c) (didFullInventory c) (listedCount
    c) (totalHint c) (offset c) (limit c) (pageCount c) (listComplete c) (metaMap c)
    (currentIds c) (pageStates c) (nextCursorIndex c) (queue c) (outbox c) (deleted c).
Definition set_skippedCount (v : Z) (c : state) : state :=
  State (processed c) (updatedCount c) v (errorCount c) (didFullInventory c) (listedCount
    c) (totalHint c) (offset c) (limit c) (pageCount c) (listComplete c) (metaMap c)
    (currentIds c) (pageStates c) (nextCursorIndex c) (queue c) (outbox c) (deleted c).
Definition set_errorCount (v : Z) (c : state) : state :=
  State (processed c) (updatedCount c) (skippedCount c) v (didFullInventory c)
    (listedCount c) (totalHint c) (offset c) (limit c) (pageCount c) (listComplete c)
    (metaMap c) (currentIds c) (pageStates c) (nextCursorIndex c) (queue c) (outbox c)
    (deleted c).
Definition set_didFullInventory (v : bool) (c : state) : state :=
  State (processed c) (updatedCount c) (skippedCount c) (errorCount c) v (listedCount c)
    (totalHint c) (offset c) (limit c) (pageCount c) (listComplete c) (metaMap c)
    (currentIds c) (pageStates c) (nextCursorIndex c) (queue c) (outbox c) (deleted c).
Definition set_listedCount (v : Z) (c : state) : state :=
  State (processed c) (updatedCount c) (skippedCount c) (errorCount c) (didFullInventory
    c) v (totalHint c) (offset c) (limit c) (pageCount c) (listComplete c) (metaMap c)
    (currentIds c) (pageStates c) (nextCursorIndex c) (queue c) (outbox c) (deleted c).
Definition set_totalHint (v : Z) (c : state) : state :=
  State (processed c) (updatedCount c) (skippedCount c) (errorCount c) (didFullInventory
    c) (listedCount c) v (offset c) (limit c) (pageCount c) (listComplete c) (metaMap c)
    (currentIds c) (pageStates c) (nextCursorIndex c) (queue c) (outbox c) (deleted c).
Definition set_offset (v : Z) (c : state) : state :=
  State (processed c) (updatedCount c) (skippedCount c) (errorCount c) (didFullInventory
    c) (listedCount c) (totalHint c) v (limit c) (pageCount c) (listComplete c) (metaMap
    c) (currentIds c) (pageStates c) (nextCursorIndex c) (queue c) (outbox c) (deleted c).
Definition set_limit (v : Z) (c : state) : state :=
  State (processed c) (updatedCount c) (skippedCount c) (errorCount c) (didFullInventory
    c) (listedCount c) (totalHint c) (offset c) v (pageCount c) (listComplete c) (metaMap
    c) (currentIds c) (pageStates c) (nextCursorIndex c) (queue c) (outbox c) (deleted c).
Definition set_pageCount (v : nat) (c : state) : state :=
  State (processed c) (updatedCount c) (skippedCount c) (errorCount c) (didFullInventory
    c) (listedCount c) (totalHint c) (offset c) (limit c) v (listComplete c) (metaMap c)
    (currentIds c) (pageStates c) (nextCursorIndex c) (queue c) (outbox c) (deleted c).
Definition set_listComplete (v : bool) (c : state) : state :=
  State (processed c) (updatedCount c) (skippedCount c) (errorCount c) (didFullInventory
    c) (listedCount c) (totalHint c) (offset c) (limit c) (pageCount c) v (metaMap c)
    (currentIds c) (pageStates c) (nextCursorIndex c) (queue c) (outbox c) (deleted c).
Definition set_metaMap (v : gmap string metaEntry) (c : state) : state :=
  State (processed c) (updatedCount c) (skippedCount c) (errorCount c) (didFullInventory
    c) (listedCount c) (totalHint c) (offset c) (limit c) (pageCount c) (listComplete c)
    v (currentIds c) (pageStates c) (nextCursorIndex c) (queue c) (outbox c) (deleted c).
Definition set_currentIds (v : gset string) (c : state) : state :=
  State (processed c) (updatedCount c) (skippedCount c) (errorCount c) (didFullInventory
    c) (listedCount c) (totalHint c) (offset c) (limit c) (pageCount c) (listComplete c)
    (metaMap c) v (pageStates c) (nextCursorIndex c) (queue c) (outbox c) (deleted c).
Definition set_pageStates (v : gmap nat pageState) (c : state) : state :=
  State (processed c) (updatedCount c) (skippedCount c) (errorCount c) (didFullInventory
    c) (listedCount c) (totalHint c) (offset c) (limit c) (pageCount c) (listComplete c)
    (metaMap c) (currentIds c) v (nextCursorIndex c) (queue c) (outbox c) (deleted c).
Definition set_nextCursorIndex (v : nat) (c : state) : state :=
  State (processed c) (updatedCount c) (skippedCount c) (errorCount c) (didFullInventory
    c) (listedCount c) (totalHint c) (offset c) (limit c) (pageCount c) (listComplete c)
    (metaMap c) (currentIds c) (pageStates c) v (queue c) (outbox c) (deleted c).
Definition set_queue (v : list payload) (c : state) : state :=
  State (processed c) (updatedCount c) (skippedCount c) (errorCount c) (didFullInventory
    c) (listedCount c) (totalHint c) (offset c) (limit c) (pageCount c) (listComplete c)
    (metaMap c) (currentIds c) (pageStates c) (nextCursorIndex c) v (outbox c) (deleted
    c).
Definition set_outbox (v : list message) (c : state) : state :=
  State (processed c) (updatedCount c) (skippedCount c) (errorCount c) (didFullInventory
    c) (listedCount c) (totalHint c) (offset c) (limit c) (pageCount c) (listComplete c)
    (metaMap c) (currentIds c) (pageStates c) (nextCursorIndex c) (queue c) v (deleted c).
Definition set_deleted (v : list string) (c : state) : state :=
  State (processed c) (updatedCount c) (skippedCount c) (errorCount c) (didFullInventory
    c) (listedCount c) (totalHint c) (offset c) (limit c) (pageCount c) (listComplete c)
    (metaMap c) (currentIds c) (pageStates c) (nextCursorIndex c) (queue c) (outbox c) v.

(** *** The closures of [runSync] *)

(** What the closures capture: the collaborators, the options, the known
    watermarks after the merge with the index, and the mode of the run. *)
Record captured : Type := Captured {
  cap_env : env;
  cap_options : options;
  knownConversations : gmap string Z;
  forceFullInventory : bool;
  stopAfterTime : option Z
}.

Section Run.

Context (R : captured).

Definition post (m : message) (c : state) : state :=
  set_outbox (outbox c ++ [m]) c.

Definition progressTotal (c : state) : Z :=
  Z.max (num_or (totalHint c) 0) (num_or (listedCount c) 0).

(** The [while] of [maybeAdvanceCursor]; it runs at most once per page that
    is registered and not yet reported, which is what [fuel] counts. *)
Fixpoint advanceLoop (fuel : nat) (c : state) : state :=
  match fuel with
  | O => c
  | S fuel' =>
      match pageStates c !! nextCursorIndex c with
      | Some st =>
          if done st then
            let target := getProgressTarget (processed c) (progressTotal c) (listComplete c) in
            let c1 := post (MsgSyncProgress (processed c) target
                              (Some (nextOffset st, ps_limit st))) c in
            advanceLoop fuel' (set_nextCursorIndex (S (nextCursorIndex c1)) c1)
          else c
      | None => c
      end
  end.

Definition maybeAdvanceCursor (c : state) : state :=
  if forceFullInventory R
  then advanceLoop (pageCount c - nextCursorIndex c)%nat c
  else c.

Definition markPageItemDone (pageIndex : nat) (c : state) : state :=
  match pageStates c !! pageIndex with
  | None => c
  | Some st =>
      if done st then c
      else
        let left := remaining st - 1 in
        if decide (left <= 0)
        then maybeAdvanceCursor
               (set_pageStates
                  (<[pageIndex := PageState left (nextOffset st) (ps_limit st) true]>
                     (pageStates c)) c)
        else set_pageStates
               (<[pageIndex := PageState left (nextOffset st) (ps_limit st) false]>
                  (pageStates c)) c
  end.

Definition enqueueItem (it : item) (pageIndex : nat) (c : state) : state :=
  set_queue (queue c ++ [Payload it pageIndex]) c.

(** The metadata that [processItem] stores for a fetched body. *)
Definition fetchedEntry (it : item) (conv : conversation) : metaEntry :=
  let updateTime := observedTime it in
  let conversationUpdate := toEpochSeconds (conv_update_time conv) in
  let metaUpdateTime := Z.max updateTime conversationUpdate in
  let createTimeSeconds :=
    num_or (toEpochSeconds (conv_create_time conv))
           (toEpochSeconds (item_create_time it)) in
  MetaEntry (str_or (conv_title conv) (str_or (item_title it) EmptyString))
            createTimeSeconds metaUpdateTime.

(** [processItem], from the moment the body fetch settles. *)
Definition processItem (it : item) (pageIndex : nat) (c : state) : state :=
  let id := item_id it in
  let c1 :=
    match fetchConversation (cap_env R) id with
    | inl err =>
        post (MsgConversationError id err) (set_errorCount (errorCount c + 1) c)
    | inr conv =>
        let e := fetchedEntry it conv in
        let c0 := set_metaMap (<[id := e]> (metaMap c)) c in
        match writeConversation (cap_env R) id conv with
        | Some err =>
            post (MsgConversationError id err) (set_errorCount (errorCount c0 + 1) c0)
        | None =>
            let c' := post (MsgConversation id (title e) (create_time e) (update_time e))
                           c0 in
            set_updatedCount (updatedCount c' + 1) c'
        end
    end in
  markPageItemDone pageIndex (set_processed (processed c1 + 1) c1).

(** A worker finishes the payload at position [k] of the pool. *)
Definition workerStep (c : state) (k : nat) : state :=
  match queue c !! k with
  | None => c
  | Some pl => processItem (p_item pl) (p_pageIndex pl) (set_queue (delete k (queue c)) c)
  end.

Definition runWorkers (ks : list nat) (c : state) : state := foldl workerStep c ks.

(** [await Promise.all(workers)] once the listing is over: whatever is
    still in the pool is finished in the order of the queue. *)
Definition drainQueue (c : state) : state :=
  Nat.iter (length (queue c)) (fun c' => workerStep c' 0%nat) c.

(** The metadata that the listing stores for an item, given the known
    watermark of its id and the entry the id has so far. *)
Definition listedEntry (knownTime : Z) (existing : option metaEntry) (it : item)
    : metaEntry :=
  let updateTime := observedTime it in
  let createTimeSeconds :=
    num_or (toEpochSeconds (item_create_time it))
           (match existing with Some m => create_time m | None => 0 end) in
  let existingMetaUpdate := match existing with Some m => update_time m | None => 0 end in
  let mergedUpdateTime := Z.max updateTime (Z.max knownTime existingMetaUpdate) in
  MetaEntry (str_or (item_title it)
               (str_or (match existing with Some m => title m | None => EmptyString end)
                       EmptyString))
            createTimeSeconds mergedUpdateTime.

(** The body of [for (const item of items)]. *)
Definition classifyItem (pageIndex : nat) (c : state) (it : item) : state :=
  let id := item_id it in
  let updateTime := observedTime it in
  let knownTime := default 0 (knownConversations R !! id) in
  let e := listedEntry knownTime (metaMap c !! id) it in
  let c1 := set_currentIds ({[id]} ∪ currentIds c) c in
  let c2 := set_metaMap (<[id := e]> (metaMap c1)) c1 in
  if decide (updateTime <= knownTime) then
    let c3 := set_skippedCount (skippedCount c2 + 1) (set_processed (processed c2 + 1) c2) in
    let c4 :=
      post (MsgConversationSkip id (str_or (item_title it) EmptyString)
              (create_time e) (update_time e)) c3 in
    markPageItemDone pageIndex c4
  else enqueueItem it pageIndex c2.

Definition stopForTime (pg : page) : bool :=
  match stopAfterTime R with
  | None => false
  | Some w =>
      bool_decide (w ≠ 0) && bool_decide (pageMinUpdate pg ≠ 0)
      && bool_decide (pageMinUpdate pg <= w)
  end.

Definition shouldContinue (pg : page) (lim : Z) : bool :=
  negb (stopForTime pg)
  && (hasMore pg || bool_decide (lim <= Z.of_nat (length (items pg)))).

Inductive loopExit : Type :=
  | LoopBreak (c : state) (sched : list (list nat))
  | LoopThrow (c : state) (err : string)
  | LoopStuck (c : state).

(** From [listedCount += items.length] to [pageCount += 1]. *)
Definition countPage (pg : page) (c : state) : state :=
  let c := set_listedCount (listedCount c + Z.of_nat (length (items pg))) c in
  let c := if decide (totalHint c < total pg) then set_totalHint (total pg) c else c in
  set_pageCount (S (pageCount c)) c.

(** The entry of [pageStates] and the effect of [stopForTime]. *)
Definition registerPage (pageIndex : nat) (pg : page) (c : state) : state :=
  let n := Z.of_nat (length (items pg)) in
  let c := set_pageStates
             (<[pageIndex := PageState n (offset c + n) (limit c) false]> (pageStates c))
             c in
  if stopForTime pg then set_didFullInventory false c else c.

(** The rest of the round for a page that is classified: its entry in
    [pageStates], the [for] over its items, and [offset = nextOffset]. *)
Definition classifyPage (pageIndex : nat) (pg : page) (c : state) : state :=
  let next := offset c + Z.of_nat (length (items pg)) in
  let c := registerPage pageIndex pg c in
  set_offset next (foldl (classifyItem pageIndex) c (items pg)).

(** The [while (pagePromise)] of the listing.  Each round awaits the page
    requested at [(offset, limit)]; while the next page is awaited the
    fetches named by the head of [sched] settle.  [LoopStuck] is the model
    running out of [fuel], which the page ceiling excludes. *)
Fixpoint listingLoop (fuel : nat) (sched : list (list nat)) (c : state) : loopExit :=
  match fuel with
  | O => LoopStuck c
  | S fuel' =>
      match fetchConversationPage (fetchJson (cap_env R)) (offset c) (limit c) with
      | inl err => LoopThrow c err
      | inr pg =>
          let c := set_limit (page_limit pg) c in
          if decide (items pg = []) then
            LoopBreak
              (if decide (listedCount c = 0) then set_didFullInventory false c else c)
              sched
          else
            let pageIndex := pageCount c in
            let c := countPage pg c in
            if decide (maxPages < pageCount c)%nat then
              LoopBreak (set_didFullInventory false c) sched
            else
              let c := classifyPage pageIndex pg c in
              if shouldContinue pg (page_limit pg) then
                listingLoop fuel' (tail sched) (runWorkers (default [] (head sched)) c)
              else LoopBreak c sched
      end
  end.

(** The removal pass of a completed full inventory. *)
Definition removeStep (c : state) (id : string) : state :=
  let c1 := set_metaMap (delete id (metaMap c)) c in
  if deleteRemoved (cap_options R) then
    let c2 := set_deleted (deleted c1 ++ [id]) c1 in
    if deleteConversation (cap_env R) id then set_errorCount (errorCount c2 + 1) c2 else c2
  else c1.

Definition removedIds (c : state) : list string :=
  filter (fun id => id ∉ currentIds c) (map_to_list (metaMap c)).*1.

Definition removalPass (c : state) : state :=
  if didFullInventory c then foldl removeStep c (removedIds c) else c.

Inductive outcome : Type :=
  | Completed (c : state) (index : list item)
  | Failed (c : state).

(** What follows the listing loop in [runSync]. *)
Definition settleAll (c : state) (sched : list (list nat)) : state :=
  drainQueue (runWorkers (concat sched) (set_listComplete true c)).

Definition finishRun (c : state) (sched : list (list nat)) : outcome :=
  let c := removalPass (settleAll c sched) in
  match writeIndexFile (cap_env R) with
  | Some err => Failed (post (MsgSyncError err) c)
  | None =>
      let finalTotal :=
        if didFullInventory c then num_or (progressTotal c) (processed c)
        else processed c in
      Completed
        (post (MsgSyncComplete finalTotal (updatedCount c) (skippedCount c) (errorCount c)
                 (didFullInventory c) (Z.of_nat (size (metaMap c)))) c)
        (writeIndex (metaMap c))
  end.

End Run.

(** [runSync] of the content script, for a folder that is selected and
    accessible.  [file] is index.json as found at the start. *)
Definition initialState (knownMeta : gmap string metaEntry) (forceFull : bool)
    (resumeOffset : Z) : state :=
  State 0 0 0 0 forceFull 0 0 resumeOffset 100 0%nat false knownMeta ∅ ∅ 0%nat [] [] [].

Definition knownAtStart (knownConversations : gmap string Z)
    (knownMeta : gmap string metaEntry) (file : option (list item)) : knownState :=
  match readIndex file with
  | Some ix => mergeKnownState knownConversations knownMeta (Some ix)
  | None => KnownState knownConversations knownMeta
  end.

(** [runSync] up to the first page request: the merge with the index, the
    mode, the resume offset and the sync-mode post. *)
Definition startRun (E : env) (now : Z) (file : option (list item)) (opts : options)
    (knownConversations : gmap string Z) (knownMeta : gmap string metaEntry)
    (lastFull : option isoString) (cursor : option inventoryCursor)
    : captured * state :=
  let known := knownAtStart knownConversations knownMeta file in
  let forceFullInventory :=
    shouldForceFullInventory now opts (ks_conversations known) lastFull in
  let resumeOffset := if forceFullInventory then getResumeOffset now cursor else 0 in
  let stopAfterTime :=
    if forceFullInventory then None
    else Some (getMaxKnownUpdateTime (ks_conversations known)) in
  (Captured E opts (ks_conversations known) forceFullInventory stopAfterTime,
   post (MsgSyncMode forceFullInventory resumeOffset 100)
        (initialState (ks_meta known) forceFullInventory resumeOffset)).

Definition runFrom (R : captured) (sched : list (list nat)) (c : state) : outcome :=
  match listingLoop R (S maxPages) sched c with
  | LoopBreak c sched' => finishRun R c sched'
  | LoopThrow c err => Failed (post (MsgSyncError err) c)
  | LoopStuck c => Failed c
  end.

Definition runSync (E : env) (now : Z) (file : option (list item))
    (sched : list (list nat)) (opts : options)
    (knownConversations : gmap string Z) (knownMeta : gmap string metaEntry)
    (lastFull : option isoString) (cursor : option inventoryCursor) : outcome :=
  let start := startRun E now file opts knownConversations knownMeta lastFull cursor in
  runFrom start.1 sched start.2.

End Content.

(** ** The service worker *)

Module Background.

Definition CHECKPOINT_MIN_MESSAGES : Z := 50.
Definition CHECKPOINT_MIN_MS : Z := 15000.

Definition set_conversations (v : gmap string Z) (x : syncState) : syncState :=
  SyncState v (meta x) (lastRun x) (lastFullInventoryAt x) (ss_inventoryCursor x)
    (inventoryInProgress x).
Definition set_meta (v : gmap string metaEntry) (x : syncState) : syncState :=
  SyncState (conversations x) v (lastRun x) (lastFullInventoryAt x)
    (ss_inventoryCursor x) (inventoryInProgress x).
Definition set_lastRun (v : gmap string runRecord) (x : syncState) : syncState :=
  SyncState (conversations x) (meta x) v (lastFullInventoryAt x) (ss_inventoryCursor x)
    (inventoryInProgress x).
Definition set_lastFullInventoryAt (v : option isoString) (x : syncState) : syncState :=
  SyncState (conversations x) (meta x) (lastRun x) v (ss_inventoryCursor x)
    (inventoryInProgress x).
Definition set_ss_inventoryCursor (v : option inventoryCursor) (x : syncState) : syncState :=
  SyncState (conversations x) (meta x) (lastRun x) (lastFullInventoryAt x) v
    (inventoryInProgress x).
Definition set_inventoryInProgress (v : bool) (x : syncState) : syncState :=
  SyncState (conversations x) (meta x) (lastRun x) (lastFullInventoryAt x)
    (ss_inventoryCursor x) v.

(** The promise of the run: pending, resolved by sync-complete, or rejected. *)
Inductive settlement : Type :=
  | Pending
  | Resolved
  | Rejected (err : string).

(** The variables of [runSync] that the port listener closes over.  [saved]
    logs the states handed to [setSyncState], newest first. *)
Record state : Type := State {
  nextState : syncState;
  currentIds : gset string;
  updatedCount : Z;
  skippedCount : Z;
  errorCount : Z;
  totalCount : Z;
  fullInventoryMode : bool;
  checkpointCount : Z;
  lastCheckpointAt : Z;
  saved : list syncState;
  settled : settlement
}.

Definition set_nextState (v : syncState) (x : state) : state :=
  State v (currentIds x) (updatedCount x) (skippedCount x) (errorCount x) (totalCount x)
    (fullInventoryMode x) (checkpointCount x) (lastCheckpointAt x) (saved x) (settled x).
Definition set_currentIds (v : gset string) (x : state) : state :=
  State (nextState x) v (updatedCount x) (skippedCount x) (errorCount x) (totalCount x)
    (fullInventoryMode x) (checkpointCount x) (lastCheckpointAt x) (saved x) (settled x).
Definition set_updatedCount (v : Z) (x : state) : state :=
  State (nextState x) (currentIds x) v (skippedCount x) (errorCount x) (totalCount x)
    (fullInventoryMode x) (checkpointCount x) (lastCheckpointAt x) (saved x) (settled x).
Definition set_skippedCount (v : Z) (x : state) : state :=
  State (nextState x) (currentIds x) (updatedCount x) v (errorCount x) (totalCount x)
    (fullInventoryMode x) (checkpointCount x) (lastCheckpointAt x) (saved x) (settled x).
Definition set_errorCount (v : Z) (x : state) : state :=
  State (nextState x) (currentIds x) (updatedCount x) (skippedCount x) v (totalCount x)
    (fullInventoryMode x) (checkpointCount x) (lastCheckpointAt x) (saved x) (settled x).
Definition set_totalCount (v : Z) (x : state) : state :=
  State (nextState x) (currentIds x) (updatedCount x) (skippedCount x) (errorCount x) v
    (fullInventoryMode x) (checkpointCount x) (lastCheckpointAt x) (saved x) (settled x).
Definition set_fullInventoryMode (v : bool) (x : state) : state :=
  State (nextState x) (currentIds x) (updatedCount x) (skippedCount x) (errorCount x)
    (totalCount x) v (checkpointCount x) (lastCheckpointAt x) (saved x) (settled x).
Definition set_checkpointCount (v : Z) (x : state) : state :=
  State (nextState x) (currentIds x) (updatedCount x) (skippedCount x) (errorCount x)
    (totalCount x) (fullInventoryMode x) v (lastCheckpointAt x) (saved x) (settled x).
Definition set_lastCheckpointAt (v : Z) (x : state) : state :=
  State (nextState x) (currentIds x) (updatedCount x) (skippedCount x) (errorCount x)
    (totalCount x) (fullInventoryMode x) (checkpointCount x) v (saved x) (settled x).
Definition set_saved (v : list syncState) (x : state) : state :=
  State (nextState x) (currentIds x) (updatedCount x) (skippedCount x) (errorCount x)
    (totalCount x) (fullInventoryMode x) (checkpointCount x) (lastCheckpointAt x) v
    (settled x).
Definition set_settled (v : settlement) (x : state) : state :=
  State (nextState x) (currentIds x) (updatedCount x) (skippedCount x) (errorCount x)
    (totalCount x) (fullInventoryMode x) (checkpointCount x) (lastCheckpointAt x)
    (saved x) v.

Definition update_nextState (f : syncState -> syncState) (b : state) : state :=
  set_nextState (f (nextState b)) b.

Definition setSyncState (b : state) : state := set_saved (nextState b :: saved b) b.

Definition maybeCheckpoint (now : Z) (force : bool) (b : state) : state :=
  if negb force
     && bool_decide (checkpointCount b < CHECKPOINT_MIN_MESSAGES)
     && bool_decide (now - lastCheckpointAt b < CHECKPOINT_MIN_MS)
  then b
  else setSyncState (set_lastCheckpointAt now (set_checkpointCount 0 b)).

Definition bumpCheckpoint (now : Z) (b : state) : state :=
  maybeCheckpoint now false (set_checkpointCount (checkpointCount b + 1) b).

(** The part shared by the conversation and conversation-skip branches. *)
Definition recordItem (now : Z) (st : runStatus) (id ttl : string)
    (createTime messageTime : Z) (b : state) : state :=
  let existingTime := default 0 (conversations (nextState b) !! id) in
  let nextTime := Z.max existingTime messageTime in
  let b := set_currentIds ({[id]} ∪ currentIds b) b in
  update_nextState
    (fun s =>
       set_lastRun (<[id := RunRecord st nextTime (nowIso now) None]> (lastRun s))
         (set_meta (<[id := MetaEntry (str_or ttl EmptyString) (num_or createTime 0) nextTime]>
                      (meta s))
            (set_conversations (<[id := nextTime]> (conversations s)) s)))
    b.

(** The pruning of the three dictionaries to the ids seen in the run. *)
Definition prune {A} (ids : gset string) (m : gmap string A) : gmap string A :=
  filter (fun kv => kv.1 ∈ ids) m.

(** [port.onMessage], one message at a time. *)
Definition onMessage (now : Z) (msg : message) (b : state) : state :=
  match msg with
  | MsgSyncProgress _ tot cursor =>
      let b := set_totalCount (num_or tot (totalCount b)) b in
      match cursor with
      | Some (off, lim) =>
          if fullInventoryMode b then
            let cur := InventoryCursor (num_or off 0)
                         (if decide (lim = 0) then None else Some lim)
                         (Some (nowIso now)) in
            bumpCheckpoint now
              (update_nextState
                 (fun s => set_inventoryInProgress true (set_ss_inventoryCursor (Some cur) s))
                 b)
          else b
      | None => b
      end
  | MsgConversation id ttl createTime updateTime =>
      let b := recordItem now StatusUpdated id ttl createTime updateTime b in
      bumpCheckpoint now (set_updatedCount (updatedCount b + 1) b)
  | MsgConversationSkip id ttl createTime updateTime =>
      let b := recordItem now StatusUnchanged id ttl createTime updateTime b in
      bumpCheckpoint now (set_skippedCount (skippedCount b + 1) b)
  | MsgConversationError id err =>
      let b :=
        if decide (id = EmptyString) then b
        else
          update_nextState
            (fun s =>
               set_lastRun
                 (<[id := RunRecord StatusError
                            (num_or (default 0 (conversations s !! id)) 0)
                            (nowIso now)
                            (Some (str_or err "Unknown error"))]> (lastRun s)) s)
            (set_currentIds ({[id]} ∪ currentIds b) b) in
      bumpCheckpoint now (set_errorCount (errorCount b + 1) b)
  | MsgSyncMode full resumeOffset lim =>
      let b := set_fullInventoryMode full b in
      let b :=
        if full then
          let cur := InventoryCursor (num_or resumeOffset 0)
                       (if decide (lim = 0) then None else Some lim)
                       (Some (nowIso now)) in
          update_nextState
            (fun s => set_inventoryInProgress true (set_ss_inventoryCursor (Some cur) s)) b
        else
          update_nextState
            (fun s => set_inventoryInProgress false (set_ss_inventoryCursor None s)) b in
      maybeCheckpoint now true b
  | MsgSyncComplete tot updated skipped errors full inventoryCount =>
      let b := set_totalCount (num_or tot (totalCount b)) b in
      let b := set_totalCount inventoryCount b in
      let b := set_skippedCount skipped (set_updatedCount updated (set_errorCount errors b)) in
      let b :=
        if full then
          update_nextState
            (fun s =>
               set_inventoryInProgress false
                 (set_ss_inventoryCursor None
                    (set_lastFullInventoryAt (Some (nowIso now))
                       (set_lastRun (prune (currentIds b) (lastRun s))
                          (set_meta (prune (currentIds b) (meta s))
                             (set_conversations (prune (currentIds b) (conversations s))
                                s))))))
            b
        else if fullInventoryMode b then
          update_nextState (set_inventoryInProgress true) b
        else
          update_nextState
            (fun s => set_inventoryInProgress false (set_ss_inventoryCursor None s)) b in
      set_settled Resolved (setSyncState b)
  | MsgSyncError err =>
      set_settled (Rejected (str_or err "Sync error")) b
  end.

(** The listener once the port may have been disconnected: nothing is
    delivered after the run has settled. *)
Definition receive (now : Z) (msg : message) (b : state) : state :=
  match settled b with
  | Pending => onMessage now msg b
  | _ => b
  end.

(** Delivery of the posted messages in order; [clock k] is the time at which
    message number [k] of the run is handled. *)
Fixpoint deliver (clock : nat -> Z) (k : nat) (msgs : list message) (b : state) : state :=
  match msgs with
  | [] => b
  | msg :: rest => deliver clock (S k) rest (receive (clock k) msg b)
  end.

(** The listener state when the port is opened at time [now]. *)
Definition start (now : Z) (s : syncState) : state :=
  State s ∅ 0 0 0 0 false 0 now [] Pending.

(** The timer armed when the port is opened: five minutes later it
    disconnects the port and rejects the promise, unless sync-complete or
    sync-error has cleared it. *)
Definition SYNC_TIMEOUT_MS : Z := 5 * 60 * 1000.

(** The content script has no disconnect handler and [safePost] swallows the
    failure of a post, so it goes on after the timer; [heard] keeps the
    messages that are handled before the deadline.  The timer is taken to
    fire as soon as it is due, and nothing is handled after it. *)
Fixpoint heard (clock : nat -> Z) (deadline : Z) (k : nat) (msgs : list message)
    : list message :=
  match msgs with
  | [] => []
  | msg :: rest =>
      if decide (clock k < deadline) then msg :: heard clock deadline (S k) rest else []
  end.

(** The timer itself: a promise still pending is rejected; nothing is saved,
    the disconnect being the listener's own. *)
Definition timeout (b : state) : state :=
  match settled b with
  | Pending => set_settled (Rejected "Sync timed out") b
  | _ => b
  end.

(** What storage holds: the last state handed to [setSyncState], if any. *)
Definition persisted (s : syncState) (b : state) : syncState :=
  match saved b with
  | latest :: _ => latest
  | [] => s
  end.

End Background.

(** ** A whole run: both scripts and what they persist *)

Record world : Type := World {
  storage : syncState;
  indexFile : option (list item)
}.

Record circumstances : Type := Circumstances {
  the_env : Content.env;
  the_options : options;
  contentNow : Z;                 (* [Date.now()] when the mode is decided *)
  schedule : list (list nat);     (* order in which the fetches settle *)
  portOpened : Z;                 (* [Date.now()] when the port is opened *)
  clock : nat -> Z                (* arrival times of the messages *)
}.

Record report : Type := Report {
  contentOutcome : Content.outcome;
  listener : Background.state;
  after : world
}.

Definition contentStart (X : circumstances) (w : world) : Content.captured * Content.state :=
  let s := storage w in
  Content.startRun (the_env X) (contentNow X) (indexFile w) (the_options X)
                   (conversations s) (meta s) (lastFullInventoryAt s) (ss_inventoryCursor s).

Definition contentRun (X : circumstances) (w : world) : Content.outcome :=
  let s := storage w in
  Content.runSync (the_env X) (contentNow X) (indexFile w) (schedule X) (the_options X)
                  (conversations s) (meta s) (lastFullInventoryAt s) (ss_inventoryCursor s).

Definition posted (out : Content.outcome) : list message :=
  match out with
  | Content.Completed c _ => Content.outbox c
  | Content.Failed c => Content.outbox c
  end.

(** One run of both scripts.  The content script runs to its end whatever
    the service worker does; the listener handles the messages that arrive
    before its timer is due, and storage holds the last state it saved. *)
Definition syncOnce (X : circumstances) (w : world) : report :=
  let out := contentRun X w in
  let b := Background.timeout
             (Background.deliver (clock X) 0
                (Background.heard (clock X) (portOpened X + Background.SYNC_TIMEOUT_MS) 0
                   (posted out))
                (Background.start (portOpened X) (storage w))) in
  let file :=
    match out with
    | Content.Completed _ index => Some index
    | Content.Failed _ => indexFile w
    end in
  Report out b (World (Background.persisted (storage w) b) file).

(** ** Concrete runs *)

Module Scenario.

(** A remote that serves the slice [offset, offset + limit) of [all]. *)
Definition listingOf (all : list item) (offset limit : Z) : string + rawPage :=
  inr (RawPage (take (Z.to_nat limit) (drop (Z.to_nat offset) all))
               (Some (Z.of_nat (length all))) None).

Definition convA : item := Item "A" "first" (RNum 10) (RNum 100).
Definition convB : item := Item "B" "second" (RNum 20) (RNum 200).

Definition bodyOf (id : string) : conversation :=
  Conversation "body" (RNum 10) (RNum 150).

Definition folder (fetch : string -> string + conversation) : Content.env :=
  Content.Env (listingOf [convB; convA]) fetch (fun _ _ => None) (fun _ => false) None.

Definition healthy : Content.env := folder (fun id => inr (bodyOf id)).
Definition failing : Content.env := folder (fun id => inl "Request failed: 500").

Definition keep : options := Options false true true 3.
Definition purge : options := Options true true true 3.

Definition day : Z := 24 * 60 * 60 * 1000.

Definition at_ (E : Content.env) (opts : options) (now : Z) : circumstances :=
  Circumstances E opts now [] now (fun k => now + 1 + Z.of_nat k).

(** The same, with two minutes between the messages: the fourth message
    comes after the timer of the service worker. *)
Definition slow (E : Content.env) (opts : options) (now : Z) : circumstances :=
  Circumstances E opts now [] now (fun k => now + 1 + 120000 * Z.of_nat k).

Definition entry (t : Z) : metaEntry := MetaEntry "old" 5 t.

(** The update times of the records of [folder]. *)
Definition recordTime (id : string) : Z := if String.eqb id "A" then 100 else 200.

(** Three known conversations, the last full inventory never recorded. *)
Definition threeKnown : world :=
  World (SyncState {["A" := 100; "B" := 200; "C" := 50]}
                   {["A" := entry 100; "B" := entry 200; "C" := entry 50]}
                   ∅ None None false)
        None.

(** One known conversation, a full inventory one hour ago, no index.json. *)
Definition oneKnown : world :=
  World (SyncState {["A" := 100]} {["A" := entry 100]} ∅ (Some (Iso (day - 3600000)))
                   None false)
        None.

(** An interrupted full inventory with a cursor at offset 300. *)
Definition cursorAt (updatedAt : Z) : inventoryCursor :=
  InventoryCursor 300 (Some 100) (Some (Iso updatedAt)).

(** A remote whose first page holds one item without timestamps and
    announces more, and whose second page holds conversation A. *)
Definition untimed : item := Item "X" "draft" ROther ROther.

Definition twoPages (offset limit : Z) : string + rawPage :=
  if decide (offset = 0) then inr (RawPage [untimed] None (Some true))
  else if decide (offset = 1) then inr (RawPage [convA] None (Some false))
  else inr (RawPage [] None (Some false)).

Definition twoPageFolder : Content.env :=
  Content.Env twoPages (fun id => inr (bodyOf id)) (fun _ _ => None) (fun _ => false) None.

(** A remote with two pages, B and A on the first and D on the second, and
    a run in which nothing is known and the fetch of D settles before those
    of B and A. *)
Definition convD : item := Item "D" "third" (RNum 30) (RNum 300).

Definition pagesOfTwo (offset limit : Z) : string + rawPage :=
  if decide (offset = 0) then inr (RawPage [convB; convA] None (Some true))
  else if decide (offset = 2) then inr (RawPage [convD] None (Some false))
  else inr (RawPage [] None (Some false)).

Definition pagedFolder : Content.env :=
  Content.Env pagesOfTwo (fun id => inr (bodyOf id)) (fun _ _ => None) (fun _ => false) None.

Definition fresh : world := World (SyncState ∅ ∅ ∅ None None false) None.

Definition lastFirst : circumstances :=
  Circumstances pagedFolder keep day [[]; [2%nat]] day
                (fun k => day + 1 + 20000 * Z.of_nat k).

(** An index.json with one entry, newer than what is stored for its id. *)
Definition snapshot : list item := [Item "A" "indexed" (RNum 10) (RNum 150)].

Definition snapshotState : Content.knownState :=
  Content.KnownState {["A" := 150]} {["A" := MetaEntry "indexed" 10 150]}.

(** Nothing known, and the cursor of an interrupted inventory, five
    milliseconds old, beyond the end of the remote list. *)
Definition interrupted : world :=
  World (SyncState ∅ ∅ ∅ None (Some (cursorAt (day - 5))) true) None.

End Scenario.

(** ** Vocabulary of the statements *)

(** A cursor whose [updatedAt] is an ISO timestamp, as [nowIso] writes it. *)
Definition stamped (c : inventoryCursor) : Prop :=
  exists t, cur_updatedAt c = Some (Iso t).

(** The cursor was written at most 24 hours before [now]. *)
Definition withinWindow (now : Z) (c : inventoryCursor) : bool :=
  match cur_updatedAt c with
  | Some (Iso t) => bool_decide (now - t <= 24 * 60 * 60 * 1000)
  | _ => false
  end.

(** The cursor carries a readable timestamp more than 24 hours before
    [now]. *)
Definition expired (now : Z) (c : inventoryCursor) : bool :=
  match cur_updatedAt c with
  | Some (Iso t) => bool_decide (24 * 60 * 60 * 1000 < now - t)
  | _ => false
  end.

(** C7 as the specification words it: the listing starts at the offset of
    the cursor exactly when the run is a full inventory, a cursor exists and
    its timestamp is within the 24 hour window, and at 0 in every other
    case. *)
Definition resumeAsSpecified (E : Content.env) (now : Z) (file : option (list item))
    (opts : options) (kc : gmap string Z) (km : gmap string metaEntry)
    (lastFull : option isoString) (cursor : option inventoryCursor) : Prop :=
  let start := Content.startRun E now file opts kc km lastFull cursor in
  Content.offset start.2
  = match cursor with
    | Some c =>
        if Content.forceFullInventory start.1 && withinWindow now c then cur_offset c else 0
    | None => 0
    end.

(** The watermark of an id, [0] when the id is not known. *)
Definition watermark (known : gmap string Z) (id : string) : Z :=
  default 0 (known !! id).

(** Every stored watermark survives and does not decrease. *)
Definition grows (s s' : syncState) : Prop :=
  forall id v, conversations s !! id = Some v ->
    exists v', conversations s' !! id = Some v' /\ v <= v'.

(** No watermark that is still stored has decreased. *)
Definition notBackward (s s' : syncState) : Prop :=
  forall id v v', conversations s !! id = Some v -> conversations s' !! id = Some v' ->
    v <= v'.

(** A message that reports a completed full inventory. *)
Definition reportsFullInventory (msg : message) : bool :=
  match msg with
  | MsgSyncComplete _ _ _ _ full _ => full
  | _ => false
  end.

(** The two states agree on what only the listing loop and the removal pass
    write: the control variables of the listing and the deletion log. *)
Definition sameControl (c c' : Content.state) : Prop :=
  Content.didFullInventory c' = Content.didFullInventory c
  /\ Content.listedCount c' = Content.listedCount c
  /\ Content.totalHint c' = Content.totalHint c
  /\ Content.offset c' = Content.offset c
  /\ Content.limit c' = Content.limit c
  /\ Content.pageCount c' = Content.pageCount c
  /\ Content.listComplete c' = Content.listComplete c
  /\ Content.deleted c' = Content.deleted c.

(** Messages that the listing and the workers post: everything except the
    three that open and close a run. *)
Definition ordinary (msg : message) : bool :=
  match msg with
  | MsgSyncProgress _ _ _ | MsgConversation _ _ _ _
  | MsgConversationSkip _ _ _ _ | MsgConversationError _ _ => true
  | _ => false
  end.

(** Only more metadata, more seen ids and more ordinary messages. *)
Definition extends (c c' : Content.state) : Prop :=
  dom (Content.metaMap c) ⊆ dom (Content.metaMap c')
  /\ Content.currentIds c ⊆ Content.currentIds c'
  /\ exists msgs, Content.outbox c' = Content.outbox c ++ msgs
                  /\ Forall (fun m => ordinary m = true) msgs.

(** What the loop of [mergeKnownState] over the index metadata leaves at one
    id, as a function of the two entries it meets there. *)
Definition mergedEntry (id : string) (current snapshot : option metaEntry)
    : option metaEntry :=
  match snapshot with
  | None => current
  | Some e =>
      if decide (id = EmptyString) then current
      else match current with
           | None => Some e
           | Some cur => if decide (update_time cur <= update_time e) then Some e
                         else Some cur
           end
  end.

(** What holds of the control variables at the head of every round of the
    listing loop started in [c0], and when the loop is left by a [break]. *)
Definition loopHead (c0 c : Content.state) : Prop :=
  (Content.pageCount c <= Content.maxPages)%nat
  /\ 0 <= Content.listedCount c
  /\ ((0 < Content.pageCount c)%nat -> 0 < Content.listedCount c)
  /\ Content.deleted c = Content.deleted c0
  /\ (Content.didFullInventory c = true -> Content.didFullInventory c0 = true)
  /\ extends c0 c.

Definition loopEnd (c0 c : Content.state) : Prop :=
  ((Content.maxPages < Content.pageCount c)%nat \/ Content.listedCount c = 0 ->
   Content.didFullInventory c = false)
  /\ Content.deleted c = Content.deleted c0
  /\ (Content.didFullInventory c = true -> Content.didFullInventory c0 = true)
  /\ extends c0 c.

(** The two states agree on everything except the control variables of the
    listing and the page table. *)
Definition sameData (c c' : Content.state) : Prop :=
  Content.metaMap c' = Content.metaMap c
  /\ Content.currentIds c' = Content.currentIds c
  /\ Content.queue c' = Content.queue c
  /\ Content.outbox c' = Content.outbox c
  /\ Content.processed c' = Content.processed c
  /\ Content.updatedCount c' = Content.updatedCount c
  /\ Content.skippedCount c' = Content.skippedCount c
  /\ Content.errorCount c' = Content.errorCount c
  /\ Content.deleted c' = Content.deleted c.

(** The id a message is about, for the three messages that carry one. *)
Definition messageId (msg : message) : option string :=
  match msg with
  | MsgConversation id _ _ _ | MsgConversationSkip id _ _ _
  | MsgConversationError id _ => Some id
  | _ => None
  end.

(** The state a loop exit carries. *)
Definition exitState (x : Content.loopExit) : Content.state :=
  match x with
  | Content.LoopBreak c _ => c
  | Content.LoopThrow c _ => c
  | Content.LoopStuck c => c
  end.

(** The state differs from the earlier one only in the page table, the
    cursor index and a run of progress messages at the end of the outbox. *)
Definition isProgress (msg : message) : bool :=
  match msg with MsgSyncProgress _ _ _ => true | _ => false end.

Definition progressOnly (c c' : Content.state) : Prop :=
  (exists msgs, Content.outbox c' = Content.outbox c ++ msgs
                /\ Forall (fun m => isProgress m = true) msgs)
  /\ Content.metaMap c' = Content.metaMap c
  /\ Content.currentIds c' = Content.currentIds c
  /\ Content.queue c' = Content.queue c
  /\ Content.processed c' = Content.processed c
  /\ Content.updatedCount c' = Content.updatedCount c
  /\ Content.skippedCount c' = Content.skippedCount c
  /\ Content.errorCount c' = Content.errorCount c.

(** The number of conversation-error messages in a list. *)
Definition isErrorPost (msg : message) : bool :=
  match msg with MsgConversationError _ _ => true | _ => false end.

Definition errorPosts (msgs : list message) : Z :=
  Z.of_nat (length (filter (fun m => isErrorPost m = true) msgs)).

(** Bookkeeping of a run that started with the metadata [m0]: every id that
    is posted, queued or added to the metadata has been listed, and every
    error counted so far has been posted. *)
Definition accounted (m0 : gmap string metaEntry) (c : Content.state) : Prop :=
  (forall msg id, msg ∈ Content.outbox c -> messageId msg = Some id ->
                  id ∈ Content.currentIds c)
  /\ (forall pl, pl ∈ Content.queue c ->
                 item_id (Content.p_item pl) ∈ Content.currentIds c)
  /\ dom (Content.metaMap c) ⊆ dom m0 ∪ Content.currentIds c
  /\ Content.errorCount c = errorPosts (Content.outbox c).

(** The messages after which the service worker settles the run. *)
Definition closing (msg : message) : bool :=
  match msg with
  | MsgSyncComplete _ _ _ _ _ _ | MsgSyncError _ => true
  | _ => false
  end.

(** The number of ids in a list whose artifacts cannot be deleted. *)
Definition failedDeletions (E : Content.env) (ids : list string) : Z :=
  Z.of_nat (length (filter (fun id => Content.deleteConversation E id = true) ids)).

(** C1 as the specification words it: after a completed full inventory an
    id of the prior known state that the pass did not observe is removed and
    its artifacts deleted when [deleteRemoved] is enabled, and is retained,
    with no deletion attempted, when it is disabled. *)
Definition removalAsSpecified (X : circumstances) (w : world) : Prop :=
  let r := syncOnce X w in
  forall c ix,
    contentOutcome r = Content.Completed c ix ->
    Content.didFullInventory c = true ->
    forall id,
      is_Some (conversations (storage w) !! id) ->
      id ∉ Content.currentIds c ->
      if deleteRemoved (the_options X)
      then conversations (storage (after r)) !! id = None
           /\ meta (storage (after r)) !! id = None
           /\ id ∈ Content.deleted c
      else is_Some (conversations (storage (after r)) !! id)
           /\ is_Some (meta (storage (after r)) !! id)
           /\ id ∉ Content.deleted c.

(** The pages that the listing loop classifies, as a function of what
    controls the listing: the remote, the stopping rule, the start offset
    and limit, and the number of pages already taken. *)
Fixpoint pagesListed (R : Content.captured) (fuel : nat) (offset limit : Z)
    (pageCount : nat) : list page :=
  match fuel with
  | O => []
  | S fuel' =>
      match Content.fetchConversationPage (Content.fetchJson (Content.cap_env R))
                                          offset limit with
      | inl _ => []
      | inr pg =>
          if decide (items pg = []) then []
          else if decide (Content.maxPages < S pageCount)%nat then []
          else pg :: (if Content.shouldContinue R pg (page_limit pg)
                      then pagesListed R fuel' (offset + Z.of_nat (length (items pg)))
                                       (page_limit pg) (S pageCount)
                      else [])
      end
  end.

(** The pages of a run that starts in [c0]. *)
Definition listed (R : Content.captured) (c0 : Content.state) : list page :=
  pagesListed R (S Content.maxPages) (Content.offset c0) (Content.limit c0)
              (Content.pageCount c0).

(** The items of a list of pages, in listing order. *)
Definition itemsOf (pages : list page) : list item := pages ≫= items.

(** The minimum of the observed times of the items of a page. *)
Definition pageMinimum (its : list item) : Z :=
  match its with
  | [] => 0
  | it :: rest => foldr (fun i m => Z.min (Content.observedTime i) m)
                        (Content.observedTime it) rest
  end.

(** C4's stopping rule as the specification words it: in a partial pass
    with watermark [W], a listed page whose minimum item update time is at
    most [W] is the last page listed. *)
Definition stopRuleAsSpecified (R : Content.captured) (c0 : Content.state) : Prop :=
  forall W i pg,
    Content.stopAfterTime R = Some W ->
    listed R c0 !! i = Some pg ->
    pageMinimum (items pg) <= W ->
    length (listed R c0) = S i.

(** The ids of a list of items. *)
Definition idsOf (its : list item) : gset string := list_to_set (item_id <$> its).

(** No watermark, read as 0 when absent, has decreased. *)
Definition raises (s s' : syncState) : Prop :=
  forall id, watermark (conversations s) id <= watermark (conversations s') id.

(** What a partial pass keeps true of the metadata it will write to
    index.json, for a remote in which the record [id] has update time
    [T id]: a listed id has metadata at least as new as its record; the
    known watermark [K] of an id is covered by the stored watermark or by
    the metadata; and what is queued is listed, newer than known, and
    carries the time of its record. *)
Definition floorKept (T : string -> Z) (K stored : gmap string Z) (c : Content.state)
    : Prop :=
  (forall id, id ∈ Content.currentIds c ->
              exists e, Content.metaMap c !! id = Some e /\ T id <= update_time e)
  /\ (forall id, watermark K id <= watermark stored id
                 \/ exists e, Content.metaMap c !! id = Some e
                              /\ watermark K id <= update_time e)
  /\ (forall pl, pl ∈ Content.queue c ->
                 Content.observedTime (Content.p_item pl) = T (item_id (Content.p_item pl))
                 /\ item_id (Content.p_item pl) ∈ Content.currentIds c
                 /\ watermark K (item_id (Content.p_item pl))
                    < Content.observedTime (Content.p_item pl)).

(** The state in which a run ends. *)
Definition finalState (out : Content.outcome) : Content.state :=
  match out with
  | Content.Completed c _ => c
  | Content.Failed c => c
  end.

(** A message that is not the outcome of a body fetch. *)
Definition noFetch (msg : message) : bool :=
  match msg with
  | MsgConversation _ _ _ _ | MsgConversationError _ _ => false
  | _ => true
  end.

(** Nothing has been queued, fetched or reported as updated. *)
Definition nothingFetched (c : Content.state) : Prop :=
  Content.queue c = []
  /\ Content.updatedCount c = 0
  /\ Forall (fun m => noFetch m = true) (Content.outbox c).

(** The offset of the cursor that a message carries. *)
Definition cursorOf (msg : message) : option Z :=
  match msg with
  | MsgSyncProgress _ _ (Some (off, _)) => Some off
  | _ => None
  end.

(** The cursor offsets of a list of messages, in the order of the list. *)
Definition cursors (msgs : list message) : list Z := omap cursorOf msgs.

(** The ids of the items that a list of messages reports as skipped,
    fetched or failed, with multiplicity. *)
Definition settledIds (msgs : list message) : list string := omap messageId msgs.

(** The next offset of each page of a listing that starts at [off]. *)
Fixpoint pageEnds (off : Z) (pages : list page) : list Z :=
  match pages with
  | [] => []
  | pg :: rest =>
      let next := off + Z.of_nat (length (items pg)) in
      next :: pageEnds next rest
  end.

(** The offset after the last of [pages]. *)
Definition endOf (off : Z) (pages : list page) : Z :=
  off + Z.of_nat (length (itemsOf pages)).

(** Every cursor message is in listing order and comes after the outcome
    of every item up to its page: a cursor message that [k] cursor messages
    precede carries the next offset of page [k], and the ids of the items of
    pages [0..k] are, with multiplicity, among the ids reported before it. *)
Definition cursorsInOrder (off0 : Z) (pages : list page) (msgs : list message) : Prop :=
  forall pre msg rest off,
    msgs = pre ++ msg :: rest -> cursorOf msg = Some off ->
    pageEnds off0 pages !! length (cursors pre) = Some off
    /\ item_id <$> itemsOf (take (S (length (cursors pre))) pages) ⊆+ settledIds pre.

(** The ids of the payloads of page [j] that are in the pool. *)
Definition pendingIds (j : nat) (q : list Content.payload) : list string :=
  (fun pl => item_id (Content.p_item pl))
    <$> filter (fun pl => Content.p_pageIndex pl = j) q.

(** The ids of the items of page [j] without an outcome: those in the pool
    and, for the page [cur] being classified, those in [rest], which the
    [for] loop has not reached. *)
Definition unsettled (cur : nat) (rest : list item) (q : list Content.payload) (j : nat)
    : list string :=
  pendingIds j q ++ (if decide (j = cur) then item_id <$> rest else []).

(** The entry of [pageStates] for page [j], whose reported ids are [Fj];
    [owed] names the page of an item whose outcome is posted and whose
    [markPageItemDone] is about to run. *)
Definition pageAccount (off0 : Z) (pages : list page) (cur : nat) (rest : list item)
    (owed : option nat) (c : Content.state) (j : nat) (pg : page) (Fj : list string)
    : Prop :=
  exists st,
    Content.pageStates c !! j = Some st
    /\ pageEnds off0 pages !! j = Some (Content.nextOffset st)
    /\ Fj ++ unsettled cur rest (Content.queue c) j ≡ₚ item_id <$> items pg
    /\ if Content.done st
       then unsettled cur rest (Content.queue c) j = [] /\ owed <> Some j
       else Content.remaining st
            = Z.of_nat (length (unsettled cur rest (Content.queue c) j))
              + (if decide (owed = Some j) then 1 else 0)
            /\ 1 <= Content.remaining st
            /\ (Content.nextCursorIndex c <= j)%nat.

(** The bookkeeping of the cursor: [F] holds, page by page, the ids
    reported so far. *)
Record cursorInv (off0 : Z) (pages : list page) (cur : nat) (rest : list item)
    (owed : option nat) (F : list (list string)) (c : Content.state) : Prop := CursorInv {
  ci_length : length F = length pages;
  ci_settled : settledIds (Content.outbox c) ≡ₚ concat F;
  ci_order : cursorsInOrder off0 pages (Content.outbox c);
  ci_index : Content.nextCursorIndex c = length (cursors (Content.outbox c));
  ci_bound : (Content.nextCursorIndex c <= length pages)%nat;
  ci_queue : forall pl, pl ∈ Content.queue c -> (Content.p_pageIndex pl < length pages)%nat;
  ci_none : forall j, (length pages <= j)%nat -> Content.pageStates c !! j = None;
  ci_owed : forall j, owed = Some j -> (j < length pages)%nat;
  ci_page : forall j pg Fj,
      pages !! j = Some pg -> F !! j = Some Fj ->
      pageAccount off0 pages cur rest owed c j pg Fj
}.

(** The same between two steps, when nothing is owed. *)
Definition cursorState (off0 : Z) (pages : list page) (cur : nat) (rest : list item)
    (c : Content.state) : Prop :=
  exists F, cursorInv off0 pages cur rest None F c.

(** The cursor offset in a stored state. *)
Definition cursorOffset (s : syncState) : option Z := cur_offset <$> ss_inventoryCursor s.

(** The cursor offsets of the snapshots handed to storage, oldest first. *)
Definition persistedCursors (b : Background.state) : list Z :=
  omap cursorOffset (reverse (Background.saved b)).

(** What the listener keeps true of the cursor, where [seen] are the cursor
    offsets it has been sent, oldest first: the offsets handed to storage
    are in ascending order and among [seen], and so is the offset that the
    next snapshot will carry. *)
Definition cursorLog (seen : list Z) (b : Background.state) : Prop :=
  StronglySorted Z.le (persistedCursors b)
  /\ (forall x, x ∈ persistedCursors b -> x ∈ seen)
  /\ (forall off, cursorOffset (Background.nextState b) = Some off ->
                  off ∈ seen /\ Forall (fun x => x <= off) (persistedCursors b)).

(** A snapshot whose cursor is the next offset of a page holds a run
    record for every item, with a non-empty id, of the pages up to it. *)
Definition snapshotSafe (off0 : Z) (pages : list page) (s : syncState) : Prop :=
  forall off k it,
    cursorOffset s = Some off -> pageEnds off0 pages !! k = Some off ->
    it ∈ itemsOf (take (S k) pages) -> item_id it <> EmptyString ->
    is_Some (lastRun s !! item_id it).

(** The ids of the items up to the page whose next offset is [off] are among
    the ids reported by [msgs]. *)
Definition covered (off0 : Z) (pages : list page) (msgs : list message) (off : Z) : Prop :=
  forall k it,
    pageEnds off0 pages !! k = Some off -> it ∈ itemsOf (take (S k) pages) ->
    item_id it ∈ settledIds msgs.

(** What the listener keeps true once the messages [msgs] are delivered:
    while the run is open every reported id has a run record and the cursor
    of the state being built is covered; and every snapshot is safe. *)
Definition safeLog (off0 : Z) (pages : list page) (msgs : list message)
    (b : Background.state) : Prop :=
  (Background.settled b = Background.Pending ->
   (forall id, id ∈ settledIds msgs -> id <> EmptyString ->
               is_Some (lastRun (Background.nextState b) !! id))
   /\ (forall off, cursorOffset (Background.nextState b) = Some off ->
                   covered off0 pages msgs off))
  /\ Forall (snapshotSafe off0 pages) (Background.saved b).

(** The condition on which the [while] of [maybeAdvanceCursor] ends, with
    what bounds the page table: every registered page has an index below
    [pageCount], the cursor index is at most [pageCount], and the page at
    the cursor index is not registered or not done. *)
Definition caughtUp (c : Content.state) : Prop :=
  (forall j, (Content.pageCount c <= j)%nat -> Content.pageStates c !! j = None)
  /\ (Content.nextCursorIndex c <= Content.pageCount c)%nat
  /\ match Content.pageStates c !! Content.nextCursorIndex c with
     | Some st => Content.done st = false
     | None => True
     end.

(** The number of messages of one kind in a list. *)
Definition posts (kind : message -> bool) (msgs : list message) : Z :=
  Z.of_nat (length (filter (fun m => kind m = true) msgs)).

Definition isFetchedPost (msg : message) : bool :=
  match msg with MsgConversation _ _ _ _ => true | _ => false end.

Definition isSkipPost (msg : message) : bool :=
  match msg with MsgConversationSkip _ _ _ _ => true | _ => false end.

(** The counters of a run agree with what it has posted. *)
Definition tallied (c : Content.state) : Prop :=
  Content.processed c = Z.of_nat (length (settledIds (Content.outbox c)))
  /\ Content.updatedCount c = posts isFetchedPost (Content.outbox c)
  /\ Content.skippedCount c = posts isSkipPost (Content.outbox c).

(** The cursor of a stored state carries the offset [off] and the arrival
    time of a message of the run. *)
Definition stampedCursor (clock : nat -> Z) (off : Z) (s : syncState) : Prop :=
  exists lim j,
    ss_inventoryCursor s = Some (InventoryCursor off lim (Some (nowIso (clock j)))).

(** Two stored states hold the same watermark, metadata and run record
    for [id]. *)
Definition sameRecords (id : string) (s s' : syncState) : Prop :=
  conversations s !! id = conversations s' !! id
  /\ meta s !! id = meta s' !! id
  /\ lastRun s !! id = lastRun s' !! id.

(** How far storage, which held [s0] when the port was opened, lags behind
    the state that the listener is building: the counter of messages since
    the last save is below the threshold, the two states differ on at most
    that many ids, and they are equal when the counter is zero. *)
Definition checkpointLag (s0 : syncState) (b : Background.state) : Prop :=
  0 <= Background.checkpointCount b < Background.CHECKPOINT_MIN_MESSAGES
  /\ (exists ids,
        Z.of_nat (length ids) <= Background.checkpointCount b
        /\ forall id, id ∉ ids ->
                      sameRecords id (Background.nextState b) (Background.persisted s0 b))
  /\ (Background.checkpointCount b = 0 ->
      Background.persisted s0 b = Background.nextState b).

(** ** The options and their normalisation *)

Module Settings.

(** A value handed to [Number.parseInt(_, 10)]. *)
Inductive intField : Type :=
  | IntNum (z : Z)           (* a number that is an integer, below 1e21 in size *)
  | IntRead (p : option Z).  (* any other value; [p] is what [parseInt] reads in its
                                text, [None] for NaN: undefined, null, no digits *)

Definition parseInt (v : intField) : option Z :=
  match v with
  | IntNum z => Some z
  | IntRead p => p
  end.

(** The options object as it arrives; a flag is [None] when the field is
    missing or is not a boolean. *)
Record rawOptions : Type := RawOptions {
  raw_syncIntervalMinutes : intField;
  raw_maxParallelFetch : intField;
  raw_includeJson : option bool;
  raw_includeMarkdown : option bool;
  raw_deleteRemoved : option bool
}.

(** What [normalizeOptions] returns: the period of the alarm and the
    options that the content script receives. *)
Record settings : Type := MkSettings {
  syncIntervalMinutes : Z;
  engine : options
}.

Definition DEFAULT_OPTIONS : settings := MkSettings 10 (Options false true true 3).

Definition normalizeOptions (o : rawOptions) : settings :=
  let minutes := parseInt (raw_syncIntervalMinutes o) in
  let interval :=
    match minutes with
    | Some m => if decide (0 < m) then m else syncIntervalMinutes DEFAULT_OPTIONS
    | None => syncIntervalMinutes DEFAULT_OPTIONS
    end in
  let parallelRaw := parseInt (raw_maxParallelFetch o) in
  let parallel :=
    match parallelRaw with
    | Some p => Z.min 10 (Z.max 1 p)
    | None => maxParallelFetch (engine DEFAULT_OPTIONS)
    end in
  MkSettings interval
    (Options (bool_decide (raw_deleteRemoved o = Some true))
             (negb (bool_decide (raw_includeMarkdown o = Some false)))
             (negb (bool_decide (raw_includeJson o = Some false)))
             parallel).

(** The normalised object as it is stored and read back. *)
Definition stored (s : settings) : rawOptions :=
  RawOptions (IntNum (syncIntervalMinutes s)) (IntNum (maxParallelFetch (engine s)))
             (Some (includeJson (engine s))) (Some (includeMarkdown (engine s)))
             (Some (deleteRemoved (engine s))).

(** [clampParallelFetch] of the content script. *)
Definition clampParallelFetch (value : intField) : Z :=
  match parseInt value with
  | None => 3
  | Some parsed => Z.min 10 (Z.max 1 parsed)
  end.

End Settings.

(** ** Writing the state to storage *)

Module Storage.

(** [slim] of [setSyncState]: what is written when the whole state is
    refused. *)
Definition slim (state : syncState) : syncState :=
  SyncState (conversations state) ∅ ∅ (lastFullInventoryAt state)
            (ss_inventoryCursor state) (inventoryInProgress state).

(** [setSyncState].  [accepts] tells which values [chrome.storage.local.set]
    takes without throwing; [held] is what the key holds before, and the
    result what it holds afterwards. *)
Definition setSyncState (accepts : syncState -> bool) (held state : syncState)
    : syncState :=
  if accepts state then state
  else if accepts (slim state) then slim state
  else held.

(** The state that the handler of force-full-inventory writes. *)
Definition restarted (current : syncState) : syncState :=
  SyncState (conversations current) (meta current) (lastRun current) None None false.

(** The handler of force-full-inventory, up to the start of the run. *)
Definition onForceFullInventory (accepts : syncState -> bool) (current : syncState)
    : syncState :=
  setSyncState accepts current (restarted current).

End Storage.

(** ** What a run does with each listed item *)

(** The ids of the messages of each kind, in the order of the list. *)
Definition skippedIds (msgs : list message) : list string :=
  omap (fun m => match m with MsgConversationSkip id _ _ _ => Some id | _ => None end) msgs.

Definition fetchedIds (msgs : list message) : list string :=
  omap (fun m => match m with MsgConversation id _ _ _ => Some id | _ => None end) msgs.

Definition failedIds (msgs : list message) : list string :=
  omap (fun m => match m with MsgConversationError id _ => Some id | _ => None end) msgs.

(** The ids of the payloads in the pool. *)
Definition queueIds (c : Content.state) : list string :=
  (fun pl => item_id (Content.p_item pl)) <$> Content.queue c.

(** An item whose observed time is not above the watermark of its id. *)
Definition unchanged (R : Content.captured) (it : item) : Prop :=
  Content.observedTime it <= watermark (Content.knownConversations R) (item_id it).

#[global] Instance unchanged_dec (R : Content.captured) (it : item) :
  Decision (unchanged R it).
Proof. unfold unchanged. apply _. Defined.

(** The ids of the items that are not [unchanged], in the order of the list. *)
Definition changedIds (R : Content.captured) (its : list item) : list string :=
  item_id <$> filter (fun it => ~ unchanged R it) its.

(** The body of [id] is served and its artifacts are written. *)
Definition fetchable (E : Content.env) (id : string) : bool :=
  match Content.fetchConversation E id with
  | inl _ => false
  | inr conv =>
      match Content.writeConversation E id conv with
      | Some _ => false
      | None => true
      end
  end.

(** Where the items [seen] by the [for] loops stand: the unchanged ones are
    reported as skipped, in order; the others are fetched, failed or in the
    pool, according to whether their body can be fetched and written. *)
Definition classified (R : Content.captured) (seen : list item) (c : Content.state) : Prop :=
  skippedIds (Content.outbox c) = item_id <$> filter (unchanged R) seen
  /\ fetchedIds (Content.outbox c)
     ++ filter (fun id => fetchable (Content.cap_env R) id = true) (queueIds c)
     ≡ₚ filter (fun id => fetchable (Content.cap_env R) id = true) (changedIds R seen)
  /\ failedIds (Content.outbox c)
     ++ filter (fun id => fetchable (Content.cap_env R) id = false) (queueIds c)
     ≡ₚ filter (fun id => fetchable (Content.cap_env R) id = false) (changedIds R seen).

(** The status that the listener records for a message about an item. *)
Definition statusOf (msg : message) : option runStatus :=
  match msg with
  | MsgConversation _ _ _ _ => Some StatusUpdated
  | MsgConversationSkip _ _ _ _ => Some StatusUnchanged
  | MsgConversationError _ _ => Some StatusError
  | _ => None
  end.

(** The run record of [id] in [s] has the status [st]. *)
Definition recorded (s : syncState) (id : string) (st : runStatus) : Prop :=
  exists r, lastRun s !! id = Some r /\ status r = st.

(** ** The Markdown export *)

(** A string is its sequence of bytes in UTF-8; the characters that
    [escapeYaml] replaces are single bytes that occur in no longer sequence. *)
Module Markdown.

Definition quote : ascii := "034"%char.
Definition backslash : ascii := "092"%char.
Definition newline : ascii := "010"%char.
Definition space : ascii := "032"%char.

(** The first [replace]: a backslash before every double quote. *)
Fixpoint escapeQuotes (s : string) : string :=
  match s with
  | EmptyString => EmptyString
  | String c rest =>
      if Ascii.eqb c quote
      then String backslash (String quote (escapeQuotes rest))
      else String c (escapeQuotes rest)
  end.

(** The second [replace]: a space for every line feed. *)
Fixpoint flattenLines (s : string) : string :=
  match s with
  | EmptyString => EmptyString
  | String c rest => String (if Ascii.eqb c newline then space else c) (flattenLines rest)
  end.

Definition escapeYaml (value : string) : string := flattenLines (escapeQuotes value).

End Markdown.

(** ** The messages of a conversation *)

Module Transcript.

(** [node.message], as far as [extractMessages] reads it.  [nm_content] is
    [None] when the message has no content, and else the rendered and
    trimmed text. *)
Record nodeMessage : Type := NodeMessage {
  nm_id : string;
  nm_role : string;               (* [author.role], empty when absent *)
  nm_content : option string;
  nm_create_time : Z;
  nm_update_time : Z
}.

(** A node of [conversation.mapping]; [node_parent] is empty when the node
    has no parent. *)
Record node : Type := Node {
  node_parent : string;
  node_message : option nodeMessage
}.

Record extracted : Type := Extracted {
  x_id : string;
  x_role : string;
  x_content : string;
  x_create_time : Z;
  x_update_time : Z
}.

(** The [while (nodeId)] loop; [nodes] is the array being filled and [None]
    the loop still running when [fuel] is used up. *)
Fixpoint collect (mapping : gmap string node) (fuel : nat) (nodeId : string)
    (nodes : list node) : option (list node) :=
  match fuel with
  | O => None
  | S fuel' =>
      if decide (nodeId = EmptyString) then Some nodes
      else match mapping !! nodeId with
           | None => Some nodes
           | Some nd => collect mapping fuel' (node_parent nd) (nodes ++ [nd])
           end
  end.

(** The body of [for (const node of nodes)]. *)
Definition toMessage (nd : node) : option extracted :=
  match node_message nd with
  | None => None
  | Some m =>
      match nm_content m with
      | None => None
      | Some text =>
          if decide (text = EmptyString) then None
          else Some (Extracted (nm_id m) (str_or (nm_role m) "unknown") text
                               (nm_create_time m) (nm_update_time m))
      end
  end.

Definition extractMessages (mapping : gmap string node) (current_node : string)
    (fuel : nat) : option (list extracted) :=
  (fun nodes => omap toMessage (reverse nodes)) <$> collect mapping fuel current_node [].

(** The id reached from [nodeId] by following [k] parent links, when the
    nodes on the way exist. *)
Fixpoint climb (mapping : gmap string node) (k : nat) (nodeId : string) : option string :=
  match k with
  | O => Some nodeId
  | S k' =>
      if decide (nodeId = EmptyString) then None
      else match mapping !! nodeId with
           | None => None
           | Some nd => climb mapping k' (node_parent nd)
           end
  end.

(** The nodes from [nodeId] up to a node without a parent in the mapping. *)
Inductive ancestry (mapping : gmap string node) : string -> list node -> Prop :=
  | ancestry_root nodeId :
      nodeId = EmptyString \/ mapping !! nodeId = None ->
      ancestry mapping nodeId []
  | ancestry_parent nodeId nd path :
      nodeId <> EmptyString -> mapping !! nodeId = Some nd ->
      ancestry mapping (node_parent nd) path ->
      ancestry mapping nodeId (nd :: path).

End Transcript.

(** ** The index of the options page *)

Module OptionsPage.

Record entry : Type := Entry {
  e_id : string;
  e_title : string;
  e_create_time : Z;
  e_update_time : Z;
  e_status : string;
  e_lastSyncAt : option isoString;
  e_lastError : string
}.

Definition statusName (st : runStatus) : string :=
  match st with
  | StatusUpdated => "updated"
  | StatusUnchanged => "unchanged"
  | StatusError => "error"
  end.

(** One round of [for (const id of ids)] in [buildIndexEntries]. *)
Definition buildEntry (s : syncState) (id : string) : entry :=
  let m := meta s !! id in
  let updateTime :=
    num_or (from_option update_time 0 m) (num_or (default 0 (conversations s !! id)) 0) in
  let run := lastRun s !! id in
  Entry id (str_or (from_option title EmptyString m) "(untitled)")
        (num_or (from_option create_time 0 m) 0) updateTime
        (from_option (fun r => statusName (status r)) "unknown" run)
        (rr_at <$> run) (default EmptyString (run ≫= rr_error)).

(** [buildIndexEntries]: one entry for each key of [meta] and of
    [conversations].  The array follows the key order of the two objects,
    which the maps do not record. *)
Definition buildIndexEntries (s : syncState) : list entry :=
  buildEntry s <$> elements (dom (meta s) ∪ dom (conversations s)).

(** The [reduce] of [updateIndexMeta] and the counts it prints. *)
Definition countStep (acc : gmap string Z) (e : entry) : gmap string Z :=
  let key := str_or (e_status e) "unknown" in
  <[key := num_or (default 0 (acc !! key)) 0 + 1]> acc.

Definition statusCounts (entries : list entry) : gmap string Z :=
  foldl countStep ∅ entries.

Definition shownCount (counts : gmap string Z) (key : string) : Z :=
  num_or (default 0 (counts !! key)) 0.

(** The status filter of [applyIndexFilters]. *)
Definition filterByStatus (statusValue : string) (entries : list entry) : list entry :=
  if decide (statusValue = "all") then entries
  else filter (fun e => str_or (e_status e) "unknown" = statusValue) entries.

End OptionsPage.

(** ** A remote that lists newest first *)

(** The remote answers every request with the slice of [all] that starts at
    the offset and has the length of the limit, and tells how long [all]
    is. *)
Definition serves (E : Content.env) (all : list item) : Prop :=
  forall offset limit,
    Content.fetchJson E offset limit
    = inr (RawPage (take (Z.to_nat limit) (drop (Z.to_nat offset) all))
                   (Some (Z.of_nat (length all))) None).

(** The list is in the order of the request, newest first. *)
Definition newestFirst (all : list item) : Prop :=
  StronglySorted (fun a b => Content.observedTime b <= Content.observedTime a) all.

(** An item that the stopping rule of the run may not leave out: in a
    partial pass, one that is newer than every known watermark. *)
Definition wanted (R : Content.captured) (it : item) : Prop :=
  match Content.stopAfterTime R with
  | Some W => W < Content.observedTime it
  | None => True
  end.

(** Every id seen by the listing has metadata. *)
Definition seenHaveMeta (c : Content.state) : Prop :=
  Content.currentIds c ⊆ dom (Content.metaMap c).

(** The messages of the run are all handled before the timer of the
    service worker is due. *)
Definition inTime (X : circumstances) (w : world) : Prop :=
  forall k, (k < length (posted (contentRun X w)))%nat ->
    clock X k < portOpened X + Background.SYNC_TIMEOUT_MS.

(** The id and the time of a message about a skipped or fetched
    conversation. *)
Definition timeOf (msg : message) : option (string * Z) :=
  match msg with
  | MsgConversation id _ _ t | MsgConversationSkip id _ _ t => Some (id, t)
  | _ => None
  end.

(** The time that such a message carries is at least the time [T] of its
    id. *)
Definition carries (T : string -> Z) (msg : message) : Prop :=
  match timeOf msg with
  | Some (id, t) => T id <= t
  | None => True
  end.

(** [floorKept], and every message posted so far carries at least the time
    of its id. *)
Definition carried (T : string -> Z) (K stored : gmap string Z) (c : Content.state)
    : Prop :=
  floorKept T K stored c /\ Forall (carries T) (Content.outbox c).

(** The reason that C9 gives, as the specification words it: a completed
    partial pass has raised the stored watermark of every id it listed to at
    least the listed update time. *)
Definition raisedAsSpecified (X : circumstances) (w : world) : Prop :=
  forall c ix,
    contentRun X w = Content.Completed c ix ->
    Content.forceFullInventory (contentStart X w).1 = false ->
    forall it,
      it ∈ itemsOf (listed (contentStart X w).1 (contentStart X w).2) ->
      Content.observedTime it
      <= watermark (conversations (storage (after (syncOnce X w)))) (item_id it).

(** * Properties *)

Arguments Content.fetchConversationPage : simpl never.
Arguments Content.countPage : simpl never.
Arguments Content.registerPage : simpl never.
Arguments Content.classifyPage : simpl never.
Arguments Content.classifyItem : simpl never.
Arguments Content.processItem : simpl never.
Arguments Content.workerStep : simpl never.
Arguments Content.runWorkers : simpl never.
Arguments Content.drainQueue : simpl never.
Arguments Content.settleAll : simpl never.
Arguments Content.markPageItemDone : simpl never.
Arguments Content.maybeAdvanceCursor : simpl never.
Arguments Content.removalPass : simpl never.
Arguments Content.shouldContinue : simpl never.
Arguments Content.stopForTime : simpl never.
Arguments Content.getMaxKnownUpdateTime : simpl never.
Arguments Content.shouldForceFullInventory : simpl never.
Arguments Content.getResumeOffset : simpl never.
Arguments Content.mergeKnownState : simpl never.
Arguments Content.readIndex : simpl never.
Arguments Content.writeIndex : simpl never.
Arguments contentStart : simpl never.
Arguments pagesListed : simpl never.
Arguments listed : simpl never.
Arguments Background.maybeCheckpoint : simpl never.
Arguments Background.bumpCheckpoint : simpl never.
Arguments Background.recordItem : simpl never.
Arguments Background.prune : simpl never.

(** ** The timer of the service worker *)

Section Timer.

Import Background.

Lemma heard_prefix (clock : nat -> Z) (deadline : Z) (msgs : list message) :
  forall k, heard clock deadline k msgs `prefix_of` msgs.
Proof.
  induction msgs as [| msg rest IH]; intros k; cbn [heard]; [done |].
  case_decide; [| apply prefix_nil]. apply prefix_cons, IH.
Qed.

Lemma heard_all (clock : nat -> Z) (deadline : Z) (msgs : list message) :
  forall k,
    (forall j, (j < length msgs)%nat -> clock (k + j)%nat < deadline) ->
    heard clock deadline k msgs = msgs.
Proof.
  induction msgs as [| msg rest IH]; intros k Hk; cbn [heard]; [done |].
  rewrite decide_True.
  - f_equal. apply IH. intros j Hj.
    replace (S k + j)%nat with (k + S j)%nat by lia. apply Hk. cbn [length]. lia.
  - specialize (Hk 0%nat). rewrite Nat.add_0_r in Hk. apply Hk. cbn [length]. lia.
Qed.

Lemma heard_late (clock : nat -> Z) (deadline : Z) (msgs : list message) :
  forall k j,
    deadline <= clock (k + j)%nat ->
    heard clock deadline k msgs `prefix_of` take j msgs.
Proof.
  induction msgs as [| msg rest IH]; intros k j Hlate; cbn [heard].
  { apply prefix_nil. }
  case_decide as Hk; [| apply prefix_nil].
  destruct j as [| j]; [rewrite Nat.add_0_r in Hlate; lia |].
  cbn [take]. apply prefix_cons, IH.
  by replace (S k + j)%nat with (k + S j)%nat by lia.
Qed.

Lemma timeout_fields (b : state) :
  nextState (timeout b) = nextState b
  /\ saved (timeout b) = saved b
  /\ currentIds (timeout b) = currentIds b
  /\ fullInventoryMode (timeout b) = fullInventoryMode b
  /\ checkpointCount (timeout b) = checkpointCount b.
Proof. unfold timeout. by destruct (settled b). Qed.

Lemma timeout_persisted (s : syncState) (b : state) :
  persisted s (timeout b) = persisted s b.
Proof. unfold persisted. by destruct (timeout_fields b) as (_ & -> & _). Qed.

Lemma Forall_prefix {A} (P : A -> Prop) (l1 l2 : list A) :
  l1 `prefix_of` l2 -> Forall P l2 -> Forall P l1.
Proof. intros [rest ->] H. by apply Forall_app in H as [H _]. Qed.

Lemma Exists_prefix {A} (P : A -> Prop) (l1 l2 : list A) :
  l1 `prefix_of` l2 -> Exists P l1 -> Exists P l2.
Proof. intros [rest ->] H. apply Exists_app. by left. Qed.

(** What the listener of a run has heard is a prefix of what was posted. *)
Lemma syncOnce_heard (X : circumstances) (w : world) :
  exists msgs,
    msgs `prefix_of` posted (contentRun X w)
    /\ listener (syncOnce X w)
       = timeout (deliver (clock X) 0 msgs (start (portOpened X) (storage w)))
    /\ storage (after (syncOnce X w))
       = persisted (storage w) (deliver (clock X) 0 msgs (start (portOpened X) (storage w))).
Proof.
  exists (heard (clock X) (portOpened X + SYNC_TIMEOUT_MS) 0 (posted (contentRun X w))).
  split; [apply heard_prefix |]. split; [done |].
  cbn [after syncOnce storage]. apply timeout_persisted.
Qed.

(** In time, the listener hears every message. *)
Lemma syncOnce_inTime (X : circumstances) (w : world) :
  inTime X w ->
  listener (syncOnce X w)
  = timeout (deliver (clock X) 0 (posted (contentRun X w))
               (start (portOpened X) (storage w)))
  /\ storage (after (syncOnce X w))
     = persisted (storage w)
         (deliver (clock X) 0 (posted (contentRun X w)) (start (portOpened X) (storage w))).
Proof.
  intros Hin.
  assert (heard (clock X) (portOpened X + SYNC_TIMEOUT_MS) 0 (posted (contentRun X w))
          = posted (contentRun X w)) as Hall by (apply heard_all; intros j Hj; by apply Hin).
  split.
  - cbn [listener syncOnce]. by rewrite Hall.
  - cbn [after syncOnce storage]. by rewrite Hall, timeout_persisted.
Qed.

(** Either the timer is due before the first message is handled, and the
    stored state is left as it was, or the first message is handled and then
    a prefix of the others. *)
Lemma syncOnce_first (X : circumstances) (w : world) (m : message) (more : list message) :
  posted (contentRun X w) = m :: more ->
  (portOpened X + SYNC_TIMEOUT_MS <= clock X 0%nat
   /\ saved (listener (syncOnce X w)) = []
   /\ storage (after (syncOnce X w)) = storage w)
  \/ (clock X 0%nat < portOpened X + SYNC_TIMEOUT_MS
      /\ exists h,
          h `prefix_of` more
          /\ listener (syncOnce X w)
             = timeout (deliver (clock X) 1 h
                          (receive (clock X 0%nat) m (start (portOpened X) (storage w))))
          /\ storage (after (syncOnce X w))
             = persisted (storage w)
                 (deliver (clock X) 1 h
                    (receive (clock X 0%nat) m (start (portOpened X) (storage w))))).
Proof.
  intros Hposted.
  destruct (decide (clock X 0%nat < portOpened X + SYNC_TIMEOUT_MS)) as [Hin | Hlate].
  - right. split; [done |].
    exists (heard (clock X) (portOpened X + SYNC_TIMEOUT_MS) 1 more).
    split; [apply heard_prefix |].
    cbn [listener after syncOnce storage]. rewrite Hposted. cbn [heard].
    rewrite decide_True by done. cbn [deliver]. split; [done | apply timeout_persisted].
  - left. split; [lia |].
    cbn [listener after syncOnce storage]. rewrite Hposted. cbn [heard].
    rewrite decide_False by done. by cbn.
Qed.

(** Out of time, the listener has heard only messages posted before the
    late one. *)
Lemma syncOnce_late (X : circumstances) (w : world) (j : nat) :
  portOpened X + SYNC_TIMEOUT_MS <= clock X j ->
  exists msgs,
    msgs `prefix_of` take j (posted (contentRun X w))
    /\ storage (after (syncOnce X w))
       = persisted (storage w) (deliver (clock X) 0 msgs (start (portOpened X) (storage w))).
Proof.
  intros Hlate.
  exists (heard (clock X) (portOpened X + SYNC_TIMEOUT_MS) 0 (posted (contentRun X w))).
  split; [by apply heard_late |].
  cbn [after syncOnce storage]. apply timeout_persisted.
Qed.

(** The messages of [Scenario.at_] arrive one millisecond apart: a run
    that posts at most a thousand of them is in time. *)
Lemma at_inTime (E : Content.env) (opts : options) (now : Z) (w : world) :
  (length (posted (contentRun (Scenario.at_ E opts now) w)) <=? 1000)%nat = true ->
  inTime (Scenario.at_ E opts now) w.
Proof.
  intros Hlen%Nat.leb_le k Hk. unfold SYNC_TIMEOUT_MS. cbn [clock portOpened Scenario.at_].
  lia.
Qed.

End Timer.

(** ** Mode selection *)

Section ModeSelector.

Import Content.

(** C6.  The mode decision is a full inventory exactly when the known
    state is empty, or deletion of removed records is enabled, or the last
    full inventory is absent or unparseable, or more than 24 hours have
    passed since it; otherwise the pass is partial. *)
Theorem shouldForceFullInventory_rules (now : Z) (opts : options)
    (known : gmap string Z) (lastFull : option isoString) :
  shouldForceFullInventory now opts known lastFull = true <->
    known = ∅
    \/ deleteRemoved opts = true
    \/ lastFull = None
    \/ (exists s, lastFull = Some s /\ Date_parse s = None)
    \/ (exists s ms, lastFull = Some s /\ Date_parse s = Some ms
                     /\ 24 * 60 * 60 * 1000 < now - ms).
Proof.
  unfold shouldForceFullInventory, MAX_PARTIAL_AGE_MS.
  destruct (decide (size known = 0%nat)) as [Hz | Hnz].
  { split; [intros _; left; by apply map_size_empty_iff | done]. }
  assert (known <> ∅) as Hne by (by rewrite <- map_size_empty_iff).
  destruct (deleteRemoved opts) eqn:Hdel.
  { split; [intros _; right; by left | done]. }
  destruct lastFull as [s |].
  2: { split; [intros _; do 2 right; by left | done]. }
  destruct (Date_parse s) as [ms |] eqn:Hparse.
  - rewrite bool_decide_eq_true. split.
    + intros Hold. do 4 right. by exists s, ms.
    + intros [? | [? | [? | [(s' & Hs & Hp) | (s' & ms' & Hs & Hp & Hold)]]]];
        try done; simplify_eq; done.
  - split; [intros _; do 3 right; left; by exists s | done].
Qed.

End ModeSelector.

Section ResumeOffset.

Import Content.

Lemma getResumeOffset_stamped (now : Z) (c : inventoryCursor) :
  stamped c ->
  getResumeOffset now (Some c) = if withinWindow now c then cur_offset c else 0.
Proof.
  intros [t Ht]. unfold getResumeOffset, withinWindow, MAX_PARTIAL_AGE_MS.
  rewrite Ht. simpl. case_decide; case_bool_decide; (done || lia).
Qed.

(** What [getResumeOffset] does with a cursor that carries no readable
    timestamp: it resumes at the cursor. *)
Lemma getResumeOffset_unstamped (now : Z) (c : inventoryCursor) :
  cur_updatedAt c = None \/ cur_updatedAt c = Some NotIso ->
  getResumeOffset now (Some c) = cur_offset c.
Proof. unfold getResumeOffset. by intros [-> | ->]. Qed.

Lemma getResumeOffset_expired (now : Z) (c : inventoryCursor) :
  getResumeOffset now (Some c) = if expired now c then 0 else cur_offset c.
Proof.
  unfold getResumeOffset, expired, MAX_PARTIAL_AGE_MS.
  destruct (cur_updatedAt c) as [[t |] |]; simpl; [| done | done].
  case_decide; case_bool_decide; (done || lia).
Qed.



End ResumeOffset.

(** ** The merge of the stored state with index.json *)

Section IndexMerge.

Import Content.

Lemma num_or_zero (a : Z) : num_or a 0 = a.
Proof. unfold num_or. by case_decide. Qed.

Lemma mergeConversations_lookup (kc ixc : gmap string Z) (id : string) :
  map_fold mergeConversationsStep kc ixc !! id =
    match ixc !! id with
    | Some t => Some (Z.max (watermark kc id) t)
    | None => kc !! id
    end.
Proof.
  revert id.
  apply (map_fold_weak_ind
           (fun r m => forall id, r !! id = match m !! id with
                                           | Some t => Some (Z.max (watermark kc id) t)
                                           | None => kc !! id
                                           end));
    [done |].
  intros i t m r Hfresh IH id. unfold mergeConversationsStep.
  destruct (decide (i = id)) as [-> |].
  - rewrite !lookup_insert_eq, !num_or_zero, IH, Hfresh. done.
  - rewrite !lookup_insert_ne by done. apply IH.
Qed.

Lemma mergeMeta_lookup (km ixm : gmap string metaEntry) (id : string) :
  map_fold mergeMetaStep km ixm !! id = mergedEntry id (km !! id) (ixm !! id).
Proof.
  revert id.
  apply (map_fold_weak_ind
           (fun r m => forall id, r !! id = mergedEntry id (km !! id) (m !! id)));
    [done |].
  intros i e m r Hfresh IH id. unfold mergeMetaStep.
  destruct (decide (i = id)) as [-> |].
  - rewrite lookup_insert_eq. pose proof (IH id) as Hr. rewrite Hfresh in Hr.
    simpl in Hr. unfold mergedEntry. case_decide as Hid; [by rewrite Hr |].
    rewrite Hr. destruct (km !! id) as [cur |]; [| by rewrite lookup_insert_eq].
    rewrite !num_or_zero. case_decide as Hle.
    + rewrite lookup_insert_eq. rewrite Z.max_r by done. by destruct e.
    + by rewrite Hr.
  - rewrite lookup_insert_ne by done. rewrite <- IH.
    case_decide; [done |].
    destruct (r !! i) as [cur |]; [case_decide |]; by rewrite ?lookup_insert_ne.
Qed.

Lemma merged_watermark (kc ixc : gmap string Z) (id : string) :
  map_Forall (fun _ v => 0 <= v) kc ->
  watermark (map_fold mergeConversationsStep kc ixc) id =
    Z.max (watermark kc id) (watermark ixc id).
Proof.
  intros Hnn. unfold watermark at 1. rewrite mergeConversations_lookup.
  unfold watermark. destruct (ixc !! id) as [t |]; [done |].
  destruct (kc !! id) as [v |] eqn:Hv; simpl; [| done].
  apply Hnn in Hv. lia.
Qed.

(** C10.  When index.json is readable, the known state used by the run is
    the merge of the stored state with the snapshot.  For every id the
    merged watermark is the maximum of the stored watermark and the
    snapshot's update time, each read as 0 when absent, so it is below
    neither; and the metadata entry of an id differs from the stored one only
    if the snapshot has an entry whose update time is at least the stored
    one, in which case it is the snapshot entry. *)
Theorem index_merge_at_start (E : env) (now : Z) (file : option (list item))
    (opts : options) (kc : gmap string Z) (km : gmap string metaEntry)
    (lastFull : option isoString) (cursor : option inventoryCursor)
    (ix : knownState) :
  readIndex file = Some ix ->
  map_Forall (fun _ v => 0 <= v) kc ->
  let start := startRun E now file opts kc km lastFull cursor in
  let known := knownConversations start.1 in
  let metas := metaMap start.2 in
  KnownState known metas = mergeKnownState kc km (Some ix)
  /\ (forall id,
        watermark known id = Z.max (watermark kc id) (watermark (ks_conversations ix) id)
        /\ watermark kc id <= watermark known id
        /\ watermark (ks_conversations ix) id <= watermark known id)
  /\ (forall id,
        metas !! id <> km !! id ->
        exists e, ks_meta ix !! id = Some e
                  /\ metas !! id = Some e
                  /\ match km !! id with
                     | Some cur => update_time cur <= update_time e
                     | None => True
                     end).
Proof.
  intros Hread Hnn. cbn. unfold knownAtStart. rewrite Hread.
  unfold mergeKnownState. cbn. split; [done |]. split.
  - intros id. rewrite merged_watermark by done. lia.
  - intros id. rewrite mergeMeta_lookup. unfold mergedEntry.
    destruct (ks_meta ix !! id) as [e |]; [| done].
    case_decide; [done |].
    destruct (km !! id) as [cur |]; [case_decide; [| done] |]; intros _; by exists e.
Qed.

Lemma index_merge_witness :
  readIndex (Some Scenario.snapshot) = Some Scenario.snapshotState
  /\ map_Forall (fun _ v => 0 <= v) ({["A" := 100]} : gmap string Z)
  /\ watermark (knownConversations
                  (startRun Scenario.healthy Scenario.day (Some Scenario.snapshot)
                            Scenario.keep {["A" := 100]} ∅ None None).1) "A" = 150.
Proof.
  assert (readIndex (Some Scenario.snapshot) = Some Scenario.snapshotState) as Hread
    by reflexivity.
  assert (map_Forall (fun _ v => 0 <= v) ({["A" := 100]} : gmap string Z)) as Hnn
    by (intros id v [_ <-]%lookup_singleton_Some; lia).
  split; [exact Hread |]. split; [exact Hnn |].
  destruct (index_merge_at_start Scenario.healthy Scenario.day (Some Scenario.snapshot)
              Scenario.keep {["A" := 100]} ∅ None None Scenario.snapshotState Hread Hnn)
    as (_ & Hmax & _).
  destruct (Hmax "A") as [-> _]. reflexivity.
Defined.

End IndexMerge.

(** ** The watermark in the service worker *)

Section Watermark.

Import Background.

Lemma grows_refl (s : syncState) : grows s s.
Proof. intros id v Hv. exists v. split; [done | lia]. Qed.

Lemma grows_trans (s1 s2 s3 : syncState) : grows s1 s2 -> grows s2 s3 -> grows s1 s3.
Proof.
  intros H12 H23 id v Hv.
  destruct (H12 _ _ Hv) as (v2 & Hv2 & ?). destruct (H23 _ _ Hv2) as (v3 & Hv3 & ?).
  exists v3. split; [done | lia].
Qed.

Lemma grows_notBackward (s s' : syncState) : grows s s' -> notBackward s s'.
Proof. intros Hg id v v' Hv Hv'. destruct (Hg _ _ Hv) as (v2 & ? & ?). by simplify_eq. Qed.

Lemma grows_same_conversations (s s' : syncState) :
  conversations s' = conversations s -> grows s s'.
Proof. intros Heq id v Hv. exists v. rewrite Heq. split; [done | lia]. Qed.

(** The conversation and conversation-skip branches store the maximum of
    the existing watermark and the time of the message. *)
Lemma recordItem_conversations (now : Z) (st : runStatus) (id ttl : string)
    (ct t : Z) (b : state) :
  conversations (nextState (recordItem now st id ttl ct t b)) =
    <[id := Z.max (watermark (conversations (nextState b)) id) t]>
      (conversations (nextState b)).
Proof. done. Qed.

Lemma maybeCheckpoint_nextState (now : Z) (force : bool) (b : state) :
  nextState (maybeCheckpoint now force b) = nextState b.
Proof. unfold maybeCheckpoint. by destruct (_ && _). Qed.

Lemma maybeCheckpoint_settled (now : Z) (force : bool) (b : state) :
  settled (maybeCheckpoint now force b) = settled b.
Proof. unfold maybeCheckpoint. by destruct (_ && _). Qed.

Lemma maybeCheckpoint_saved (now : Z) (force : bool) (b : state) (l : list syncState) :
  saved b = l ->
  saved (maybeCheckpoint now force b) = l
  \/ saved (maybeCheckpoint now force b) = nextState b :: l.
Proof. intros <-. unfold maybeCheckpoint. destruct (_ && _); [by left | by right]. Qed.

Lemma insert_max_grows (s s' : syncState) (id : string) (t : Z) :
  conversations s' = <[id := Z.max (watermark (conversations s) id) t]> (conversations s) ->
  grows s s'.
Proof.
  intros Heq i v Hv. rewrite Heq. destruct (decide (id = i)) as [-> |].
  - rewrite lookup_insert_eq. eexists. split; [done |].
    unfold watermark. rewrite Hv. simpl. lia.
  - rewrite lookup_insert_ne by done. exists v. split; [done | lia].
Qed.

(** A message other than a full completion keeps every watermark and does
    not lower it. *)
Lemma onMessage_grows (now : Z) (msg : message) (b : state) :
  reportsFullInventory msg = false ->
  grows (nextState b) (nextState (onMessage now msg b)).
Proof.
  intros Hmsg.
  destruct msg as [full ro lim | pr tot [[off lim] |] | id ttl ct t | id ttl ct t
                  | id err | tot u sk e full n | err]; cbn.
  - rewrite maybeCheckpoint_nextState. apply grows_same_conversations.
    by destruct full.
  - destruct (fullInventoryMode b); [| by apply grows_same_conversations].
    unfold bumpCheckpoint. rewrite maybeCheckpoint_nextState.
    by apply grows_same_conversations.
  - by apply grows_same_conversations.
  - unfold bumpCheckpoint. rewrite maybeCheckpoint_nextState. cbn.
    eapply insert_max_grows, recordItem_conversations.
  - unfold bumpCheckpoint. rewrite maybeCheckpoint_nextState. cbn.
    eapply insert_max_grows, recordItem_conversations.
  - unfold bumpCheckpoint. rewrite maybeCheckpoint_nextState.
    apply grows_same_conversations. cbn. by case_decide.
  - simpl in Hmsg. subst full.
    apply grows_same_conversations. by destruct (fullInventoryMode b).
  - by apply grows_same_conversations.
Qed.

Lemma prune_lookup_Some {A} (ids : gset string) (m : gmap string A) (id : string) (x : A) :
  prune ids m !! id = Some x <-> m !! id = Some x /\ id ∈ ids.
Proof. unfold prune. by rewrite map_lookup_filter_Some. Qed.

(** No message lowers a watermark that is still stored after it. *)
Lemma onMessage_notBackward (now : Z) (msg : message) (b : state) :
  notBackward (nextState b) (nextState (onMessage now msg b)).
Proof.
  destruct (reportsFullInventory msg) eqn:Hfull.
  - destruct msg as [| | | | | tot u sk e full n |]; try done.
    simpl in Hfull. subst full. cbn. intros id v v' Hv Hv'.
    apply prune_lookup_Some in Hv' as [Hv' _]. simplify_eq. lia.
  - by apply grows_notBackward, onMessage_grows.
Qed.

Lemma notBackward_after_grows (s1 s2 s3 : syncState) :
  grows s1 s2 -> notBackward s2 s3 -> notBackward s1 s3.
Proof.
  intros H12 H23 id v v' Hv Hv'. destruct (H12 _ _ Hv) as (v2 & Hv2 & ?).
  specialize (H23 _ _ _ Hv2 Hv'). lia.
Qed.

(** Whatever a message saves is the state it leaves. *)
Lemma onMessage_saved (now : Z) (msg : message) (b : state) :
  saved (onMessage now msg b) = saved b
  \/ saved (onMessage now msg b) = nextState (onMessage now msg b) :: saved b.
Proof.
  destruct msg as [full ro lim | pr tot [[off lim] |] | id ttl ct t | id ttl ct t
                  | id err | tot u sk e full n | err]; cbn;
    try (by left); try (by right).
  - rewrite maybeCheckpoint_nextState. apply maybeCheckpoint_saved. by destruct full.
  - destruct (fullInventoryMode b); [| by left].
    unfold bumpCheckpoint. rewrite maybeCheckpoint_nextState.
    by apply maybeCheckpoint_saved.
  - unfold bumpCheckpoint. rewrite maybeCheckpoint_nextState.
    by apply maybeCheckpoint_saved.
  - unfold bumpCheckpoint. rewrite maybeCheckpoint_nextState.
    by apply maybeCheckpoint_saved.
  - unfold bumpCheckpoint. rewrite maybeCheckpoint_nextState.
    apply maybeCheckpoint_saved. cbn. by case_decide.
  - right. by destruct full, (fullInventoryMode b).
Qed.

(** Induction over the delivery of a list of messages. *)
Lemma deliver_invariant (P : state -> Prop) (clock : nat -> Z) (msgs : list message) :
  (forall j msg b,
      msg ∈ msgs -> settled b = Pending -> P b -> P (onMessage (clock j) msg b)) ->
  forall k b, P b -> P (deliver clock k msgs b).
Proof.
  induction msgs as [| msg rest IH]; intros Hstep k b Hb; [done |].
  simpl. apply IH.
  - intros j m b' Hm. apply Hstep. by right.
  - unfold receive. destruct (settled b) eqn:Hs; [| done | done].
    apply Hstep; [by left | done | done].
Qed.

Lemma deliver_notBackward (s0 : syncState) (clock : nat -> Z) (msgs : list message)
    (k : nat) (b : state) :
  (settled b = Pending -> grows s0 (nextState b)) ->
  Forall (notBackward s0) (saved b) ->
  Forall (notBackward s0) (saved (deliver clock k msgs b)).
Proof.
  intros Hg Hs.
  apply (deliver_invariant
           (fun b => (settled b = Pending -> grows s0 (nextState b))
                     /\ Forall (notBackward s0) (saved b)) clock msgs);
    [| done].
  clear. intros j msg b _ Hp [Hg Hs]. specialize (Hg Hp).
  set (now := clock j).
  assert (notBackward s0 (nextState (onMessage now msg b))) as Hnb
    by (eapply notBackward_after_grows; [done | apply onMessage_notBackward]).
  split.
  - intros Hp'. destruct (reportsFullInventory msg) eqn:Hfull.
    + by destruct msg.
    + eapply grows_trans; [done | by apply onMessage_grows].
  - destruct (onMessage_saved now msg b) as [-> | ->]; [done |]. by constructor.
Qed.

Lemma deliver_grows (s0 : syncState) (clock : nat -> Z) (msgs : list message)
    (k : nat) (b : state) :
  Forall (fun m => reportsFullInventory m = false) msgs ->
  grows s0 (nextState b) ->
  Forall (grows s0) (saved b) ->
  Forall (grows s0) (saved (deliver clock k msgs b)).
Proof.
  intros Hmsgs Hg Hs. rewrite Forall_forall in Hmsgs.
  apply (deliver_invariant
           (fun b => grows s0 (nextState b) /\ Forall (grows s0) (saved b)) clock msgs);
    [| done].
  intros j msg b' Hin _ [Hg' Hs'].
  set (now := clock j).
  assert (grows s0 (nextState (onMessage now msg b'))) as Hn
    by (eapply grows_trans; [done | apply onMessage_grows; auto]).
  split; [done |].
  destruct (onMessage_saved now msg b') as [-> | ->]; [done |]. by constructor.
Qed.

Lemma persisted_Forall (P : syncState -> Prop) (s0 : syncState) (b : state) :
  P s0 -> Forall P (saved b) -> P (persisted s0 b).
Proof.
  intros H0 Hs. unfold persisted. destruct (saved b) as [| s rest]; [done |].
  by inversion Hs.
Qed.

(** C3.  Across a run no stored watermark moves backward: an id that is
    still in the stored state afterwards has a watermark at least as large
    as before, and unless the run reports a completed full inventory (the
    only step that prunes) every id is still there.  Each conversation and
    conversation-skip message sets the watermark of its id to the maximum
    of the existing value and the time it carries. *)
Theorem watermark_never_moves_backward (X : circumstances) (w : world) :
  let r := syncOnce X w in
  notBackward (storage w) (storage (after r))
  /\ (Forall (fun m => reportsFullInventory m = false) (posted (contentOutcome r)) ->
      grows (storage w) (storage (after r)))
  /\ (forall now id ttl ct t b,
        conversations (nextState (onMessage now (MsgConversation id ttl ct t) b)) !! id
          = Some (Z.max (watermark (conversations (nextState b)) id) t)
        /\ conversations (nextState (onMessage now (MsgConversationSkip id ttl ct t) b)) !! id
          = Some (Z.max (watermark (conversations (nextState b)) id) t)).
Proof.
  cbn zeta. destruct (syncOnce_heard X w) as (msgs & Hpre & _ & ->).
  split; [| split].
  - apply persisted_Forall; [apply grows_notBackward, grows_refl |].
    apply deliver_notBackward; [intros _; apply grows_refl | constructor].
  - intros Hmsgs. apply persisted_Forall; [apply grows_refl |].
    apply deliver_grows; [| apply grows_refl | constructor].
    by apply (Forall_prefix _ msgs (posted (contentRun X w))).
  - intros now id ttl ct t b. cbn. unfold bumpCheckpoint.
    rewrite !maybeCheckpoint_nextState. cbn. rewrite !recordItem_conversations.
    by rewrite !lookup_insert_eq.
Qed.

End Watermark.

(** ** Induction principles for the content script *)

Section ContentRules.

Import Content.

Context (R : captured).

Lemma pageCount_countPage (pg : page) (c : state) :
  pageCount (countPage pg c) = S (pageCount c).
Proof. unfold countPage. by case_decide. Qed.

Lemma runWorkers_rule (P : state -> Prop) (ks : list nat) (c : state) :
  (forall c' k, P c' -> P (workerStep R c' k)) -> P c -> P (runWorkers R ks c).
Proof.
  intros Hstep. unfold runWorkers. revert c.
  induction ks as [| k ks IH]; intros c Hc; [done |]. simpl. by apply IH, Hstep.
Qed.

Lemma drainQueue_rule (P : state -> Prop) (c : state) :
  (forall c' k, P c' -> P (workerStep R c' k)) -> P c -> P (drainQueue R c).
Proof.
  intros Hstep Hc. unfold drainQueue.
  induction (length (queue c)) as [| n IH]; [done |]. simpl. by apply Hstep.
Qed.

Lemma settleAll_rule (P : state -> Prop) (c : state) (sched : list (list nat)) :
  (forall c' k, P c' -> P (workerStep R c' k)) ->
  P (set_listComplete true c) -> P (settleAll R c sched).
Proof.
  intros Hstep Hc. unfold settleAll. by apply drainQueue_rule, runWorkers_rule.
Qed.

Lemma classify_fold_rule (P : state -> Prop) (pageIndex : nat) (its : list item)
    (c : state) :
  (forall c' it, it ∈ its -> P c' -> P (classifyItem R pageIndex c' it)) ->
  P c -> P (foldl (classifyItem R pageIndex) c its).
Proof.
  revert c. induction its as [| it its IH]; intros c Hstep Hc; [done |].
  simpl. apply IH.
  - intros c' it' Hin. apply Hstep. by right.
  - apply Hstep; [by left | done].
Qed.

Lemma advanceLoop_rule (P : state -> Prop) (fuel : nat) (c : state) :
  (forall c' st,
      pageStates c' !! nextCursorIndex c' = Some st -> done st = true -> P c' ->
      P (set_nextCursorIndex (S (nextCursorIndex c'))
           (post (MsgSyncProgress (processed c')
                    (getProgressTarget (processed c') (progressTotal c') (listComplete c'))
                    (Some (nextOffset st, ps_limit st))) c'))) ->
  P c -> P (advanceLoop fuel c).
Proof.
  intros Hstep. revert c. induction fuel as [| fuel IH]; intros c Hc; [done |].
  simpl. destruct (pageStates c !! nextCursorIndex c) as [st |] eqn:Hst; [| done].
  destruct (done st) eqn:Hd; [| done]. apply IH. by apply Hstep.
Qed.

(** One round of the listing loop. *)
Lemma listingLoop_S (fuel : nat) (sched : list (list nat)) (c : state) :
  listingLoop R (S fuel) sched c =
    match fetchConversationPage (fetchJson (cap_env R)) (offset c) (limit c) with
    | inl err => LoopThrow c err
    | inr pg =>
        if decide (items pg = []) then
          LoopBreak (if decide (listedCount c = 0)
                     then set_didFullInventory false (set_limit (page_limit pg) c)
                     else set_limit (page_limit pg) c) sched
        else if decide (maxPages < S (pageCount c))%nat then
          LoopBreak (set_didFullInventory false (countPage pg (set_limit (page_limit pg) c)))
                    sched
        else
          let c' := classifyPage R (pageCount c) pg
                      (countPage pg (set_limit (page_limit pg) c)) in
          if shouldContinue R pg (page_limit pg)
          then listingLoop R fuel (tail sched) (runWorkers R (default [] (head sched)) c')
          else LoopBreak c' sched
    end.
Proof.
  cbn [listingLoop]. destruct (fetchConversationPage _ _ _) as [err | pg]; [done |].
  destruct (decide (items pg = [])); [done |].
  rewrite pageCount_countPage. done.
Qed.

(** The listing loop: [P] holds at the head of every round, [Q] at the
    three ways out of the loop. *)
Lemma listingLoop_rule (P Q : state -> Prop) :
  (forall c pg,
      P c -> fetchConversationPage (fetchJson (cap_env R)) (offset c) (limit c) = inr pg ->
      items pg = [] ->
      Q (if decide (listedCount c = 0)
         then set_didFullInventory false (set_limit (page_limit pg) c)
         else set_limit (page_limit pg) c)) ->
  (forall c pg,
      P c -> fetchConversationPage (fetchJson (cap_env R)) (offset c) (limit c) = inr pg ->
      items pg <> [] -> (maxPages < S (pageCount c))%nat ->
      Q (set_didFullInventory false (countPage pg (set_limit (page_limit pg) c)))) ->
  (forall c pg,
      P c -> fetchConversationPage (fetchJson (cap_env R)) (offset c) (limit c) = inr pg ->
      items pg <> [] -> (S (pageCount c) <= maxPages)%nat ->
      let c' := classifyPage R (pageCount c) pg (countPage pg (set_limit (page_limit pg) c)) in
      P c' /\ (shouldContinue R pg (page_limit pg) = false -> Q c')) ->
  (forall c k, P c -> P (workerStep R c k)) ->
  forall fuel sched c,
    P c ->
    match listingLoop R fuel sched c with
    | LoopBreak c' _ => Q c'
    | LoopThrow c' _ => P c'
    | LoopStuck c' => P c'
    end.
Proof.
  intros Hempty Hceil Hpage Hwork.
  induction fuel as [| fuel IH]; intros sched c Hc; [done |].
  rewrite listingLoop_S.
  destruct (fetchConversationPage _ _ _) as [err | pg] eqn:Hfetch; [done |].
  destruct (decide (items pg = [])) as [Hnil | Hne].
  { by apply (Hempty c pg). }
  destruct (decide (maxPages < S (pageCount c))%nat) as [Hc1 | Hc1].
  { by apply (Hceil c pg). }
  destruct (Hpage c pg Hc Hfetch Hne ltac:(lia)) as [HP HQ].
  destruct (shouldContinue R pg (page_limit pg)) eqn:Hcont.
  - apply IH. by apply runWorkers_rule.
  - by apply HQ.
Qed.

End ContentRules.

(** ** What the workers and the classification leave alone *)

Section ContentFrame.

Import Content.

Context (R : captured).

Lemma sameControl_refl (c : state) : sameControl c c.
Proof. by repeat split. Qed.

Lemma sameControl_trans (c1 c2 c3 : state) :
  sameControl c1 c2 -> sameControl c2 c3 -> sameControl c1 c3.
Proof.
  unfold sameControl. intros (? & ? & ? & ? & ? & ? & ? & ?) (? & ? & ? & ? & ? & ? & ? & ?).
  repeat split; congruence.
Qed.

Lemma advanceLoop_sameControl (fuel : nat) (c : state) :
  sameControl c (advanceLoop fuel c).
Proof.
  apply (advanceLoop_rule (sameControl c)); [| apply sameControl_refl].
  intros c' st _ _ Hc'. eapply sameControl_trans; [done |]. by repeat split.
Qed.

Lemma markPageItemDone_sameControl (pageIndex : nat) (c : state) :
  sameControl c (markPageItemDone R pageIndex c).
Proof.
  unfold markPageItemDone, maybeAdvanceCursor.
  repeat case_match; try apply sameControl_refl; try by repeat split.
  eapply sameControl_trans; [| apply advanceLoop_sameControl]. by repeat split.
Qed.

Lemma processItem_sameControl (it : item) (pageIndex : nat) (c : state) :
  sameControl c (processItem R it pageIndex c).
Proof.
  unfold processItem.
  eapply sameControl_trans; [| apply markPageItemDone_sameControl].
  repeat case_match; by repeat split.
Qed.

Lemma workerStep_sameControl (c : state) (k : nat) : sameControl c (workerStep R c k).
Proof.
  unfold workerStep. case_match; [| apply sameControl_refl].
  eapply sameControl_trans; [| apply processItem_sameControl]. by repeat split.
Qed.

Lemma classifyItem_sameControl (pageIndex : nat) (c : state) (it : item) :
  sameControl c (classifyItem R pageIndex c it).
Proof.
  unfold classifyItem. case_decide.
  - eapply sameControl_trans; [| apply markPageItemDone_sameControl]. by repeat split.
  - by repeat split.
Qed.

Lemma runWorkers_sameControl (ks : list nat) (c : state) :
  sameControl c (runWorkers R ks c).
Proof.
  apply (runWorkers_rule R (sameControl c)); [| apply sameControl_refl].
  intros c' k Hc'. eapply sameControl_trans; [done | apply workerStep_sameControl].
Qed.

Lemma drainQueue_sameControl (c : state) : sameControl c (drainQueue R c).
Proof.
  apply (drainQueue_rule R (sameControl c)); [| apply sameControl_refl].
  intros c' k Hc'. eapply sameControl_trans; [done | apply workerStep_sameControl].
Qed.

Lemma classify_fold_sameControl (pageIndex : nat) (its : list item) (c : state) :
  sameControl c (foldl (classifyItem R pageIndex) c its).
Proof.
  apply (classify_fold_rule R (sameControl c)); [| apply sameControl_refl].
  intros c' it _ Hc'. eapply sameControl_trans; [done | apply classifyItem_sameControl].
Qed.

Lemma extends_refl (c : state) : extends c c.
Proof. repeat split; [done | done |]. exists []. by rewrite app_nil_r. Qed.

Lemma extends_trans (c1 c2 c3 : state) : extends c1 c2 -> extends c2 c3 -> extends c1 c3.
Proof.
  intros (Hm1 & Hi1 & l1 & Ho1 & Hl1) (Hm2 & Hi2 & l2 & Ho2 & Hl2).
  repeat split; [set_solver | set_solver |].
  exists (l1 ++ l2). rewrite Ho2, Ho1, app_assoc. split; [done |]. by apply Forall_app.
Qed.

(** A step that keeps the metadata and the seen ids and posts [msg]. *)
Lemma extends_post (c c' : state) (msg : message) :
  outbox c' = outbox c ++ [msg] ->
  ordinary msg = true ->
  metaMap c' = metaMap c -> currentIds c' = currentIds c ->
  extends c c'.
Proof.
  intros Ho Hmsg Hm Hi. repeat split; [by rewrite Hm | by rewrite Hi |].
  exists [msg]. split; [done |]. by constructor.
Qed.

(** A step that only adds to the metadata and the seen ids. *)
Lemma extends_quiet (c c' : state) :
  dom (metaMap c) ⊆ dom (metaMap c') -> currentIds c ⊆ currentIds c' ->
  outbox c' = outbox c ->
  extends c c'.
Proof.
  intros Hm Hi Ho. repeat split; [done | done |]. exists []. by rewrite app_nil_r.
Qed.

Lemma advanceLoop_extends (fuel : nat) (c : state) : extends c (advanceLoop fuel c).
Proof.
  apply (advanceLoop_rule (extends c)); [| apply extends_refl].
  intros c' st _ _ Hc'. eapply extends_trans; [done |].
  by eapply extends_post.
Qed.

Lemma markPageItemDone_extends (pageIndex : nat) (c : state) :
  extends c (markPageItemDone R pageIndex c).
Proof.
  unfold markPageItemDone, maybeAdvanceCursor.
  repeat case_match; try apply extends_refl; try by apply extends_quiet.
  eapply extends_trans; [| apply advanceLoop_extends]. by apply extends_quiet.
Qed.

Lemma processItem_extends (it : item) (pageIndex : nat) (c : state) :
  extends c (processItem R it pageIndex c).
Proof.
  unfold processItem.
  eapply extends_trans; [| apply markPageItemDone_extends].
  repeat case_match; (split; [| split]); cbn;
    try (rewrite dom_insert; set_solver); try done;
    (eexists [_]; split; [done | by constructor]).
Qed.

Lemma workerStep_extends (c : state) (k : nat) : extends c (workerStep R c k).
Proof.
  unfold workerStep. case_match; [| apply extends_refl].
  eapply extends_trans; [| apply processItem_extends]. by apply extends_quiet.
Qed.

Lemma classifyItem_extends (pageIndex : nat) (c : state) (it : item) :
  extends c (classifyItem R pageIndex c it).
Proof.
  unfold classifyItem.
  set (c2 := set_metaMap _ (set_currentIds _ c)).
  assert (extends c c2) as H2.
  { apply extends_quiet; [| | done]; cbn; [rewrite dom_insert |]; set_solver. }
  case_decide.
  - eapply extends_trans; [| apply markPageItemDone_extends].
    eapply extends_trans; [done |]. by eapply extends_post.
  - eapply extends_trans; [done |]. by apply extends_quiet.
Qed.

Lemma runWorkers_extends (ks : list nat) (c : state) : extends c (runWorkers R ks c).
Proof.
  apply (runWorkers_rule R (extends c)); [| apply extends_refl].
  intros c' k Hc'. eapply extends_trans; [done | apply workerStep_extends].
Qed.

Lemma drainQueue_extends (c : state) : extends c (drainQueue R c).
Proof.
  apply (drainQueue_rule R (extends c)); [| apply extends_refl].
  intros c' k Hc'. eapply extends_trans; [done | apply workerStep_extends].
Qed.

Lemma classify_fold_extends (pageIndex : nat) (its : list item) (c : state) :
  extends c (foldl (classifyItem R pageIndex) c its).
Proof.
  apply (classify_fold_rule R (extends c)); [| apply extends_refl].
  intros c' it _ Hc'. eapply extends_trans; [done | apply classifyItem_extends].
Qed.

End ContentFrame.

(** ** The completeness gate of a full inventory *)

Section CompletenessGate.

Import Content.

Context (R : captured).

Lemma countPage_fields (pg : page) (c : state) :
  listedCount (countPage pg c) = listedCount c + Z.of_nat (length (items pg))
  /\ didFullInventory (countPage pg c) = didFullInventory c
  /\ deleted (countPage pg c) = deleted c
  /\ metaMap (countPage pg c) = metaMap c
  /\ currentIds (countPage pg c) = currentIds c
  /\ outbox (countPage pg c) = outbox c.
Proof. unfold countPage. by case_decide. Qed.

Lemma registerPage_fields (pageIndex : nat) (pg : page) (c : state) :
  let c' := registerPage R pageIndex pg c in
  listedCount c' = listedCount c /\ pageCount c' = pageCount c
  /\ deleted c' = deleted c /\ metaMap c' = metaMap c
  /\ currentIds c' = currentIds c /\ outbox c' = outbox c
  /\ didFullInventory c' = didFullInventory c && negb (stopForTime R pg).
Proof.
  unfold registerPage. destruct (stopForTime R pg); cbn; repeat split;
    by rewrite ?andb_true_r, ?andb_false_r.
Qed.

Lemma classifyPage_fields (pageIndex : nat) (pg : page) (c : state) :
  let c' := classifyPage R pageIndex pg c in
  listedCount c' = listedCount c /\ pageCount c' = pageCount c
  /\ deleted c' = deleted c
  /\ didFullInventory c' = didFullInventory c && negb (stopForTime R pg)
  /\ extends c c'.
Proof.
  unfold classifyPage. cbn.
  destruct (registerPage_fields pageIndex pg c) as (Hl & Hp & Hd & Hm & Hi & Ho & Hf).
  destruct (classify_fold_sameControl R pageIndex (items pg) (registerPage R pageIndex pg c))
    as (Hf' & Hl' & _ & _ & _ & Hp' & _ & Hd').
  pose proof (classify_fold_extends R pageIndex (items pg) (registerPage R pageIndex pg c))
    as (Hm' & Hi' & msgs & Ho' & Hmsgs).
  repeat split; try congruence.
  - by rewrite <- Hm.
  - by rewrite <- Hi.
  - exists msgs. by rewrite <- Ho.
Qed.

Lemma removeStep_fields (c : state) (id : string) :
  let c' := removeStep R c id in
  listedCount c' = listedCount c /\ pageCount c' = pageCount c
  /\ didFullInventory c' = didFullInventory c /\ outbox c' = outbox c
  /\ currentIds c' = currentIds c.
Proof. unfold removeStep. by repeat case_match. Qed.

Lemma removalPass_fields (c : state) :
  let c' := removalPass R c in
  listedCount c' = listedCount c /\ pageCount c' = pageCount c
  /\ didFullInventory c' = didFullInventory c /\ outbox c' = outbox c
  /\ currentIds c' = currentIds c.
Proof.
  unfold removalPass. destruct (didFullInventory c) eqn:Hfull; [| done].
  generalize (removedIds c). intros ids. rewrite <- Hfull. clear Hfull.
  revert c. induction ids as [| id ids IH]; intros c; [done |]. simpl.
  destruct (IH (removeStep R c id)) as (-> & -> & -> & -> & ->).
  apply removeStep_fields.
Qed.

Lemma removalPass_partial (c : state) :
  didFullInventory c = false -> removalPass R c = c.
Proof. unfold removalPass. by intros ->. Qed.

Lemma loopHead_refl (c : state) :
  pageCount c = 0%nat -> listedCount c = 0 -> loopHead c c.
Proof.
  intros Hp Hl. unfold loopHead. rewrite Hp, Hl.
  split_and!; [unfold maxPages; lia | lia | lia | done | done | apply extends_refl].
Qed.

Lemma loopHead_step (c0 c c' : state) :
  loopHead c0 c -> sameControl c c' -> extends c c' -> loopHead c0 c'.
Proof.
  intros (Hp & Hl & Hpl & Hd & Hf & He) (Hf' & Hl' & _ & _ & _ & Hp' & _ & Hd') He'.
  unfold loopHead. rewrite Hp', Hl', Hd', Hf'.
  split_and!; [done | done | done | done | done | by eapply extends_trans].
Qed.

Lemma loopEnd_step (c0 c c' : state) :
  loopEnd c0 c -> sameControl c c' -> extends c c' -> loopEnd c0 c'.
Proof.
  intros (Hq & Hd & Hf & He) (Hf' & Hl' & _ & _ & _ & Hp' & _ & Hd') He'.
  unfold loopEnd. rewrite Hp', Hl', Hd', Hf'.
  split_and!; [done | done | done | by eapply extends_trans].
Qed.

Lemma listingLoop_gate (fuel : nat) (sched : list (list nat)) (c0 c : state) :
  loopHead c0 c ->
  match listingLoop R fuel sched c with
  | LoopBreak c' _ => loopEnd c0 c'
  | LoopThrow c' _ => loopHead c0 c'
  | LoopStuck c' => loopHead c0 c'
  end.
Proof.
  apply (listingLoop_rule R (loopHead c0) (loopEnd c0)).
  - intros c1 pg (Hp & Hl & Hpl & Hd & Hf & He) _ _.
    case_decide as Hz; (split; [| split; [| split]]); try done.
    cbn. intros [? | ?]; [lia | done].
  - intros c1 pg (Hp & Hl & Hpl & Hd & Hf & He) _ _ _.
    destruct (countPage_fields pg (set_limit (page_limit pg) c1))
      as (_ & _ & Hd1 & Hm1 & Hi1 & Ho1).
    cbn in Hd1, Hm1, Hi1, Ho1.
    (split; [| split; [| split]]); cbn; [done | by rewrite Hd1 | done |].
    destruct He as (Hm & Hi & msgs & Ho & Hmsgs).
    split; [| split]; cbn; [by rewrite Hm1 | by rewrite Hi1 |].
    exists msgs. by rewrite Ho1.
  - intros c1 pg (Hp & Hl & Hpl & Hd & Hf & He) _ Hne Hroom.
    set (c2 := countPage pg (set_limit (page_limit pg) c1)).
    destruct (countPage_fields pg (set_limit (page_limit pg) c1))
      as (Hl1 & Hf1 & Hd1 & Hm1 & Hi1 & Ho1).
    destruct (classifyPage_fields (pageCount c1) pg c2) as (Hl2 & Hp2 & Hd2 & Hf2 & He2).
    fold c2 in Hl1, Hf1, Hd1, Hm1, Hi1, Ho1. cbn in Hl1, Hf1, Hd1, Hm1, Hi1, Ho1.
    assert (pageCount c2 = S (pageCount c1)) as Hp1
      by exact (pageCount_countPage pg (set_limit (page_limit pg) c1)).
    assert (0 < Z.of_nat (length (items pg))) as Hn
      by (destruct (items pg); [done | simpl; lia]).
    assert (extends c0 (classifyPage R (pageCount c1) pg c2)) as Hext.
    { eapply extends_trans; [| done].
      destruct He as (Hm & Hi & msgs & Ho & Hmsgs).
      split; [| split]; [by rewrite Hm1 | by rewrite Hi1 |].
      exists msgs. by rewrite Ho1. }
    assert (didFullInventory (classifyPage R (pageCount c1) pg c2) = true ->
            didFullInventory c0 = true) as Hfull.
    { rewrite Hf2, Hf1. intros [? _]%andb_true_iff. auto. }
    split.
    + unfold loopHead. rewrite Hl2, Hp2, Hd2, Hl1, Hp1, Hd1.
      split_and!; [lia | lia | lia | done | done | done].
    + intros _. unfold loopEnd. rewrite Hl2, Hp2, Hd2, Hl1, Hp1, Hd1.
      split_and!; [| done | done | done]. intros [? | ?]; lia.
  - intros c1 k Hc1.
    eapply loopHead_step; [done | apply workerStep_sameControl | apply workerStep_extends].
Qed.

Lemma settleAll_sameControl (c : state) (sched : list (list nat)) :
  sameControl (set_listComplete true c) (settleAll R c sched).
Proof.
  unfold settleAll.
  eapply sameControl_trans; [apply runWorkers_sameControl | apply drainQueue_sameControl].
Qed.

Lemma settleAll_extends (c : state) (sched : list (list nat)) :
  extends c (settleAll R c sched).
Proof.
  unfold settleAll. eapply (extends_trans _ (set_listComplete true c)).
  { by apply extends_quiet. }
  eapply extends_trans; [apply runWorkers_extends | apply drainQueue_extends].
Qed.

Lemma ordinary_not_full (msgs : list message) :
  Forall (fun m => ordinary m = true) msgs ->
  Forall (fun m => reportsFullInventory m = false) msgs.
Proof. intros H. eapply Forall_impl; [done |]. by intros []. Qed.

(** The run, from the first page request to the last post. *)
Lemma runFrom_gate (sched : list (list nat)) (c0 : state) :
  pageCount c0 = 0%nat -> listedCount c0 = 0 ->
  match runFrom R sched c0 with
  | Completed c ix =>
      ((maxPages < pageCount c)%nat \/ listedCount c = 0 -> didFullInventory c = false)
      /\ (didFullInventory c = true -> didFullInventory c0 = true)
      /\ (didFullInventory c = false ->
          deleted c = deleted c0 /\ dom (metaMap c0) ⊆ dom (metaMap c))
      /\ (exists pre tot u s e n,
            outbox c = outbox c0 ++ pre
                         ++ [MsgSyncComplete tot u s e (didFullInventory c) n]
            /\ Forall (fun m => ordinary m = true) pre)
  | Failed c =>
      exists pre, outbox c = outbox c0 ++ pre
                  /\ Forall (fun m => reportsFullInventory m = false) pre
  end.
Proof.
  intros Hp0 Hl0. unfold runFrom.
  pose proof (listingLoop_gate (S maxPages) sched c0 c0 (loopHead_refl c0 Hp0 Hl0)) as Hloop.
  destruct (listingLoop R (S maxPages) sched c0) as [c1 sched' | c1 err | c1].
  - destruct Hloop as (Hq & Hd & Hf & He). unfold finishRun.
    set (c2 := settleAll R c1 sched').
    destruct (settleAll_sameControl c1 sched') as (Hf2 & Hl2 & _ & _ & _ & Hp2 & _ & Hd2).
    pose proof (settleAll_extends c1 sched') as He2.
    fold c2 in Hf2, Hl2, Hp2, Hd2, He2. cbn in Hf2, Hl2, Hp2, Hd2.
    destruct (removalPass_fields c2) as (Hl3 & Hp3 & Hf3 & Ho3 & _).
    destruct (extends_trans _ _ _ He He2) as (Hm & _ & pre & Ho & Hpre).
    destruct (writeIndexFile (cap_env R)) as [err |].
    + exists (pre ++ [MsgSyncError err]). cbn. rewrite Ho3, Ho, app_assoc.
      split; [done |]. apply Forall_app. split; [by apply ordinary_not_full |].
      by constructor.
    + cbn. rewrite Hl3, Hp3, Hf3, Hl2, Hp2, Hf2. split_and!; [done | done | |].
      * intros Hpart. rewrite removalPass_partial by congruence.
        rewrite Hd2. done.
      * exists pre. do 5 eexists. rewrite Ho3, Ho, app_assoc. done.
  - destruct Hloop as (_ & _ & _ & _ & _ & _ & _ & pre & Ho & Hpre).
    exists (pre ++ [MsgSyncError err]). cbn. rewrite Ho, app_assoc.
    split; [done |]. apply Forall_app. split; [by apply ordinary_not_full |].
    by constructor.
  - destruct Hloop as (_ & _ & _ & _ & _ & _ & _ & pre & Ho & Hpre).
    exists pre. split; [done | by apply ordinary_not_full].
Qed.

End CompletenessGate.

Section LastFullInventory.

Import Background.

Lemma onMessage_lastFull (now : Z) (msg : message) (b : state) :
  lastFullInventoryAt (nextState (onMessage now msg b)) =
    if reportsFullInventory msg then Some (Iso now)
    else lastFullInventoryAt (nextState b).
Proof.
  destruct msg as [full ro lim | pr tot [[off lim] |] | id ttl ct t | id ttl ct t
                  | id err | tot u sk e full n | err]; cbn;
    unfold bumpCheckpoint; rewrite ?maybeCheckpoint_nextState; try done.
  - by destruct full.
  - destruct (fullInventoryMode b); [| done]. by rewrite maybeCheckpoint_nextState.
  - cbn. by case_decide.
  - by destruct full, (fullInventoryMode b).
Qed.

(** Every saved state carries either the timestamp the run started with
    or the arrival time of a message that reports a full inventory. *)
Lemma deliver_lastFull (L : option isoString) (clock : nat -> Z) (msgs : list message)
    (k : nat) (b : state) :
  lastFullInventoryAt (nextState b) = L ->
  Forall (fun s => lastFullInventoryAt s = L) (saved b) ->
  Forall (fun s => lastFullInventoryAt s = L
                   \/ (Exists (fun m => reportsFullInventory m = true) msgs
                       /\ exists j, lastFullInventoryAt s = Some (Iso (clock j))))
         (saved (deliver clock k msgs b)).
Proof.
  intros Hb Hs.
  set (ok := fun s : syncState =>
               lastFullInventoryAt s = L
               \/ (Exists (fun m => reportsFullInventory m = true) msgs
                   /\ exists j, lastFullInventoryAt s = Some (Iso (clock j)))).
  apply (deliver_invariant (fun b => ok (nextState b) /\ Forall ok (saved b)) clock msgs).
  - intros j msg b' Hin _ [Hn' Hs'].
    assert (ok (nextState (onMessage (clock j) msg b'))) as Hn.
    { unfold ok. rewrite onMessage_lastFull.
      destruct (reportsFullInventory msg) eqn:Hfull; [| done].
      right. split; [| by exists j]. apply Exists_exists. by exists msg. }
    split; [done |].
    destruct (onMessage_saved (clock j) msg b') as [-> | ->]; [done | by constructor].
  - split; [by left |]. eapply Forall_impl; [done |]. intros s Hsl. by left.
Qed.

End LastFullInventory.

Section CompletenessGateRun.

Import Content.

Lemma contentRun_runFrom (X : circumstances) (w : world) :
  contentRun X w = runFrom (contentStart X w).1 (schedule X) (contentStart X w).2.
Proof. done. Qed.

Lemma contentStart_fields (X : circumstances) (w : world) :
  let c0 := (contentStart X w).2 in
  pageCount c0 = 0%nat /\ listedCount c0 = 0 /\ deleted c0 = []
  /\ didFullInventory c0 = forceFullInventory (contentStart X w).1
  /\ currentIds c0 = ∅ /\ queue c0 = [] /\ pageStates c0 = ∅
  /\ metaMap c0 = ks_meta (knownAtStart (conversations (storage w)) (meta (storage w))
                                        (indexFile w))
  /\ exists full resume, outbox c0 = [MsgSyncMode full resume 100].
Proof. cbn. split_and!; try done. by do 2 eexists. Qed.

(** Only a completed full inventory posts a message that reports one. *)
Lemma posted_full (X : circumstances) (w : world) :
  Exists (fun m => reportsFullInventory m = true) (posted (contentRun X w)) ->
  exists c ix, contentRun X w = Completed c ix /\ didFullInventory c = true.
Proof.
  rewrite contentRun_runFrom.
  destruct (contentStart_fields X w) as (Hp & Hl & _ & _ & _ & _ & _ & _ & full & resume & Ho).
  pose proof (runFrom_gate (contentStart X w).1 (schedule X) _ Hp Hl) as Hrun.
  destruct (runFrom _ _ _) as [c ix | c]; simpl.
  - destruct Hrun as (_ & _ & _ & pre & tot & u & s & e & n & Hout & Hpre).
    rewrite Hout, Ho. intros Hex. exists c, ix. split; [done |].
    apply Exists_app in Hex as [Hex | Hex].
    { by apply Exists_cons in Hex as [? | ?%Exists_nil]. }
    apply Exists_app in Hex as [Hex | Hex].
    { apply Exists_exists in Hex as (m & Hm & Hfull).
      rewrite Forall_forall in Hpre. specialize (Hpre m Hm). by destruct m. }
    by apply Exists_cons in Hex as [? | ?%Exists_nil].
  - destruct Hrun as (pre & Hout & Hpre). rewrite Hout, Ho. intros Hex.
    apply Exists_app in Hex as [Hex | Hex].
    { by apply Exists_cons in Hex as [? | ?%Exists_nil]. }
    apply Exists_exists in Hex as (m & Hm & Hfull).
    rewrite Forall_forall in Hpre. specialize (Hpre m Hm). congruence.
Qed.

Lemma after_lastFull (X : circumstances) (w : world) :
  let r := syncOnce X w in
  lastFullInventoryAt (storage (after r)) = lastFullInventoryAt (storage w)
  \/ (Exists (fun m => reportsFullInventory m = true) (posted (contentRun X w))
      /\ exists j, lastFullInventoryAt (storage (after r)) = Some (Iso (clock X j))).
Proof.
  cbn zeta. destruct (syncOnce_heard X w) as (msgs & Hpre & _ & ->).
  apply (persisted_Forall
           (fun s => lastFullInventoryAt s = lastFullInventoryAt (storage w)
                     \/ (Exists (fun m => reportsFullInventory m = true)
                                (posted (contentRun X w))
                         /\ exists j, lastFullInventoryAt s = Some (Iso (clock X j)))));
    [by left |].
  eapply Forall_impl;
    [apply (deliver_lastFull (lastFullInventoryAt (storage w)) (clock X) msgs); by constructor |].
  intros s [Hs | [Hex Hj]]; [by left | right].
  split; [| done]. by apply (Exists_prefix _ msgs).
Qed.

(** C5.  A pass that ends at the page ceiling or on an empty first page is
    not a completed full inventory: the removal step does not run (nothing
    is deleted and every metadata entry the run started with is kept) and
    [lastFullInventoryAt] is left as it was.  [lastFullInventoryAt] changes
    only in a run that completes with [didFullInventory], and then to the
    time at which the completion is handled. *)
Theorem completeness_gate (X : circumstances) (w : world) :
  let r := syncOnce X w in
  (forall c ix,
      contentOutcome r = Completed c ix ->
      (maxPages < pageCount c)%nat \/ listedCount c = 0 ->
      didFullInventory c = false
      /\ deleted c = []
      /\ dom (metaMap (contentStart X w).2) ⊆ dom (metaMap c)
      /\ lastFullInventoryAt (storage (after r)) = lastFullInventoryAt (storage w))
  /\ (lastFullInventoryAt (storage (after r)) <> lastFullInventoryAt (storage w) ->
      (exists c ix, contentOutcome r = Completed c ix /\ didFullInventory c = true)
      /\ exists j, lastFullInventoryAt (storage (after r)) = Some (Iso (clock X j))).
Proof.
  intros r. split.
  - intros c ix Hout Hearly.
    destruct (contentStart_fields X w) as (Hp & Hl & Hd & _).
    pose proof (runFrom_gate (contentStart X w).1 (schedule X) _ Hp Hl) as Hrun.
    rewrite <- contentRun_runFrom in Hrun.
    change (contentOutcome r) with (contentRun X w) in Hout. rewrite Hout in Hrun.
    destruct Hrun as (Hgate & _ & Hpart & _).
    specialize (Hgate Hearly). destruct (Hpart Hgate) as [Hdel Hdom].
    split_and!; [done | congruence | done |].
    destruct (after_lastFull X w) as [Heq | [Hex _]]; [done |].
    apply posted_full in Hex as (c' & ix' & Hout' & Hfull). congruence.
  - intros Hchanged.
    destruct (after_lastFull X w) as [Heq | [Hex Hj]]; [done |].
    split; [| done]. by apply posted_full.
Qed.

End CompletenessGateRun.

(** ** Invariants that do not look at the control variables *)

Section DataInvariants.

Import Content.

Context (R : captured) (P : state -> Prop).
Hypothesis P_data : forall c c', sameData c c' -> P c -> P c'.
Hypothesis P_classify : forall c pageIndex it, P c -> P (classifyItem R pageIndex c it).
Hypothesis P_worker : forall c k, P c -> P (workerStep R c k).

Lemma classifyPage_data (pageIndex : nat) (pg : page) (c : state) :
  P c -> P (classifyPage R pageIndex pg c).
Proof.
  intros Hc. unfold classifyPage.
  eapply (P_data (foldl (classifyItem R pageIndex) (registerPage R pageIndex pg c) (items pg)));
    [by repeat split |].
  apply classify_fold_rule; [by auto |].
  eapply (P_data c); [| done]. unfold registerPage. by case_match.
Qed.

Lemma listingLoop_data (fuel : nat) (sched : list (list nat)) (c : state) :
  P c -> P (exitState (listingLoop R fuel sched c)).
Proof.
  intros Hc.
  pose proof (listingLoop_rule R P P) as Hrule.
  assert (forall x, match x with
                    | LoopBreak c' _ => P c'
                    | LoopThrow c' _ => P c'
                    | LoopStuck c' => P c'
                    end -> P (exitState x)) as Hx by (by intros []).
  apply Hx, Hrule; [| | | done | done].
  - intros c1 pg Hc1 _ _. eapply (P_data c1); [| done]. by case_decide.
  - intros c1 pg Hc1 _ _ _. eapply (P_data c1); [| done].
    unfold countPage. by case_decide.
  - intros c1 pg Hc1 _ _ _. cbn zeta.
    assert (P (classifyPage R (pageCount c1) pg
                 (countPage pg (set_limit (page_limit pg) c1)))); [| done].
    apply classifyPage_data. eapply (P_data c1); [| done].
    unfold countPage. by case_decide.
Qed.

Lemma settleAll_data (c : state) (sched : list (list nat)) :
  P c -> P (settleAll R c sched).
Proof.
  intros Hc. apply settleAll_rule; [done |]. eapply (P_data c); [| done].
  by repeat split.
Qed.

End DataInvariants.

Section RunShape.

Import Content.

(** A completed run is the listing loop left by a [break], the settling of
    the pool, the removal pass, the index and the closing post. *)
Lemma runFrom_completed (R : captured) (sched : list (list nat)) (c0 c : state)
    (ix : list item) :
  runFrom R sched c0 = Completed c ix ->
  exists c1 sched',
    listingLoop R (S maxPages) sched c0 = LoopBreak c1 sched'
    /\ writeIndexFile (cap_env R) = None
    /\ let c2 := removalPass R (settleAll R c1 sched') in
       ix = writeIndex (metaMap c2)
       /\ exists tot,
           c = post (MsgSyncComplete tot (updatedCount c2) (skippedCount c2) (errorCount c2)
                       (didFullInventory c2) (Z.of_nat (size (metaMap c2)))) c2.
Proof.
  unfold runFrom. destruct (listingLoop R (S maxPages) sched c0) as [c1 sched' | |];
    [| done | done].
  unfold finishRun. destruct (writeIndexFile (cap_env R)) eqn:Hw; [done |].
  intros [= <- <-]. exists c1, sched'. split; [done |]. split; [done |].
  cbn zeta. split; [done |]. by eexists.
Qed.

End RunShape.

(** ** Bookkeeping of ids and errors *)

Section Accounting.

Import Content.

Context (R : captured).

Lemma progressOnly_refl (c : state) : progressOnly c c.
Proof. split; [| done]. exists []. by rewrite app_nil_r. Qed.

Lemma progressOnly_trans (c1 c2 c3 : state) :
  progressOnly c1 c2 -> progressOnly c2 c3 -> progressOnly c1 c3.
Proof.
  intros ((l1 & Ho1 & Hl1) & ? & ? & ? & ? & ? & ? & ?)
         ((l2 & Ho2 & Hl2) & ? & ? & ? & ? & ? & ? & ?).
  split; [| split_and!; congruence].
  exists (l1 ++ l2). rewrite Ho2, Ho1, app_assoc. split; [done |]. by apply Forall_app.
Qed.

Lemma advanceLoop_progressOnly (fuel : nat) (c : state) :
  progressOnly c (advanceLoop fuel c).
Proof.
  apply (advanceLoop_rule (progressOnly c)); [| apply progressOnly_refl].
  intros c' st _ _ Hc'. eapply progressOnly_trans; [done |].
  split; [| done]. eexists [_]. split; [done |]. by constructor.
Qed.

Lemma markPageItemDone_progressOnly (pageIndex : nat) (c : state) :
  progressOnly c (markPageItemDone R pageIndex c).
Proof.
  unfold markPageItemDone, maybeAdvanceCursor.
  repeat case_match; try apply progressOnly_refl.
  - eapply progressOnly_trans; [| apply advanceLoop_progressOnly].
    split; [| done]. exists []. by rewrite app_nil_r.
  - split; [| done]. exists []. by rewrite app_nil_r.
  - split; [| done]. exists []. by rewrite app_nil_r.
Qed.

Lemma errorPosts_app (l1 l2 : list message) :
  errorPosts (l1 ++ l2) = errorPosts l1 + errorPosts l2.
Proof. unfold errorPosts. rewrite filter_app, length_app. lia. Qed.

Lemma errorPosts_progress (msgs : list message) :
  Forall (fun m => isProgress m = true) msgs -> errorPosts msgs = 0.
Proof.
  intros Hm. unfold errorPosts.
  induction Hm as [| m l Hp _ IH]; [done |].
  rewrite filter_cons. destruct m; try done.
Qed.

Lemma errorPosts_singleton (msg : message) :
  errorPosts [msg] = if isErrorPost msg then 1 else 0.
Proof. by destruct msg. Qed.

Lemma accounted_progressOnly (m0 : gmap string metaEntry) (c c' : state) :
  progressOnly c c' -> accounted m0 c -> accounted m0 c'.
Proof.
  intros ((msgs & Ho & Hmsgs) & Hm & Hi & Hq & _ & _ & _ & He) (Hids & Hpl & Hdom & Herr).
  unfold accounted. rewrite Ho, Hm, Hi, Hq, He. split_and!; [| done | done |].
  - intros msg id [Hin | Hin]%elem_of_app; [by eauto |].
    rewrite Forall_forall in Hmsgs. specialize (Hmsgs msg Hin). by destruct msg.
  - rewrite errorPosts_app, (errorPosts_progress msgs) by done. lia.
Qed.

Lemma accounted_sameData (m0 : gmap string metaEntry) (c c' : state) :
  sameData c c' -> accounted m0 c -> accounted m0 c'.
Proof.
  intros (Hm & Hi & Hq & Ho & _ & _ & _ & He & _). unfold accounted.
  by rewrite Ho, Hm, Hi, Hq, He.
Qed.

(** A step that inserts metadata for [id], marks it as seen, and posts
    [msg] about it. *)
Lemma accounted_post (m0 : gmap string metaEntry) (c c' : state) (msg : message)
    (id : string) :
  accounted m0 c ->
  outbox c' = outbox c ++ [msg] ->
  (forall i, messageId msg = Some i -> i = id) ->
  id ∈ currentIds c' -> currentIds c ⊆ currentIds c' ->
  dom (metaMap c') ⊆ {[id]} ∪ dom (metaMap c) ->
  queue c' ⊆ queue c ->
  errorCount c' = errorCount c + (if isErrorPost msg then 1 else 0) ->
  accounted m0 c'.
Proof.
  intros (Hids & Hpl & Hdom & Herr) Ho Hmsg Hid Hsub Hmeta Hq He.
  unfold accounted. rewrite Ho, He. split_and!.
  - intros m i [Hin | ->%list_elem_of_singleton]%elem_of_app Hmi.
    + apply Hsub. by eapply Hids.
    + by rewrite (Hmsg i Hmi).
  - intros pl Hin. apply Hsub, Hpl. by apply Hq.
  - set_solver.
  - by rewrite errorPosts_app, Herr, errorPosts_singleton.
Qed.

Lemma processItem_accounted (m0 : gmap string metaEntry) (it : item) (pageIndex : nat)
    (c : state) :
  item_id it ∈ currentIds c -> accounted m0 c ->
  accounted m0 (processItem R it pageIndex c).
Proof.
  intros Hid Hacc. unfold processItem.
  eapply accounted_progressOnly; [apply markPageItemDone_progressOnly |].
  match goal with |- accounted m0 (set_processed _ ?c1) => cut (accounted m0 c1) end;
    [by intros ? |].
  repeat case_match.
  - eapply (accounted_post m0 c _ _ (item_id it)); try done; cbn; try done.
    + by intros i [= <-].
    + set_solver.
  - eapply (accounted_post m0 c _ _ (item_id it)); try done; cbn; try done.
    + by intros i [= <-].
    + rewrite dom_insert. set_solver.
  - eapply (accounted_post m0 c _ _ (item_id it)); try done; cbn; try done.
    + by intros i [= <-].
    + rewrite dom_insert. set_solver.
    + lia.
Qed.

Lemma workerStep_accounted (m0 : gmap string metaEntry) (c : state) (k : nat) :
  accounted m0 c -> accounted m0 (workerStep R c k).
Proof.
  intros Hacc. unfold workerStep. destruct (queue c !! k) as [pl |] eqn:Hk; [| done].
  assert (item_id (p_item pl) ∈ currentIds c) as Hid.
  { destruct Hacc as (_ & Hpl & _). apply Hpl. by eapply list_elem_of_lookup_2. }
  apply processItem_accounted; [done |].
  destruct Hacc as (Hids & Hpl & Hdom & Herr). split_and!; try done.
  intros pl' Hin. apply Hpl. cbn in Hin.
  by eapply list_elem_of_delete_inv.
Qed.

Lemma classifyItem_accounted (m0 : gmap string metaEntry) (pageIndex : nat) (c : state)
    (it : item) :
  accounted m0 c -> accounted m0 (classifyItem R pageIndex c it).
Proof.
  intros (Hids & Hpl & Hdom & Herr). unfold classifyItem. case_decide.
  - eapply accounted_progressOnly; [apply markPageItemDone_progressOnly |].
    eapply (accounted_post m0 c _ _ (item_id it)); [done | done | | | | | done |]; cbn.
    + by intros i [= <-].
    + set_solver.
    + set_solver.
    + rewrite dom_insert. set_solver.
    + lia.
  - unfold enqueueItem, accounted. cbn. split_and!.
    + intros msg id Hin Hmsg. apply elem_of_union_r. by eapply Hids.
    + intros pl [Hin | ->%list_elem_of_singleton]%elem_of_app; cbn; [| set_solver].
      apply elem_of_union_r. by apply Hpl.
    + rewrite dom_insert. set_solver.
    + done.
Qed.

(** The bookkeeping holds when the pool has been settled. *)
Lemma settled_accounted (m0 : gmap string metaEntry) (sched sched' : list (list nat))
    (c0 c1 : state) :
  accounted m0 c0 ->
  listingLoop R (S maxPages) sched c0 = LoopBreak c1 sched' ->
  accounted m0 (settleAll R c1 sched').
Proof.
  intros Hacc Hloop.
  apply (settleAll_data R (accounted m0));
    [apply accounted_sameData | apply workerStep_accounted |].
  change c1 with (exitState (LoopBreak c1 sched')). rewrite <- Hloop.
  apply (listingLoop_data R (accounted m0)); try done.
  - apply accounted_sameData.
  - intros. by apply classifyItem_accounted.
  - apply workerStep_accounted.
Qed.

End Accounting.

(** ** The removal pass *)

Section RemovalPass.

Import Content.

Context (R : captured).

Lemma removedIds_spec (c : state) (id : string) :
  id ∈ removedIds c <-> is_Some (metaMap c !! id) /\ id ∉ currentIds c.
Proof.
  unfold removedIds. rewrite list_elem_of_filter, list_elem_of_fmap. split.
  - intros [Hnot ([i e] & -> & Hin)]. apply elem_of_map_to_list in Hin.
    simpl in *. split; [by rewrite Hin | done].
  - intros [[e He] Hnot]. split; [done |]. exists (id, e). split; [done |].
    by apply elem_of_map_to_list.
Qed.

Lemma removeStep_spec (c : state) (i : string) :
  metaMap (removeStep R c i) = delete i (metaMap c)
  /\ deleted (removeStep R c i)
     = deleted c ++ (if deleteRemoved (cap_options R) then [i] else [])
  /\ errorCount (removeStep R c i)
     = errorCount c + (if deleteRemoved (cap_options R)
                       then failedDeletions (cap_env R) [i] else 0).
Proof.
  unfold removeStep, failedDeletions. rewrite filter_cons.
  destruct (deleteRemoved (cap_options R)); cbn.
  - destruct (deleteConversation (cap_env R) i) eqn:Hfail; cbn.
    + by rewrite decide_True.
    + rewrite decide_False by done. split_and!; [done | done | simpl; lia].
  - split_and!; [done | by rewrite app_nil_r | lia].
Qed.

Lemma failedDeletions_cons (E : env) (i : string) (ids : list string) :
  failedDeletions E (i :: ids) = failedDeletions E [i] + failedDeletions E ids.
Proof.
  unfold failedDeletions. rewrite !filter_cons. case_decide; simpl length; lia.
Qed.

Lemma removeSteps_spec (ids : list string) (c : state) :
  let c' := foldl (removeStep R) c ids in
  (forall id, metaMap c' !! id = if decide (id ∈ ids) then None else metaMap c !! id)
  /\ deleted c' = deleted c ++ (if deleteRemoved (cap_options R) then ids else [])
  /\ errorCount c' = errorCount c
                     + (if deleteRemoved (cap_options R)
                        then failedDeletions (cap_env R) ids else 0).
Proof.
  revert c. induction ids as [| i ids IH]; intros c.
  { cbn. split_and!; [done | by destruct (deleteRemoved _); rewrite app_nil_r |].
    unfold failedDeletions. destruct (deleteRemoved _); simpl; lia. }
  cbn [foldl]. destruct (IH (removeStep R c i)) as (Hm & Hd & He).
  destruct (removeStep_spec c i) as (Hm1 & Hd1 & He1). split_and!.
  - intros id. rewrite Hm, Hm1.
    destruct (decide (id = i)) as [-> |].
    + rewrite lookup_delete_eq. rewrite (decide_True _ _ (list_elem_of_here _ _)).
      by case_decide.
    + rewrite lookup_delete_ne by done.
      destruct (decide (id ∈ ids)) as [Hin | Hout].
      * by rewrite decide_True by (by right).
      * rewrite decide_False; [done |]. by intros [? | ?]%elem_of_cons.
  - rewrite Hd, Hd1. destruct (deleteRemoved (cap_options R)).
    + by rewrite <- app_assoc.
    + by rewrite !app_nil_r.
  - rewrite He, He1. destruct (deleteRemoved (cap_options R)); [| lia].
    rewrite (failedDeletions_cons _ i ids). lia.
Qed.

(** The removal pass of a completed full inventory: the metadata is cut
    down to the ids seen, the artifacts of the others are deleted when the
    option asks for it, and each failed deletion counts as an error. *)
Lemma removalPass_full (c : state) :
  didFullInventory c = true ->
  let c' := removalPass R c in
  (forall id, metaMap c' !! id = if decide (id ∈ currentIds c) then metaMap c !! id
                                 else None)
  /\ (forall id, id ∈ deleted c' <->
                 id ∈ deleted c
                 \/ (deleteRemoved (cap_options R) = true
                     /\ is_Some (metaMap c !! id) /\ id ∉ currentIds c))
  /\ errorCount c' = errorCount c
                     + (if deleteRemoved (cap_options R)
                        then failedDeletions (cap_env R) (removedIds c) else 0).
Proof.
  intros Hfull. unfold removalPass. rewrite Hfull.
  destruct (removeSteps_spec (removedIds c) c) as (Hm & Hd & He). split_and!.
  - intros id. rewrite Hm. case_decide as Hrem.
    + apply removedIds_spec in Hrem as [_ ?]. by rewrite decide_False.
    + destruct (decide (id ∈ currentIds c)); [done |].
      destruct (metaMap c !! id) eqn:Hid; [| done].
      exfalso. apply Hrem, removedIds_spec. by rewrite Hid.
  - intros id. rewrite Hd, elem_of_app.
    destruct (deleteRemoved (cap_options R)).
    + rewrite removedIds_spec. naive_solver.
    + rewrite elem_of_nil. naive_solver.
  - done.
Qed.

End RemovalPass.

(** ** What the service worker has seen when the run closes *)

Section Closing.

Import Background.

Lemma deliver_app (clock : nat -> Z) (k : nat) (l1 l2 : list message) (b : state) :
  deliver clock k (l1 ++ l2) b =
    deliver clock (k + length l1) l2 (deliver clock k l1 b).
Proof.
  revert k b. induction l1 as [| m l1 IH]; intros k b; simpl.
  - by rewrite Nat.add_0_r.
  - rewrite IH. f_equal. lia.
Qed.

Lemma onMessage_open (now : Z) (msg : message) (b : state) :
  closing msg = false ->
  settled (onMessage now msg b) = settled b
  /\ (forall id, id ∈ currentIds (onMessage now msg b) ->
                 id ∈ currentIds b \/ messageId msg = Some id).
Proof.
  intros Hmsg.
  destruct msg as [full ro lim | pr tot [[off lim] |] | id ttl ct t | id ttl ct t
                  | id err | tot u sk e full n | err]; try done; cbn;
    unfold bumpCheckpoint; rewrite ?maybeCheckpoint_settled.
  - split; [by destruct full |]. intros id.
    assert (currentIds (maybeCheckpoint now true
              (if full
               then update_nextState
                      (fun s => set_inventoryInProgress true
                                  (set_ss_inventoryCursor
                                     (Some (InventoryCursor (num_or ro 0)
                                              (if decide (lim = 0) then None else Some lim)
                                              (Some (nowIso now)))) s))
                      (set_fullInventoryMode full b)
               else update_nextState
                      (fun s => set_inventoryInProgress false
                                  (set_ss_inventoryCursor None s))
                      (set_fullInventoryMode full b))) = currentIds b) as ->; [| by left].
    unfold maybeCheckpoint. by destruct full, (_ && _).
  - destruct (fullInventoryMode b); [| by split; [| left]].
    rewrite maybeCheckpoint_settled. split; [done |]. intros id.
    unfold maybeCheckpoint. destruct (_ && _); by left.
  - split; [done |]. by left.
  - split; [done |]. intros i. unfold maybeCheckpoint, recordItem.
    destruct (_ && _); cbn; set_solver.
  - split; [done |]. intros i. unfold maybeCheckpoint, recordItem.
    destruct (_ && _); cbn; set_solver.
  - split; [by case_decide |]. intros i. unfold maybeCheckpoint.
    destruct (_ && _); case_decide; cbn; set_solver.
Qed.

(** While only ordinary messages and the sync-mode message arrive, the run
    stays open and the ids seen are among those the messages are about. *)
Lemma deliver_open (clock : nat -> Z) (msgs : list message) (k : nat) (b : state) :
  Forall (fun m => closing m = false) msgs ->
  settled b = Pending ->
  settled (deliver clock k msgs b) = Pending
  /\ (forall id, id ∈ currentIds (deliver clock k msgs b) ->
                 id ∈ currentIds b \/ exists m, m ∈ msgs /\ messageId m = Some id).
Proof.
  intros Hmsgs Hb. rewrite Forall_forall in Hmsgs.
  apply (deliver_invariant
           (fun b' => settled b' = Pending
                      /\ (forall id, id ∈ currentIds b' ->
                                     id ∈ currentIds b
                                     \/ exists m, m ∈ msgs /\ messageId m = Some id))
           clock msgs); [| by split; [| left]].
  intros j msg b' Hin _ [Hs Hids].
  destruct (onMessage_open (clock j) msg b' (Hmsgs msg Hin)) as [Hs' Hids'].
  split; [congruence |]. intros id Hid.
  destruct (Hids' id Hid) as [Hold | Hnew]; [by apply Hids | right; by exists msg].
Qed.

(** The state stored by a completion that reports a full inventory. *)
Lemma complete_full_persisted (s0 : syncState) (now tot u sk e n : Z) (b : state) :
  settled b = Pending ->
  let s' := persisted s0 (receive now (MsgSyncComplete tot u sk e true n) b) in
  conversations s' = prune (currentIds b) (conversations (nextState b))
  /\ meta s' = prune (currentIds b) (meta (nextState b))
  /\ lastRun s' = prune (currentIds b) (lastRun (nextState b)).
Proof. intros Hb. unfold receive. rewrite Hb. done. Qed.

Lemma prune_lookup_None {A} (ids : gset string) (m : gmap string A) (id : string) :
  id ∉ ids -> prune ids m !! id = None.
Proof.
  intros Hid. apply eq_None_not_Some. intros [x Hx].
  apply prune_lookup_Some in Hx as [_ ?]. done.
Qed.

End Closing.

Section RemovalPassRun.

Import Content.

Lemma contentStart_accounted (X : circumstances) (w : world) :
  accounted (metaMap (contentStart X w).2) (contentStart X w).2.
Proof.
  cbn. split_and!; cbn; [| by intros ? ?%elem_of_nil | set_solver | done].
  by intros msg id ->%list_elem_of_singleton.
Qed.

(** The state [cs] in which a completed run enters its removal pass. *)
Lemma completed_run (X : circumstances) (w : world) (c : state) (ix : list item) :
  contentRun X w = Completed c ix ->
  let R := (contentStart X w).1 in
  let c0 := (contentStart X w).2 in
  exists cs tot n,
    c = post (MsgSyncComplete tot (updatedCount (removalPass R cs))
                (skippedCount (removalPass R cs)) (errorCount (removalPass R cs))
                (didFullInventory cs) n) (removalPass R cs)
    /\ ix = writeIndex (metaMap c)
    /\ accounted (metaMap c0) cs
    /\ deleted cs = []
    /\ extends c0 cs
    /\ exists c1 sched', listingLoop R (S maxPages) (schedule X) c0 = LoopBreak c1 sched'
                         /\ cs = settleAll R c1 sched'.
Proof.
  intros Hrun R c0. rewrite contentRun_runFrom in Hrun.
  apply runFrom_completed in Hrun as (c1 & sched' & Hloop & _ & Hix & tot & Hc).
  fold R c0 in Hloop, Hix, Hc.
  destruct (contentStart_fields X w) as (Hp & Hl & Hd & _).
  pose proof (listingLoop_gate R (S maxPages) (schedule X) c0 c0 (loopHead_refl c0 Hp Hl))
    as Hgate.
  rewrite Hloop in Hgate. destruct Hgate as (_ & Hd1 & _ & He1).
  destruct (settleAll_sameControl R c1 sched') as (_ & _ & _ & _ & _ & _ & _ & Hd2).
  destruct (removalPass_fields R (settleAll R c1 sched')) as (_ & _ & Hf3 & _).
  exists (settleAll R c1 sched'), tot. eexists. split_and!.
  - rewrite Hc. by rewrite Hf3.
  - by rewrite Hc.
  - eapply settled_accounted; [apply contentStart_accounted | done].
  - change (deleted (set_listComplete true c1)) with (deleted c1) in Hd2.
    rewrite Hd2, Hd1. exact Hd.
  - eapply extends_trans; [done | apply settleAll_extends].
  - by exists c1, sched'.
Qed.

Lemma contentStart_captured (X : circumstances) (w : world) :
  cap_env (contentStart X w).1 = the_env X
  /\ cap_options (contentStart X w).1 = the_options X.
Proof. done. Qed.



(** A full inventory whose completion comes after the timer: C is deleted
    and dropped from index.json, and the stored state still holds it. *)
Example late_completion_keeps_stored_ids :
  let X := Scenario.slow Scenario.healthy Scenario.purge Scenario.day in
  match contentRun X Scenario.threeKnown with
  | Completed c ix =>
      didFullInventory c = true /\ deleted c = ["C"]
      /\ ix = [Scenario.convB; Scenario.convA]
  | Failed _ => False
  end
  /\ conversations (storage (after (syncOnce X Scenario.threeKnown))) !! "C" = Some 50
  /\ Background.settled (listener (syncOnce X Scenario.threeKnown))
     = Background.Rejected "Sync timed out".
Proof. cbn zeta. split_and!; by vm_compute. Qed.


End RemovalPassRun.

(** ** The listing loop follows [pagesListed] *)

Section Listed.

Import Content.

Context (R : captured).

Lemma classifyPage_control (pageIndex : nat) (pg : page) (c : state) :
  offset (classifyPage R pageIndex pg c) = offset c + Z.of_nat (length (items pg))
  /\ limit (classifyPage R pageIndex pg c) = limit c
  /\ pageCount (classifyPage R pageIndex pg c) = pageCount c.
Proof.
  unfold classifyPage. cbn [offset limit pageCount set_offset].
  destruct (classify_fold_sameControl R pageIndex (items pg) (registerPage R pageIndex pg c))
    as (_ & _ & _ & _ & Hl & Hp & _).
  destruct (registerPage_fields R pageIndex pg c) as (_ & Hp' & _).
  split; [done |]. split; [| congruence].
  rewrite Hl. unfold registerPage. by case_match.
Qed.

(** The control variables at the head of the next round. *)
Lemma next_round_control (pg : page) (c : state) (ks : list nat) :
  let c' := runWorkers R ks
              (classifyPage R (pageCount c) pg (countPage pg (set_limit (page_limit pg) c))) in
  offset c' = offset c + Z.of_nat (length (items pg))
  /\ limit c' = page_limit pg
  /\ pageCount c' = S (pageCount c).
Proof.
  cbn zeta.
  destruct (runWorkers_sameControl R ks
              (classifyPage R (pageCount c) pg (countPage pg (set_limit (page_limit pg) c))))
    as (_ & _ & _ & -> & -> & -> & _).
  destruct (classifyPage_control (pageCount c) pg (countPage pg (set_limit (page_limit pg) c)))
    as (-> & -> & ->).
  rewrite pageCount_countPage. unfold countPage. by case_decide.
Qed.

Lemma pagesListed_S (fuel : nat) (off lim : Z) (pc : nat) :
  pagesListed R (S fuel) off lim pc =
    match fetchConversationPage (fetchJson (cap_env R)) off lim with
    | inl _ => []
    | inr pg =>
        if decide (items pg = []) then []
        else if decide (maxPages < S pc)%nat then []
        else pg :: (if shouldContinue R pg (page_limit pg)
                    then pagesListed R fuel (off + Z.of_nat (length (items pg)))
                                     (page_limit pg) (S pc)
                    else [])
    end.
Proof. done. Qed.

(** An invariant whose preservation by the classification is only known for
    the items of the pages that are listed. *)
Lemma listingLoop_listed_rule (P : state -> Prop) :
  (forall c c', sameData c c' -> P c -> P c') ->
  (forall c k, P c -> P (workerStep R c k)) ->
  forall fuel sched c,
    (forall pg it pageIndex c',
        pg ∈ pagesListed R fuel (offset c) (limit c) (pageCount c) -> it ∈ items pg ->
        P c' -> P (classifyItem R pageIndex c' it)) ->
    P c -> P (exitState (listingLoop R fuel sched c)).
Proof.
  intros Hdata Hwork. induction fuel as [| fuel IH]; intros sched c Hclass Hc; [done |].
  rewrite listingLoop_S. rewrite pagesListed_S in Hclass.
  destruct (fetchConversationPage _ _ _) as [err | pg]; [done |].
  destruct (decide (items pg = [])) as [Hnil | Hne].
  { eapply (Hdata c); [| done]. by case_decide. }
  destruct (decide (maxPages < S (pageCount c))%nat) as [Hceil | Hroom].
  { eapply (Hdata c); [| done]. unfold countPage. by case_decide. }
  cbn zeta.
  assert (P (classifyPage R (pageCount c) pg (countPage pg (set_limit (page_limit pg) c))))
    as Hpage.
  { unfold classifyPage.
    eapply (Hdata (foldl (classifyItem R (pageCount c))
                     (registerPage R (pageCount c) pg
                        (countPage pg (set_limit (page_limit pg) c))) (items pg)));
      [by repeat split |].
    apply classify_fold_rule.
    - intros c' it Hit. apply (Hclass pg); [by left | done].
    - eapply (Hdata c); [| done]. unfold registerPage, countPage. by repeat case_match. }
  destruct (shouldContinue R pg (page_limit pg)) eqn:Hcont; [| done].
  apply IH; [| by apply runWorkers_rule].
  destruct (next_round_control pg c (default [] (head sched))) as (-> & -> & ->).
  intros pg' it pageIndex c' Hin. apply Hclass. by right.
Qed.

Lemma classifyItem_seen (pageIndex : nat) (c : state) (it : item) :
  item_id it ∈ currentIds (classifyItem R pageIndex c it).
Proof.
  unfold classifyItem. case_decide.
  - match goal with
    | |- _ ∈ currentIds (markPageItemDone R pageIndex ?c4) =>
        destruct (markPageItemDone_extends R pageIndex c4) as (_ & Hsub & _)
    end.
    apply Hsub. cbn. set_solver.
  - cbn. set_solver.
Qed.

End Listed.

(** ** Classification and the stopping rule of a partial pass *)

Section PartialPass.

Import Content.

Context (R : captured).

(** An item that is not newer than the watermark of its id is reported as
    unchanged and nothing is queued for it. *)
Lemma classifyItem_unchanged (pageIndex : nat) (c : state) (it : item) :
  observedTime it <= watermark (knownConversations R) (item_id it) ->
  let e := listedEntry (watermark (knownConversations R) (item_id it))
                       (metaMap c !! item_id it) it in
  let c' := classifyItem R pageIndex c it in
  queue c' = queue c
  /\ metaMap c' = <[item_id it := e]> (metaMap c)
  /\ currentIds c' = {[item_id it]} ∪ currentIds c
  /\ skippedCount c' = skippedCount c + 1
  /\ updatedCount c' = updatedCount c
  /\ errorCount c' = errorCount c
  /\ exists progress,
      outbox c' = outbox c
                  ++ MsgConversationSkip (item_id it) (str_or (item_title it) "")
                       (create_time e) (update_time e) :: progress
      /\ Forall (fun m => isProgress m = true) progress.
Proof.
  intros Hold. cbn zeta. unfold classifyItem, watermark in *.
  rewrite decide_True by done.
  match goal with
  | |- context [markPageItemDone R pageIndex ?c4] =>
      destruct (markPageItemDone_progressOnly R pageIndex c4)
        as ((progress & Ho & Hp) & -> & -> & -> & _ & -> & -> & ->)
  end.
  split_and!; try done. exists progress. rewrite Ho. cbn. by rewrite <- app_assoc.
Qed.

(** An item that is newer than the watermark of its id is queued for a
    body fetch and nothing is posted for it yet. *)
Lemma classifyItem_pending (pageIndex : nat) (c : state) (it : item) :
  watermark (knownConversations R) (item_id it) < observedTime it ->
  let e := listedEntry (watermark (knownConversations R) (item_id it))
                       (metaMap c !! item_id it) it in
  classifyItem R pageIndex c it =
    set_queue (queue c ++ [Payload it pageIndex])
      (set_metaMap (<[item_id it := e]> (metaMap c))
         (set_currentIds ({[item_id it]} ∪ currentIds c) c)).
Proof.
  intros Hnew. cbn zeta. unfold classifyItem, watermark in *.
  by rewrite decide_False by lia.
Qed.

Lemma stopForTime_spec (pg : page) :
  stopForTime R pg = true <->
    exists W, stopAfterTime R = Some W /\ W <> 0 /\ pageMinUpdate pg <> 0
              /\ pageMinUpdate pg <= W.
Proof.
  unfold stopForTime. destruct (stopAfterTime R) as [W |].
  - rewrite !andb_true_iff, !bool_decide_eq_true. split.
    + intros [[? ?] ?]. by exists W.
    + intros (W' & [= <-] & ? & ? & ?). done.
  - split; [done | by intros (W & ? & _)].
Qed.

Lemma shouldContinue_stop (pg : page) (lim : Z) :
  stopForTime R pg = true -> shouldContinue R pg lim = false.
Proof. unfold shouldContinue. by intros ->. Qed.

(** A page on which the stopping rule fires is the last page listed. *)
Lemma pagesListed_stop (fuel : nat) (off lim : Z) (pc i : nat) (pg : page) :
  pagesListed R fuel off lim pc !! i = Some pg ->
  stopForTime R pg = true ->
  length (pagesListed R fuel off lim pc) = S i.
Proof.
  revert off lim pc i. induction fuel as [| fuel IH]; intros off lim pc i; [done |].
  rewrite pagesListed_S.
  destruct (fetchConversationPage _ _ _) as [err | pg0]; [done |].
  destruct (decide (items pg0 = [])); [done |].
  destruct (decide (maxPages < S pc)%nat); [done |].
  destruct i as [| i]; simpl.
  - intros [= ->] Hstop. by rewrite shouldContinue_stop.
  - destruct (shouldContinue R pg0 (page_limit pg0)); [| done].
    intros Hi Hstop. f_equal. by eapply IH.
Qed.

End PartialPass.

Section PartialPassRun.

Import Content.

Lemma getMaxKnownUpdateTime_spec (known : gmap string Z) :
  0 <= getMaxKnownUpdateTime known
  /\ (forall id, watermark known id <= getMaxKnownUpdateTime known)
  /\ (getMaxKnownUpdateTime known = 0
      \/ exists id, known !! id = Some (getMaxKnownUpdateTime known)).
Proof.
  unfold getMaxKnownUpdateTime.
  apply (map_fold_weak_ind
           (fun W m => 0 <= W /\ (forall id, watermark m id <= W)
                       /\ (W = 0 \/ exists id, m !! id = Some W))).
  { split; [done |]. split; [| by left]. intros id. unfold watermark.
    by rewrite lookup_empty. }
  intros i v m W Hfresh (Hnn & Hmax & Hatt). case_decide as Hlt; split_and!.
  - lia.
  - intros id. unfold watermark. destruct (decide (i = id)) as [<- |].
    + rewrite lookup_insert_eq. simpl. lia.
    + rewrite lookup_insert_ne by done. specialize (Hmax id). unfold watermark in Hmax. lia.
  - right. exists i. by rewrite lookup_insert_eq.
  - done.
  - intros id. unfold watermark. destruct (decide (i = id)) as [<- |].
    + rewrite lookup_insert_eq. simpl. lia.
    + rewrite lookup_insert_ne by done. apply Hmax.
  - destruct Hatt as [? | [id Hid]]; [by left |]. right. exists id.
    rewrite lookup_insert_ne; [done |]. intros <-. congruence.
Qed.

Lemma tryLimits_page (fj : Z -> Z -> string + rawPage) (off : Z) (err : string)
    (limits : list Z) (pg : page) :
  tryLimits fj off err limits = inr pg ->
  pageMinUpdate pg = computePageMinUpdate (items pg).
Proof.
  revert err. induction limits as [| cand rest IH]; intros err; [done |]. simpl.
  destruct (fj off cand) as [e | data]; [apply IH |]. by intros [= <-].
Qed.

Lemma fetchConversationPage_min (fj : Z -> Z -> string + rawPage) (off lim : Z)
    (pg : page) :
  fetchConversationPage fj off lim = inr pg ->
  pageMinUpdate pg = computePageMinUpdate (items pg).
Proof. apply tryLimits_page. Qed.

Lemma foldr_min_seed (a b : Z) (rest : list item) :
  foldr (fun i m => Z.min (observedTime i) m) (Z.min a b) rest =
    Z.min b (foldr (fun i m => Z.min (observedTime i) m) a rest).
Proof. induction rest as [| i rest IH]; simpl; lia. Qed.

Lemma foldl_pageMinStep (m : Z) (rest : list item) :
  m <> 0 ->
  Forall (fun it => observedTime it <> 0) rest ->
  foldl pageMinStep m rest = foldr (fun i acc => Z.min (observedTime i) acc) m rest.
Proof.
  intros Hm Hrest. revert m Hm.
  induction Hrest as [| i rest Hi _ IH]; intros m Hm; [done |]. simpl.
  assert (pageMinStep m i = Z.min m (observedTime i)) as ->.
  { unfold pageMinStep. rewrite decide_False by done. case_decide; lia. }
  rewrite IH by lia. rewrite foldr_min_seed. lia.
Qed.

(** On a page whose items all carry a time, [pageMinUpdate] is the minimum. *)
Lemma computePageMinUpdate_minimum (its : list item) :
  Forall (fun it => observedTime it <> 0) its ->
  computePageMinUpdate its = pageMinimum its.
Proof.
  destruct its as [| it rest]; [done |]. intros [Hit Hrest]%Forall_cons.
  unfold computePageMinUpdate, pageMinimum. simpl.
  assert (pageMinStep 0 it = observedTime it) as -> by done.
  by apply foldl_pageMinStep.
Qed.

Lemma classifyItem_currentIds (R : captured) (pageIndex : nat) (c : state) (it : item) :
  currentIds (classifyItem R pageIndex c it) = {[item_id it]} ∪ currentIds c.
Proof.
  destruct (decide (observedTime it <= watermark (knownConversations R) (item_id it))).
  - by destruct (classifyItem_unchanged R pageIndex c it) as (_ & _ & -> & _).
  - by rewrite classifyItem_pending by lia.
Qed.

Lemma classify_fold_currentIds (R : captured) (pageIndex : nat) (its : list item)
    (c : state) :
  currentIds (foldl (classifyItem R pageIndex) c its) = idsOf its ∪ currentIds c.
Proof.
  revert c. induction its as [| it its IH]; intros c; simpl.
  - unfold idsOf. set_solver.
  - rewrite IH, classifyItem_currentIds. unfold idsOf. simpl. set_solver.
Qed.

Lemma processItem_currentIds (R : captured) (it : item) (pageIndex : nat) (c : state) :
  currentIds (processItem R it pageIndex c) = currentIds c.
Proof.
  unfold processItem.
  match goal with
  | |- currentIds (markPageItemDone R pageIndex ?c1) = _ =>
      destruct (markPageItemDone_progressOnly R pageIndex c1) as (_ & _ & -> & _)
  end.
  by repeat case_match.
Qed.

Lemma workerStep_currentIds (R : captured) (c : state) (k : nat) :
  currentIds (workerStep R c k) = currentIds c.
Proof. unfold workerStep. case_match; [| done]. by rewrite processItem_currentIds. Qed.

Lemma runWorkers_currentIds (R : captured) (ks : list nat) (c : state) :
  currentIds (runWorkers R ks c) = currentIds c.
Proof.
  apply (runWorkers_rule R (fun c' => currentIds c' = currentIds c)); [| done].
  intros c' k <-. apply workerStep_currentIds.
Qed.

Lemma settleAll_currentIds (R : captured) (c : state) (sched : list (list nat)) :
  currentIds (settleAll R c sched) = currentIds c.
Proof.
  apply (settleAll_rule R (fun c' => currentIds c' = currentIds c)); [| done].
  intros c' k <-. apply workerStep_currentIds.
Qed.

Lemma classifyPage_currentIds (R : captured) (pageIndex : nat) (pg : page) (c : state) :
  currentIds (classifyPage R pageIndex pg c) = idsOf (items pg) ∪ currentIds c.
Proof.
  unfold classifyPage. cbn [currentIds set_offset]. rewrite classify_fold_currentIds.
  by destruct (registerPage_fields R pageIndex pg c) as (_ & _ & _ & _ & -> & _).
Qed.

(** The ids seen by the listing loop are those of the pages listed. *)
Lemma listingLoop_currentIds (R : captured) (fuel : nat) (sched : list (list nat))
    (c : state) :
  currentIds (exitState (listingLoop R fuel sched c)) =
    currentIds c ∪ idsOf (itemsOf (pagesListed R fuel (offset c) (limit c) (pageCount c))).
Proof.
  revert sched c. induction fuel as [| fuel IH]; intros sched c.
  { cbn. unfold idsOf, itemsOf. set_solver. }
  rewrite listingLoop_S, pagesListed_S.
  destruct (fetchConversationPage _ _ _) as [err | pg].
  { cbn. unfold idsOf, itemsOf. set_solver. }
  destruct (decide (items pg = [])).
  { case_decide; cbn; unfold idsOf, itemsOf; set_solver. }
  destruct (decide (maxPages < S (pageCount c))%nat).
  { cbn. destruct (countPage_fields pg (set_limit (page_limit pg) c))
      as (_ & _ & _ & _ & -> & _). cbn. unfold idsOf, itemsOf. set_solver. }
  cbn zeta.
  assert (currentIds (classifyPage R (pageCount c) pg
                        (countPage pg (set_limit (page_limit pg) c)))
          = idsOf (items pg) ∪ currentIds c) as Hpage.
  { rewrite classifyPage_currentIds.
    by destruct (countPage_fields pg (set_limit (page_limit pg) c))
      as (_ & _ & _ & _ & -> & _). }
  destruct (shouldContinue R pg (page_limit pg)).
  - rewrite IH. destruct (next_round_control R pg c (default [] (head sched)))
      as (-> & -> & ->).
    rewrite runWorkers_currentIds, Hpage. unfold idsOf, itemsOf. simpl.
    rewrite fmap_app. set_solver.
  - cbn [exitState]. rewrite Hpage. unfold idsOf, itemsOf. simpl.
    rewrite app_nil_r. set_solver.
Qed.

(** The ids seen by a completed run are those of the pages listed. *)
Lemma completed_currentIds (X : circumstances) (w : world) (c : state) (ix : list item) :
  contentRun X w = Completed c ix ->
  currentIds c = idsOf (itemsOf (listed (contentStart X w).1 (contentStart X w).2)).
Proof.
  intros Hrun.
  destruct (completed_run X w c ix Hrun) as (cs & tot & n & Hc & _ & _ & _ & _ & Hloop).
  destruct Hloop as (c1 & sched' & Hloop & ->).
  destruct (contentStart_fields X w) as (_ & _ & _ & _ & Hids & _).
  rewrite Hc. cbn [currentIds post set_outbox].
  destruct (removalPass_fields (contentStart X w).1
              (settleAll (contentStart X w).1 c1 sched')) as (_ & _ & _ & _ & ->).
  rewrite settleAll_currentIds.
  change c1 with (exitState (LoopBreak c1 sched')). rewrite <- Hloop.
  rewrite listingLoop_currentIds, Hids. by rewrite (left_id_L ∅ (∪)).
Qed.

Lemma pagesListed_fetched (R : captured) (fuel : nat) (off lim : Z) (pc : nat) (pg : page) :
  pg ∈ pagesListed R fuel off lim pc ->
  exists off' lim', fetchConversationPage (fetchJson (cap_env R)) off' lim' = inr pg.
Proof.
  revert off lim pc. induction fuel as [| fuel IH]; intros off lim pc.
  { by intros ?%elem_of_nil. }
  rewrite pagesListed_S.
  destruct (fetchConversationPage _ _ _) as [err | pg0] eqn:Hfetch;
    [by intros ?%elem_of_nil |].
  destruct (decide (items pg0 = [])); [by intros ?%elem_of_nil |].
  destruct (decide (maxPages < S pc)%nat); [by intros ?%elem_of_nil |].
  intros [-> | Hin]%elem_of_cons; [by eauto |].
  destruct (shouldContinue R pg0 (page_limit pg0)); [by eapply IH |].
  by apply elem_of_nil in Hin.
Qed.

Lemma contentStart_mode (X : circumstances) (w : world) :
  let R := (contentStart X w).1 in
  stopAfterTime R = if forceFullInventory R then None
                    else Some (getMaxKnownUpdateTime (knownConversations R)).
Proof. done. Qed.



End PartialPassRun.

(** ** index.json, written and read back *)

Section IndexFile.

Import Content.

Lemma readIndexStep_conversations (acc : knownState) (entry : item) (id : string) :
  ks_conversations (readIndexStep acc entry) !! id =
    if decide (item_id entry = id /\ id <> "")
    then Some (toEpochSeconds (item_update_time entry))
    else ks_conversations acc !! id.
Proof.
  unfold readIndexStep. destruct (decide (item_id entry = "")) as [He | He].
  - rewrite decide_False; [done |]. intros [<- ?]. done.
  - cbn. destruct (decide (item_id entry = id)) as [<- | Hne].
    + rewrite lookup_insert_eq. by rewrite decide_True.
    + rewrite lookup_insert_ne by done. rewrite decide_False; [done |]. by intros [? _].
Qed.

(** Whatever the file holds, the state read from it has no empty id, and
    its watermark for an id is the update time of its metadata for that
    id. *)
Lemma readIndex_consistent (file : option (list item)) (ix : knownState) :
  readIndex file = Some ix ->
  ks_conversations ix !! "" = None
  /\ forall id t, ks_conversations ix !! id = Some t ->
                  exists e, ks_meta ix !! id = Some e /\ update_time e = t.
Proof.
  unfold readIndex. destruct file as [entries |]; [| done]. intros [= <-].
  assert (forall acc,
             (ks_conversations acc !! "" = None
              /\ forall id t, ks_conversations acc !! id = Some t ->
                              exists e, ks_meta acc !! id = Some e /\ update_time e = t) ->
             ks_conversations (foldl readIndexStep acc entries) !! "" = None
             /\ forall id t,
                 ks_conversations (foldl readIndexStep acc entries) !! id = Some t ->
                 exists e, ks_meta (foldl readIndexStep acc entries) !! id = Some e
                           /\ update_time e = t) as Hfold.
  { induction entries as [| entry rest IH]; intros acc Hacc; [done |].
    simpl. apply IH. destruct Hacc as [Hempty Hcons]. unfold readIndexStep.
    destruct (decide (item_id entry = "")) as [He | He]; [done |]. cbn. split.
    - by rewrite lookup_insert_ne.
    - intros id t. destruct (decide (item_id entry = id)) as [<- | Hne].
      + rewrite !lookup_insert_eq. intros [= <-]. by eexists.
      + rewrite !lookup_insert_ne by done. apply Hcons. }
  apply Hfold. split; [done |]. intros id t. cbn. by rewrite lookup_empty.
Qed.

Lemma readIndex_entries (kvs : list (string * metaEntry)) (acc : knownState) (id : string) :
  NoDup kvs.*1 ->
  ks_conversations (foldl readIndexStep acc (indexEntry <$> kvs)) !! id =
    match (list_to_map kvs : gmap string metaEntry) !! id with
    | Some e => if decide (id = "") then ks_conversations acc !! id
                else Some (update_time e)
    | None => ks_conversations acc !! id
    end.
Proof.
  revert acc. induction kvs as [| [k e] rest IH]; intros acc Hnd; [done |].
  apply NoDup_cons in Hnd as [Hk Hnd]. simpl. rewrite IH by done.
  rewrite readIndexStep_conversations. cbn.
  destruct (decide (k = id)) as [-> | Hne].
  - rewrite lookup_insert_eq.
    assert ((list_to_map rest : gmap string metaEntry) !! id = None) as ->
      by (by apply not_elem_of_list_to_map_1).
    destruct (decide (id = "")) as [-> | Hid].
    + by rewrite decide_False by (by intros [_ ?]).
    + by rewrite decide_True.
  - rewrite lookup_insert_ne by done.
    rewrite (decide_False (P := k = id /\ id <> "")) by (by intros [? _]). done.
Qed.

(** index.json as written at the end of a run, read at the start of the
    next: every non-empty id of the metadata comes back with its update
    time. *)
Lemma readIndex_writeIndex (m : gmap string metaEntry) :
  exists ix,
    readIndex (Some (writeIndex m)) = Some ix
    /\ forall id, ks_conversations ix !! id =
                  if decide (id = "") then None else update_time <$> (m !! id).
Proof.
  eexists. split; [done |]. intros id. unfold writeIndex.
  assert (NoDup (merge_sort newerFirst (map_to_list m)).*1) as Hnd.
  { rewrite merge_sort_Permutation. apply NoDup_fst_map_to_list. }
  rewrite readIndex_entries by done.
  rewrite (list_to_map_proper _ (map_to_list m) Hnd (merge_sort_Permutation _ _)).
  rewrite list_to_map_to_list.
  destruct (m !! id) as [e |]; cbn; rewrite ?lookup_empty; by case_decide.
Qed.

End IndexFile.

(** ** What a partial pass leaves for the next one *)

Section Floor.

Import Content.

Context (R : captured) (T : string -> Z) (stored : gmap string Z).

#[local] Abbreviation kept := (floorKept T (knownConversations R) stored).

Lemma floorKept_sameData (c c' : state) : sameData c c' -> kept c -> kept c'.
Proof.
  intros (Hm & Hi & Hq & _). unfold floorKept. by rewrite Hm, Hi, Hq.
Qed.

Lemma floorKept_progressOnly (c c' : state) : progressOnly c c' -> kept c -> kept c'.
Proof.
  intros (_ & Hm & Hi & Hq & _). unfold floorKept. by rewrite Hm, Hi, Hq.
Qed.

(** A step that stores [e] for [id], with [e] at least as new as the record,
    the known watermark and the entry it replaces. *)
Lemma floorKept_insert (c c' : state) (id : string) (e : metaEntry) :
  kept c ->
  metaMap c' = <[id := e]> (metaMap c) ->
  currentIds c ⊆ currentIds c' ->
  T id <= update_time e ->
  watermark (knownConversations R) id <= update_time e ->
  (forall pl, pl ∈ queue c' ->
              pl ∈ queue c
              \/ (observedTime (p_item pl) = T (item_id (p_item pl))
                  /\ item_id (p_item pl) ∈ currentIds c'
                  /\ watermark (knownConversations R) (item_id (p_item pl))
                     < observedTime (p_item pl))) ->
  (forall i, i ∈ currentIds c' -> i = id \/ i ∈ currentIds c) ->
  kept c'.
Proof.
  intros (Hseen & Hfloor & Hq) Hm Hsub HT HK Hq' Hids. unfold floorKept. rewrite Hm.
  split_and!.
  - intros i Hi. destruct (decide (id = i)) as [<- |].
    + rewrite lookup_insert_eq. by eexists.
    + rewrite lookup_insert_ne by done. destruct (Hids i Hi) as [-> | Hold]; [done |].
      by apply Hseen.
  - intros i. destruct (decide (id = i)) as [<- |].
    + right. rewrite lookup_insert_eq. by eexists.
    + rewrite lookup_insert_ne by done. apply Hfloor.
  - intros pl Hpl. destruct (Hq' pl Hpl) as [Hold | Hnew]; [| done].
    destruct (Hq pl Hold) as (? & ? & ?). split_and!; [done | by apply Hsub | done].
Qed.

Lemma classifyItem_floorKept (pageIndex : nat) (c : state) (it : item) :
  observedTime it = T (item_id it) -> kept c -> kept (classifyItem R pageIndex c it).
Proof.
  intros HT Hc.
  set (e := listedEntry (watermark (knownConversations R) (item_id it))
                        (metaMap c !! item_id it) it).
  assert (T (item_id it) <= update_time e
          /\ watermark (knownConversations R) (item_id it) <= update_time e) as [He1 He2].
  { unfold e, listedEntry. cbn. lia. }
  destruct (decide (observedTime it <= watermark (knownConversations R) (item_id it)))
    as [Hold | Hnew].
  - destruct (classifyItem_unchanged R pageIndex c it Hold) as (Hq & Hm & Hi & _).
    eapply (floorKept_insert c _ (item_id it) e); try done.
    + rewrite Hi. set_solver.
    + intros pl. rewrite Hq. by left.
    + intros i. rewrite Hi. set_solver.
  - rewrite classifyItem_pending by lia.
    eapply (floorKept_insert c _ (item_id it) e); try done; cbn.
    + set_solver.
    + intros pl [Hin | ->%list_elem_of_singleton]%elem_of_app; [by left | right].
      cbn. split_and!; [done | set_solver | lia].
    + set_solver.
Qed.

Lemma processItem_floorKept (it : item) (pageIndex : nat) (c : state) :
  observedTime it = T (item_id it) ->
  item_id it ∈ currentIds c ->
  watermark (knownConversations R) (item_id it) < observedTime it ->
  kept c -> kept (processItem R it pageIndex c).
Proof.
  intros HT Hid Hnew Hc. unfold processItem.
  eapply floorKept_progressOnly; [apply markPageItemDone_progressOnly |].
  match goal with |- kept (set_processed _ ?c1) => cut (kept c1) end; [by intros ? |].
  destruct (fetchConversation (cap_env R) (item_id it)) as [err | conv]; [done |].
  assert (kept (set_metaMap (<[item_id it := fetchedEntry it conv]> (metaMap c)) c)) as H0.
  { eapply (floorKept_insert c _ (item_id it) (fetchedEntry it conv)); try done; cbn.
    - lia.
    - lia.
    - intros pl ?. by left.
    - intros i ?. by right. }
  by destruct (writeConversation (cap_env R) (item_id it) conv).
Qed.

Lemma workerStep_floorKept (c : state) (k : nat) : kept c -> kept (workerStep R c k).
Proof.
  intros Hc. unfold workerStep. destruct (queue c !! k) as [pl |] eqn:Hk; [| done].
  destruct Hc as (Hseen & Hfloor & Hq).
  destruct (Hq pl) as (HT & Hid & Hnew); [by eapply list_elem_of_lookup_2 |].
  apply processItem_floorKept; try done.
  split_and!; [done | done |]. intros pl' Hin. apply Hq. cbn in Hin.
  by eapply list_elem_of_delete_inv.
Qed.

(** The pool is settled with the invariant intact when every listed item
    carries the time of its record. *)
Lemma settled_floorKept (sched sched' : list (list nat)) (c0 c1 : state) :
  (forall it, it ∈ itemsOf (listed R c0) -> observedTime it = T (item_id it)) ->
  kept c0 ->
  listingLoop R (S maxPages) sched c0 = LoopBreak c1 sched' ->
  kept (settleAll R c1 sched').
Proof.
  intros HT Hc0 Hloop.
  apply (settleAll_data R (floorKept T (knownConversations R) stored));
    [apply floorKept_sameData | apply workerStep_floorKept |].
  change c1 with (exitState (LoopBreak c1 sched')). rewrite <- Hloop.
  apply (listingLoop_listed_rule R (floorKept T (knownConversations R) stored));
    [apply floorKept_sameData | apply workerStep_floorKept | | done].
  intros pg it pageIndex c' Hpg Hit. apply classifyItem_floorKept, HT.
  unfold itemsOf, listed. apply list_elem_of_bind. by exists pg.
Qed.

End Floor.

Section FloorAtStart.

Import Content.

Lemma knownAtStart_floor (kc : gmap string Z) (km : gmap string metaEntry)
    (file : option (list item)) (id : string) :
  let known := knownAtStart kc km file in
  watermark (ks_conversations known) id <= watermark kc id
  \/ exists e, ks_meta known !! id = Some e
               /\ watermark (ks_conversations known) id <= update_time e.
Proof.
  cbn zeta. unfold knownAtStart.
  destruct (readIndex file) as [ix |] eqn:Hread; [| by left].
  destruct (readIndex_consistent file ix Hread) as [Hempty Hcons].
  unfold mergeKnownState. cbn [ks_conversations ks_meta].
  unfold watermark at 1 3. rewrite mergeConversations_lookup.
  destruct (ks_conversations ix !! id) as [t |] eqn:Hid; [| by left].
  cbn [default from_option]. unfold Datatypes.id.
  destruct (decide (t <= watermark kc id)) as [Hle | Hgt]; [left; lia | right].
  destruct (Hcons id t Hid) as (e0 & He0 & Ht).
  assert (id <> "") as Hne by (intros ->; congruence).
  rewrite mergeMeta_lookup, He0. unfold mergedEntry. rewrite decide_False by done.
  destruct (km !! id) as [cur |]; [case_decide |]; eexists; (split; [done | lia]).
Qed.

Lemma contentStart_floorKept (X : circumstances) (w : world) (T : string -> Z) :
  floorKept T (knownConversations (contentStart X w).1) (conversations (storage w))
            (contentStart X w).2.
Proof.
  destruct (contentStart_fields X w) as (_ & _ & _ & _ & Hi & Hq & _).
  unfold floorKept. rewrite Hi, Hq. split_and!.
  - by intros id ?%not_elem_of_empty.
  - intros id. apply knownAtStart_floor.
  - by intros pl ?%elem_of_nil.
Qed.

End FloorAtStart.

(** ** The stored watermarks across a partial pass *)

Section Raises.

Import Background.

Lemma raises_refl (s : syncState) : raises s s.
Proof. by intros id. Qed.

Lemma raises_trans (s1 s2 s3 : syncState) : raises s1 s2 -> raises s2 s3 -> raises s1 s3.
Proof. intros H12 H23 id. specialize (H12 id). specialize (H23 id). lia. Qed.

Lemma raises_same_conversations (s s' : syncState) :
  conversations s' = conversations s -> raises s s'.
Proof. intros Heq id. by rewrite Heq. Qed.

Lemma insert_max_raises (s s' : syncState) (id : string) (t : Z) :
  conversations s' = <[id := Z.max (watermark (conversations s) id) t]> (conversations s) ->
  raises s s'.
Proof.
  intros Heq i. rewrite Heq. unfold watermark at 2. destruct (decide (id = i)) as [-> |].
  - rewrite lookup_insert_eq. simpl. lia.
  - by rewrite lookup_insert_ne.
Qed.

Lemma onMessage_raises (now : Z) (msg : message) (b : state) :
  reportsFullInventory msg = false ->
  raises (nextState b) (nextState (onMessage now msg b)).
Proof.
  intros Hmsg.
  destruct msg as [full ro lim | pr tot [[off lim] |] | id ttl ct t | id ttl ct t
                  | id err | tot u sk e full n | err]; cbn.
  - rewrite maybeCheckpoint_nextState. apply raises_same_conversations. by destruct full.
  - destruct (fullInventoryMode b); [| by apply raises_same_conversations].
    unfold bumpCheckpoint. rewrite maybeCheckpoint_nextState.
    by apply raises_same_conversations.
  - by apply raises_same_conversations.
  - unfold bumpCheckpoint. rewrite maybeCheckpoint_nextState. cbn.
    eapply insert_max_raises, recordItem_conversations.
  - unfold bumpCheckpoint. rewrite maybeCheckpoint_nextState. cbn.
    eapply insert_max_raises, recordItem_conversations.
  - unfold bumpCheckpoint. rewrite maybeCheckpoint_nextState.
    apply raises_same_conversations. cbn. by case_decide.
  - simpl in Hmsg. subst full.
    apply raises_same_conversations. by destruct (fullInventoryMode b).
  - by apply raises_same_conversations.
Qed.

Lemma deliver_raises (s0 : syncState) (clock : nat -> Z) (msgs : list message)
    (k : nat) (b : state) :
  Forall (fun m => reportsFullInventory m = false) msgs ->
  raises s0 (nextState b) ->
  Forall (raises s0) (saved b) ->
  Forall (raises s0) (saved (deliver clock k msgs b)).
Proof.
  intros Hmsgs Hg Hs. rewrite Forall_forall in Hmsgs.
  apply (deliver_invariant
           (fun b => raises s0 (nextState b) /\ Forall (raises s0) (saved b)) clock msgs);
    [| done].
  intros j msg b' Hin _ [Hg' Hs'].
  assert (raises s0 (nextState (onMessage (clock j) msg b'))) as Hn
    by (eapply raises_trans; [done | apply onMessage_raises; auto]).
  split; [done |].
  destruct (onMessage_saved (clock j) msg b') as [-> | ->]; [done |]. by constructor.
Qed.

(** A run that does not report a full inventory lowers no stored watermark. *)
Lemma syncOnce_raises (X : circumstances) (w : world) :
  Forall (fun m => reportsFullInventory m = false) (posted (contentRun X w)) ->
  raises (storage w) (storage (after (syncOnce X w))).
Proof.
  intros Hmsgs. destruct (syncOnce_heard X w) as (msgs & Hpre & _ & ->).
  apply persisted_Forall; [apply raises_refl |].
  apply deliver_raises; [| apply raises_refl | constructor].
  by apply (Forall_prefix _ msgs (posted (contentRun X w))).
Qed.

End Raises.

(** ** A second partial pass against the same remote *)

Section SecondPass.

Import Content.

(** A later watermark stops the listing no later. *)
Lemma pagesListed_subset (R1 R2 : captured) (fuel : nat) (off lim : Z) (pc : nat)
    (pg : page) :
  fetchJson (cap_env R2) = fetchJson (cap_env R1) ->
  (forall p, stopForTime R1 p = true -> stopForTime R2 p = true) ->
  pg ∈ pagesListed R2 fuel off lim pc ->
  pg ∈ pagesListed R1 fuel off lim pc.
Proof.
  intros Hfj Hstop. revert off lim pc. induction fuel as [| fuel IH]; intros off lim pc.
  { done. }
  rewrite !pagesListed_S, Hfj.
  destruct (fetchConversationPage _ _ _) as [err | pg0]; [done |].
  destruct (decide (items pg0 = [])); [done |].
  destruct (decide (maxPages < S pc)%nat); [done |].
  intros [-> | Hin]%elem_of_cons; [by left | right].
  destruct (shouldContinue R2 pg0 (page_limit pg0)) eqn:H2;
    [| by apply elem_of_nil in Hin].
  assert (shouldContinue R1 pg0 (page_limit pg0) = true) as ->; [| by apply IH].
  unfold shouldContinue in *. apply andb_true_iff in H2 as [Hno ->].
  rewrite andb_true_r. destruct (stopForTime R1 pg0) eqn:H1; [| done].
  by rewrite (Hstop _ H1) in Hno.
Qed.

Lemma stopForTime_mono (R1 R2 : captured) (W1 W2 : Z) (pg : page) :
  stopAfterTime R1 = Some W1 -> stopAfterTime R2 = Some W2 ->
  0 <= W1 <= W2 ->
  stopForTime R1 pg = true -> stopForTime R2 pg = true.
Proof.
  intros H1 H2 HW. rewrite !stopForTime_spec.
  intros (W & HW1 & ? & ? & ?). assert (W = W1) as -> by congruence.
  exists W2. split_and!; [done | lia | done | lia].
Qed.

Lemma getMaxKnownUpdateTime_mono (K1 K2 : gmap string Z) :
  (forall id, watermark K1 id <= watermark K2 id) ->
  getMaxKnownUpdateTime K1 <= getMaxKnownUpdateTime K2.
Proof.
  intros Hle.
  destruct (getMaxKnownUpdateTime_spec K1) as (_ & _ & [-> | [id Hid]]).
  - apply getMaxKnownUpdateTime_spec.
  - destruct (getMaxKnownUpdateTime_spec K2) as (_ & Hmax & _).
    specialize (Hle id). specialize (Hmax id). unfold watermark in Hle at 1.
    rewrite Hid in Hle. simpl in Hle. lia.
Qed.

Context (R : captured).

Lemma nothingFetched_sameData (c c' : state) :
  sameData c c' -> nothingFetched c -> nothingFetched c'.
Proof.
  intros (_ & _ & Hq & Ho & _ & Hu & _). unfold nothingFetched. by rewrite Hq, Ho, Hu.
Qed.

Lemma workerStep_nothingFetched (c : state) (k : nat) :
  nothingFetched c -> nothingFetched (workerStep R c k).
Proof. intros Hc. unfold workerStep. by rewrite (proj1 Hc), lookup_nil. Qed.

Lemma classifyItem_nothingFetched (pageIndex : nat) (c : state) (it : item) :
  observedTime it <= watermark (knownConversations R) (item_id it) ->
  nothingFetched c -> nothingFetched (classifyItem R pageIndex c it).
Proof.
  intros Hold (Hq & Hu & Ho).
  destruct (classifyItem_unchanged R pageIndex c it Hold)
    as (Hq' & _ & _ & _ & Hu' & _ & progress & Ho' & Hp).
  unfold nothingFetched. rewrite Hq', Hu', Ho'. split_and!; [done | done |].
  apply Forall_app. split; [done |]. constructor; [done |].
  eapply Forall_impl; [done |]. by intros [].
Qed.

(** When every listed item is at most as new as the watermark of its id,
    the run ends without a single fetch. *)
Lemma runFrom_nothingFetched (sched : list (list nat)) (c0 : state) :
  (forall it, it ∈ itemsOf (listed R c0) ->
              observedTime it <= watermark (knownConversations R) (item_id it)) ->
  nothingFetched c0 ->
  nothingFetched (finalState (runFrom R sched c0)).
Proof.
  intros Hold Hc0. unfold runFrom.
  assert (nothingFetched (exitState (listingLoop R (S maxPages) sched c0))) as Hloop.
  { apply (listingLoop_listed_rule R nothingFetched);
      [apply nothingFetched_sameData | apply workerStep_nothingFetched | | done].
    intros pg it pageIndex c' Hpg Hit. apply classifyItem_nothingFetched, Hold.
    unfold itemsOf, listed. apply list_elem_of_bind. by exists pg. }
  destruct (listingLoop R (S maxPages) sched c0) as [c1 sched' | c1 err | c1];
    cbn [exitState] in Hloop.
  - unfold finishRun.
    assert (nothingFetched (settleAll R c1 sched')) as (Hq & Hu & Ho)
      by (apply (settleAll_data R nothingFetched);
          [apply nothingFetched_sameData | apply workerStep_nothingFetched | done]).
    assert (nothingFetched (removalPass R (settleAll R c1 sched'))) as (Hq' & Hu' & Ho').
    { destruct (removalPass_fields R (settleAll R c1 sched')) as (_ & _ & _ & Ho3 & _).
      unfold nothingFetched. rewrite Ho3. split_and!; [| | done].
      - unfold removalPass. case_match; [| done].
        generalize (removedIds (settleAll R c1 sched')). intros ids.
        revert Hq. generalize (settleAll R c1 sched').
        induction ids as [| i ids IH]; intros c Hc; [done |]. simpl. apply IH.
        unfold removeStep. by repeat case_match.
      - unfold removalPass. case_match; [| done].
        generalize (removedIds (settleAll R c1 sched')). intros ids.
        revert Hu. generalize (settleAll R c1 sched').
        induction ids as [| i ids IH]; intros c Hc; [done |]. simpl. apply IH.
        unfold removeStep. by repeat case_match. }
    destruct (writeIndexFile (cap_env R)); cbn [finalState]; unfold nothingFetched; cbn;
      (split_and!; [done | done |]); apply Forall_app; (split; [done |]); by constructor.
  - destruct Hloop as (Hq & Hu & Ho). cbn [finalState]. unfold nothingFetched. cbn.
    split_and!; [done | done |]. apply Forall_app. split; [done |]. by constructor.
  - done.
Qed.

End SecondPass.

(** ** Two partial passes in succession *)

Section Idempotence.

Import Content.

Lemma knownAtStart_empty_id (kc : gmap string Z) (km : gmap string metaEntry)
    (file : option (list item)) :
  watermark (ks_conversations (knownAtStart kc km file)) "" = watermark kc "".
Proof.
  unfold knownAtStart. destruct (readIndex file) as [ix |] eqn:Hread; [| done].
  destruct (readIndex_consistent file ix Hread) as [He _].
  unfold mergeKnownState. cbn [ks_conversations]. unfold watermark.
  by rewrite mergeConversations_lookup, He.
Qed.

(** What the next run knows is below neither the stored watermarks nor the
    update times written to index.json. *)
Lemma knownAtStart_above (kc : gmap string Z) (km m : gmap string metaEntry) (id : string) :
  let K := ks_conversations (knownAtStart kc km (Some (writeIndex m))) in
  watermark kc id <= watermark K id
  /\ (forall e, id <> "" -> m !! id = Some e -> update_time e <= watermark K id).
Proof.
  cbn zeta. unfold knownAtStart.
  destruct (readIndex_writeIndex m) as (ix & -> & Hix).
  unfold mergeKnownState. cbn [ks_conversations].
  unfold watermark at 2 3. rewrite mergeConversations_lookup, Hix.
  destruct (decide (id = "")) as [-> | Hne].
  - split; [unfold watermark; lia | done].
  - destruct (m !! id) as [e |]; cbn.
    + split; [lia |]. intros e' _ [= <-]. lia.
    + split; [unfold watermark; lia | done].
Qed.

Lemma contentStart_partial (X : circumstances) (w : world) :
  forceFullInventory (contentStart X w).1 = false ->
  let c0 := (contentStart X w).2 in
  offset c0 = 0 /\ limit c0 = 100 /\ pageCount c0 = 0%nat /\ nothingFetched c0.
Proof.
  unfold contentStart, startRun, nothingFetched. cbn. intros ->. cbn.
  split_and!; try done. by repeat constructor.
Qed.

(** What a completed partial pass leaves behind. *)
Lemma completed_partial (X : circumstances) (w : world) (T : string -> Z)
    (c : state) (ix : list item) :
  let R := (contentStart X w).1 in
  let c0 := (contentStart X w).2 in
  contentRun X w = Completed c ix ->
  forceFullInventory R = false ->
  (forall it, it ∈ itemsOf (listed R c0) -> observedTime it = T (item_id it)) ->
  ix = writeIndex (metaMap c)
  /\ (forall it, it ∈ itemsOf (listed R c0) ->
                 exists e, metaMap c !! item_id it = Some e /\ T (item_id it) <= update_time e)
  /\ (forall id, watermark (knownConversations R) id <= watermark (conversations (storage w)) id
                 \/ exists e, metaMap c !! id = Some e
                              /\ watermark (knownConversations R) id <= update_time e)
  /\ Forall (fun m => reportsFullInventory m = false) (posted (contentRun X w)).
Proof.
  intros R c0 Hrun Hmode HT.
  destruct (contentStart_fields X w) as (Hp & Hl & _ & Hf0 & _).
  fold R c0 in Hp, Hl, Hf0.
  assert (didFullInventory c = false) as Hpartial.
  { pose proof (runFrom_gate R (schedule X) c0 Hp Hl) as Hgate.
    rewrite contentRun_runFrom in Hrun. fold R c0 in Hrun. rewrite Hrun in Hgate.
    destruct Hgate as (_ & Hfull & _). destruct (didFullInventory c); [| done].
    rewrite Hfull in Hf0 by done. congruence. }
  pose proof (completed_currentIds X w c ix Hrun) as Hids.
  destruct (completed_run X w c ix Hrun) as (cs & tot & n & Hc & Hix & _ & _ & _ & Hloop).
  destruct Hloop as (c1 & sched' & Hloop & Hcs). fold R c0 in Hc, Hloop, Hids.
  assert (didFullInventory cs = false) as Hcsf.
  { destruct (removalPass_fields R cs) as (_ & _ & Hf3 & _).
    rewrite Hc in Hpartial. cbn in Hpartial. congruence. }
  rewrite (removalPass_partial R cs Hcsf) in Hc.
  assert (floorKept T (knownConversations R) (conversations (storage w)) cs)
    as (Hlisted & Hknown & _).
  { rewrite Hcs. eapply settled_floorKept; [exact HT | | exact Hloop].
    apply contentStart_floorKept. }
  assert (metaMap c = metaMap cs) as Hm by by rewrite Hc.
  assert (currentIds c = currentIds cs) as Hi by by rewrite Hc.
  split_and!.
  - done.
  - intros it Hit. rewrite Hm. apply Hlisted. rewrite <- Hi, Hids.
    unfold idsOf. apply elem_of_list_to_set, list_elem_of_fmap. by exists it.
  - intros id. rewrite Hm. apply Hknown.
  - apply Forall_forall. intros m Hin.
    destruct (reportsFullInventory m) eqn:Hfull; [| done].
    destruct (posted_full X w) as (c' & ix' & Hrun' & Hc').
    { apply Exists_exists. by exists m. }
    congruence.
Qed.

End Idempotence.

(** ** A failed body fetch and the pass after it *)

Section FailedFetch.

Import Content.

(** C2, at a concrete input.  The remote lists B (update time 200) and A
    (update time 100); A is known with watermark 100, B is unknown, and the
    body fetch of B fails.  The first pass posts the error, the listener
    records a run record with status error and the message, and the stored
    watermark of B is left as it was.  But the listed update time of B is in
    the index the pass writes, so the next partial pass, for which the body
    fetch would succeed, knows B at 200, reports it unchanged and does not
    fetch it. *)
Theorem failed_fetch_not_retried :
  let X1 := Scenario.at_ Scenario.failing Scenario.keep Scenario.day in
  let X2 := Scenario.at_ Scenario.healthy Scenario.keep Scenario.day in
  let w1 := after (syncOnce X1 Scenario.oneKnown) in
  posted (contentRun X1 Scenario.oneKnown)
  = [MsgSyncMode false 0 100; MsgConversationSkip "A" "first" 10 100;
     MsgConversationError "B" "Request failed: 500"; MsgSyncComplete 2 0 1 1 false 2]
  /\ lastRun (storage w1) !! "B"
     = Some (RunRecord StatusError 0 (Iso (Scenario.day + 3)) (Some "Request failed: 500"))
  /\ conversations (storage w1) !! "B" = conversations (storage Scenario.oneKnown) !! "B"
  /\ indexFile w1 = Some [Scenario.convB; Scenario.convA]
  /\ forceFullInventory (contentStart X2 w1).1 = false
  /\ knownConversations (contentStart X2 w1).1 !! "B" = Some 200
  /\ posted (contentRun X2 w1)
     = [MsgSyncMode false 0 100; MsgConversationSkip "B" "second" 20 200;
        MsgConversationSkip "A" "first" 10 100; MsgSyncComplete 2 0 2 0 false 2].
Proof. cbn zeta. split_and!; by vm_compute. Qed.

End FailedFetch.

(** ** The order of the cursor messages *)

Section CursorTrace.

Lemma cursors_app (l1 l2 : list message) : cursors (l1 ++ l2) = cursors l1 ++ cursors l2.
Proof. apply omap_app. Qed.

Lemma settledIds_app (l1 l2 : list message) :
  settledIds (l1 ++ l2) = settledIds l1 ++ settledIds l2.
Proof. apply omap_app. Qed.

Lemma itemsOf_app (p1 p2 : list page) : itemsOf (p1 ++ p2) = itemsOf p1 ++ itemsOf p2.
Proof. apply bind_app. Qed.

Lemma endOf_app (off : Z) (p1 p2 : list page) :
  endOf off (p1 ++ p2) = endOf (endOf off p1) p2.
Proof. unfold endOf. rewrite itemsOf_app, length_app. lia. Qed.

Lemma endOf_cons (off : Z) (pg : page) (pages : list page) :
  endOf off (pg :: pages) = endOf (off + Z.of_nat (length (items pg))) pages.
Proof.
  change (pg :: pages) with ([pg] ++ pages). rewrite (endOf_app off [pg] pages).
  f_equal. unfold endOf, itemsOf. simpl. by rewrite app_nil_r.
Qed.

Lemma pageEnds_app (off : Z) (p1 p2 : list page) :
  pageEnds off (p1 ++ p2) = pageEnds off p1 ++ pageEnds (endOf off p1) p2.
Proof.
  revert off. induction p1 as [| pg p1 IH]; intros off; simpl.
  - unfold endOf. simpl. by rewrite Z.add_0_r.
  - by rewrite IH, endOf_cons.
Qed.

Lemma pageEnds_length (off : Z) (pages : list page) :
  length (pageEnds off pages) = length pages.
Proof. revert off. induction pages as [| pg pages IH]; intros off; simpl; [done |]. by rewrite IH. Qed.

Lemma cursorsInOrder_quiet (off0 : Z) (pages : list page) (msgs : list message) :
  Forall (fun m => cursorOf m = None) msgs -> cursorsInOrder off0 pages msgs.
Proof.
  intros Hq pre msg rest off -> Hc. rewrite Forall_app, Forall_cons in Hq.
  destruct Hq as (_ & Hmsg & _). congruence.
Qed.

Lemma cursorsInOrder_snoc (off0 : Z) (pages : list page) (msgs : list message)
    (msg : message) :
  cursorsInOrder off0 pages msgs ->
  (forall off, cursorOf msg = Some off ->
               pageEnds off0 pages !! length (cursors msgs) = Some off
               /\ item_id <$> itemsOf (take (S (length (cursors msgs))) pages)
                  ⊆+ settledIds msgs) ->
  cursorsInOrder off0 pages (msgs ++ [msg]).
Proof.
  intros Hmsgs Hlast pre m rest off Heq Hc.
  destruct rest as [| r rest _] using rev_ind.
  - apply app_inj_tail in Heq as [<- <-]. by apply Hlast.
  - rewrite app_comm_cons, app_assoc in Heq. apply app_inj_tail in Heq as [-> _].
    by apply (Hmsgs pre m rest off).
Qed.

Lemma cursorsInOrder_more (off0 : Z) (pages more : list page) (msgs : list message) :
  cursorsInOrder off0 pages msgs -> cursorsInOrder off0 (pages ++ more) msgs.
Proof.
  intros Hmsgs pre m rest off Heq Hc.
  destruct (Hmsgs pre m rest off Heq Hc) as [Hend Hids].
  pose proof (lookup_lt_Some _ _ _ Hend) as Hlt. rewrite pageEnds_length in Hlt.
  split.
  - rewrite pageEnds_app. by apply lookup_app_l_Some.
  - by rewrite take_app_le by lia.
Qed.

(** The cursor messages carry the next offsets of the first pages. *)
Lemma cursorsInOrder_prefix (off0 : Z) (pages : list page) (msgs : list message) :
  cursorsInOrder off0 pages msgs -> cursors msgs `prefix_of` pageEnds off0 pages.
Proof.
  induction msgs as [| msg msgs IH] using rev_ind; intros Hmsgs.
  { apply prefix_nil. }
  assert (cursorsInOrder off0 pages msgs) as Hinit.
  { intros pre m rest off -> Hc. apply (Hmsgs pre m (rest ++ [msg]) off); [| done].
    by rewrite <- app_assoc. }
  specialize (IH Hinit). rewrite cursors_app. unfold cursors at 2. simpl.
  destruct (cursorOf msg) as [off |] eqn:Hc; simpl; [| by rewrite app_nil_r].
  destruct (Hmsgs msgs msg [] off eq_refl Hc) as [Hend _].
  destruct IH as [tl Htl]. rewrite Htl in Hend.
  rewrite lookup_app_r in Hend by done. rewrite Nat.sub_diag in Hend.
  destruct tl as [| x tl]; [done |]. injection Hend as ->.
  exists tl. by rewrite Htl, <- app_assoc.
Qed.

(** Every page has an item, so the next offsets increase strictly. *)
Lemma pageEnds_increase (off : Z) (pages : list page) :
  Forall (fun pg => items pg <> []) pages ->
  StronglySorted Z.lt (off :: pageEnds off pages).
Proof.
  revert off. induction pages as [| pg pages IH]; intros off Hne.
  { repeat constructor. }
  apply Forall_cons in Hne as [Hpg Hne]. simpl.
  specialize (IH (off + Z.of_nat (length (items pg))) Hne).
  assert (off < off + Z.of_nat (length (items pg))) as Hlt.
  { destruct (items pg); [done |]. simpl. lia. }
  constructor; [done |]. constructor; [done |].
  apply StronglySorted_inv in IH as [_ Hall].
  eapply Forall_impl; [exact Hall |]. simpl. lia.
Qed.

End CursorTrace.

(** ** The bookkeeping behind the cursor *)

Section CursorBookkeeping.

Import Content.

Lemma pendingIds_snoc (j : nat) (q : list payload) (pl : payload) :
  pendingIds j (q ++ [pl])
  = pendingIds j q ++ (if decide (p_pageIndex pl = j) then [item_id (p_item pl)] else []).
Proof.
  unfold pendingIds. rewrite filter_app, fmap_app. f_equal.
  rewrite filter_cons, filter_nil. by case_decide.
Qed.

Lemma pendingIds_delete (j k : nat) (q : list payload) (pl : payload) :
  q !! k = Some pl ->
  pendingIds j q
  ≡ₚ (if decide (p_pageIndex pl = j) then [item_id (p_item pl)] else [])
     ++ pendingIds j (delete k q).
Proof.
  intros Hk. rewrite delete_take_drop. rewrite <- (take_drop_middle q k pl Hk) at 1.
  unfold pendingIds. rewrite !filter_app, filter_cons, !fmap_app.
  case_decide; simpl; [| done]. by rewrite Permutation_middle.
Qed.

Lemma pendingIds_none (j : nat) (q : list payload) :
  (forall pl, pl ∈ q -> p_pageIndex pl <> j) -> pendingIds j q = [].
Proof.
  intros Hq. unfold pendingIds. induction q as [| pl q IH]; [done |].
  rewrite filter_cons. rewrite decide_False by (apply Hq; by left).
  apply IH. intros pl' Hin. apply Hq. by right.
Qed.

Lemma unsettled_other (cur : nat) (rest : list item) (q : list payload) (j : nat) :
  j <> cur -> unsettled cur rest q j = pendingIds j q.
Proof. intros Hne. unfold unsettled. by rewrite decide_False, app_nil_r. Qed.

Lemma unsettled_nil (cur : nat) (q : list payload) (j : nat) :
  unsettled cur [] q j = pendingIds j q.
Proof. unfold unsettled. case_decide; by rewrite app_nil_r. Qed.

Lemma concat_alter_cons (F : list (list string)) (j : nat) (id : string) :
  (j < length F)%nat -> concat (alter (cons id) j F) ≡ₚ id :: concat F.
Proof.
  revert j. induction F as [| Fj F IH]; intros j Hj; simpl in Hj; [lia |].
  destruct j as [| j]; [done |].
  change (concat (alter (cons id) (S j) (Fj :: F)))
    with (Fj ++ concat (alter (cons id) j F)).
  rewrite IH by lia. simpl. by rewrite Permutation_middle.
Qed.

(** Pages whose items all have an outcome. *)
Lemma concat_complete (m : nat) (pages : list page) (F : list (list string)) :
  length F = length pages ->
  (forall j pg Fj, (j < m)%nat -> pages !! j = Some pg -> F !! j = Some Fj ->
                   Fj ≡ₚ item_id <$> items pg) ->
  concat (take m F) ≡ₚ item_id <$> itemsOf (take m pages).
Proof.
  revert m F. induction pages as [| pg pages IH]; intros m F Hlen Hall.
  { destruct F; [| done]. by rewrite !take_nil. }
  destruct F as [| Fj F]; [done |]. destruct m as [| m]; [done |].
  change (take (S m) (pg :: pages)) with ([pg] ++ take m pages).
  change (concat (take (S m) (Fj :: F))) with (Fj ++ concat (take m F)).
  rewrite itemsOf_app, fmap_app.
  assert (itemsOf [pg] = items pg) as -> by (unfold itemsOf; simpl; by rewrite app_nil_r).
  apply Permutation_app.
  - apply (Hall 0%nat); [lia | done | done].
  - apply IH; [by injection Hlen |]. intros j pg' Fj' Hj. apply (Hall (S j)). lia.
Qed.

Context (R : captured) (off0 : Z).

(** A step that posts nothing and leaves the cursor and the page entries
    alone, whatever it does to the pool as long as the unsettled ids of each
    page stay the same. *)
Lemma cursorInv_same (pages : list page) (cur cur' : nat) (rest rest' : list item)
    (owed : option nat) (F : list (list string)) (c c' : state) :
  cursorInv off0 pages cur rest owed F c ->
  outbox c' = outbox c -> nextCursorIndex c' = nextCursorIndex c ->
  pageStates c' = pageStates c ->
  (forall pl, pl ∈ queue c' -> (p_pageIndex pl < length pages)%nat) ->
  (forall i, unsettled cur rest (queue c) i ≡ₚ unsettled cur' rest' (queue c') i) ->
  cursorInv off0 pages cur' rest' owed F c'.
Proof.
  intros [Hlen Hset Hord Hidx Hbnd Hq Hnone Howed Hpage] Ho Hn Hp Hq' Hun.
  split; rewrite ?Ho, ?Hn, ?Hp; try done.
  intros j pg Fj Hpg HFj. destruct (Hpage j pg Fj Hpg HFj) as (st & Hst & Hend & Hperm & Hcase).
  exists st. rewrite Hp, Hn. split; [done |]. split; [done |].
  split; [by rewrite <- Hun |].
  destruct (done st).
  - destruct Hcase as [Hnil Hne]. split; [| done].
    apply Permutation_nil_r. rewrite <- Hun, Hnil. done.
  - by rewrite <- Hun.
Qed.

Lemma cursorInv_frame (pages : list page) (cur : nat) (rest : list item)
    (owed : option nat) (F : list (list string)) (c c' : state) :
  cursorInv off0 pages cur rest owed F c ->
  outbox c' = outbox c -> nextCursorIndex c' = nextCursorIndex c ->
  pageStates c' = pageStates c -> queue c' = queue c ->
  cursorInv off0 pages cur rest owed F c'.
Proof.
  intros Hinv Ho Hn Hp Hq. apply (cursorInv_same pages cur cur rest rest owed F c c');
    try done.
  - rewrite Hq. apply Hinv.
  - intros i. by rewrite Hq.
Qed.

(** Pages before the cursor index are done, and a done page has an outcome
    for each of its items. *)
Lemma cursorInv_complete (pages : list page) (cur : nat) (rest : list item)
    (owed : option nat) (F : list (list string)) (c : state) (n : nat) (st : pageState) :
  cursorInv off0 pages cur rest owed F c ->
  pageStates c !! n = Some st -> done st = true ->
  (nextCursorIndex c <= n)%nat ->
  (forall j, (nextCursorIndex c <= j)%nat -> (j < n)%nat ->
             exists st', pageStates c !! j = Some st' /\ done st' = true) ->
  item_id <$> itemsOf (take (S n) pages) ⊆+ settledIds (outbox c).
Proof.
  intros [Hlen Hset Hord Hidx Hbnd Hq Hnone Howed Hpage] Hst Hdone Hle Hbetween.
  rewrite Hset. rewrite <- (take_drop (S n) F). rewrite concat_app.
  apply submseteq_inserts_r, Permutation_submseteq. symmetry.
  apply concat_complete; [done |].
  intros j pg Fj Hj Hpg HFj.
  destruct (Hpage j pg Fj Hpg HFj) as (stj & Hstj & _ & Hperm & Hcase).
  assert (done stj = true) as Hdj.
  { destruct (decide (j = n)) as [-> | Hne]; [congruence |].
    destruct (decide (nextCursorIndex c <= j)%nat) as [Hge | Hlt].
    - destruct (Hbetween j Hge) as (st' & Hst' & Hd'); [lia | congruence].
    - destruct (done stj); [done |]. destruct Hcase as (_ & _ & ?). lia. }
  rewrite Hdj in Hcase. destruct Hcase as [Hnil _].
  by rewrite Hnil, app_nil_r in Hperm.
Qed.

(** The [while] of [maybeAdvanceCursor]. *)
Lemma advanceLoop_inv (pages : list page) (cur : nat) (rest : list item)
    (owed : option nat) (F : list (list string)) (fuel : nat) (c : state) :
  cursorInv off0 pages cur rest owed F c ->
  cursorInv off0 pages cur rest owed F (advanceLoop fuel c).
Proof.
  apply (advanceLoop_rule (cursorInv off0 pages cur rest owed F)).
  clear c. intros c st Hst Hdone Hinv.
  pose proof Hinv as [Hlen Hset Hord Hidx Hbnd Hq Hnone Howed Hpage].
  assert (nextCursorIndex c < length pages)%nat as Hn.
  { destruct (decide (nextCursorIndex c < length pages)%nat); [done |].
    rewrite Hnone in Hst by lia. done. }
  destruct (lookup_lt_is_Some_2 pages _ Hn) as [pg Hpg].
  destruct (lookup_lt_is_Some_2 F (nextCursorIndex c)) as [Fn HFn]; [lia |].
  destruct (Hpage _ pg Fn Hpg HFn) as (st' & Hst' & Hend & _).
  assert (st' = st) as -> by congruence.
  split; cbn [outbox nextCursorIndex queue pageStates post set_outbox set_nextCursorIndex];
    try done.
  - by rewrite settledIds_app, app_nil_r.
  - apply cursorsInOrder_snoc; [done |]. intros off [= <-]. rewrite <- Hidx.
    split; [done |].
    apply (cursorInv_complete pages cur rest owed F c _ st Hinv Hst Hdone); [lia |].
    intros j ? ?. lia.
  - rewrite cursors_app, length_app. simpl. lia.
  - intros j pg' Fj Hpg' HFj.
    destruct (Hpage j pg' Fj Hpg' HFj) as (stj & Hstj & Hendj & Hperm & Hcase).
    exists stj. split; [done |]. split; [done |]. split; [done |].
    destruct (done stj) eqn:Hdj; [done |].
    destruct Hcase as (Hrem & Hpos & Hle). split; [done |]. split; [done |].
    cbn [nextCursorIndex post set_outbox set_nextCursorIndex].
    destruct (decide (j = nextCursorIndex c)) as [-> | Hne]; [congruence | lia].
Qed.

(** [markPageItemDone] for the page of an item whose outcome is posted. *)
Lemma markPageItemDone_inv (pages : list page) (cur : nat) (rest : list item)
    (F : list (list string)) (j : nat) (c : state) :
  cursorInv off0 pages cur rest (Some j) F c ->
  cursorInv off0 pages cur rest None F (markPageItemDone R j c).
Proof.
  intros Hinv. pose proof Hinv as [Hlen Hset Hord Hidx Hbnd Hq Hnone Howed Hpage].
  pose proof (Howed j eq_refl) as Hj.
  destruct (lookup_lt_is_Some_2 pages j Hj) as [pg Hpg].
  destruct (lookup_lt_is_Some_2 F j) as [Fj HFj]; [lia |].
  destruct (Hpage j pg Fj Hpg HFj) as (st & Hst & Hend & Hperm & Hcase).
  unfold markPageItemDone. rewrite Hst.
  destruct (done st) eqn:Hd; [by destruct Hcase as [_ ?] |].
  destruct Hcase as (Hrem & Hpos & Hle). rewrite decide_True in Hrem by done.
  assert (forall d : bool,
             (if d then unsettled cur rest (queue c) j = [] else True) ->
             (if d then True else 1 <= remaining st - 1) ->
             cursorInv off0 pages cur rest None F
               (set_pageStates
                  (<[j := PageState (remaining st - 1) (nextOffset st) (ps_limit st) d]>
                     (pageStates c)) c)) as Hmark.
  { intros d Hd1 Hd2.
    split; cbn [outbox nextCursorIndex queue pageStates set_pageStates]; try done.
    - intros i Hi. rewrite lookup_insert_ne by lia. by apply Hnone.
    - intros i pg' Fi Hpg' HFi. unfold pageAccount.
      cbn [outbox nextCursorIndex queue pageStates set_pageStates].
      destruct (decide (i = j)) as [-> | Hne].
      + assert (pg' = pg) as -> by congruence. assert (Fi = Fj) as -> by congruence.
        eexists. rewrite lookup_insert_eq. split; [done |]. split; [done |].
        split; [done |]. cbn [done remaining]. destruct d.
        * done.
        * rewrite decide_False by done. split; [lia |]. done.
      + destruct (Hpage i pg' Fi Hpg' HFi) as (sti & Hsti & Hendi & Hpermi & Hcasei).
        exists sti. rewrite lookup_insert_ne by done. split; [done |]. split; [done |].
        split; [done |]. destruct (done sti).
        * by destruct Hcasei.
        * rewrite decide_False in Hcasei by congruence. by rewrite decide_False. }
  case_decide as Hleft.
  - unfold maybeAdvanceCursor.
    assert (unsettled cur rest (queue c) j = []) as Hnil.
    { apply length_zero_iff_nil. lia. }
    case_match; [apply advanceLoop_inv |]; by apply Hmark.
  - apply Hmark; [done | lia].
Qed.

(** A step that posts the outcome of an item of page [j]. *)
Lemma settle_inv (pages : list page) (cur : nat) (rest rest' : list item)
    (F : list (list string)) (c c' : state) (j : nat) (id : string) (msg : message) :
  cursorInv off0 pages cur rest None F c ->
  (j < length pages)%nat ->
  outbox c' = outbox c ++ [msg] -> messageId msg = Some id ->
  nextCursorIndex c' = nextCursorIndex c -> pageStates c' = pageStates c ->
  (forall pl, pl ∈ queue c' -> pl ∈ queue c) ->
  (forall i, unsettled cur rest (queue c) i
             ≡ₚ (if decide (i = j) then [id] else []) ++ unsettled cur rest' (queue c') i) ->
  cursorInv off0 pages cur rest' (Some j) (alter (cons id) j F) c'.
Proof.
  intros [Hlen Hset Hord Hidx Hbnd Hq Hnone Howed Hpage] Hj Ho Hid Hn Hp Hq' Hun.
  assert (cursorOf msg = None) as Hquiet by by destruct msg.
  split; rewrite ?Ho, ?Hn, ?Hp.
  - by rewrite length_alter.
  - rewrite settledIds_app. unfold settledIds at 2. simpl. rewrite Hid. simpl.
    rewrite concat_alter_cons by lia. rewrite Hset. by rewrite <- Permutation_cons_append.
  - apply cursorsInOrder_snoc; [done |]. intros off. congruence.
  - rewrite cursors_app. unfold cursors at 2. simpl. rewrite Hquiet. simpl.
    by rewrite app_nil_r.
  - done.
  - intros pl Hin. by apply Hq, Hq'.
  - done.
  - by intros ? [= <-].
  - intros i pg Fi' Hpg HFi'.
    destruct (lookup_lt_is_Some_2 F i) as [Fi HFi].
    { rewrite Hlen. by eapply lookup_lt_Some. }
    destruct (Hpage i pg Fi Hpg HFi) as (st & Hst & Hend & Hperm & Hcase).
    exists st. rewrite Hp, Hn. split; [done |]. split; [done |].
    specialize (Hun i).
    destruct (decide (i = j)) as [-> | Hne].
    + rewrite list_lookup_alter_eq, HFi in HFi'. injection HFi' as <-.
      split.
      { rewrite Hun in Hperm. rewrite <- Hperm. simpl. by rewrite Permutation_middle. }
      destruct (done st).
      * destruct Hcase as [Hnil _]. rewrite Hnil in Hun.
        by apply Permutation_nil_cons in Hun.
      * destruct Hcase as (Hrem & Hpos & Hle). rewrite decide_True by done.
        rewrite Hun in Hrem. simpl in Hrem. split; [lia | done].
    + rewrite list_lookup_alter_ne in HFi' by done.
      assert (Fi' = Fi) as -> by congruence. simpl in Hun.
      split; [by rewrite <- Hun |].
      destruct (done st).
      * destruct Hcase as [Hnil _]. split; [| congruence].
        apply Permutation_nil_r. by rewrite <- Hun, Hnil.
      * rewrite decide_False by congruence. rewrite <- Hun.
        by rewrite decide_False in Hcase by done.
Qed.

(** The body of the [for] loop over the items of the page [cur]. *)
Lemma classifyItem_cursor (pages : list page) (cur : nat) (it : item) (rest : list item)
    (c : state) :
  (cur < length pages)%nat ->
  cursorState off0 pages cur (it :: rest) c ->
  cursorState off0 pages cur rest (classifyItem R cur c it).
Proof.
  intros Hcur [F Hinv]. unfold classifyItem. case_decide.
  - exists (alter (cons (item_id it)) cur F). apply markPageItemDone_inv.
    eapply (settle_inv pages cur (it :: rest) rest F c); [exact Hinv | done | ..];
      cbn [outbox nextCursorIndex queue pageStates post set_outbox set_skippedCount
           set_processed set_metaMap set_currentIds]; try done.
    intros i. unfold unsettled. case_decide; simpl; [| done].
    by rewrite Permutation_middle.
  - exists F. unfold enqueueItem.
    apply (cursorInv_same pages cur cur (it :: rest) rest None F c);
      cbn [outbox nextCursorIndex queue pageStates set_queue set_metaMap set_currentIds];
      try done.
    + intros pl [Hin | ->%list_elem_of_singleton]%elem_of_app; [by apply Hinv | done].
    + intros i. unfold unsettled. rewrite pendingIds_snoc. cbn [p_pageIndex p_item].
      destruct (decide (i = cur)) as [-> | Hne].
      * rewrite decide_True by done. by rewrite <- app_assoc.
      * rewrite decide_False by done. by rewrite !app_nil_r.
Qed.

Lemma classify_fold_cursor (pages : list page) (cur : nat) (its : list item) (c : state) :
  (cur < length pages)%nat ->
  cursorState off0 pages cur its c ->
  cursorState off0 pages cur [] (foldl (classifyItem R cur) c its).
Proof.
  intros Hcur. revert c. induction its as [| it its IH]; intros c Hc; [done |].
  simpl. by apply IH, classifyItem_cursor.
Qed.

(** A worker that finishes a fetch. *)
Lemma workerStep_cursor (pages : list page) (cur : nat) (rest : list item) (c : state)
    (k : nat) :
  cursorState off0 pages cur rest c ->
  cursorState off0 pages cur rest (workerStep R c k).
Proof.
  intros [F Hinv]. unfold workerStep.
  destruct (queue c !! k) as [pl |] eqn:Hk; [| by exists F].
  assert (p_pageIndex pl < length pages)%nat as Hj.
  { apply Hinv. by eapply list_elem_of_lookup_2. }
  exists (alter (cons (item_id (p_item pl))) (p_pageIndex pl) F).
  unfold processItem. apply markPageItemDone_inv.
  assert (forall i,
             unsettled cur rest (queue c) i
             ≡ₚ (if decide (i = p_pageIndex pl) then [item_id (p_item pl)] else [])
                ++ unsettled cur rest (delete k (queue c)) i) as Hun.
  { intros i. unfold unsettled. rewrite (pendingIds_delete i k (queue c) pl Hk).
    rewrite <- app_assoc. by destruct (decide (p_pageIndex pl = i)), (decide (i = p_pageIndex pl)). }
  destruct (fetchConversation (cap_env R) (item_id (p_item pl))) as [err | conv];
    [| destruct (writeConversation (cap_env R) (item_id (p_item pl)) conv) as [err |]];
    (eapply (settle_inv pages cur rest rest F c); [exact Hinv | exact Hj | ..];
     cbn [outbox nextCursorIndex queue pageStates post set_outbox set_errorCount
          set_processed set_metaMap set_queue set_updatedCount];
     [reflexivity | reflexivity | reflexivity | reflexivity
      | intros pl'; apply list_elem_of_delete_inv | exact Hun]).
Qed.

(** A page is registered and classified. *)
Lemma classifyPage_cursor (pages : list page) (cur : nat) (pg : page) (c : state) :
  items pg <> [] ->
  offset c = endOf off0 pages ->
  cursorState off0 pages cur [] c ->
  cursorState off0 (pages ++ [pg]) cur []
              (classifyPage R (length pages) pg c).
Proof.
  intros Hne Hoff [F Hinv].
  pose proof Hinv as [Hlen Hset Hord Hidx Hbnd Hq Hnone Howed Hpage].
  assert (cursorInv off0 (pages ++ [pg]) (length pages) (items pg) None (F ++ [[]])
                    (registerPage R (length pages) pg c)) as Hreg.
  { assert (forall c',
               outbox c' = outbox c -> nextCursorIndex c' = nextCursorIndex c ->
               queue c' = queue c ->
               pageStates c'
               = <[length pages := PageState (Z.of_nat (length (items pg)))
                                     (offset c + Z.of_nat (length (items pg)))
                                     (limit c) false]> (pageStates c) ->
               cursorInv off0 (pages ++ [pg]) (length pages) (items pg) None (F ++ [[]]) c')
      as Hgen.
    { intros c' Ho Hn Hq' Hp. split; rewrite ?Ho, ?Hn, ?Hq', ?Hp.
      - rewrite !length_app. simpl. lia.
      - by rewrite concat_app, Hset, !app_nil_r.
      - by apply cursorsInOrder_more.
      - done.
      - rewrite length_app. lia.
      - intros pl Hin. rewrite length_app. specialize (Hq pl Hin). lia.
      - intros j Hj. rewrite length_app in Hj. simpl in Hj.
        rewrite lookup_insert_ne by lia. apply Hnone. lia.
      - done.
      - intros j pg' Fj Hpg' HFj. unfold pageAccount. rewrite Hp, Hq', Hn.
        destruct (decide (j = length pages)) as [-> | Hj].
        + rewrite list_lookup_middle in Hpg' by done. injection Hpg' as <-.
          rewrite list_lookup_middle in HFj by done. injection HFj as <-.
          eexists. rewrite lookup_insert_eq. split; [done |].
          cbn [nextOffset done remaining].
          assert (pendingIds (length pages) (queue c) = []) as Hpend.
          { apply pendingIds_none. intros pl Hin. specialize (Hq pl Hin). lia. }
          unfold unsettled. rewrite Hpend, decide_True by done. simpl.
          split_and!.
          * rewrite pageEnds_app, lookup_app_r by (rewrite pageEnds_length; lia).
            rewrite pageEnds_length, Nat.sub_diag. simpl. by rewrite Hoff.
          * done.
          * rewrite length_fmap. lia.
          * destruct (items pg); [done |]. simpl. lia.
          * done.
        + assert (j < length pages)%nat as Hlt.
          { apply lookup_lt_Some in Hpg'. rewrite length_app in Hpg'. simpl in Hpg'. lia. }
          rewrite lookup_app_l in Hpg' by done. rewrite lookup_app_l in HFj by lia.
          destruct (Hpage j pg' Fj Hpg' HFj) as (st & Hst & Hend & Hperm & Hcase).
          exists st. rewrite lookup_insert_ne by done. split; [done |].
          rewrite unsettled_nil in Hperm, Hcase. rewrite unsettled_other by done.
          split; [| done]. rewrite pageEnds_app. by apply lookup_app_l_Some. }
    unfold registerPage. case_match; by apply Hgen. }
  unfold classifyPage.
  destruct (classify_fold_cursor (pages ++ [pg]) (length pages) (items pg)
              (registerPage R (length pages) pg c)) as [F' Hfold].
  { rewrite length_app. simpl. lia. }
  { by exists (F ++ [[]]). }
  exists F'. eapply cursorInv_same; [exact Hfold | done | done | done | apply Hfold |].
  intros i. cbn [queue set_offset]. by rewrite !unsettled_nil.
Qed.

Lemma cursorState_frame (pages : list page) (c c' : state) :
  cursorState off0 pages 0 [] c ->
  outbox c' = outbox c -> nextCursorIndex c' = nextCursorIndex c ->
  pageStates c' = pageStates c -> queue c' = queue c ->
  cursorState off0 pages 0 [] c'.
Proof. intros [F Hinv] ? ? ? ?. exists F. by apply (cursorInv_frame pages 0 [] None F c). Qed.

(** The listing loop: the pages it registers are the pages listed. *)
Lemma listingLoop_cursor (fuel : nat) (sched : list (list nat)) (c : state)
    (pages : list page) :
  cursorState off0 pages 0 [] c ->
  pageCount c = length pages ->
  offset c = endOf off0 pages ->
  cursorState off0 (pages ++ pagesListed R fuel (offset c) (limit c) (pageCount c)) 0 []
              (exitState (listingLoop R fuel sched c)).
Proof.
  revert sched c pages. induction fuel as [| fuel IH]; intros sched c pages Hc Hpc Hoff.
  { simpl. by rewrite app_nil_r. }
  rewrite listingLoop_S, pagesListed_S.
  destruct (fetchConversationPage _ _ _) as [err | pg]; [by rewrite app_nil_r |].
  destruct (decide (items pg = [])) as [Hnil | Hne].
  { rewrite app_nil_r. cbn [exitState]. eapply cursorState_frame; [exact Hc | ..];
      by case_decide. }
  destruct (decide (maxPages < S (pageCount c))%nat) as [Hceil | Hroom].
  { rewrite app_nil_r. cbn [exitState]. eapply cursorState_frame; [exact Hc | ..];
      unfold countPage; by case_decide. }
  cbn zeta.
  assert (cursorState off0 (pages ++ [pg]) 0 []
            (classifyPage R (pageCount c) pg (countPage pg (set_limit (page_limit pg) c))))
    as Hpage.
  { rewrite Hpc. apply classifyPage_cursor; [done | |].
    - rewrite <- Hoff. unfold countPage. by case_decide.
    - eapply cursorState_frame; [exact Hc | ..]; unfold countPage; by case_decide. }
  destruct (shouldContinue R pg (page_limit pg)).
  - destruct (next_round_control R pg c (default [] (head sched))) as (Ho & Hl & Hp).
    cbn zeta in Ho, Hl, Hp.
    set (c' := runWorkers R (default [] (head sched)) _) in *.
    replace (pagesListed R fuel (offset c + Z.of_nat (length (items pg))) (page_limit pg)
               (S (pageCount c)))
      with (pagesListed R fuel (offset c') (limit c') (pageCount c'))
      by (by rewrite Ho, Hl, Hp).
    rewrite (cons_middle pg pages), app_assoc. apply IH.
    + apply (runWorkers_rule R (cursorState off0 (pages ++ [pg]) 0 [])); [| done].
      intros c2 k. apply workerStep_cursor.
    + rewrite Hp, length_app. simpl. lia.
    + rewrite Ho, Hoff, endOf_app. unfold endOf, itemsOf. simpl.
      by rewrite app_nil_r.
  - exact Hpage.
Qed.

(** The whole run, from a state in which nothing is listed yet. *)
Lemma runFrom_cursor (sched : list (list nat)) (c0 : state) :
  offset c0 = off0 -> pageCount c0 = 0%nat -> nextCursorIndex c0 = 0%nat ->
  queue c0 = [] -> pageStates c0 = ∅ ->
  Forall (fun m => cursorOf m = None /\ messageId m = None) (outbox c0) ->
  cursorsInOrder off0 (listed R c0) (outbox (finalState (runFrom R sched c0))).
Proof.
  intros Hoff Hpc Hn Hq Hp Ho.
  assert (cursorState off0 [] 0 [] c0) as Hstart.
  { exists []. split; rewrite ?Hn, ?Hq, ?Hp; try done.
    - assert (settledIds (outbox c0) = []) as ->; [| done].
      induction Ho as [| m l [_ Hm] _ IH]; [done |]. unfold settledIds in *. simpl.
      by rewrite Hm.
    - apply cursorsInOrder_quiet. eapply Forall_impl; [exact Ho |]. by intros m [? _].
    - induction Ho as [| m l [Hm _] _ IH]; [done |]. unfold cursors in *. simpl.
      by rewrite Hm.
    - by intros pl ?%elem_of_nil. }
  assert (offset c0 = endOf off0 []) as Hend by (unfold endOf; simpl; lia).
  pose proof (listingLoop_cursor (S maxPages) sched c0 [] Hstart Hpc Hend) as Hloop.
  rewrite app_nil_l in Hloop. fold (listed R c0) in Hloop.
  unfold runFrom.
  destruct (listingLoop R (S maxPages) sched c0) as [c1 sched' | c1 err | c1];
    cbn [exitState] in Hloop.
  - unfold finishRun.
    assert (cursorState off0 (listed R c0) 0 [] (settleAll R c1 sched')) as [F Hs].
    { apply settleAll_rule; [intros c' k; apply workerStep_cursor |].
      by eapply cursorState_frame. }
    destruct (removalPass_fields R (settleAll R c1 sched')) as (_ & _ & _ & Hout & _).
    destruct (writeIndexFile (cap_env R)); cbn [finalState outbox post set_outbox];
      rewrite Hout; (apply cursorsInOrder_snoc; [apply Hs | by intros off [=]]).
  - destruct Hloop as [F Hs]. cbn [finalState outbox post set_outbox].
    apply cursorsInOrder_snoc; [apply Hs | by intros off [=]].
  - destruct Hloop as [F Hs]. apply Hs.
Qed.

End CursorBookkeeping.

(** ** The cursor in the snapshots of the listener *)

Section CursorLog.

Import Background.

Lemma StronglySorted_snoc (l : list Z) (x : Z) :
  StronglySorted Z.le l -> Forall (fun y => y <= x) l -> StronglySorted Z.le (l ++ [x]).
Proof.
  induction l as [| y l IH]; intros Hs Hall; simpl; [repeat constructor |].
  apply StronglySorted_inv in Hs as [Hs Hy]. apply Forall_cons in Hall as [Hyx Hall].
  constructor; [by apply IH |]. apply Forall_app. split; [done |]. by constructor.
Qed.

Lemma StronglySorted_middle (l1 l2 : list Z) (x : Z) :
  StronglySorted Z.le (l1 ++ x :: l2) -> Forall (fun y => y <= x) l1.
Proof.
  induction l1 as [| y l1 IH]; intros Hs; [constructor |]. simpl in Hs.
  apply StronglySorted_inv in Hs as [Hs Hy]. constructor; [| by apply IH].
  rewrite Forall_app, Forall_cons in Hy. by destruct Hy as (_ & ? & _).
Qed.

Lemma cursorLog_more (seen more : list Z) (b : state) :
  cursorLog seen b -> cursorLog (seen ++ more) b.
Proof.
  intros (Hs & Hin & Hcur). split; [done |]. split.
  - intros x Hx. apply elem_of_app. left. by apply Hin.
  - intros off Hoff. destruct (Hcur off Hoff) as [? ?]. split; [| done].
    apply elem_of_app. by left.
Qed.

Lemma StronglySorted_app_l (l1 l2 : list Z) :
  StronglySorted Z.lt (l1 ++ l2) -> StronglySorted Z.lt l1.
Proof.
  induction l1 as [| x l1 IH]; intros Hs; [constructor |]. simpl in Hs.
  apply StronglySorted_inv in Hs as [Hs Hx]. constructor; [by apply IH |].
  by apply Forall_app in Hx as [? _].
Qed.

Lemma StronglySorted_lt_le (l : list Z) : StronglySorted Z.lt l -> StronglySorted Z.le l.
Proof.
  induction 1 as [| x l Hl IH Hx]; constructor; [done |].
  eapply Forall_impl; [exact Hx |]. simpl. lia.
Qed.

(** One step of the listener, by what it does to the cursor and to the
    snapshots. *)
Lemma cursorLog_step (seen extra : list Z) (b b' : state) :
  cursorLog seen b ->
  saved b' = saved b \/ saved b' = nextState b' :: saved b ->
  cursorOffset (nextState b') = cursorOffset (nextState b)
  \/ cursorOffset (nextState b') = None
  \/ (exists off, cursorOffset (nextState b') = Some off /\ extra = [off]
                  /\ Forall (fun x => x <= off) seen) ->
  cursorLog (seen ++ extra) b'.
Proof.
  intros (Hs & Hin & Hcur) Hsaved Hcursor.
  assert (persistedCursors b' = persistedCursors b
          \/ persistedCursors b'
             = persistedCursors b ++ from_option (fun off => [off]) []
                                                 (cursorOffset (nextState b'))) as Hp.
  { unfold persistedCursors. destruct Hsaved as [-> | ->]; [by left | right].
    rewrite reverse_cons, omap_app. simpl.
    by destruct (cursorOffset (nextState b')). }
  assert (forall off, cursorOffset (nextState b') = Some off ->
                      off ∈ seen ++ extra /\ Forall (fun x => x <= off) (persistedCursors b))
    as Hnew.
  { intros off Hoff. destruct Hcursor as [Heq | [Hnone | (off' & Hoff' & -> & Hle)]].
    - rewrite Heq in Hoff. destruct (Hcur off Hoff) as [? ?]. split; [| done].
      apply elem_of_app. by left.
    - congruence.
    - assert (off' = off) as -> by congruence. split.
      + apply elem_of_app. right. by left.
      + apply Forall_forall. intros x Hx. rewrite Forall_forall in Hle.
        by apply Hle, Hin. }
  unfold cursorLog.
  destruct (cursorOffset (nextState b')) as [off |] eqn:Hoff; simpl in Hp.
  - destruct (Hnew off eq_refl) as [Hseen Hle].
    destruct Hp as [-> | ->].
    + split; [done |]. split.
      * intros x Hx. apply elem_of_app. left. by apply Hin.
      * by intros off' [= <-].
    + split; [by apply StronglySorted_snoc |]. split.
      * intros x [Hx | ->%list_elem_of_singleton]%elem_of_app; [| done].
        apply elem_of_app. left. by apply Hin.
      * intros off' [= <-]. split; [done |]. apply Forall_app. split; [done |].
        constructor; [lia | constructor].
  - rewrite app_nil_r in Hp. assert (persistedCursors b' = persistedCursors b) as ->
      by by destruct Hp.
    split; [done |]. split; [| done].
    intros x Hx. apply elem_of_app. left. by apply Hin.
Qed.

(** What a message does to the cursor of the state being built. *)
Lemma onMessage_cursor (now : Z) (msg : message) (b : state) :
  ordinary msg = true \/ closing msg = true ->
  cursorOffset (nextState (onMessage now msg b)) = cursorOffset (nextState b)
  \/ cursorOffset (nextState (onMessage now msg b)) = None
  \/ (exists off, cursorOffset (nextState (onMessage now msg b)) = Some off
                  /\ cursorOf msg = Some off).
Proof.
  intros Hmsg.
  destruct msg as [full ro lim | pr tot [[off lim] |] | id ttl ct t | id ttl ct t
                  | id err | tot u sk e full n | err]; cbn;
    unfold bumpCheckpoint; rewrite ?maybeCheckpoint_nextState; cbn.
  - by destruct Hmsg.
  - destruct (fullInventoryMode b); cbn; [| by left].
    rewrite maybeCheckpoint_nextState. cbn. right. right. exists off.
    by rewrite num_or_zero.
  - by left.
  - by left.
  - by left.
  - left. by case_decide.
  - destruct full; [by right; left |].
    destruct (fullInventoryMode b); [by left | by right; left].
  - by left.
Qed.

Lemma receive_cursorLog (seen : list Z) (now : Z) (msg : message) (b : state) :
  ordinary msg = true \/ closing msg = true ->
  cursorLog seen b ->
  (forall off, cursorOf msg = Some off -> Forall (fun x => x <= off) seen) ->
  cursorLog (seen ++ cursors [msg]) (receive now msg b).
Proof.
  intros Hmsg Hlog Hle. unfold receive.
  destruct (settled b); [| by apply cursorLog_more | by apply cursorLog_more].
  apply (cursorLog_step seen _ b); [done | apply onMessage_saved |].
  destruct (onMessage_cursor now msg b Hmsg) as [? | [? | (off & Hoff & Hc)]];
    [by left | by right; left | right; right].
  exists off. split; [done |]. split; [| by apply Hle].
  unfold cursors. simpl. by rewrite Hc.
Qed.

Lemma deliver_cursorLog (clock : nat -> Z) (msgs : list message) (seen : list Z)
    (k : nat) (b : state) :
  Forall (fun m => ordinary m = true \/ closing m = true) msgs ->
  StronglySorted Z.le (seen ++ cursors msgs) ->
  cursorLog seen b ->
  cursorLog (seen ++ cursors msgs) (deliver clock k msgs b).
Proof.
  revert seen k b. induction msgs as [| msg msgs IH]; intros seen k b Hmsgs Hsorted Hlog.
  { simpl. by apply cursorLog_more. }
  apply Forall_cons in Hmsgs as [Hmsg Hmsgs].
  change (msg :: msgs) with ([msg] ++ msgs) in *. rewrite cursors_app, app_assoc in *.
  simpl. apply IH; [done | done |].
  apply receive_cursorLog; [done | done |].
  intros off Hoff. unfold cursors in Hsorted. simpl in Hsorted. rewrite Hoff in Hsorted.
  simpl in Hsorted. rewrite <- app_assoc in Hsorted.
  by apply StronglySorted_middle in Hsorted.
Qed.

(** The sync-mode message, which opens every run, starts the log. *)
Lemma start_cursorLog (t now : Z) (s : syncState) (full : bool) (resume lim : Z) :
  cursorLog [resume] (receive now (MsgSyncMode full resume lim) (start t s)).
Proof.
  unfold receive, start. cbn. unfold maybeCheckpoint. cbn.
  destruct full; cbn; unfold cursorLog, persistedCursors, cursorOffset; cbn.
  - rewrite num_or_zero. split_and!.
    + repeat constructor.
    + done.
    + intros off [= <-]. split; [by left |]. by repeat constructor.
  - split_and!; [constructor | by intros x ?%elem_of_nil | done].
Qed.

(** What an ordinary message does to the run records. *)
Lemma onMessage_lastRun (now : Z) (msg : message) (b : state) (id : string) :
  ordinary msg = true ->
  is_Some (lastRun (nextState b) !! id) \/ (messageId msg = Some id /\ id <> "") ->
  is_Some (lastRun (nextState (onMessage now msg b)) !! id).
Proof.
  intros Hmsg Hid.
  destruct msg as [full ro lim | pr tot [[off lim] |] | i ttl ct t | i ttl ct t
                  | i err | tot u sk e full n | err]; try done; cbn;
    unfold bumpCheckpoint; rewrite ?maybeCheckpoint_nextState; cbn.
  - destruct Hid as [Hid | [[=] _]].
    destruct (fullInventoryMode b); cbn; [| done]. by rewrite maybeCheckpoint_nextState.
  - by destruct Hid as [Hid | [[=] _]].
  - apply lookup_insert_is_Some. destruct (decide (i = id)); [by left | right].
    split; [done |]. destruct Hid as [Hid | [[= ->] _]]; done.
  - apply lookup_insert_is_Some. destruct (decide (i = id)); [by left | right].
    split; [done |]. destruct Hid as [Hid | [[= ->] _]]; done.
  - case_decide as Hi; cbn.
    + destruct Hid as [Hid | [[= ->] ?]]; [done | congruence].
    + apply lookup_insert_is_Some. destruct (decide (i = id)); [by left | right].
      split; [done |]. destruct Hid as [Hid | [[= ->] _]]; done.
Qed.

(** A closing message settles the run; its snapshot has no cursor, or the
    cursor and the run records of the state before it. *)
Lemma onMessage_closing (now : Z) (msg : message) (b : state) :
  closing msg = true ->
  settled (onMessage now msg b) <> Pending
  /\ (saved (onMessage now msg b) = saved b
      \/ (saved (onMessage now msg b) = nextState (onMessage now msg b) :: saved b
          /\ (cursorOffset (nextState (onMessage now msg b)) = None
              \/ (cursorOffset (nextState (onMessage now msg b)) = cursorOffset (nextState b)
                  /\ lastRun (nextState (onMessage now msg b)) = lastRun (nextState b))))).
Proof.
  intros Hmsg.
  destruct msg as [full ro lim | pr tot [[off lim] |] | i ttl ct t | i ttl ct t
                  | i err | tot u sk e full n | err]; try done; unfold cursorOffset.
  - destruct full; [| destruct (fullInventoryMode b) eqn:Hmode]; cbn; rewrite ?Hmode;
      cbn; (split; [done |]); right; (split; [done |]); [by left | by right | by left].
  - cbn. split; [done | by left].
Qed.

Section Safe.

Context (off0 : Z) (pages : list page).
Hypothesis Hends : StronglySorted Z.lt (off0 :: pageEnds off0 pages).

Lemma pageEnds_inj (k k' : nat) (off : Z) :
  pageEnds off0 pages !! k = Some off -> pageEnds off0 pages !! k' = Some off -> k = k'.
Proof.
  apply StronglySorted_inv in Hends as [Hs _]. revert Hs k k'.
  generalize (pageEnds off0 pages). intros l Hs.
  induction Hs as [| x l Hl IH Hx]; intros k k' Hk Hk'; [done |].
  rewrite Forall_forall in Hx.
  destruct k as [| k], k' as [| k']; simpl in Hk, Hk'.
  - done.
  - injection Hk as ->. apply list_elem_of_lookup_2, Hx in Hk'. lia.
  - injection Hk' as ->. apply list_elem_of_lookup_2, Hx in Hk. lia.
  - f_equal. by apply IH.
Qed.

Lemma covered_more (msgs more : list message) (off : Z) :
  covered off0 pages msgs off -> covered off0 pages (msgs ++ more) off.
Proof.
  intros Hc k it Hk Hit. rewrite settledIds_app. apply elem_of_app. left.
  by apply (Hc k it).
Qed.

Lemma safe_snapshot (msgs : list message) (s : syncState) :
  (forall id, id ∈ settledIds msgs -> id <> "" -> is_Some (lastRun s !! id)) ->
  (forall off, cursorOffset s = Some off -> covered off0 pages msgs off) ->
  snapshotSafe off0 pages s.
Proof.
  intros Hrec Hcov off k it Hoff Hk Hit Hne. apply Hrec; [| done].
  by apply (Hcov off Hoff k it).
Qed.

Lemma receive_safeLog (d rest : list message) (now : Z) (msg : message) (b : state) :
  cursorsInOrder off0 pages (d ++ msg :: rest) ->
  ordinary msg = true \/ closing msg = true ->
  safeLog off0 pages d b ->
  safeLog off0 pages (d ++ [msg]) (receive now msg b).
Proof.
  intros Horder Hkind [Hopen Hsaved]. unfold receive.
  destruct (settled b) eqn:Hset; [| by split; [rewrite Hset |] ..].
  destruct (Hopen eq_refl) as [Hrec Hcov]. clear Hopen.
  destruct (closing msg) eqn:Hclosing.
  - destruct (onMessage_closing now msg b Hclosing) as [Hdone Hsave].
    split; [done |].
    destruct Hsave as [-> | [-> Hsnap]]; [done |]. constructor; [| done].
    destruct Hsnap as [Hnone | [Hcur Hlast]].
    + intros off k it Hoff. congruence.
    + apply (safe_snapshot d); [by rewrite Hlast | by rewrite Hcur].
  - destruct Hkind as [Hord | ?]; [| congruence].
    assert (forall id, id ∈ settledIds (d ++ [msg]) -> id <> "" ->
                       is_Some (lastRun (nextState (onMessage now msg b)) !! id)) as Hrec'.
    { intros id Hid Hne. apply onMessage_lastRun; [done |].
      rewrite settledIds_app in Hid. apply elem_of_app in Hid as [Hid | Hid].
      - left. by apply Hrec.
      - right. split; [| done]. unfold settledIds in Hid. simpl in Hid.
        destruct (messageId msg); [| by apply elem_of_nil in Hid].
        by apply list_elem_of_singleton in Hid as ->. }
    assert (forall off, cursorOffset (nextState (onMessage now msg b)) = Some off ->
                        covered off0 pages (d ++ [msg]) off) as Hcov'.
    { intros off Hoff.
      destruct (onMessage_cursor now msg b (or_introl Hord))
        as [Heq | [Hnone | (off' & Hoff' & Hc)]].
      - apply covered_more, Hcov. congruence.
      - congruence.
      - assert (off' = off) as -> by congruence.
        destruct (Horder d msg rest off eq_refl Hc) as [Hend Hids].
        apply covered_more. intros k it Hk Hit.
        rewrite (pageEnds_inj k _ off Hk Hend) in Hit.
        eapply elem_of_submseteq; [| exact Hids].
        apply list_elem_of_fmap. by exists it. }
    split.
    + intros _. by split.
    + destruct (onMessage_saved now msg b) as [-> | ->]; [done |].
      constructor; [| done]. by apply (safe_snapshot (d ++ [msg])).
Qed.

Lemma deliver_safeLog (clock : nat -> Z) (msgs d : list message) (k : nat) (b : state) :
  cursorsInOrder off0 pages (d ++ msgs) ->
  Forall (fun m => ordinary m = true \/ closing m = true) msgs ->
  safeLog off0 pages d b ->
  safeLog off0 pages (d ++ msgs) (deliver clock k msgs b).
Proof.
  revert d k b. induction msgs as [| msg msgs IH]; intros d k b Horder Hkinds Hlog.
  { by rewrite app_nil_r. }
  apply Forall_cons in Hkinds as [Hkind Hkinds].
  rewrite (cons_middle msg d msgs), app_assoc. simpl. apply IH.
  - by rewrite <- app_assoc.
  - done.
  - by apply (receive_safeLog d msgs).
Qed.

(** The sync-mode message leaves a snapshot whose cursor is the start
    offset, which is the next offset of no page. *)
Lemma start_safeLog (t now : Z) (s : syncState) (full : bool) (lim : Z) :
  safeLog off0 pages [MsgSyncMode full off0 lim]
          (receive now (MsgSyncMode full off0 lim) (start t s)).
Proof.
  assert (forall s', (forall off, cursorOffset s' = Some off -> off = off0) ->
                     forall off, cursorOffset s' = Some off ->
                                 covered off0 pages [MsgSyncMode full off0 lim] off)
    as Hstart.
  { intros s' Hs' off Hoff k it Hk _. rewrite (Hs' off Hoff) in Hk.
    apply StronglySorted_inv in Hends as [_ Hall]. rewrite Forall_forall in Hall.
    apply list_elem_of_lookup_2, Hall in Hk. lia. }
  unfold receive, start. cbn. unfold maybeCheckpoint. cbn.
  assert (forall s', (forall off, cursorOffset s' = Some off -> off = off0) ->
                     snapshotSafe off0 pages s') as Hsafe.
  { intros s' Hs' off k it Hoff Hk Hit Hne.
    pose proof (Hstart s' Hs' off Hoff k it Hk Hit) as Hin.
    by apply elem_of_nil in Hin. }
  destruct full; cbn; (split; [intros _; split; [by intros id ?%elem_of_nil |] |]).
  - apply Hstart. unfold cursorOffset. cbn. rewrite num_or_zero. by intros off [= <-].
  - constructor; [| done]. apply Hsafe. unfold cursorOffset. cbn. rewrite num_or_zero.
    by intros off [= <-].
  - apply Hstart. by unfold cursorOffset.
  - constructor; [| done]. apply Hsafe. by unfold cursorOffset.
Qed.

End Safe.

End CursorLog.

(** ** Cursor checkpoints of a whole run *)

Section CursorRun.

Import Content.

Lemma pagesListed_nonempty (R : captured) (fuel : nat) (off lim : Z) (pc : nat) :
  Forall (fun pg => items pg <> []) (pagesListed R fuel off lim pc).
Proof.
  revert off lim pc. induction fuel as [| fuel IH]; intros off lim pc; [constructor |].
  rewrite pagesListed_S.
  destruct (fetchConversationPage _ _ _) as [err | pg]; [constructor |].
  destruct (decide (items pg = [])); [constructor |].
  destruct (decide (maxPages < S pc)%nat); [constructor |].
  constructor; [done |]. destruct (shouldContinue R pg (page_limit pg)); [apply IH | constructor].
Qed.

(** After the messages already posted, a run posts ordinary messages and
    at most one closing message. *)
Lemma runFrom_posts (R : captured) (sched : list (list nat)) (c0 : state) :
  pageCount c0 = 0%nat -> listedCount c0 = 0 ->
  exists more,
    outbox (finalState (runFrom R sched c0)) = outbox c0 ++ more
    /\ Forall (fun m => ordinary m = true \/ closing m = true) more.
Proof.
  intros Hp Hl. unfold runFrom.
  pose proof (listingLoop_gate R (S maxPages) sched c0 c0 (loopHead_refl c0 Hp Hl)) as Hloop.
  assert (forall msgs, Forall (fun m => ordinary m = true) msgs ->
                       Forall (fun m => ordinary m = true \/ closing m = true) msgs) as Hord.
  { intros msgs Hmsgs. eapply Forall_impl; [exact Hmsgs |]. auto. }
  destruct (listingLoop R (S maxPages) sched c0) as [c1 sched' | c1 err | c1].
  - destruct Hloop as (_ & _ & _ & He). unfold finishRun.
    pose proof (settleAll_extends R c1 sched') as He2.
    destruct (extends_trans _ _ _ He He2) as (_ & _ & pre & Ho & Hpre).
    destruct (removalPass_fields R (settleAll R c1 sched')) as (_ & _ & _ & Ho3 & _).
    destruct (writeIndexFile (cap_env R)); cbn [finalState outbox post set_outbox];
      rewrite Ho3, Ho, <- app_assoc; eexists; (split; [done |]);
      (apply Forall_app; split; [by apply Hord | constructor; [by right | constructor]]).
  - destruct Hloop as (_ & _ & _ & _ & _ & _ & _ & pre & Ho & Hpre).
    cbn [finalState outbox post set_outbox]. rewrite Ho, <- app_assoc. eexists.
    split; [done |].
    apply Forall_app; split; [by apply Hord | constructor; [by right | constructor]].
  - destruct Hloop as (_ & _ & _ & _ & _ & _ & _ & pre & Ho & Hpre).
    exists pre. split; [done | by apply Hord].
Qed.

Lemma contentStart_cursor (X : circumstances) (w : world) :
  let R := (contentStart X w).1 in
  let c0 := (contentStart X w).2 in
  outbox c0 = [MsgSyncMode (forceFullInventory R) (offset c0) 100]
  /\ pageCount c0 = 0%nat /\ listedCount c0 = 0 /\ nextCursorIndex c0 = 0%nat
  /\ queue c0 = [] /\ pageStates c0 = ∅.
Proof. cbn. by split_and!. Qed.

(** C8.  In the messages of a run, a cursor message that [k] cursor
    messages precede carries the next offset of page [k] of the listing, and
    the ids of all items of pages [0..k] have been reported (skipped, fetched
    or failed) before it, whatever the order in which the fetches settle; so
    the cursor messages carry the next offsets of the first pages in listing
    order, and these increase strictly from the start offset.  The cursor
    offsets in the snapshots that the listener hands to storage are in
    ascending order, and each is the start offset or one of the offsets the
    cursor messages carry; and a snapshot whose cursor is the next offset of
    page [k] holds a run record for every item, with a non-empty id, of pages
    [0..k]. *)
Theorem cursor_checkpoint_order (X : circumstances) (w : world) :
  let R := (contentStart X w).1 in
  let c0 := (contentStart X w).2 in
  let out := posted (contentRun X w) in
  let ends := pageEnds (offset c0) (listed R c0) in
  (forall pre msg rest off,
      out = pre ++ msg :: rest -> cursorOf msg = Some off ->
      ends !! length (cursors pre) = Some off
      /\ item_id <$> itemsOf (take (S (length (cursors pre))) (listed R c0))
         ⊆+ settledIds pre)
  /\ cursors out `prefix_of` ends
  /\ StronglySorted Z.lt (offset c0 :: ends)
  /\ StronglySorted Z.le (persistedCursors (listener (syncOnce X w)))
  /\ (forall off, off ∈ persistedCursors (listener (syncOnce X w)) ->
                  off = offset c0 \/ off ∈ cursors out)
  /\ (forall s off k it,
        s ∈ Background.saved (listener (syncOnce X w)) ->
        cursorOffset s = Some off -> ends !! k = Some off ->
        it ∈ itemsOf (take (S k) (listed R c0)) -> item_id it <> "" ->
        is_Some (lastRun s !! item_id it)).
Proof.
  intros R c0 out ends.
  destruct (contentStart_cursor X w) as (Ho & Hp & Hl & Hn & Hq & Hs).
  fold R c0 in Ho, Hp, Hl, Hn, Hq, Hs.
  assert (out = outbox (finalState (runFrom R (schedule X) c0))) as Hout.
  { unfold out. rewrite contentRun_runFrom. fold R c0. by destruct (runFrom _ _ _). }
  assert (cursorsInOrder (offset c0) (listed R c0) out) as Horder.
  { rewrite Hout. apply runFrom_cursor; try done.
    rewrite Ho. by repeat constructor. }
  pose proof (cursorsInOrder_prefix _ _ _ Horder) as Hprefix. fold ends in Hprefix.
  assert (StronglySorted Z.lt (offset c0 :: ends)) as Hends.
  { apply pageEnds_increase, pagesListed_nonempty. }
  split; [exact Horder |]. split; [exact Hprefix |]. split; [exact Hends |].
  destruct (runFrom_posts R (schedule X) c0 Hp Hl) as (more & Hmore & Hkinds).
  rewrite <- Hout, Ho in Hmore.
  assert (cursors out = cursors more) as Hcur by by rewrite Hmore.
  assert (StronglySorted Z.le ([offset c0] ++ cursors more)) as Hsorted.
  { rewrite <- Hcur. apply StronglySorted_lt_le. destruct Hprefix as [tl Htl].
    apply (StronglySorted_app_l _ tl). simpl. by rewrite <- Htl. }
  (* what the listener has heard before its timer *)
  destruct (syncOnce_heard X w) as (h & Hh & Hlis & _). fold out in Hh.
  set (b := Background.deliver (clock X) 0 h
              (Background.start (portOpened X) (storage w))) in Hlis.
  assert (Background.saved (listener (syncOnce X w)) = Background.saved b) as Hsaved.
  { rewrite Hlis. by destruct (timeout_fields b) as (_ & -> & _). }
  unfold persistedCursors. rewrite Hsaved. fold (persistedCursors b). clear Hlis Hsaved.
  destruct h as [| m h'].
  { unfold b, persistedCursors. cbn. split_and!; [constructor | |].
    - by intros off ?%elem_of_nil.
    - by intros s off k it ?%elem_of_nil. }
  rewrite Hmore in Hh. cbn [app] in Hh.
  pose proof (prefix_cons_inv_1 _ _ _ _ Hh) as ->.
  apply prefix_cons_inv_2 in Hh as [rest Hrest].
  assert (cursorLog ([offset c0] ++ cursors h') b) as (Hlog & Hin & _).
  { unfold b. cbn [Background.deliver].
    apply (deliver_cursorLog (clock X) h' [offset c0]).
    - rewrite Hrest in Hkinds. by apply Forall_app in Hkinds as [? _].
    - rewrite Hrest, cursors_app, app_assoc in Hsorted.
      by apply (StronglySorted_app_1_l Z.le) in Hsorted.
    - exact (start_cursorLog (portOpened X) (clock X 0) (storage w) _ _ _). }
  split; [exact Hlog |]. split.
  { intros off Hoff. apply Hin in Hoff. rewrite Hcur, Hrest, cursors_app.
    apply elem_of_app in Hoff as [->%list_elem_of_singleton | ?]; [by left | right].
    apply elem_of_app. by left. }
  assert (safeLog (offset c0) (listed R c0)
                  ([MsgSyncMode (forceFullInventory R) (offset c0) 100] ++ h') b)
    as [_ Hsafe].
  { unfold b. cbn [Background.deliver].
    apply (deliver_safeLog (offset c0) (listed R c0) Hends (clock X) h').
    - intros pre msg tl off Hsplit Hoff. apply (Horder pre msg (tl ++ rest) off); [| done].
      rewrite Hmore, Hrest, app_assoc, Hsplit. by rewrite <- app_assoc.
    - rewrite Hrest in Hkinds. by apply Forall_app in Hkinds as [? _].
    - exact (start_safeLog (offset c0) (listed R c0) Hends (portOpened X) (clock X 0)
               (storage w) _ _). }
  intros s off k it Hs' Hoff Hk Hit Hne. rewrite Forall_forall in Hsafe.
  by apply (Hsafe s Hs' off k it).
Qed.

(** The fetch of D, on the second page, settles first; its cursor is held
    back until the first page is done, and storage sees the offsets in
    listing order. *)
Example later_page_settles_first :
  posted (contentRun Scenario.lastFirst Scenario.fresh)
  = [MsgSyncMode true 0 100; MsgConversation "D" "body" 10 300;
     MsgConversation "B" "body" 10 200; MsgConversation "A" "body" 10 150;
     MsgSyncProgress 3 3 (Some (2, 100)); MsgSyncProgress 3 3 (Some (3, 100));
     MsgSyncComplete 3 3 0 0 true 3]
  /\ persistedCursors (listener (syncOnce Scenario.lastFirst Scenario.fresh))
     = [0; 0; 0; 0; 2; 3].
Proof. split; by vm_compute. Qed.

End CursorRun.

(** ** The loop of [maybeAdvanceCursor] ends on its condition

    [advanceLoop] is given one round per page between the cursor index and
    [pageCount].  In a full pass that is enough: the loop always ends because
    the page at the cursor index is not registered or not done, never because
    the rounds are used up. *)

Section CursorLoopExit.

Import Content.

Context (R : captured).
Hypothesis full : forceFullInventory R = true.

Lemma advanceLoop_table (fuel : nat) (c : state) :
  pageStates (advanceLoop fuel c) = pageStates c
  /\ pageCount (advanceLoop fuel c) = pageCount c
  /\ (nextCursorIndex c <= nextCursorIndex (advanceLoop fuel c))%nat.
Proof.
  apply (advanceLoop_rule
           (fun c' => pageStates c' = pageStates c /\ pageCount c' = pageCount c
                      /\ (nextCursorIndex c <= nextCursorIndex c')%nat)); [| done].
  intros c' st _ _ (Hp & Hc & Hn). cbn. split_and!; [done | done | lia].
Qed.

Lemma advanceLoop_exits (fuel : nat) (c : state) :
  (forall j, (pageCount c <= j)%nat -> pageStates c !! j = None) ->
  (nextCursorIndex c <= pageCount c)%nat ->
  (pageCount c - nextCursorIndex c <= fuel)%nat ->
  caughtUp (advanceLoop fuel c).
Proof.
  revert c. induction fuel as [| fuel IH]; intros c Hkeys Hle Hfuel.
  { simpl. split; [done |]. split; [done |]. rewrite Hkeys by lia. done. }
  simpl. destruct (pageStates c !! nextCursorIndex c) as [st |] eqn:Hst;
    [| unfold caughtUp; by rewrite Hst].
  destruct (done st) eqn:Hd. 2:{ unfold caughtUp. by rewrite Hst. }
  assert (nextCursorIndex c < pageCount c)%nat as Hlt.
  { destruct (decide (nextCursorIndex c < pageCount c)%nat); [done |].
    rewrite Hkeys in Hst by lia. done. }
  apply IH; cbn; [done | lia | lia].
Qed.

Lemma markPageItemDone_caughtUp (j : nat) (c : state) :
  caughtUp c -> caughtUp (markPageItemDone R j c).
Proof.
  intros (Hkeys & Hle & Hexit). unfold markPageItemDone.
  destruct (pageStates c !! j) as [st |] eqn:Hst; [| done].
  destruct (done st) eqn:Hd; [done |].
  assert (j < pageCount c)%nat as Hj.
  { destruct (decide (j < pageCount c)%nat); [done |]. rewrite Hkeys in Hst by lia. done. }
  case_decide.
  - unfold maybeAdvanceCursor. rewrite full. apply advanceLoop_exits; cbn; [| done | lia].
    intros i Hi. rewrite lookup_insert_ne by lia. by apply Hkeys.
  - split_and!; cbn; [| done |].
    + intros i Hi. rewrite lookup_insert_ne by lia. by apply Hkeys.
    + destruct (decide (j = nextCursorIndex c)) as [-> | Hne].
      * by rewrite lookup_insert_eq.
      * by rewrite lookup_insert_ne.
Qed.

Lemma caughtUp_frame (c c' : state) :
  caughtUp c -> pageStates c' = pageStates c -> pageCount c' = pageCount c ->
  nextCursorIndex c' = nextCursorIndex c -> caughtUp c'.
Proof. unfold caughtUp. by intros ? -> -> ->. Qed.

Lemma classifyItem_caughtUp (pageIndex : nat) (c : state) (it : item) :
  caughtUp c -> caughtUp (classifyItem R pageIndex c it).
Proof.
  intros Hc. unfold classifyItem. case_decide.
  - apply markPageItemDone_caughtUp. by eapply caughtUp_frame.
  - by eapply caughtUp_frame.
Qed.

Lemma workerStep_caughtUp (c : state) (k : nat) :
  caughtUp c -> caughtUp (workerStep R c k).
Proof.
  intros Hc. unfold workerStep. destruct (queue c !! k) as [pl |]; [| done].
  unfold processItem. apply markPageItemDone_caughtUp.
  destruct (fetchConversation (cap_env R) (item_id (p_item pl))) as [err | conv];
    [| destruct (writeConversation (cap_env R) (item_id (p_item pl)) conv)];
    by eapply caughtUp_frame.
Qed.

(** A page is counted, registered and classified. *)
Lemma classifyPage_caughtUp (pg : page) (c : state) :
  items pg <> [] ->
  caughtUp c ->
  caughtUp (classifyPage R (pageCount c) pg (countPage pg (set_limit (page_limit pg) c))).
Proof.
  intros Hne (Hkeys & Hle & Hexit). unfold classifyPage.
  apply (caughtUp_frame
           (foldl (classifyItem R (pageCount c))
                  (registerPage R (pageCount c) pg
                     (countPage pg (set_limit (page_limit pg) c))) (items pg)));
    [| done | done | done].
  apply (classify_fold_rule R caughtUp); [intros c' it _; apply classifyItem_caughtUp |].
  assert (forall c',
             pageCount c' = S (pageCount c) -> nextCursorIndex c' = nextCursorIndex c ->
             (exists n lim, pageStates c'
                            = <[pageCount c := PageState (Z.of_nat (length (items pg))) n lim
                                                         false]> (pageStates c)) ->
             caughtUp c') as Hreg.
  { intros c' Hp Hn (n & lim & Hs). unfold caughtUp. rewrite Hp, Hn, Hs. split_and!.
    - intros i Hi. rewrite lookup_insert_ne by lia. apply Hkeys. lia.
    - lia.
    - destruct (decide (pageCount c = nextCursorIndex c)) as [-> | Hne'].
      + by rewrite lookup_insert_eq.
      + by rewrite lookup_insert_ne. }
  unfold registerPage, countPage.
  repeat case_match; (apply Hreg; [done | done | by do 2 eexists]).
Qed.

Lemma listingLoop_caughtUp (fuel : nat) (sched : list (list nat)) (c : state) :
  caughtUp c -> caughtUp (exitState (listingLoop R fuel sched c)).
Proof.
  intros Hc.
  pose proof (listingLoop_rule R caughtUp caughtUp) as Hrule.
  assert (forall x, match x with
                    | LoopBreak c' _ => caughtUp c'
                    | LoopThrow c' _ => caughtUp c'
                    | LoopStuck c' => caughtUp c'
                    end -> caughtUp (exitState x)) as Hx by (by intros []).
  apply Hx, Hrule; [| | | apply workerStep_caughtUp | done].
  - intros c1 pg Hc1 _ _. eapply caughtUp_frame; [exact Hc1 | ..]; by case_decide.
  - intros c1 pg (Hkeys & Hle & Hexit) _ _ _. unfold caughtUp, countPage.
    case_decide; cbn; (split_and!; [intros j Hj; apply Hkeys; lia | lia | done]).
  - intros c1 pg Hc1 _ Hne _. cbn zeta.
    assert (caughtUp (classifyPage R (pageCount c1) pg
                        (countPage pg (set_limit (page_limit pg) c1)))); [| done].
    by apply classifyPage_caughtUp.
Qed.

(** From the first page request to the end of the pool. *)
Lemma settled_caughtUp (sched : list (list nat)) (c0 : state) :
  caughtUp c0 ->
  match listingLoop R (S maxPages) sched c0 with
  | LoopBreak c1 sched' => caughtUp (settleAll R c1 sched')
  | LoopThrow c1 _ => caughtUp c1
  | LoopStuck c1 => caughtUp c1
  end.
Proof.
  intros Hc0. pose proof (listingLoop_caughtUp (S maxPages) sched c0 Hc0) as Hloop.
  destruct (listingLoop R (S maxPages) sched c0) as [c1 sched' | c1 err | c1];
    cbn [exitState] in Hloop; [| done | done].
  apply settleAll_rule; [apply workerStep_caughtUp |]. by eapply caughtUp_frame.
Qed.

End CursorLoopExit.

(** ** The listing loop ends within the page ceiling *)

Section ListingEnds.

Import Content.

Context (R : captured).

(** Every round takes one more page, and the round that would exceed
    [maxPages] leaves the loop; so the rounds given to a run are enough and
    the loop ends by a [break] or by the failure of a page request. *)
Lemma listingLoop_ends (fuel : nat) (sched : list (list nat)) (c : state) :
  (pageCount c <= maxPages)%nat ->
  (maxPages < pageCount c + fuel)%nat ->
  match listingLoop R fuel sched c with
  | LoopBreak _ _ | LoopThrow _ _ => True
  | LoopStuck _ => False
  end.
Proof.
  revert sched c. induction fuel as [| fuel IH]; intros sched c Hle Hfuel; [lia |].
  rewrite listingLoop_S.
  destruct (fetchConversationPage _ _ _) as [err | pg]; [done |].
  destruct (decide (items pg = [])); [done |].
  destruct (decide (maxPages < S (pageCount c))%nat); [done |].
  cbn zeta. destruct (shouldContinue R pg (page_limit pg)); [| done].
  destruct (next_round_control R pg c (default [] (head sched))) as (_ & _ & Hp).
  cbn zeta in Hp. apply IH; rewrite Hp; lia.
Qed.

Lemma runFrom_ends (sched : list (list nat)) (c0 : state) :
  pageCount c0 = 0%nat ->
  match listingLoop R (S maxPages) sched c0 with
  | LoopBreak _ _ | LoopThrow _ _ => True
  | LoopStuck _ => False
  end.
Proof. intros Hp. apply listingLoop_ends; lia. Qed.

End ListingEnds.

(** * Further properties of the engine *)

(** ** index.json read back *)

Section IndexRoundTrip.

Import Content.

Lemma readIndexStep_meta (acc : knownState) (entry : item) (id : string) :
  ks_meta (readIndexStep acc entry) !! id =
    if decide (item_id entry = id /\ id <> "")
    then Some (MetaEntry (item_title entry) (toEpochSeconds (item_create_time entry))
                         (toEpochSeconds (item_update_time entry)))
    else ks_meta acc !! id.
Proof.
  unfold readIndexStep. destruct (decide (item_id entry = "")) as [He | He].
  - rewrite decide_False; [done |]. intros [<- ?]. done.
  - cbn. destruct (decide (item_id entry = id)) as [<- | Hne].
    + rewrite lookup_insert_eq. by rewrite decide_True.
    + rewrite lookup_insert_ne by done. rewrite decide_False; [done |]. by intros [? _].
Qed.

Lemma readIndex_meta_entries (kvs : list (string * metaEntry)) (acc : knownState)
    (id : string) :
  NoDup kvs.*1 ->
  ks_meta (foldl readIndexStep acc (indexEntry <$> kvs)) !! id =
    match (list_to_map kvs : gmap string metaEntry) !! id with
    | Some e => if decide (id = "") then ks_meta acc !! id else Some e
    | None => ks_meta acc !! id
    end.
Proof.
  revert acc. induction kvs as [| [k e] rest IH]; intros acc Hnd; [done |].
  apply NoDup_cons in Hnd as [Hk Hnd]. simpl. rewrite IH by done.
  rewrite readIndexStep_meta. cbn.
  destruct (decide (k = id)) as [-> | Hne].
  - rewrite lookup_insert_eq.
    assert ((list_to_map rest : gmap string metaEntry) !! id = None) as ->
      by (by apply not_elem_of_list_to_map_1).
    destruct (decide (id = "")) as [-> | Hid].
    + by rewrite decide_False by (by intros [_ ?]).
    + by rewrite decide_True.
  - rewrite lookup_insert_ne by done.
    rewrite (decide_False (P := k = id /\ id <> "")) by (by intros [? _]). done.
Qed.

(** X1.  Reading back the index.json that [writeIndex] wrote from a
    metadata map gives that map without the entry of the empty id, and as
    watermarks the update times of its entries. *)
Theorem index_round_trip (m : gmap string metaEntry) :
  readIndex (Some (writeIndex m))
  = Some (KnownState (update_time <$> delete "" m) (delete "" m)).
Proof.
  unfold readIndex. f_equal.
  assert (NoDup (merge_sort newerFirst (map_to_list m)).*1) as Hnd.
  { rewrite merge_sort_Permutation. apply NoDup_fst_map_to_list. }
  assert ((list_to_map (merge_sort newerFirst (map_to_list m)) : gmap string metaEntry) = m)
    as Hmap.
  { rewrite (list_to_map_proper _ (map_to_list m) Hnd (merge_sort_Permutation _ _)).
    apply list_to_map_to_list. }
  unfold writeIndex.
  set (ix := foldl readIndexStep _ _).
  assert (ks_conversations ix = update_time <$> delete "" m) as Hc.
  { apply map_eq. intros id. unfold ix. rewrite readIndex_entries by done.
    rewrite Hmap, lookup_fmap. cbn.
    destruct (decide (id = "")) as [-> | Hid].
    - rewrite lookup_delete_eq. by destruct (m !! "").
    - rewrite lookup_delete_ne by done. by destruct (m !! id). }
  assert (ks_meta ix = delete "" m) as Hm.
  { apply map_eq. intros id. unfold ix. rewrite readIndex_meta_entries by done.
    rewrite Hmap. cbn.
    destruct (decide (id = "")) as [-> | Hid].
    - rewrite lookup_delete_eq. by destruct (m !! "").
    - rewrite lookup_delete_ne by done. by destruct (m !! id). }
  rewrite <- Hc, <- Hm. by destruct ix.
Qed.

End IndexRoundTrip.

(** ** Merging the same snapshot again *)

Section MergeAgain.

Import Content.

(** X2.  Merging an index snapshot into a known state that already holds
    that snapshot changes nothing: a run that finds index.json as the last
    run merged it starts from the same watermarks and metadata. *)
Theorem mergeKnownState_idempotent (kc : gmap string Z) (km : gmap string metaEntry)
    (ix : knownState) :
  let known := mergeKnownState kc km (Some ix) in
  mergeKnownState (ks_conversations known) (ks_meta known) (Some ix) = known.
Proof.
  cbn zeta. unfold mergeKnownState. cbn [ks_conversations ks_meta]. f_equal.
  - apply map_eq. intros id. rewrite !mergeConversations_lookup.
    destruct (ks_conversations ix !! id) as [t |] eqn:Ht; [| done].
    f_equal. unfold watermark at 1. rewrite mergeConversations_lookup, Ht. simpl. lia.
  - apply map_eq. intros id. rewrite !mergeMeta_lookup. unfold mergedEntry.
    destruct (ks_meta ix !! id) as [e |]; [| done].
    destruct (decide (id = "")); [done |].
    destruct (km !! id) as [cur |]; [| by rewrite decide_True].
    destruct (decide (update_time cur <= update_time e)) as [Hle | Hgt].
    + by rewrite decide_True.
    + by rewrite decide_False.
Qed.

End MergeAgain.

(** ** The page sizes tried for one page *)

Section PageSizes.

Import Content.

Lemma tryLimits_outcome (fj : Z -> Z -> string + rawPage) (off : Z) (err0 : string)
    (cands : list Z) :
  match tryLimits fj off err0 cands with
  | inr pg =>
      exists before after data,
        cands = before ++ page_limit pg :: after
        /\ Forall (fun c => exists e, fj off c = inl e) before
        /\ fj off (page_limit pg) = inr data
        /\ pg = buildPage off (page_limit pg) data
  | inl err =>
      Forall (fun c => exists e, fj off c = inl e) cands
      /\ match last cands with
         | Some c => fj off c = inl err
         | None => err = err0
         end
  end.
Proof.
  revert err0. induction cands as [| c rest IH]; intros err0; [done |]. simpl.
  destruct (fj off c) as [e | data] eqn:Hc.
  - specialize (IH e). destruct (tryLimits fj off e rest) as [err | pg].
    + destruct IH as [Hall Hlast]. split; [constructor; [by eexists | done] |].
      destruct rest as [| c' rest']; [simpl in *; by subst |].
      change (last (c :: c' :: rest')) with (last (c' :: rest')).
      destruct (last (c' :: rest')) eqn:Hl; [done |]. by apply last_None in Hl.
    + destruct IH as (before & after & data & -> & Hall & Hdata & Hpg).
      exists (c :: before), after, data. split; [done |].
      split; [constructor; [by eexists | done] | done].
  - exists [], rest, data. by split_and!.
Qed.

(** X3.  One page is requested with the page size asked for, then with 100,
    then with 50, each size once.  The page returned is the answer to the
    first request that succeeds and carries the size of that request; the
    call throws only when every request fails, and then with the error of
    the last one. *)
Theorem fetchConversationPage_fallback (fj : Z -> Z -> string + rawPage) (off lim : Z) :
  let cands := if decide (lim = 100) then [100; 50]
               else if decide (lim = 50) then [50; 100] else [lim; 100; 50] in
  match fetchConversationPage fj off lim with
  | inr pg =>
      exists before after data,
        cands = before ++ page_limit pg :: after
        /\ Forall (fun c => exists e, fj off c = inl e) before
        /\ fj off (page_limit pg) = inr data
        /\ pg = buildPage off (page_limit pg) data
  | inl err =>
      Forall (fun c => exists e, fj off c = inl e) cands
      /\ fj off (if decide (lim = 50) then 100 else 50) = inl err
  end.
Proof.
  cbn zeta. unfold fetchConversationPage.
  assert (firstOccurrences [] [lim; 100; 50]
          = if decide (lim = 100) then [100; 50]
            else if decide (lim = 50) then [50; 100] else [lim; 100; 50]) as ->.
  { destruct (decide (lim = 100)) as [-> | H100]; [done |].
    destruct (decide (lim = 50)) as [-> | H50]; [done |].
    simpl. by repeat (rewrite decide_False by set_solver). }
  pose proof (tryLimits_outcome fj off "Failed to fetch conversations"
                (if decide (lim = 100) then [100; 50]
                 else if decide (lim = 50) then [50; 100] else [lim; 100; 50])) as Hout.
  destruct (tryLimits fj off _ _) as [err | pg]; [| done].
  destruct Hout as [Hall Hlast]. split; [done |].
  destruct (decide (lim = 100)) as [-> | H100]; [done |].
  by destruct (decide (lim = 50)).
Qed.

End PageSizes.

(** ** The pages a run requests *)

Section PageRequests.

Import Content.

Lemma pagesListed_bound (R : captured) (fuel : nat) (off lim : Z) (pc : nat) :
  (length (pagesListed R fuel off lim pc) <= maxPages - pc)%nat.
Proof.
  revert off lim pc. induction fuel as [| fuel IH]; intros off lim pc; [simpl; lia |].
  rewrite pagesListed_S.
  destruct (fetchConversationPage _ _ _) as [err | pg]; [simpl; lia |].
  destruct (decide (items pg = [])); [simpl; lia |].
  destruct (decide (maxPages < S pc)%nat); [simpl; lia |].
  destruct (shouldContinue R pg (page_limit pg)); simpl; [| lia].
  specialize (IH (off + Z.of_nat (length (items pg))) (page_limit pg) (S pc)). lia.
Qed.

Lemma pagesListed_request (R : captured) (fuel : nat) (off lim : Z) (pc k : nat)
    (pg : page) :
  let pages := pagesListed R fuel off lim pc in
  pages !! k = Some pg ->
  fetchConversationPage (fetchJson (cap_env R)) (endOf off (take k pages))
                        (default lim (page_limit <$> last (take k pages)))
  = inr pg.
Proof.
  cbn zeta. revert off lim pc k. induction fuel as [| fuel IH]; intros off lim pc k; [done |].
  rewrite pagesListed_S.
  destruct (fetchConversationPage _ _ _) as [err | pg0] eqn:Hfetch; [done |].
  destruct (decide (items pg0 = [])); [done |].
  destruct (decide (maxPages < S pc)%nat); [done |].
  destruct k as [| k].
  { intros [= <-]. simpl. unfold endOf. simpl. by rewrite Z.add_0_r. }
  simpl. destruct (shouldContinue R pg0 (page_limit pg0)); [| done].
  intros Hk. rewrite endOf_cons.
  specialize (IH _ _ _ _ Hk). rewrite <- IH. f_equal.
  destruct k as [| k]; [done |].
  destruct (pagesListed R fuel _ _ _) as [| pg1 rest]; [done |].
  rewrite firstn_cons, last_cons_cons.
  destruct (last (pg1 :: take k rest)) eqn:Hl; [done |]. by apply last_None in Hl.
Qed.

(** X4.  The listing takes at most 200 pages, none of them empty.  Page
    [k] is the answer to the request at the start offset plus the number of
    items of the pages before it, with page size 100 for the first page and
    then the size that the page before it came with.  The loop always ends,
    by a [break] or by a page request that fails. *)
Theorem listing_requests (X : circumstances) (w : world) :
  let R := (contentStart X w).1 in
  let c0 := (contentStart X w).2 in
  (length (listed R c0) <= 200)%nat
  /\ (forall k pg,
        listed R c0 !! k = Some pg ->
        items pg <> []
        /\ fetchConversationPage (fetchJson (the_env X))
             (offset c0 + Z.of_nat (length (itemsOf (take k (listed R c0)))))
             (default 100 (page_limit <$> last (take k (listed R c0))))
           = inr pg)
  /\ match listingLoop R (S maxPages) (schedule X) c0 with
     | LoopBreak _ _ | LoopThrow _ _ => True
     | LoopStuck _ => False
     end.
Proof.
  intros R c0. split_and!.
  - pose proof (pagesListed_bound R (S maxPages) (offset c0) (limit c0) (pageCount c0)) as Hb.
    unfold listed. unfold maxPages in Hb at 2. lia.
  - intros k pg Hk. split.
    + pose proof (pagesListed_nonempty R (S maxPages) (offset c0) (limit c0) (pageCount c0))
        as Hne.
      rewrite Forall_forall in Hne. apply Hne. by eapply list_elem_of_lookup_2.
    + exact (pagesListed_request R (S maxPages) (offset c0) 100 (pageCount c0) k pg Hk).
  - by apply runFrom_ends.
Qed.

End PageRequests.

(** ** Every listed item has one outcome *)

Section Outcomes.

Import Content.

Context (R : captured).

Lemma posts_app (kind : message -> bool) (l1 l2 : list message) :
  posts kind (l1 ++ l2) = posts kind l1 + posts kind l2.
Proof. unfold posts. rewrite filter_app, length_app. lia. Qed.

Lemma settledIds_progress (msgs : list message) :
  Forall (fun m => isProgress m = true) msgs -> settledIds msgs = [].
Proof.
  induction 1 as [| m l Hm _ IH]; [done |]. by destruct m.
Qed.

Lemma posts_progress (kind : message -> bool) (msgs : list message) :
  (forall m, isProgress m = true -> kind m = false) ->
  Forall (fun m => isProgress m = true) msgs -> posts kind msgs = 0.
Proof.
  intros Hkind. induction 1 as [| m l Hm _ IH]; [done |]. unfold posts in *.
  rewrite filter_cons. rewrite (Hkind m Hm). by rewrite decide_False by done.
Qed.

(** The three kinds of messages about an item. *)
Lemma settledIds_kinds (msgs : list message) :
  Z.of_nat (length (settledIds msgs))
  = posts isFetchedPost msgs + posts isSkipPost msgs + errorPosts msgs.
Proof.
  induction msgs as [| m msgs IH]; [done |].
  change (m :: msgs) with ([m] ++ msgs).
  rewrite settledIds_app, length_app, !posts_app, errorPosts_app, Nat2Z.inj_add, IH.
  assert (Z.of_nat (length (settledIds [m]))
          = posts isFetchedPost [m] + posts isSkipPost [m] + errorPosts [m]) as ->
    by (by destruct m).
  lia.
Qed.

Lemma tallied_sameData (c c' : state) : sameData c c' -> tallied c -> tallied c'.
Proof.
  intros (_ & _ & _ & Ho & Hp & Hu & Hs & _). unfold tallied. by rewrite Ho, Hp, Hu, Hs.
Qed.

Lemma tallied_progressOnly (c c' : state) : progressOnly c c' -> tallied c -> tallied c'.
Proof.
  intros ((msgs & Ho & Hmsgs) & _ & _ & _ & Hp & Hu & Hs & _) (Hp0 & Hu0 & Hs0).
  unfold tallied. rewrite Ho, Hp, Hu, Hs, settledIds_app, !posts_app.
  rewrite (settledIds_progress msgs Hmsgs), app_nil_r.
  rewrite !(posts_progress _ msgs) by (done || by intros []).
  split_and!; lia.
Qed.

(** A step that posts the outcome of one item and counts it. *)
Lemma tallied_post (c c' : state) (msg : message) (id : string) :
  tallied c ->
  outbox c' = outbox c ++ [msg] -> messageId msg = Some id ->
  processed c' = processed c + 1 ->
  updatedCount c' = updatedCount c + (if isFetchedPost msg then 1 else 0) ->
  skippedCount c' = skippedCount c + (if isSkipPost msg then 1 else 0) ->
  tallied c'.
Proof.
  intros (Hp0 & Hu0 & Hs0) Ho Hid Hp Hu Hs. unfold tallied.
  rewrite Ho, Hp, Hu, Hs, settledIds_app, length_app, !posts_app, Hp0, Hu0, Hs0.
  unfold settledIds at 2. simpl. rewrite Hid. simpl.
  split_and!; [unfold settledIds; lia | by destruct msg | by destruct msg].
Qed.

Lemma classifyItem_tallied (pageIndex : nat) (c : state) (it : item) :
  tallied c -> tallied (classifyItem R pageIndex c it).
Proof.
  intros Hc. unfold classifyItem. case_decide.
  - eapply tallied_progressOnly; [apply markPageItemDone_progressOnly |].
    by eapply (tallied_post c); [done | ..]; cbn; try done; cbn; lia.
  - exact Hc.
Qed.

Lemma workerStep_tallied (c : state) (k : nat) : tallied c -> tallied (workerStep R c k).
Proof.
  intros Hc. unfold workerStep. destruct (queue c !! k) as [pl |]; [| done].
  unfold processItem.
  eapply tallied_progressOnly; [apply markPageItemDone_progressOnly |].
  destruct (fetchConversation (cap_env R) (item_id (p_item pl))) as [err | conv];
    [| destruct (writeConversation (cap_env R) (item_id (p_item pl)) conv)];
    (eapply (tallied_post c); [done | ..]; cbn; try done; cbn; lia).
Qed.

(** A worker takes its payload out of the pool. *)
Lemma workerStep_queue (c : state) (k : nat) :
  queue (workerStep R c k) = delete k (queue c).
Proof.
  unfold workerStep. destruct (queue c !! k) as [pl |] eqn:Hk.
  - unfold processItem.
    match goal with
    | |- queue (markPageItemDone R ?j ?c') = _ =>
        destruct (markPageItemDone_progressOnly R j c') as (_ & _ & _ & -> & _)
    end.
    destruct (fetchConversation _ _); [done |]. by destruct (writeConversation _ _ _).
  - apply lookup_ge_None in Hk.
    by rewrite delete_take_drop, take_ge, drop_ge, app_nil_r by lia.
Qed.

Lemma drainQueue_empty (c : state) : queue (drainQueue R c) = [].
Proof.
  unfold drainQueue.
  assert (forall n c', length (queue (Nat.iter n (fun c'' => workerStep R c'' 0%nat) c'))
                       = (length (queue c') - n)%nat) as Hlen.
  { induction n as [| n IH]; intros c'; simpl; [lia |].
    rewrite workerStep_queue. specialize (IH c').
    destruct (queue (Nat.iter n _ c')) as [| pl q]; simpl in *; lia. }
  apply length_zero_iff_nil. rewrite Hlen. lia.
Qed.

Lemma settleAll_empty (c : state) (sched : list (list nat)) :
  queue (settleAll R c sched) = [].
Proof. apply drainQueue_empty. Qed.

(** What the removal pass leaves alone. *)
Lemma removalPass_pool (c : state) :
  queue (removalPass R c) = queue c
  /\ processed (removalPass R c) = processed c
  /\ updatedCount (removalPass R c) = updatedCount c
  /\ skippedCount (removalPass R c) = skippedCount c.
Proof.
  unfold removalPass. destruct (didFullInventory c); [| done].
  generalize (removedIds c). intros ids. revert c.
  induction ids as [| id ids IH]; intros c; [done |]. simpl.
  destruct (IH (removeStep R c id)) as (-> & -> & -> & ->).
  unfold removeStep. by repeat case_match.
Qed.

(** The bookkeeping of the cursor when the pool has been emptied. *)
Lemma settled_cursorState (sched sched' : list (list nat)) (c0 c1 : state) :
  pageCount c0 = 0%nat -> nextCursorIndex c0 = 0%nat ->
  queue c0 = [] -> pageStates c0 = ∅ ->
  Forall (fun m => cursorOf m = None /\ messageId m = None) (outbox c0) ->
  listingLoop R (S maxPages) sched c0 = LoopBreak c1 sched' ->
  cursorState (offset c0) (listed R c0) 0 [] (settleAll R c1 sched').
Proof.
  intros Hpc Hn Hq Hp Ho Hloop.
  assert (cursorState (offset c0) [] 0 [] c0) as Hstart.
  { exists []. split; rewrite ?Hn, ?Hq, ?Hp; try done.
    - assert (settledIds (outbox c0) = []) as ->; [| done].
      induction Ho as [| m l [_ Hm] _ IH]; [done |]. unfold settledIds in *. simpl.
      by rewrite Hm.
    - apply cursorsInOrder_quiet. eapply Forall_impl; [exact Ho |]. by intros m [? _].
    - induction Ho as [| m l [Hm _] _ IH]; [done |]. unfold cursors in *. simpl.
      by rewrite Hm.
    - by intros pl ?%elem_of_nil. }
  assert (offset c0 = endOf (offset c0) []) as Hend by (unfold endOf; simpl; lia).
  pose proof (listingLoop_cursor R (offset c0) (S maxPages) sched c0 [] Hstart Hpc Hend)
    as Hexit.
  rewrite app_nil_l, Hloop in Hexit. cbn [exitState] in Hexit.
  fold (listed R c0) in Hexit.
  apply settleAll_rule; [intros c' k; apply workerStep_cursor |].
  by eapply cursorState_frame.
Qed.

End Outcomes.

(** ** Which items a run skips, fetches and fails *)

Section Classified.

Import Content.

Context (R : captured).

(** The listing loop with the items it has classified: [P seen c] is kept by
    the steps that touch no data and by the workers, and each round of a
    [for] loop adds its item to [seen]. *)
Lemma classify_fold_seen (P : list item -> state -> Prop) (pageIndex : nat) :
  (forall seen c it, P seen c -> P (seen ++ [it]) (classifyItem R pageIndex c it)) ->
  forall its seen c, P seen c -> P (seen ++ its) (foldl (classifyItem R pageIndex) c its).
Proof.
  intros Hstep. induction its as [| it its IH]; intros seen c Hc; simpl.
  - by rewrite app_nil_r.
  - rewrite (cons_middle it seen its), app_assoc. apply IH. by apply Hstep.
Qed.

Lemma listingLoop_seen (P : list item -> state -> Prop) :
  (forall seen c c', sameData c c' -> P seen c -> P seen c') ->
  (forall seen c k, P seen c -> P seen (workerStep R c k)) ->
  (forall seen pageIndex c it, P seen c -> P (seen ++ [it]) (classifyItem R pageIndex c it)) ->
  forall fuel sched c seen,
    P seen c ->
    P (seen ++ itemsOf (pagesListed R fuel (offset c) (limit c) (pageCount c)))
      (exitState (listingLoop R fuel sched c)).
Proof.
  intros Hdata Hwork Hclass.
  induction fuel as [| fuel IH]; intros sched c seen Hc.
  { simpl. by rewrite app_nil_r. }
  rewrite listingLoop_S, pagesListed_S.
  destruct (fetchConversationPage _ _ _) as [err | pg]; [by rewrite app_nil_r |].
  destruct (decide (items pg = [])) as [Hnil | Hne].
  { rewrite app_nil_r. eapply (Hdata seen c); [| done]. by case_decide. }
  destruct (decide (maxPages < S (pageCount c))%nat) as [Hceil | Hroom].
  { rewrite app_nil_r. eapply (Hdata seen c); [| done]. unfold countPage. by case_decide. }
  cbn zeta.
  assert (P (seen ++ items pg)
            (classifyPage R (pageCount c) pg (countPage pg (set_limit (page_limit pg) c))))
    as Hpage.
  { unfold classifyPage.
    eapply (Hdata _ (foldl (classifyItem R (pageCount c))
                       (registerPage R (pageCount c) pg
                          (countPage pg (set_limit (page_limit pg) c))) (items pg)));
      [by repeat split |].
    apply classify_fold_seen; [by auto |].
    eapply (Hdata seen c); [| done]. unfold registerPage, countPage. by repeat case_match. }
  assert (forall l, itemsOf (pg :: l) = items pg ++ itemsOf l) as Hcons by done.
  rewrite Hcons, app_assoc.
  destruct (shouldContinue R pg (page_limit pg)) eqn:Hcont.
  - destruct (next_round_control R pg c (default [] (head sched))) as (Ho & Hl & Hp).
    cbn zeta in Ho, Hl, Hp.
    set (c' := runWorkers R (default [] (head sched)) _) in *.
    replace (pagesListed R fuel (offset c + Z.of_nat (length (items pg))) (page_limit pg)
               (S (pageCount c)))
      with (pagesListed R fuel (offset c') (limit c') (pageCount c'))
      by (by rewrite Ho, Hl, Hp).
    apply IH. apply (runWorkers_rule R (P (seen ++ items pg))); [| done].
    intros c2 k. apply Hwork.
  - cbn [exitState]. change (itemsOf []) with (@nil item). by rewrite app_nil_r.
Qed.

Lemma kindIds_progress (msgs : list message) :
  Forall (fun m => isProgress m = true) msgs ->
  skippedIds msgs = [] /\ fetchedIds msgs = [] /\ failedIds msgs = [].
Proof.
  induction 1 as [| m msgs Hm _ IH]; [done |].
  by destruct m.
Qed.

Lemma classified_sameData (seen : list item) (c c' : state) :
  sameData c c' -> classified R seen c -> classified R seen c'.
Proof.
  intros (_ & _ & Hq & Ho & _). unfold classified, queueIds. by rewrite Ho, Hq.
Qed.

Lemma classified_progressOnly (seen : list item) (c c' : state) :
  progressOnly c c' -> classified R seen c -> classified R seen c'.
Proof.
  intros ((msgs & Ho & Hmsgs) & _ & _ & Hq & _).
  destruct (kindIds_progress msgs Hmsgs) as (H1 & H2 & H3).
  unfold classified, queueIds, skippedIds, fetchedIds, failedIds in *.
  rewrite Ho, Hq, !omap_app, H1, H2, H3. by rewrite !app_nil_r.
Qed.

Lemma classifyItem_classified (seen : list item) (pageIndex : nat) (c : state) (it : item) :
  classified R seen c -> classified R (seen ++ [it]) (classifyItem R pageIndex c it).
Proof.
  intros (Hskip & Hfetch & Hfail). unfold classifyItem.
  destruct (decide (observedTime it <= default 0 (knownConversations R !! item_id it)))
    as [Hle | Hgt].
  - eapply classified_progressOnly; [apply markPageItemDone_progressOnly |].
    unfold classified, queueIds, changedIds, skippedIds, fetchedIds, failedIds in *.
    cbn [outbox queue post set_outbox set_skippedCount set_processed set_metaMap
         set_currentIds].
    rewrite !omap_app, !filter_app, !filter_cons_True, !filter_nil by done.
    rewrite (filter_cons_False (fun it' => ~ unchanged R it')) by (by intros []).
    rewrite filter_nil, !app_nil_r, fmap_app, Hskip. simpl. done.
  - unfold classified, queueIds, changedIds, enqueueItem in *.
    cbn [outbox queue set_queue set_metaMap set_currentIds].
    rewrite !filter_app, (filter_cons_False (unchanged R)) by done.
    rewrite (filter_cons_True (fun it' => ~ unchanged R it')) by done.
    rewrite !filter_nil, !app_nil_r, !fmap_app, !filter_app, !app_assoc.
    split_and!; [done | by rewrite Hfetch | by rewrite Hfail].
Qed.

(** Taking an id out of a list, seen through a filter. *)
Lemma filter_delete_Permutation (P : string -> Prop) `{!forall x, Decision (P x)}
    (l : list string) (k : nat) (id : string) :
  l !! k = Some id ->
  filter P l ≡ₚ (if decide (P id) then [id] else []) ++ filter P (delete k l).
Proof.
  intros Hk. rewrite (delete_Permutation l k id Hk) at 1.
  rewrite filter_cons. by case_decide.
Qed.

Lemma workerStep_classified (seen : list item) (c : state) (k : nat) :
  classified R seen c -> classified R seen (workerStep R c k).
Proof.
  intros (Hskip & Hfetch & Hfail). unfold workerStep.
  destruct (queue c !! k) as [pl |] eqn:Hk; [| done].
  set (id := item_id (p_item pl)).
  assert (queueIds c !! k = Some id) as Hid.
  { unfold queueIds. by rewrite list_lookup_fmap, Hk. }
  pose proof (filter_delete_Permutation
                (fun i => fetchable (cap_env R) i = true) _ k id Hid) as Hyes.
  pose proof (filter_delete_Permutation
                (fun i => fetchable (cap_env R) i = false) _ k id Hid) as Hno.
  unfold processItem. fold id.
  eapply classified_progressOnly; [apply markPageItemDone_progressOnly |].
  assert (forall msg c1,
             outbox c1 = outbox c ++ [msg] -> queue c1 = delete k (queue c) ->
             msg = (if fetchable (cap_env R) id
                    then MsgConversation id (match msg with
                                             | MsgConversation _ t _ _ => t
                                             | _ => EmptyString
                                             end)
                           (match msg with MsgConversation _ _ ct _ => ct | _ => 0 end)
                           (match msg with MsgConversation _ _ _ t => t | _ => 0 end)
                    else MsgConversationError id (match msg with
                                                  | MsgConversationError _ e => e
                                                  | _ => EmptyString
                                                  end)) ->
             classified R seen c1) as Hgen.
  { intros msg c1 Ho Hq Hmsg.
    unfold classified, queueIds, skippedIds, fetchedIds, failedIds in *.
    rewrite Ho, Hq, !omap_app, list_fmap_delete.
    destruct (fetchable (cap_env R) id) eqn:Hf; rewrite Hmsg; simpl;
      rewrite ?app_nil_r.
    - rewrite decide_True in Hyes by done. rewrite decide_False in Hno by done.
      split_and!; [done | | by rewrite <- Hfail, Hno].
      rewrite <- Hfetch, Hyes, <- !app_assoc. done.
    - rewrite decide_False in Hyes by done. rewrite decide_True in Hno by done.
      split_and!; [done | by rewrite <- Hfetch, Hyes |].
      rewrite <- Hfail, Hno, <- !app_assoc. done. }
  unfold fetchable in Hgen. fold id in Hgen.
  destruct (fetchConversation (cap_env R) id) as [err | conv].
  - by eapply Hgen.
  - destruct (writeConversation (cap_env R) id conv) as [err |]; by eapply Hgen.
Qed.

End Classified.

(** ** The outcomes of a completed run *)

Section CompletedRun.

Import Content.

(** With an empty pool every registered page is done and every item of it
    has been reported. *)
Lemma cursorInv_drained (off0 : Z) (pages : list page) (cur : nat)
    (F : list (list string)) (c : state) :
  cursorInv off0 pages cur [] None F c -> queue c = [] ->
  settledIds (outbox c) ≡ₚ item_id <$> itemsOf pages
  /\ (forall j, (j < length pages)%nat ->
                exists st, pageStates c !! j = Some st /\ done st = true).
Proof.
  intros [Hlen Hset Hord Hidx Hbnd Hq Hnone Howed Hpage] Hempty.
  assert (forall j pg Fj, pages !! j = Some pg -> F !! j = Some Fj ->
                          Fj ≡ₚ item_id <$> items pg
                          /\ exists st, pageStates c !! j = Some st /\ done st = true)
    as Hall.
  { intros j pg Fj Hpg HFj.
    destruct (Hpage j pg Fj Hpg HFj) as (st & Hst & _ & Hperm & Hcase).
    rewrite unsettled_nil, Hempty in Hperm, Hcase. cbn in Hperm, Hcase.
    rewrite app_nil_r in Hperm. split; [done |]. exists st. split; [done |].
    destruct (done st); [done |]. destruct Hcase as (Hrem & Hpos & _).
    rewrite decide_False in Hrem by done. lia. }
  split.
  - rewrite Hset.
    pose proof (concat_complete (length F) pages F Hlen) as Hcat.
    rewrite (take_ge F), (take_ge pages) in Hcat by lia.
    apply Hcat. intros j pg Fj _ Hpg HFj. by apply (Hall j pg Fj).
  - intros j Hj. destruct (lookup_lt_is_Some_2 pages j Hj) as [pg Hpg].
    destruct (lookup_lt_is_Some_2 F j) as [Fj HFj]; [lia |].
    by destruct (Hall j pg Fj Hpg HFj).
Qed.

Lemma contentStart_tallied (X : circumstances) (w : world) :
  tallied (contentStart X w).2.
Proof. by cbn. Qed.

Lemma contentStart_caughtUp (X : circumstances) (w : world) :
  caughtUp (contentStart X w).2.
Proof.
  destruct (contentStart_cursor X w) as (_ & Hp & _ & Hn & _ & Hs).
  unfold caughtUp. rewrite Hp, Hn, Hs. split_and!; [done | lia | done].
Qed.

(** The state of a completed run when its pool has been emptied, and the
    messages of the run: the sync-mode message, ordinary messages, and the
    completion. *)
Lemma completed_settled (X : circumstances) (w : world) (c : state) (ix : list item) :
  contentRun X w = Completed c ix ->
  let R := (contentStart X w).1 in
  let c0 := (contentStart X w).2 in
  exists cs mid tot u s e n,
    outbox c = outbox cs ++ [MsgSyncComplete tot u s e (didFullInventory c) n]
    /\ outbox cs = MsgSyncMode (forceFullInventory R) (offset c0) 100 :: mid
    /\ Forall (fun m => ordinary m = true) mid
    /\ queue c = [] /\ queue cs = []
    /\ processed c = processed cs /\ updatedCount c = updatedCount cs
    /\ skippedCount c = skippedCount cs
    /\ tallied cs
    /\ cursorState (offset c0) (listed R c0) 0 [] cs
    /\ (forceFullInventory R = true -> caughtUp cs)
    /\ classified R (itemsOf (listed R c0)) cs.
Proof.
  intros Hrun R c0.
  destruct (completed_run X w c ix Hrun) as (cs & tot & n & Hc & _ & _ & _ & Hext & Hloop).
  destruct Hloop as (c1 & sched' & Hloop & Hcs). fold R c0 in Hc, Hloop, Hext.
  destruct Hext as (_ & _ & mid & Hmid & Hord).
  destruct (removalPass_fields R cs) as (_ & _ & Hf3 & Ho3 & _).
  destruct (removalPass_pool R cs) as (Hq3 & Hp3 & Hu3 & Hs3).
  destruct (contentStart_cursor X w) as (Ho & Hp & Hl & Hn & Hq & Hs).
  fold R c0 in Ho, Hp, Hl, Hn, Hq, Hs.
  assert (queue cs = []) as Hempty by (rewrite Hcs; apply settleAll_empty).
  exists cs, mid. do 5 eexists.
  rewrite Hc. cbn [outbox queue processed updatedCount skippedCount didFullInventory
                   post set_outbox].
  rewrite Ho3, Hq3, Hp3, Hu3, Hs3, Hf3. split_and!; try done.
  - rewrite Hcs. apply (settleAll_data R tallied);
      [apply tallied_sameData | apply workerStep_tallied |].
    change c1 with (exitState (LoopBreak c1 sched')). rewrite <- Hloop.
    apply (listingLoop_data R tallied);
      [apply tallied_sameData | intros; by apply classifyItem_tallied
       | apply workerStep_tallied | apply contentStart_tallied].
  - rewrite Hcs. apply (settled_cursorState R (schedule X)); try done.
    rewrite Ho. by repeat constructor.
  - intros Hfull. pose proof (settled_caughtUp R Hfull (schedule X) c0
                                (contentStart_caughtUp X w)) as Hup.
    fold R c0 in Hup. rewrite Hloop in Hup. cbn in Hup. by rewrite Hcs.
  - rewrite Hcs. apply settleAll_rule; [apply workerStep_classified |].
    eapply (classified_sameData R _ c1); [by repeat split |].
    change c1 with (exitState (LoopBreak c1 sched')). rewrite <- Hloop.
    apply (listingLoop_seen R (classified R) (classified_sameData R)
             (workerStep_classified R) (classifyItem_classified R)
             (S maxPages) (schedule X) c0 []).
    unfold classified, queueIds. rewrite Ho, Hq. by split_and!.
Qed.

(** The cursor messages of a full pass once its pool has been emptied. *)
Lemma settled_cursors (X : circumstances) (w : world) (c : state) (ix : list item) :
  forceFullInventory (contentStart X w).1 = true ->
  contentRun X w = Completed c ix ->
  exists cs mid tot u s e n,
    outbox c = outbox cs ++ [MsgSyncComplete tot u s e (didFullInventory c) n]
    /\ outbox cs = MsgSyncMode true (offset (contentStart X w).2) 100 :: mid
    /\ Forall (fun m => ordinary m = true) mid
    /\ cursors mid
       = pageEnds (offset (contentStart X w).2)
                  (listed (contentStart X w).1 (contentStart X w).2).
Proof.
  intros Hfull Hrun.
  destruct (completed_settled X w c ix Hrun)
    as (cs & mid & tot & u & s & e & n & Ho & Hcs & Hmid & _ & Hqs & _ & _ & _ & _
        & [F Hinv] & Hup & _).
  destruct (Hup Hfull) as (_ & _ & Hexit).
  destruct (cursorInv_drained _ _ _ F cs Hinv Hqs) as [_ Hdone].
  rewrite Hfull in Hcs.
  exists cs, mid, tot, u, s, e, n. split_and!; [done | done | done |].
  assert (cursors mid = cursors (outbox cs)) as -> by (by rewrite Hcs).
  pose proof (cursorsInOrder_prefix _ _ _ (ci_order _ _ _ _ _ _ _ Hinv)) as Hprefix.
  apply prefix_length_eq; [done |]. rewrite pageEnds_length.
  rewrite <- (ci_index _ _ _ _ _ _ _ Hinv).
  pose proof (ci_bound _ _ _ _ _ _ _ Hinv) as Hbound.
  destruct (decide (nextCursorIndex cs < length (listed (contentStart X w).1
                                                        (contentStart X w).2))%nat)
    as [Hlt | Hge]; [| lia].
  destruct (Hdone _ Hlt) as (st & Hst & Hd). rewrite Hst in Hexit. congruence.
Qed.

(** X5.  In a run that completes, every item of the pages listed has
    exactly one outcome: the ids reported as skipped, fetched or failed are,
    with multiplicity, the ids of the listed items, and nothing is left in the
    pool.  The counters sent with the completion agree with the messages
    posted: [processed] is the number of listed items, [updated] the number of
    conversation messages, [skipped] the number of conversation-skip
    messages, and with the number of conversation-error messages they add
    up to [processed]. *)
Theorem every_item_one_outcome (X : circumstances) (w : world) (c : state)
    (ix : list item) :
  contentRun X w = Completed c ix ->
  let items := itemsOf (listed (contentStart X w).1 (contentStart X w).2) in
  settledIds (outbox c) ≡ₚ item_id <$> items
  /\ queue c = []
  /\ processed c = Z.of_nat (length items)
  /\ updatedCount c = posts isFetchedPost (outbox c)
  /\ skippedCount c = posts isSkipPost (outbox c)
  /\ updatedCount c + skippedCount c + errorPosts (outbox c) = processed c.
Proof.
  intros Hrun. cbn zeta.
  destruct (completed_settled X w c ix Hrun)
    as (cs & mid & tot & u & s & e & n & Ho & _ & _ & Hq & Hqs & Hp & Hu & Hs & Htally
        & [F Hinv] & _).
  destruct (cursorInv_drained _ _ _ F cs Hinv Hqs) as [Hperm _].
  destruct Htally as (Hp0 & Hu0 & Hs0).
  assert (settledIds (outbox c) = settledIds (outbox cs)) as Hsame.
  { rewrite Ho, settledIds_app. unfold settledIds at 2. simpl. by rewrite app_nil_r. }
  assert (forall kind,
             kind (MsgSyncComplete tot u s e (didFullInventory c) n) = false ->
             posts kind (outbox c) = posts kind (outbox cs)) as Hposts.
  { intros kind Hk. rewrite Ho, posts_app. unfold posts at 2. rewrite filter_cons, Hk.
    rewrite decide_False by done. simpl. lia. }
  assert (processed c = Z.of_nat (length (settledIds (outbox c)))) as Hcount
    by (by rewrite Hsame, Hp).
  split_and!.
  - by rewrite Hsame.
  - done.
  - rewrite Hcount, Hsame, Hperm. by rewrite length_fmap.
  - by rewrite Hu, Hposts.
  - by rewrite Hs, Hposts.
  - rewrite Hcount, settledIds_kinds, Hu, Hs, !Hposts by done. lia.
Qed.

Lemma every_item_one_outcome_witness :
  match contentRun (Scenario.at_ Scenario.failing Scenario.keep Scenario.day)
                   Scenario.oneKnown with
  | Completed c ix =>
      settledIds (outbox c) ≡ₚ ["B"; "A"]
      /\ updatedCount c + skippedCount c + errorPosts (outbox c) = 2
  | Failed _ => False
  end.
Proof.
  destruct (contentRun (Scenario.at_ Scenario.failing Scenario.keep Scenario.day)
                       Scenario.oneKnown) as [c ix |] eqn:Hout;
    [| by vm_compute in Hout].
  destruct (every_item_one_outcome _ _ c ix Hout) as (Hids & _ & Hp & _ & _ & Hsum).
  split; [exact Hids |]. rewrite Hsum, Hp. reflexivity.
Defined.

(** X6.  A full pass that completes has sent the cursor of every page it
    listed: the cursor offsets posted are the next offsets of all the listed
    pages, in listing order. *)
Theorem full_pass_posts_every_cursor (X : circumstances) (w : world) (c : state)
    (ix : list item) :
  forceFullInventory (contentStart X w).1 = true ->
  contentRun X w = Completed c ix ->
  cursors (outbox c)
  = pageEnds (offset (contentStart X w).2)
             (listed (contentStart X w).1 (contentStart X w).2).
Proof.
  intros Hfull Hrun.
  destruct (settled_cursors X w c ix Hfull Hrun)
    as (cs & mid & tot & u & s & e & n & Ho & Hcs & _ & Hcur).
  rewrite Ho, Hcs, cursors_app, <- Hcur.
  change (cursors (MsgSyncMode true (offset (contentStart X w).2) 100 :: mid))
    with (cursors mid).
  unfold cursors at 2. simpl. by rewrite app_nil_r.
Qed.

Lemma full_pass_posts_every_cursor_witness :
  match contentRun Scenario.lastFirst Scenario.fresh with
  | Completed c ix => cursors (outbox c) = [2; 3]
  | Failed _ => False
  end.
Proof.
  destruct (contentRun Scenario.lastFirst Scenario.fresh) as [c ix |] eqn:Hout;
    [| by vm_compute in Hout].
  rewrite (full_pass_posts_every_cursor Scenario.lastFirst Scenario.fresh c ix);
    [reflexivity | reflexivity | exact Hout].
Defined.

(** X14.  What a completed run does with each listed item is decided by
    the watermark of its id and by whether its body can be fetched and
    written.  The items whose observed time is not above the watermark are
    reported as skipped, in listing order, and no others; of the remaining
    items, those whose body is served and written are reported as fetched,
    the others as failed, each once. *)
Theorem run_outcomes (X : circumstances) (w : world) (c : state) (ix : list item) :
  contentRun X w = Completed c ix ->
  let R := (contentStart X w).1 in
  let items := itemsOf (listed R (contentStart X w).2) in
  skippedIds (outbox c) = item_id <$> filter (unchanged R) items
  /\ fetchedIds (outbox c)
     ≡ₚ filter (fun id => fetchable (the_env X) id = true) (changedIds R items)
  /\ failedIds (outbox c)
     ≡ₚ filter (fun id => fetchable (the_env X) id = false) (changedIds R items).
Proof.
  intros Hrun R items.
  destruct (completed_settled X w c ix Hrun)
    as (cs & mid & tot & u & s & e & n & Ho & _ & _ & _ & Hqs & _ & _ & _ & _ & _ & _
        & Hskip & Hfetch & Hfail).
  fold R items in Hskip, Hfetch, Hfail.
  unfold queueIds in Hfetch, Hfail. rewrite Hqs in Hfetch, Hfail.
  rewrite fmap_nil, filter_nil, app_nil_r in Hfetch, Hfail.
  unfold skippedIds, fetchedIds, failedIds in *. rewrite Ho, !omap_app. simpl.
  rewrite !app_nil_r. by split_and!.
Qed.

Lemma run_outcomes_witness :
  let X := Scenario.at_ Scenario.failing Scenario.keep Scenario.day in
  match contentRun X Scenario.oneKnown with
  | Completed c ix =>
      skippedIds (outbox c) = ["A"] /\ fetchedIds (outbox c) ≡ₚ []
      /\ failedIds (outbox c) ≡ₚ ["B"]
  | Failed _ => False
  end.
Proof.
  intros X.
  destruct (contentRun X Scenario.oneKnown) as [c ix |] eqn:Hout; [| by vm_compute in Hout].
  exact (run_outcomes X Scenario.oneKnown c ix Hout).
Defined.

End CompletedRun.

(** ** From one run to the next: where the listing resumes *)

Section ListenerCursor.

Import Background.

Lemma default_last_cons {A} (x y : A) (l : list A) :
  default x (last (y :: l)) = default y (last l).
Proof. rewrite last_cons. by destruct (last l). Qed.

Lemma maybeCheckpoint_fullInventoryMode (now : Z) (force : bool) (b : state) :
  fullInventoryMode (maybeCheckpoint now force b) = fullInventoryMode b.
Proof. unfold maybeCheckpoint. by destruct (_ && _). Qed.

(** In full mode an ordinary message leaves the cursor alone unless it
    carries one, which it then stores with the time of its arrival. *)
Lemma onMessage_holdsCursor (clock : nat -> Z) (j : nat) (msg : message) (b : state)
    (off : Z) :
  ordinary msg = true -> fullInventoryMode b = true ->
  stampedCursor clock off (nextState b) ->
  settled (onMessage (clock j) msg b) = settled b
  /\ fullInventoryMode (onMessage (clock j) msg b) = true
  /\ stampedCursor clock (default off (cursorOf msg)) (nextState (onMessage (clock j) msg b)).
Proof.
  intros Hmsg Hfull Hcur.
  destruct msg as [full ro lim | pr tot [[off' lim] |] | id ttl ct t | id ttl ct t
                  | id err | tot u sk e full n | err]; try done; cbn;
    unfold bumpCheckpoint;
    rewrite ?Hfull, ?maybeCheckpoint_settled, ?maybeCheckpoint_fullInventoryMode,
      ?maybeCheckpoint_nextState; cbn.
  - split_and!; [done | done |]. rewrite num_or_zero. by eexists _, j.
  - done.
  - done.
  - by case_decide.
Qed.

Lemma deliver_holdsCursor (clock : nat -> Z) (msgs : list message) (k : nat) (b : state)
    (off : Z) :
  Forall (fun m => ordinary m = true) msgs ->
  settled b = Pending -> fullInventoryMode b = true ->
  stampedCursor clock off (nextState b) ->
  settled (deliver clock k msgs b) = Pending
  /\ fullInventoryMode (deliver clock k msgs b) = true
  /\ stampedCursor clock (default off (last (cursors msgs)))
                   (nextState (deliver clock k msgs b)).
Proof.
  revert k b off. induction msgs as [| msg msgs IH]; intros k b off Hmsgs Hb Hfull Hcur.
  { done. }
  apply Forall_cons in Hmsgs as [Hmsg Hmsgs].
  assert (default off (last (cursors (msg :: msgs)))
          = default (default off (cursorOf msg)) (last (cursors msgs))) as ->.
  { unfold cursors. simpl. destruct (cursorOf msg) as [o |]; simpl; [| done].
    by rewrite default_last_cons. }
  cbn [deliver]. unfold receive. rewrite Hb.
  destruct (onMessage_holdsCursor clock k msg b off Hmsg Hfull Hcur) as (Hs & Hf & Hc).
  exact (IH (S k) _ _ Hmsgs (eq_trans Hs Hb) Hf Hc).
Qed.

(** A completion that does not report a full inventory, in full mode:
    what is stored keeps the cursor and stays in progress. *)
Lemma complete_unfinished_persisted (s0 : syncState) (now tot u sk e n : Z) (b : state) :
  settled b = Pending -> fullInventoryMode b = true ->
  let s' := persisted s0 (receive now (MsgSyncComplete tot u sk e false n) b) in
  ss_inventoryCursor s' = ss_inventoryCursor (nextState b)
  /\ inventoryInProgress s' = true.
Proof. intros Hb Hf. unfold receive. rewrite Hb. cbn. by rewrite Hf. Qed.

(** The listener after the sync-mode message of a full pass. *)
Lemma start_holdsCursor (clock : nat -> Z) (t : Z) (s : syncState) (off lim : Z) :
  let b := receive (clock 0%nat) (MsgSyncMode true off lim) (start t s) in
  settled b = Pending /\ fullInventoryMode b = true
  /\ stampedCursor clock off (nextState b) /\ saved b <> [].
Proof.
  unfold receive, start. cbn. unfold maybeCheckpoint. cbn. split_and!; try done.
  rewrite num_or_zero. by eexists _, 0%nat.
Qed.

Lemma deliver_saved_nonempty (clock : nat -> Z) (msgs : list message) (k : nat)
    (b : state) :
  saved b <> [] -> saved (deliver clock k msgs b) <> [].
Proof.
  apply (deliver_invariant (fun b => saved b <> []) clock msgs).
  intros j msg b' _ _ Hb'. by destruct (onMessage_saved (clock j) msg b') as [-> | ->].
Qed.

(** Only the sync-mode message sets the mode. *)
Lemma onMessage_mode (now : Z) (msg : message) (b : state) :
  ordinary msg = true ->
  fullInventoryMode (onMessage now msg b) = fullInventoryMode b.
Proof.
  intros Hmsg.
  destruct msg as [full ro lim | pr tot [[off lim] |] | id ttl ct t | id ttl ct t
                  | id err | tot u sk e full n | err]; try done; cbn;
    unfold bumpCheckpoint; rewrite ?maybeCheckpoint_fullInventoryMode; cbn.
  - destruct (fullInventoryMode b) eqn:Hb; [| done].
    by rewrite maybeCheckpoint_fullInventoryMode.
  - done.
  - done.
  - by case_decide.
Qed.

Lemma deliver_mode (clock : nat -> Z) (msgs : list message) (k : nat) (b : state) :
  Forall (fun m => ordinary m = true) msgs ->
  settled b = Pending ->
  settled (deliver clock k msgs b) = Pending
  /\ fullInventoryMode (deliver clock k msgs b) = fullInventoryMode b.
Proof.
  intros Hmsgs Hb. rewrite Forall_forall in Hmsgs.
  apply (deliver_invariant
           (fun b' => settled b' = Pending
                      /\ fullInventoryMode b' = fullInventoryMode b) clock msgs);
    [| done].
  intros j msg b' Hin _ [Hs Hm].
  rewrite (onMessage_mode _ _ _ (Hmsgs msg Hin)).
  destruct (onMessage_open (clock j) msg b') as [Hs' _]; [| by rewrite Hs'].
  specialize (Hmsgs msg Hin). by destruct msg.
Qed.

(** A completion that reports a full inventory, or that ends a partial
    pass: what is stored has no cursor and no inventory in progress. *)
Lemma complete_finished_persisted (s0 : syncState) (now tot u sk e n : Z) (full : bool)
    (b : state) :
  settled b = Pending -> full = true \/ fullInventoryMode b = false ->
  let s' := persisted s0 (receive now (MsgSyncComplete tot u sk e full n) b) in
  ss_inventoryCursor s' = None /\ inventoryInProgress s' = false.
Proof.
  intros Hb Hcase. unfold receive. rewrite Hb. cbn.
  destruct full; [done |]. destruct Hcase as [? | ->]; done.
Qed.

End ListenerCursor.

Section ResumeNextRun.

Import Content.

Lemma contentStart_offset (X : circumstances) (w : world) :
  offset (contentStart X w).2
  = if forceFullInventory (contentStart X w).1
    then getResumeOffset (contentNow X) (ss_inventoryCursor (storage w))
    else 0.
Proof. done. Qed.

Lemma getResumeOffset_cases (now : Z) (cursor : option inventoryCursor) :
  getResumeOffset now cursor = 0
  \/ cur_offset <$> cursor = Some (getResumeOffset now cursor).
Proof.
  unfold getResumeOffset. destruct cursor as [cur |]; [| by left].
  destruct (cur_updatedAt cur) as [s |]; [| by right].
  destruct (Date_parse s); [| by right]. case_decide; [by left | by right].
Qed.

Lemma pageEnds_last (off : Z) (pages : list page) :
  default off (last (pageEnds off pages)) = endOf off pages.
Proof.
  revert off. induction pages as [| pg pages IH]; intros off.
  { unfold endOf. simpl. lia. }
  simpl. rewrite default_last_cons, IH. by rewrite endOf_cons.
Qed.

(** What the listener has saved once a run is over. *)
Lemma syncOnce_saved (X : circumstances) (w : world) :
  let R := (contentStart X w).1 in
  let c0 := (contentStart X w).2 in
  let b := listener (syncOnce X w) in
  let ends := pageEnds (offset c0) (listed R c0) in
  (Background.saved b <> []
   \/ (portOpened X + Background.SYNC_TIMEOUT_MS <= clock X 0%nat
       /\ storage (after (syncOnce X w)) = storage w))
  /\ (forall off, off ∈ persistedCursors b -> off = offset c0 \/ off ∈ ends)
  /\ Forall (snapshotSafe (offset c0) (listed R c0)) (Background.saved b).
Proof.
  intros R c0 b ends.
  destruct (contentStart_cursor X w) as (Ho & Hp & Hl & Hn & Hq & Hs).
  fold R c0 in Ho, Hp, Hl, Hn, Hq, Hs.
  set (out := posted (contentRun X w)).
  assert (out = outbox (finalState (runFrom R (schedule X) c0))) as Hout.
  { unfold out. rewrite contentRun_runFrom. fold R c0. by destruct (runFrom _ _ _). }
  assert (cursorsInOrder (offset c0) (listed R c0) out) as Horder.
  { rewrite Hout. apply runFrom_cursor; try done.
    rewrite Ho. by repeat constructor. }
  pose proof (cursorsInOrder_prefix _ _ _ Horder) as Hprefix. fold ends in Hprefix.
  assert (StronglySorted Z.lt (offset c0 :: ends)) as Hends.
  { apply pageEnds_increase, pagesListed_nonempty. }
  destruct (runFrom_posts R (schedule X) c0 Hp Hl) as (more & Hmore & Hkinds).
  rewrite <- Hout, Ho in Hmore.
  assert (cursors out = cursors more) as Hcur by by rewrite Hmore.
  assert (StronglySorted Z.le ([offset c0] ++ cursors more)) as Hsorted.
  { rewrite <- Hcur. apply StronglySorted_lt_le. destruct Hprefix as [tl Htl].
    apply (StronglySorted_app_l _ tl). simpl. by rewrite <- Htl. }
  destruct (syncOnce_first X w (MsgSyncMode (forceFullInventory R) (offset c0) 100) more)
    as [(Hlate & Hnone & Hsame) | (_ & h & [rest Hrest] & Hlis & _)]; [exact Hmore | |].
  { fold b in Hnone. unfold persistedCursors. rewrite Hnone. split_and!.
    - by right.
    - by intros off ?%elem_of_nil.
    - constructor. }
  set (b' := Background.deliver (clock X) 1 h
               (Background.receive (clock X 0%nat)
                  (MsgSyncMode (forceFullInventory R) (offset c0) 100)
                  (Background.start (portOpened X) (storage w)))) in Hlis.
  assert (Background.saved b = Background.saved b') as Hsaved.
  { unfold b. rewrite Hlis. by destruct (timeout_fields b') as (_ & -> & _). }
  unfold persistedCursors. rewrite Hsaved. fold (persistedCursors b').
  rewrite Hrest in Hkinds. apply Forall_app in Hkinds as [Hkinds _].
  split_and!.
  - left. apply deliver_saved_nonempty. unfold Background.receive. cbn.
    unfold Background.maybeCheckpoint. by destruct (forceFullInventory R).
  - assert (cursorLog ([offset c0] ++ cursors h) b') as (_ & Hin & _).
    { apply (deliver_cursorLog (clock X) h [offset c0]); [done | |].
      - rewrite Hrest, cursors_app, app_assoc in Hsorted.
        by apply (StronglySorted_app_1_l Z.le) in Hsorted.
      - apply start_cursorLog. }
    intros off Hoff. apply Hin in Hoff.
    apply elem_of_app in Hoff as [->%list_elem_of_singleton | Hoff]; [by left | right].
    destruct Hprefix as [tl ->]. apply elem_of_app. left.
    rewrite Hcur, Hrest, cursors_app. apply elem_of_app. by left.
  - assert (safeLog (offset c0) (listed R c0)
                    ([MsgSyncMode (forceFullInventory R) (offset c0) 100] ++ h) b')
      as [_ Hsafe]; [| done].
    apply (deliver_safeLog (offset c0) (listed R c0) Hends (clock X) h); [| done |].
    + intros pre msg tl off Hsplit Hoff. apply (Horder pre msg (tl ++ rest) off); [| done].
      rewrite Hmore, Hrest, app_assoc, Hsplit. by rewrite <- app_assoc.
    + apply (start_safeLog (offset c0) (listed R c0) Hends).
Qed.

(** X7.  Wherever the next run resumes, nothing before that point is
    unrecorded.  After a run, whatever its outcome and however much of it
    the service worker has heard before its timer, the next run starts its
    listing at offset 0, at the offset at which this run started, or at the
    next offset of a page [k] that this run listed, and then what is stored
    holds a run record for every item, with a non-empty id, of the pages up
    to [k]; unless the timer was due before the first message of this run
    was handled, in which case the stored state is as it was before the
    run. *)
Theorem resume_point_is_recorded (X X' : circumstances) (w : world) :
  let R := (contentStart X w).1 in
  let c0 := (contentStart X w).2 in
  let w' := after (syncOnce X w) in
  let resume := offset (contentStart X' w').2 in
  resume = 0 \/ resume = offset c0
  \/ (exists k,
        pageEnds (offset c0) (listed R c0) !! k = Some resume
        /\ forall it, it ∈ itemsOf (take (S k) (listed R c0)) -> item_id it <> "" ->
                      is_Some (lastRun (storage w') !! item_id it))
  \/ (portOpened X + Background.SYNC_TIMEOUT_MS <= clock X 0%nat
      /\ storage w' = storage w).
Proof.
  intros R c0 w' resume.
  destruct (syncOnce_saved X w) as (Hne & Hin & Hsafe). fold R c0 in Hne, Hin, Hsafe.
  destruct Hne as [Hne | Hlate]; [| by do 3 right].
  assert (storage w' ∈ Background.saved (listener (syncOnce X w))) as Hlast.
  { unfold w'. cbn [after syncOnce storage listener] in Hne |- *.
    unfold Background.persisted.
    destruct (Background.saved _) as [| s rest]; [done | by left]. }
  unfold resume. rewrite contentStart_offset.
  destruct (forceFullInventory (contentStart X' w').1); [| by left].
  destruct (getResumeOffset_cases (contentNow X') (ss_inventoryCursor (storage w')))
    as [-> | Hcur]; [by left |].
  set (off := getResumeOffset _ _) in *. right.
  assert (off ∈ persistedCursors (listener (syncOnce X w))) as Hoff.
  { unfold persistedCursors. apply list_elem_of_omap. exists (storage w').
    split; [by apply elem_of_reverse | done]. }
  destruct (Hin off Hoff) as [-> | Hend]; [by left | right; left].
  apply list_elem_of_lookup_1 in Hend as [k Hk]. exists k. split; [done |].
  intros it Hit Hid. rewrite Forall_forall in Hsafe.
  by apply (Hsafe (storage w') Hlast off k it).
Qed.

(** X8.  A full pass that completes without having finished the inventory
    (the page ceiling, or an empty first page), and whose messages the
    service worker handles before its timer is due, leaves in storage a
    cursor at the end of the pages it listed, with the inventory marked in
    progress; the next run, if it is a full pass that starts within 24 hours
    of the messages of this one, resumes exactly there. *)
Theorem unfinished_inventory_resumes (X X' : circumstances) (w : world) (c : state)
    (ix : list item) :
  inTime X w ->
  contentRun X w = Completed c ix ->
  forceFullInventory (contentStart X w).1 = true ->
  didFullInventory c = false ->
  let stop := endOf (offset (contentStart X w).2)
                    (listed (contentStart X w).1 (contentStart X w).2) in
  let w' := after (syncOnce X w) in
  cursorOffset (storage w') = Some stop
  /\ inventoryInProgress (storage w') = true
  /\ (forceFullInventory (contentStart X' w').1 = true ->
      (forall j, contentNow X' - clock X j <= MAX_PARTIAL_AGE_MS) ->
      offset (contentStart X' w').2 = stop).
Proof.
  intros Htime Hrun Hfull Hpart stop w'.
  destruct (settled_cursors X w c ix Hfull Hrun)
    as (cs & mid & tot & u & s & e & n & Ho & Hcs & Hmid & Hcur).
  rewrite Hpart in Ho.
  set (off0 := offset (contentStart X w).2) in *.
  destruct (start_holdsCursor (clock X) (portOpened X) (storage w) off0 100)
    as (Hb1 & Hf1 & Hc1 & _).
  destruct (deliver_holdsCursor (clock X) mid 1 _ off0 Hmid Hb1 Hf1 Hc1)
    as (Hb2 & Hf2 & Hc2).
  rewrite Hcur, pageEnds_last in Hc2. fold stop in Hc2.
  destruct (complete_unfinished_persisted (storage w)
              (clock X (1 + length mid)) tot u s e n _ Hb2 Hf2) as [Hkeep Hprog].
  assert (storage w'
          = Background.persisted (storage w)
              (Background.receive (clock X (1 + length mid))
                 (MsgSyncComplete tot u s e false n)
                 (Background.deliver (clock X) 1 mid
                    (Background.receive (clock X 0%nat) (MsgSyncMode true off0 100)
                       (Background.start (portOpened X) (storage w)))))) as Hw'.
  { unfold w'. destruct (syncOnce_inTime X w Htime) as [_ ->]. rewrite Hrun. cbn [posted].
    rewrite Ho, Hcs. cbn [app Background.deliver]. by rewrite deliver_app. }
  destruct Hc2 as (lim & j & Hc2). rewrite Hc2 in Hkeep. rewrite <- Hw' in Hkeep, Hprog.
  split_and!.
  - unfold cursorOffset. by rewrite Hkeep.
  - done.
  - intros Hfull' Hwindow. rewrite contentStart_offset, Hfull', Hkeep.
    unfold getResumeOffset. cbn. rewrite decide_False; [done |].
    specialize (Hwindow j). lia.
Qed.

Lemma unfinished_inventory_resumes_witness :
  let X := Scenario.at_ Scenario.healthy Scenario.keep Scenario.day in
  inTime X Scenario.interrupted
  /\ match contentRun X Scenario.interrupted with
     | Completed c ix =>
         didFullInventory c = false
         /\ cursorOffset (storage (after (syncOnce X Scenario.interrupted))) = Some 300
         /\ offset (contentStart X (after (syncOnce X Scenario.interrupted))).2 = 300
     | Failed _ => False
     end.
Proof.
  intros X.
  assert (inTime X Scenario.interrupted) as Htime by (apply at_inTime; by vm_compute).
  split; [exact Htime |].
  destruct (contentRun X Scenario.interrupted) as [c ix |] eqn:Hout;
    [| by vm_compute in Hout].
  assert (didFullInventory c = false) as Hpart.
  { assert (match contentRun X Scenario.interrupted with
            | Completed c' _ => didFullInventory c' = false
            | Failed _ => True
            end) as H by (by vm_compute).
    by rewrite Hout in H. }
  split; [exact Hpart |].
  destruct (unfinished_inventory_resumes X X Scenario.interrupted c ix Htime Hout eq_refl
              Hpart) as (Hcur & _ & Hnext).
  split; [exact Hcur |].
  rewrite Hnext; [by vm_compute | by vm_compute |].
  intros j. unfold X, MAX_PARTIAL_AGE_MS. cbn. lia.
Defined.

(** X10.  A run that completes as a partial pass, or that completes a full
    inventory, and whose messages the service worker handles before its
    timer is due, leaves no cursor in storage and no inventory in progress:
    the next run starts its listing at offset 0. *)
Theorem finished_run_clears_cursor (X X' : circumstances) (w : world) (c : state)
    (ix : list item) :
  inTime X w ->
  contentRun X w = Completed c ix ->
  forceFullInventory (contentStart X w).1 = false \/ didFullInventory c = true ->
  let w' := after (syncOnce X w) in
  ss_inventoryCursor (storage w') = None
  /\ inventoryInProgress (storage w') = false
  /\ offset (contentStart X' w').2 = 0.
Proof.
  intros Htime Hrun Hcase w'.
  destruct (completed_settled X w c ix Hrun)
    as (cs & mid & tot & u & s & e & n & Ho & Hcs & Hmid & _).
  set (b1 := Background.receive (clock X 0%nat)
               (MsgSyncMode (forceFullInventory (contentStart X w).1)
                  (offset (contentStart X w).2) 100)
               (Background.start (portOpened X) (storage w))).
  assert (Background.settled b1 = Background.Pending
          /\ Background.fullInventoryMode b1 = forceFullInventory (contentStart X w).1)
    as [Hb1 Hm1].
  { unfold b1, Background.receive, Background.start. cbn.
    unfold Background.maybeCheckpoint. cbn.
    by destruct (forceFullInventory (contentStart X w).1). }
  destruct (deliver_mode (clock X) mid 1 b1 Hmid Hb1) as [Hb2 Hm2].
  assert (storage w'
          = Background.persisted (storage w)
              (Background.receive (clock X (1 + length mid))
                 (MsgSyncComplete tot u s e (didFullInventory c) n)
                 (Background.deliver (clock X) 1 mid b1))) as Hw'.
  { unfold w'. destruct (syncOnce_inTime X w Htime) as [_ ->]. rewrite Hrun. cbn [posted].
    rewrite Ho, Hcs. cbn [app Background.deliver]. by rewrite deliver_app. }
  destruct (complete_finished_persisted (storage w) (clock X (1 + length mid))
              tot u s e n (didFullInventory c) _ Hb2) as [Hcur Hprog].
  { rewrite Hm2, Hm1. destruct Hcase; [by right | by left]. }
  rewrite <- Hw' in Hcur, Hprog. split_and!; [done | done |].
  rewrite contentStart_offset, Hcur.
  by destruct (forceFullInventory (contentStart X' w').1).
Qed.

Lemma finished_run_clears_cursor_witness :
  let X := Scenario.at_ Scenario.healthy Scenario.keep Scenario.day in
  let w := World (SyncState {["A" := 100]} ∅ ∅ (Some (Iso (Scenario.day - 3600000)))
                            (Some (Scenario.cursorAt (Scenario.day - 5))) true) None in
  inTime X w
  /\ match contentRun X w with
     | Completed c ix =>
         ss_inventoryCursor (storage (after (syncOnce X w))) = None
         /\ offset (contentStart X (after (syncOnce X w))).2 = 0
     | Failed _ => False
     end.
Proof.
  intros X w.
  assert (inTime X w) as Htime by (apply at_inTime; by vm_compute).
  split; [exact Htime |].
  destruct (contentRun X w) as [c ix |] eqn:Hout; [| by vm_compute in Hout].
  destruct (finished_run_clears_cursor X X w c ix Htime Hout) as (Hcur & _ & Hnext);
    [left; reflexivity | by split].
Defined.

End ResumeNextRun.

(** ** Checkpoints: how much of a run can be lost *)

Section Checkpoints.

Import Background.

Context (s0 : syncState).

(** A save brings storage level with the state being built. *)
Lemma checkpointLag_saved (b b' : state) :
  0 <= checkpointCount b' < CHECKPOINT_MIN_MESSAGES ->
  saved b' = nextState b' :: saved b ->
  checkpointLag s0 b'.
Proof.
  intros Hcount Hsaved.
  assert (persisted s0 b' = nextState b') as Heq by (unfold persisted; by rewrite Hsaved).
  split_and!; [lia | lia | | done].
  exists []. split; [simpl; lia |]. intros id _. by rewrite Heq.
Qed.

(** The counted messages: the state [b1] that the message has built from
    [b] differs from it at [id] only, and [bumpCheckpoint] saves it or
    counts it. *)
Lemma bumpCheckpoint_lag (now : Z) (id : string) (b b1 : state) :
  checkpointLag s0 b ->
  saved b1 = saved b -> checkpointCount b1 = checkpointCount b ->
  (forall id', id' <> id -> sameRecords id' (nextState b1) (nextState b)) ->
  checkpointLag s0 (bumpCheckpoint now b1).
Proof.
  intros (Hcount & (ids & Hlen & Hids) & _) Hsaved Hsame Hdiff.
  unfold bumpCheckpoint, maybeCheckpoint. cbn.
  destruct (bool_decide (checkpointCount b1 + 1 < CHECKPOINT_MIN_MESSAGES)) eqn:Hc; cbn;
    [destruct (bool_decide (now - lastCheckpointAt b1 < CHECKPOINT_MIN_MS)) eqn:Ht; cbn |].
  - apply bool_decide_eq_true in Hc.
    split_and!; cbn; [lia | lia | | lia].
    exists (id :: ids). split; [simpl length; lia |].
    intros id' [Hne Hnot]%not_elem_of_cons.
    destruct (Hdiff id' Hne) as (H1 & H2 & H3).
    destruct (Hids id' Hnot) as (H4 & H5 & H6).
    unfold persisted in *. cbn. rewrite Hsaved.
    split_and!; congruence.
  - apply (checkpointLag_saved b); [done |]. cbn. by rewrite Hsaved.
  - apply (checkpointLag_saved b); [done |]. cbn. by rewrite Hsaved.
Qed.

Lemma sameRecords_refl (id : string) (s : syncState) : sameRecords id s s.
Proof. done. Qed.

Lemma onMessage_lag (now : Z) (msg : message) (b : state) :
  checkpointLag s0 b -> checkpointLag s0 (onMessage now msg b).
Proof.
  intros Hb. pose proof Hb as (Hcount & _ & _).
  destruct msg as [full ro lim | pr tot [[off lim] |] | id ttl ct t | id ttl ct t
                  | id err | tot u sk e full n | err]; cbn.
  - unfold maybeCheckpoint. cbn. apply (checkpointLag_saved b); [done |].
    by destruct full.
  - destruct (fullInventoryMode b); [| exact Hb].
    apply (bumpCheckpoint_lag now EmptyString b); [done | done | done |].
    by intros id' _.
  - exact Hb.
  - apply (bumpCheckpoint_lag now id b); [done | done | done |].
    intros id' Hne. unfold sameRecords, recordItem. cbn.
    by rewrite !lookup_insert_ne.
  - apply (bumpCheckpoint_lag now id b); [done | done | done |].
    intros id' Hne. unfold sameRecords, recordItem. cbn.
    by rewrite !lookup_insert_ne.
  - apply (bumpCheckpoint_lag now id b); [done | by case_decide | by case_decide |].
    intros id' Hne. unfold sameRecords. case_decide; cbn; [done |].
    by rewrite lookup_insert_ne.
  - apply (checkpointLag_saved b); [by destruct full, (fullInventoryMode b) |].
    by destruct full, (fullInventoryMode b).
  - exact Hb.
Qed.

(** X9.  What a crash of the service worker can lose is bounded.  At any
    point of a run, whatever the messages and their arrival times, fewer
    than 50 counted messages have arrived since the last save; the state in
    storage and the state being built hold the same watermark, metadata and
    run record for every id except at most that many; and when no counted
    message has arrived since the last save, storage holds exactly the state
    being built. *)
Theorem checkpoint_lag_bounded (clock : nat -> Z) (t0 : Z) (msgs : list message) :
  let b := deliver clock 0 msgs (start t0 s0) in
  0 <= checkpointCount b < 50
  /\ (exists ids,
        Z.of_nat (length ids) <= checkpointCount b
        /\ forall id, id ∉ ids -> sameRecords id (nextState b) (persisted s0 b))
  /\ (checkpointCount b = 0 -> persisted s0 b = nextState b).
Proof.
  apply (deliver_invariant (checkpointLag s0) clock msgs).
  - intros j msg b _ _. apply onMessage_lag.
  - split_and!; [done | done | | done]. exists []. split; [done |]. by intros id _.
Qed.

End Checkpoints.

(** ** The options *)

Section Options.

Import Settings.


End Options.

(** ** Storage that refuses a state *)

Section StorageQuota.

Import Content.

Lemma knownAtStart_conversations (kc : gmap string Z) (km km' : gmap string metaEntry)
    (file : option (list item)) :
  ks_conversations (knownAtStart kc km file) = ks_conversations (knownAtStart kc km' file).
Proof. unfold knownAtStart. by destruct (readIndex file). Qed.

(** The start of a run depends on the stored metadata and run records only
    through the metadata it starts with. *)
Lemma contentStart_slim (X : circumstances) (s : syncState) (file : option (list item)) :
  let w := World s file in
  let w' := World (Storage.slim s) file in
  (contentStart X w').1 = (contentStart X w).1
  /\ (contentStart X w').2
     = set_metaMap (ks_meta (knownAtStart (conversations s) ∅ file)) (contentStart X w).2.
Proof.
  cbn. unfold contentStart, startRun. cbn.
  by rewrite (knownAtStart_conversations (conversations s) (meta s) ∅ file).
Qed.

(** X12.  When storage refuses the whole state and takes the slim one,
    only metadata and run records are lost: the next run is in the same
    mode, knows the same watermarks, stops on the same time, starts at the
    same offset and lists the same pages as it would have from the whole
    state, and it starts with the metadata of index.json alone. *)
Theorem slim_state_same_run (X : circumstances) (accepts : syncState -> bool)
    (held state : syncState) (file : option (list item)) :
  accepts state = false -> accepts (Storage.slim state) = true ->
  let w := World state file in
  let w' := World (Storage.setSyncState accepts held state) file in
  (contentStart X w').1 = (contentStart X w).1
  /\ offset (contentStart X w').2 = offset (contentStart X w).2
  /\ outbox (contentStart X w').2 = outbox (contentStart X w).2
  /\ listed (contentStart X w').1 (contentStart X w').2
     = listed (contentStart X w).1 (contentStart X w).2
  /\ metaMap (contentStart X w').2
     = ks_meta (knownAtStart (conversations state) ∅ file).
Proof.
  intros Hno Hslim w w'.
  assert (w' = World (Storage.slim state) file) as ->.
  { unfold w', Storage.setSyncState. by rewrite Hno, Hslim. }
  destruct (contentStart_slim X state file) as [HR Hc]. fold w in HR, Hc.
  split; [exact HR |]. unfold listed. rewrite Hc, HR.
  split_and!; reflexivity.
Qed.

Lemma slim_state_same_run_witness :
  let accepts := fun s : syncState => bool_decide (size (meta s) = 0%nat) in
  let X := Scenario.at_ Scenario.healthy Scenario.keep Scenario.day in
  let state := storage Scenario.oneKnown in
  knownConversations
    (contentStart X (World (Storage.setSyncState accepts state state) None)).1
  = {["A" := 100]}.
Proof.
  intros accepts X state.
  destruct (slim_state_same_run X accepts state state None) as (-> & _);
    [reflexivity | reflexivity | reflexivity].
Defined.

Lemma contentStart_full (X : circumstances) (w : world) :
  knownConversations (contentStart X w).1
  = ks_conversations (knownAtStart (conversations (storage w)) (meta (storage w))
                                   (indexFile w))
  /\ forceFullInventory (contentStart X w).1
     = shouldForceFullInventory (contentNow X) (the_options X)
         (knownConversations (contentStart X w).1) (lastFullInventoryAt (storage w)).
Proof. done. Qed.

(** X13.  Force full inventory: if storage takes the reset state, whole or
    slim, the run that follows is a full pass that starts at offset 0 and
    never stops on time, whatever the state held before, and it knows the
    same watermarks as before the reset, so that unchanged conversations
    are still skipped. *)
Theorem force_full_inventory_restarts (X : circumstances) (accepts : syncState -> bool)
    (current : syncState) (file : option (list item)) :
  accepts (Storage.restarted current) = true
  \/ accepts (Storage.slim (Storage.restarted current)) = true ->
  let w' := World (Storage.onForceFullInventory accepts current) file in
  forceFullInventory (contentStart X w').1 = true
  /\ stopAfterTime (contentStart X w').1 = None
  /\ outbox (contentStart X w').2 = [MsgSyncMode true 0 100]
  /\ offset (contentStart X w').2 = 0
  /\ knownConversations (contentStart X w').1
     = knownConversations (contentStart X (World current file)).1.
Proof.
  intros Hok w'.
  assert (lastFullInventoryAt (storage w') = None
          /\ ss_inventoryCursor (storage w') = None
          /\ conversations (storage w') = conversations current) as (Hlast & Hcur & Hconv).
  { unfold w', Storage.onForceFullInventory, Storage.setSyncState.
    destruct (accepts (Storage.restarted current)); [done |].
    destruct Hok as [? | ->]; done. }
  assert (forceFullInventory (contentStart X w').1 = true) as Hfull.
  { rewrite (proj2 (contentStart_full X w')), Hlast. unfold shouldForceFullInventory.
    case_decide; [done |]. by destruct (deleteRemoved _). }
  split; [exact Hfull |].
  assert (stopAfterTime (contentStart X w').1 = None /\ offset (contentStart X w').2 = 0)
    as [Hstop Hoff].
  { pose proof (contentStart_mode X w') as Hmode. cbn zeta in Hmode.
    rewrite Hfull in Hmode. split; [exact Hmode |].
    by rewrite contentStart_offset, Hfull, Hcur. }
  destruct (contentStart_cursor X w') as (Ho & _). rewrite Hfull, Hoff in Ho.
  split_and!; [done | done | done |].
  rewrite !(proj1 (contentStart_full X _)), Hconv. apply knownAtStart_conversations.
Qed.

Lemma force_full_inventory_restarts_witness :
  let X := Scenario.at_ Scenario.healthy Scenario.keep Scenario.day in
  outbox (contentStart X (World (Storage.onForceFullInventory (fun _ => true)
                                   (storage Scenario.oneKnown)) None)).2
  = [MsgSyncMode true 0 100].
Proof.
  intros X.
  destruct (force_full_inventory_restarts X (fun _ => true) (storage Scenario.oneKnown) None)
    as (_ & _ & Ho & _); [by left | exact Ho].
Defined.

End StorageQuota.

(** ** When a full inventory is declared complete *)

Section InventoryComplete.

Import Content.

Section Loop.

Context (R : captured).
Hypothesis mode : forceFullInventory R = true -> stopAfterTime R = None.

(** In a full pass [didFullInventory] stays set until the listing is left,
    and is cleared there only by the page ceiling or by an empty first
    page. *)
Lemma listingLoop_complete (sched : list (list nat)) (c0 : state) :
  (forceFullInventory R = true -> didFullInventory c0 = true) ->
  match listingLoop R (S maxPages) sched c0 with
  | LoopBreak c _ =>
      forceFullInventory R = true -> listedCount c <> 0 ->
      (pageCount c <= maxPages)%nat -> didFullInventory c = true
  | LoopThrow c _ => True
  | LoopStuck c => True
  end.
Proof.
  intros Hc0.
  pose proof (listingLoop_rule R
                (fun c => forceFullInventory R = true -> didFullInventory c = true)
                (fun c => forceFullInventory R = true -> listedCount c <> 0 ->
                          (pageCount c <= maxPages)%nat -> didFullInventory c = true))
    as Hrule.
  assert (forall x,
             match x with
             | LoopBreak c _ =>
                 forceFullInventory R = true -> listedCount c <> 0 ->
                 (pageCount c <= maxPages)%nat -> didFullInventory c = true
             | LoopThrow c _ => forceFullInventory R = true -> didFullInventory c = true
             | LoopStuck c => forceFullInventory R = true -> didFullInventory c = true
             end ->
             match x with
             | LoopBreak c _ =>
                 forceFullInventory R = true -> listedCount c <> 0 ->
                 (pageCount c <= maxPages)%nat -> didFullInventory c = true
             | LoopThrow c _ => True
             | LoopStuck c => True
             end) as Hx by (by intros []).
  apply Hx, Hrule; [| | | | done].
  - intros c pg Hc _ _ Hfull. case_decide; cbn; [done | auto].
  - intros c pg Hc _ _ Hceil Hfull _ Hroom. cbn in Hroom.
    rewrite (pageCount_countPage pg (set_limit (page_limit pg) c)) in Hroom.
    cbn in Hroom. lia.
  - intros c pg Hc _ _ _. cbn zeta.
    destruct (classifyPage_fields R (pageCount c) pg
                (countPage pg (set_limit (page_limit pg) c))) as (_ & _ & _ & Hf & _).
    destruct (countPage_fields pg (set_limit (page_limit pg) c)) as (_ & Hf1 & _).
    assert (forceFullInventory R = true ->
            didFullInventory (classifyPage R (pageCount c) pg
                                (countPage pg (set_limit (page_limit pg) c))) = true)
      as Hkeep.
    { intros Hfull. rewrite Hf, Hf1. cbn. rewrite (Hc Hfull). unfold stopForTime.
      by rewrite (mode Hfull). }
    split; [exact Hkeep | auto].
  - intros c k Hc Hfull.
    destruct (workerStep_sameControl R c k) as (-> & _). auto.
Qed.

End Loop.

(** X15.  A completed run declares the inventory complete exactly when it
    is a full pass whose listing returned at least one item and stayed
    within the page ceiling, whatever the offset at which the listing
    started. *)
Theorem full_inventory_declared (X : circumstances) (w : world) (c : state)
    (ix : list item) :
  contentRun X w = Completed c ix ->
  didFullInventory c = true
  <-> forceFullInventory (contentStart X w).1 = true
      /\ listedCount c <> 0 /\ (pageCount c <= maxPages)%nat.
Proof.
  intros Hrun.
  destruct (contentStart_fields X w) as (Hp & Hl & _ & Hd & _).
  pose proof (runFrom_gate (contentStart X w).1 (schedule X) _ Hp Hl) as Hgate.
  rewrite <- contentRun_runFrom, Hrun in Hgate. destruct Hgate as (Hearly & Hfrom & _).
  set (R := (contentStart X w).1) in *. set (c0 := (contentStart X w).2) in *.
  destruct (completed_run X w c ix Hrun) as (cs & tot & n & Hc & _ & _ & _ & _ & Hloop).
  destruct Hloop as (c1 & sched' & Hloop & Hcs). fold R c0 in Hc, Hloop, Hcs.
  assert (forceFullInventory R = true -> stopAfterTime R = None) as Hmode.
  { intros Hfull. pose proof (contentStart_mode X w) as Hm. cbn zeta in Hm.
    fold R in Hm. by rewrite Hfull in Hm. }
  pose proof (listingLoop_complete R Hmode (schedule X) c0) as Hcomplete.
  rewrite Hloop in Hcomplete.
  destruct (settleAll_sameControl R c1 sched') as (Hf2 & Hl2 & _ & _ & _ & Hp2 & _).
  destruct (removalPass_fields R (settleAll R c1 sched')) as (Hl3 & Hp3 & Hf3 & _).
  rewrite <- Hcs in Hf2, Hl2, Hp2, Hl3, Hp3, Hf3. cbn in Hf2, Hl2, Hp2.
  assert (didFullInventory c = didFullInventory c1 /\ listedCount c = listedCount c1
          /\ pageCount c = pageCount c1) as (Hf & Hlc & Hpc).
  { rewrite Hc. cbn. by rewrite Hf3, Hl3, Hp3, Hf2, Hl2, Hp2. }
  split.
  - intros Hfull. split_and!.
    + rewrite <- Hd. by apply Hfrom.
    + intros Hz. rewrite Hearly in Hfull by (by right). done.
    + destruct (decide (pageCount c <= maxPages)%nat) as [? | Hover]; [done |].
      rewrite Hearly in Hfull by (left; lia). done.
  - intros (Hfull & Hsome & Hroom). rewrite Hf. apply Hcomplete.
    + by rewrite Hd.
    + done.
    + by rewrite <- Hlc.
    + by rewrite <- Hpc.
Qed.

Lemma full_inventory_declared_witness :
  let X := Scenario.at_ Scenario.healthy Scenario.keep Scenario.day in
  match contentRun X Scenario.threeKnown with
  | Completed c ix => didFullInventory c = true
  | Failed _ => False
  end.
Proof.
  intros X.
  destruct (contentRun X Scenario.threeKnown) as [c ix |] eqn:Hout;
    [| by vm_compute in Hout].
  apply (full_inventory_declared X Scenario.threeKnown c ix Hout).
  assert (match contentRun X Scenario.threeKnown with
          | Completed c' _ => listedCount c' = 2 /\ pageCount c' = 1%nat
          | Failed _ => True
          end) as Hcount by (by vm_compute).
  rewrite Hout in Hcount. destruct Hcount as [-> ->].
  split_and!; [reflexivity | done | unfold maxPages; lia].
Defined.

End InventoryComplete.

(** ** The run records after a run *)

Section RunRecords.

Import Background.

(** A message about an id leaves a run record with its status. *)
Lemma onMessage_record (now : Z) (msg : message) (b : state) (id : string)
    (st : runStatus) :
  messageId msg = Some id -> id <> EmptyString -> statusOf msg = Some st ->
  recorded (nextState (onMessage now msg b)) id st
  /\ id ∈ currentIds (onMessage now msg b).
Proof.
  intros Hid Hne Hst.
  destruct msg as [full ro lim | pr tot cur | i ttl ct t | i ttl ct t
                  | i err | tot u sk e full n | err]; try done;
    injection Hid as ->; injection Hst as <-; cbn;
    unfold bumpCheckpoint, recorded; rewrite ?maybeCheckpoint_nextState.
  - split.
    + eexists. unfold recordItem. cbn. by rewrite lookup_insert_eq.
    + unfold maybeCheckpoint, recordItem. destruct (_ && _); cbn; set_solver.
  - split.
    + eexists. unfold recordItem. cbn. by rewrite lookup_insert_eq.
    + unfold maybeCheckpoint, recordItem. destruct (_ && _); cbn; set_solver.
  - rewrite decide_False by done. split.
    + eexists. cbn. by rewrite lookup_insert_eq.
    + unfold maybeCheckpoint. destruct (_ && _); cbn; set_solver.
Qed.

(** An ordinary message leaves alone the run records of the other ids and
    forgets no id it has seen. *)
Lemma onMessage_otherRecord (now : Z) (msg : message) (b : state) (id : string) :
  ordinary msg = true -> messageId msg <> Some id ->
  lastRun (nextState (onMessage now msg b)) !! id = lastRun (nextState b) !! id
  /\ (id ∈ currentIds b -> id ∈ currentIds (onMessage now msg b)).
Proof.
  intros Hmsg Hid.
  destruct msg as [full ro lim | pr tot [[off lim] |] | i ttl ct t | i ttl ct t
                  | i err | tot u sk e full n | err]; try done; cbn in Hid; cbn;
    unfold bumpCheckpoint; rewrite ?maybeCheckpoint_nextState; cbn.
  - destruct (fullInventoryMode b); cbn; [| done].
    rewrite maybeCheckpoint_nextState. split; [done |].
    unfold maybeCheckpoint. by destruct (_ && _).
  - unfold recordItem at 1. cbn. rewrite lookup_insert_ne by congruence. split; [done |].
    unfold maybeCheckpoint, recordItem. destruct (_ && _); cbn; set_solver.
  - unfold recordItem at 1. cbn. rewrite lookup_insert_ne by congruence. split; [done |].
    unfold maybeCheckpoint, recordItem. destruct (_ && _); cbn; set_solver.
  - case_decide; cbn.
    + split; [done |]. unfold maybeCheckpoint. by destruct (_ && _).
    + rewrite lookup_insert_ne by congruence. split; [done |].
      unfold maybeCheckpoint. destruct (_ && _); cbn; set_solver.
Qed.

Lemma ordinary_open (now : Z) (msg : message) (b : state) :
  ordinary msg = true -> settled (onMessage now msg b) = settled b.
Proof.
  intros Hmsg. destruct (onMessage_open now msg b) as [Hs _]; [| done].
  by destruct msg.
Qed.

Lemma deliver_otherRecord (clock : nat -> Z) (msgs : list message) (k : nat) (b : state)
    (id : string) :
  Forall (fun m => ordinary m = true) msgs -> settled b = Pending ->
  id ∉ settledIds msgs ->
  lastRun (nextState (deliver clock k msgs b)) !! id = lastRun (nextState b) !! id
  /\ (id ∈ currentIds b -> id ∈ currentIds (deliver clock k msgs b)).
Proof.
  revert k b. induction msgs as [| msg msgs IH]; intros k b Hmsgs Hb Hid; [done |].
  apply Forall_cons in Hmsgs as [Hmsg Hmsgs].
  assert (messageId msg <> Some id /\ id ∉ settledIds msgs) as [Hne Hrest].
  { unfold settledIds in *. simpl in Hid. destruct (messageId msg) as [i |]; [| done].
    apply not_elem_of_cons in Hid as [? ?]. split; [congruence | done]. }
  cbn [deliver]. unfold receive. rewrite Hb.
  destruct (onMessage_otherRecord (clock k) msg b id Hmsg Hne) as [Hl Hc].
  destruct (IH (S k) (onMessage (clock k) msg b) Hmsgs) as [Hl' Hc'];
    [by rewrite ordinary_open | done |].
  split; [congruence | auto].
Qed.

(** When no id is reported twice, every message about an id has left its
    record by the time the messages are delivered. *)
Lemma deliver_records (clock : nat -> Z) (msgs : list message) (k : nat) (b : state) :
  Forall (fun m => ordinary m = true) msgs -> settled b = Pending ->
  NoDup (settledIds msgs) ->
  forall msg id st,
    msg ∈ msgs -> messageId msg = Some id -> id <> EmptyString ->
    statusOf msg = Some st ->
    recorded (nextState (deliver clock k msgs b)) id st
    /\ id ∈ currentIds (deliver clock k msgs b).
Proof.
  revert k b. induction msgs as [| m msgs IH]; intros k b Hmsgs Hb Hdup msg id st Hin Hid
    Hne Hst.
  { by apply elem_of_nil in Hin. }
  apply Forall_cons in Hmsgs as [Hm Hmsgs].
  cbn [deliver]. unfold receive. rewrite Hb.
  assert (settled (onMessage (clock k) m b) = Pending) as Hb' by (by rewrite ordinary_open).
  apply elem_of_cons in Hin as [-> | Hin].
  - assert (id ∉ settledIds msgs) as Hfresh.
    { unfold settledIds in *. simpl in Hdup. rewrite Hid in Hdup.
      by apply NoDup_cons in Hdup as [? _]. }
    destruct (onMessage_record (clock k) m b id st Hid Hne Hst) as [(r & Hr & Hs) Hc].
    destruct (deliver_otherRecord clock msgs (S k) _ id Hmsgs Hb' Hfresh) as [Hl Hc'].
    split; [| auto]. exists r. by rewrite Hl.
  - assert (NoDup (settledIds msgs)) as Hdup'.
    { unfold settledIds in *. simpl in Hdup. destruct (messageId m); [| done].
      by apply NoDup_cons in Hdup as [_ ?]. }
    by apply (IH (S k) _ Hmsgs Hb' Hdup' msg id st).
Qed.

(** The completion keeps the run record of every id seen in the run. *)
Lemma complete_keeps_record (s0 : syncState) (now tot u sk e n : Z) (full : bool)
    (b : state) (id : string) :
  settled b = Pending -> id ∈ currentIds b ->
  lastRun (persisted s0 (receive now (MsgSyncComplete tot u sk e full n) b)) !! id
  = lastRun (nextState b) !! id.
Proof.
  intros Hb Hid. unfold receive. rewrite Hb. cbn.
  destruct full; [| by destruct (fullInventoryMode b)]. cbn.
  destruct (lastRun (nextState b) !! id) as [r |] eqn:Hr.
  - by apply prune_lookup_Some.
  - apply eq_None_not_Some. intros [r Hr']. apply prune_lookup_Some in Hr' as [? _].
    congruence.
Qed.

End RunRecords.

Section RunRecordsRun.

Import Content.

Lemma kindIds_message (msgs : list message) (id : string) :
  (id ∈ skippedIds msgs ->
   exists msg, msg ∈ msgs /\ messageId msg = Some id /\ statusOf msg = Some StatusUnchanged)
  /\ (id ∈ fetchedIds msgs ->
      exists msg, msg ∈ msgs /\ messageId msg = Some id /\ statusOf msg = Some StatusUpdated)
  /\ (id ∈ failedIds msgs ->
      exists msg, msg ∈ msgs /\ messageId msg = Some id /\ statusOf msg = Some StatusError).
Proof.
  unfold skippedIds, fetchedIds, failedIds.
  split_and!; intros (msg & Hin & Hmsg)%list_elem_of_omap; exists msg;
    destruct msg; try done; by injection Hmsg as ->.
Qed.

(** X16.  After a completed run in which no id is listed twice and whose
    messages the service worker handles before its timer is due, the run
    records in storage tell what the run did with every listed conversation
    that has an id: unchanged when its observed time is not above the
    watermark, updated when its body was fetched and written, error
    otherwise. *)
Theorem run_records_tell_outcomes (X : circumstances) (w : world) (c : state)
    (ix : list item) :
  inTime X w ->
  contentRun X w = Completed c ix ->
  let R := (contentStart X w).1 in
  let items := itemsOf (listed R (contentStart X w).2) in
  NoDup (item_id <$> items) ->
  forall it,
    it ∈ items -> item_id it <> EmptyString ->
    recorded (storage (after (syncOnce X w))) (item_id it)
             (if decide (unchanged R it) then StatusUnchanged
              else if fetchable (the_env X) (item_id it) then StatusUpdated
                   else StatusError).
Proof.
  intros Htime Hrun R items Hdup it Hit Hne.
  destruct (completed_settled X w c ix Hrun)
    as (cs & mid & tot & u & s & e & n & Ho & Hcs & Hmid & _ & Hqs & _ & _ & _ & _
        & [F Hinv] & _ & Hskip & Hfetch & Hfail).
  fold R items in Hskip, Hfetch, Hfail, Hinv.
  destruct (cursorInv_drained _ _ _ F cs Hinv Hqs) as [Hall _]. fold items in Hall.
  unfold queueIds in Hfetch, Hfail. rewrite Hqs in Hfetch, Hfail.
  rewrite fmap_nil, filter_nil, app_nil_r in Hfetch, Hfail.
  rewrite Hcs in Hall, Hskip, Hfetch, Hfail.
  change (settledIds (_ :: mid)) with (settledIds mid) in Hall.
  change (skippedIds (_ :: mid)) with (skippedIds mid) in Hskip.
  change (fetchedIds (_ :: mid)) with (fetchedIds mid) in Hfetch.
  change (failedIds (_ :: mid)) with (failedIds mid) in Hfail.
  assert (NoDup (settledIds mid)) as Hnodup by (by rewrite Hall).
  set (st := if decide (unchanged R it) then StatusUnchanged
             else if fetchable (the_env X) (item_id it) then StatusUpdated
                  else StatusError).
  assert (exists msg, msg ∈ mid /\ messageId msg = Some (item_id it)
                      /\ statusOf msg = Some st) as (msg & Hin & Hid & Hst).
  { destruct (kindIds_message mid (item_id it)) as (H1 & H2 & H3). unfold st.
    destruct (decide (unchanged R it)) as [Hu | Hc].
    - apply H1. rewrite Hskip. apply list_elem_of_fmap. exists it. split; [done |].
      by apply list_elem_of_filter.
    - assert (item_id it ∈ changedIds R items) as Hchanged.
      { unfold changedIds. apply list_elem_of_fmap. exists it. split; [done |].
        by apply list_elem_of_filter. }
      destruct (fetchable (the_env X) (item_id it)) eqn:Hf.
      + apply H2. rewrite Hfetch. by apply list_elem_of_filter.
      + apply H3. rewrite Hfail. by apply list_elem_of_filter. }
  set (b1 := Background.receive (clock X 0%nat)
               (MsgSyncMode (forceFullInventory R) (offset (contentStart X w).2) 100)
               (Background.start (portOpened X) (storage w))).
  assert (Background.settled b1 = Background.Pending) as Hb1.
  { unfold b1, Background.receive, Background.start. cbn.
    unfold Background.maybeCheckpoint. cbn. by destruct (forceFullInventory R). }
  destruct (deliver_records (clock X) mid 1 b1 Hmid Hb1 Hnodup msg (item_id it) st
              Hin Hid Hne Hst) as [(r & Hr & Hs) Hseen].
  destruct (deliver_mode (clock X) mid 1 b1 Hmid Hb1) as [Hb2 _].
  assert (storage (after (syncOnce X w))
          = Background.persisted (storage w)
              (Background.receive (clock X (1 + length mid))
                 (MsgSyncComplete tot u s e (didFullInventory c) n)
                 (Background.deliver (clock X) 1 mid b1))) as ->.
  { destruct (syncOnce_inTime X w Htime) as [_ ->]. rewrite Hrun. cbn [posted].
    rewrite Ho, Hcs. cbn [app Background.deliver]. by rewrite deliver_app. }
  exists r. split; [| done].
  by rewrite (complete_keeps_record (storage w) _ tot u s e n _ _ _ Hb2 Hseen).
Qed.

Lemma run_records_tell_outcomes_witness :
  let X := Scenario.at_ Scenario.failing Scenario.keep Scenario.day in
  inTime X Scenario.oneKnown
  /\ recorded (storage (after (syncOnce X Scenario.oneKnown))) "B" StatusError
  /\ recorded (storage (after (syncOnce X Scenario.oneKnown))) "A" StatusUnchanged.
Proof.
  intros X.
  assert (inTime X Scenario.oneKnown) as Htime by (apply at_inTime; by vm_compute).
  split; [exact Htime |].
  destruct (contentRun X Scenario.oneKnown) as [c ix |] eqn:Hout; [| by vm_compute in Hout].
  assert (NoDup (item_id <$> itemsOf (listed (contentStart X Scenario.oneKnown).1
                                             (contentStart X Scenario.oneKnown).2)))
    as Hdup.
  { vm_compute. apply NoDup_cons. split; [| apply NoDup_singleton].
    by intros ?%list_elem_of_singleton. }
  split.
  - apply (run_records_tell_outcomes X Scenario.oneKnown c ix Htime Hout Hdup
             Scenario.convB); [vm_compute; by left | done].
  - apply (run_records_tell_outcomes X Scenario.oneKnown c ix Htime Hout Hdup
             Scenario.convA); [vm_compute; right; by left | done].
Defined.

End RunRecordsRun.

(** ** The front matter of the Markdown export *)

Section FrontMatter.

Import Markdown.

Lemma escapeYaml_cons (c : ascii) (rest : string) :
  escapeYaml (String c rest)
  = if Ascii.eqb c quote then String backslash (String quote (escapeYaml rest))
    else String (if Ascii.eqb c newline then space else c) (escapeYaml rest).
Proof. unfold escapeYaml. simpl. by destruct (Ascii.eqb c quote). Qed.

Lemma escapeYaml_head (s : string) : String.get 0 (escapeYaml s) <> Some quote.
Proof.
  destruct s as [| c rest]; [done |]. rewrite escapeYaml_cons.
  destruct (Ascii.eqb c quote) eqn:Hq; simpl; [done |].
  apply Ascii.eqb_neq in Hq.
  destruct (Ascii.eqb c newline); [unfold space, quote |]; congruence.
Qed.

Lemma escapeYaml_app (u v : string) :
  escapeYaml (u +:+ v) = escapeYaml u +:+ escapeYaml v.
Proof.
  induction u as [| c u IH]; [done |].
  change (String c u +:+ v) with (String c (u +:+ v)).
  rewrite !escapeYaml_cons, IH. by destruct (Ascii.eqb c quote).
Qed.

(** X17.  [escapeYaml] puts a backslash before every double quote and a
    space for every line feed, and changes nothing else.  Its result holds
    no line feed, every double quote in it comes right after a backslash,
    and a value with neither character, whatever backslashes and carriage
    returns it holds, is returned as it is.  Backslashes are not escaped: a
    backslash before a quote in the value comes out as two backslashes
    before the quote, and a value that ends in a backslash gives a result
    that ends in one.  Only in the result of a value without a backslash is
    every quote preceded by exactly one backslash. *)
Theorem escapeYaml_escapes_quotes_only (value : string) :
  let out := escapeYaml value in
  (forall i, String.get i out <> Some newline)
  /\ (forall i, String.get i out = Some quote ->
                exists j, i = S j /\ String.get j out = Some backslash)
  /\ ((forall i, String.get i value <> Some quote /\ String.get i value <> Some newline) ->
      out = value)
  /\ (forall rest,
        escapeYaml (value +:+ String backslash (String quote rest))
        = out +:+ String backslash (String backslash (String quote (escapeYaml rest))))
  /\ escapeYaml (value +:+ String backslash EmptyString)
     = out +:+ String backslash EmptyString
  /\ ((forall i, String.get i value <> Some backslash) ->
      forall j, String.get (S j) out = Some quote ->
                String.get j out = Some backslash
                /\ forall k, j = S k -> String.get k out <> Some backslash).
Proof.
  cbn zeta. split_and!.
  - induction value as [| c rest IH]; [done |]. rewrite escapeYaml_cons.
    destruct (Ascii.eqb c quote) eqn:Hq; [| destruct (Ascii.eqb c newline) eqn:Hn].
    + intros [| [| i]]; simpl; [done | done | apply IH].
    + intros [| i]; simpl; [done | apply IH].
    + apply Ascii.eqb_neq in Hn. intros [| i]; simpl; [congruence | apply IH].
  - induction value as [| c rest IH]; [done |]. rewrite escapeYaml_cons.
    destruct (Ascii.eqb c quote) eqn:Hq; [| destruct (Ascii.eqb c newline) eqn:Hn].
    + intros [| [| i]]; simpl; [done | by exists 0%nat |].
      intros (j & -> & Hj)%IH. by exists (S (S j)).
    + intros [| i]; simpl; [done |]. intros (j & -> & Hj)%IH. by exists (S j).
    + apply Ascii.eqb_neq in Hq.
      intros [| i]; simpl; [congruence |]. intros (j & -> & Hj)%IH. by exists (S j).
  - induction value as [| c rest IH]; [done |]. rewrite escapeYaml_cons. intros Hnone.
    destruct (Ascii.eqb c quote) eqn:Hq; [| destruct (Ascii.eqb c newline) eqn:Hn].
    + apply Ascii.eqb_eq in Hq as ->. by destruct (Hnone 0%nat) as [? _].
    + apply Ascii.eqb_eq in Hn as ->. by destruct (Hnone 0%nat) as [_ ?].
    + f_equal. apply IH. intros i. apply (Hnone (S i)).
  - intros rest. by rewrite escapeYaml_app.
  - by rewrite escapeYaml_app.
  - induction value as [| c rest IH]; [done |]. rewrite escapeYaml_cons. intros Hnone.
    assert (forall i, String.get i rest <> Some backslash) as Hrest
      by (intros i; apply (Hnone (S i))).
    specialize (IH Hrest).
    assert (c <> backslash) as Hc by (intros ->; by apply (Hnone 0%nat)).
    destruct (Ascii.eqb c quote) eqn:Hq.
    + intros [| [| j]]; simpl.
      * intros _. split; [done |]. by intros k.
      * intros Hquote. by apply escapeYaml_head in Hquote.
      * intros Hquote. destruct (IH j Hquote) as [Hb Hk]. split; [done |].
        intros k Heq. assert (k = S j) as -> by lia.
        destruct j as [| j']; simpl; [done |]. by apply Hk.
    + intros [| j]; simpl.
      * intros Hquote. by apply escapeYaml_head in Hquote.
      * intros Hquote. destruct (IH j Hquote) as [Hb Hk]. split; [done |].
        intros k Heq. assert (k = j) as -> by lia.
        destruct j as [| j']; simpl; [| by apply Hk].
        destruct (Ascii.eqb c newline); [unfold space, backslash |]; congruence.
Qed.

End FrontMatter.

(** ** The branch of a conversation that is exported *)

Section Branch.

Import Transcript.

Context (mapping : gmap string node).

Lemma collect_ancestry (nodeId : string) (path : list node) :
  ancestry mapping nodeId path ->
  forall fuel nodes,
    (length path < fuel)%nat ->
    collect mapping fuel nodeId nodes = Some (nodes ++ path).
Proof.
  induction 1 as [nodeId Hend | nodeId nd path Hne Hnd _ IH]; intros fuel nodes Hfuel.
  - destruct fuel as [| fuel]; [simpl in Hfuel; lia |]. simpl. rewrite app_nil_r.
    case_decide; [done |]. destruct Hend as [? | ->]; done.
  - destruct fuel as [| fuel]; [simpl in Hfuel; lia |]. simpl in *.
    rewrite decide_False, Hnd by done. rewrite IH by lia.
    by rewrite <- app_assoc.
Qed.

(** The loop does not stop before it has followed the links that exist. *)
Lemma collect_climb (k : nat) (nodeId nodeId' : string) :
  climb mapping k nodeId = Some nodeId' ->
  forall fuel nodes,
    if decide (k <= fuel)%nat
    then exists nodes', collect mapping fuel nodeId nodes
                        = collect mapping (fuel - k) nodeId' nodes'
    else collect mapping fuel nodeId nodes = None.
Proof.
  revert nodeId. induction k as [| k IH]; intros nodeId Hk fuel nodes.
  - injection Hk as ->. rewrite decide_True by lia. exists nodes. by rewrite Nat.sub_0_r.
  - simpl in Hk. destruct (decide (nodeId = EmptyString)) as [| Hne]; [done |].
    destruct (mapping !! nodeId) as [nd |] eqn:Hnd; [| done].
    destruct fuel as [| fuel]; [by rewrite decide_False by lia |].
    assert (collect mapping (S fuel) nodeId nodes
            = collect mapping fuel (node_parent nd) (nodes ++ [nd])) as ->.
    { simpl. by rewrite decide_False, Hnd by done. }
    specialize (IH _ Hk fuel (nodes ++ [nd])).
    destruct (decide (k <= fuel)%nat).
    + rewrite decide_True by lia. exact IH.
    + rewrite decide_False by lia. exact IH.
Qed.

Lemma collect_cycle (k : nat) (nodeId : string) :
  (0 < k)%nat -> climb mapping k nodeId = Some nodeId ->
  forall fuel nodes, collect mapping fuel nodeId nodes = None.
Proof.
  intros Hk Hcycle fuel. induction (lt_wf fuel) as [fuel _ IH]. intros nodes.
  pose proof (collect_climb k nodeId nodeId Hcycle fuel nodes) as Hrun.
  destruct (decide (k <= fuel)%nat); [| done].
  destruct Hrun as [nodes' ->]. apply IH. lia.
Qed.

(** X18.  [extractMessages] exports the branch of [current_node] and
    nothing else: when the parent links from [current_node] end, after the
    nodes [path], the loop ends and the result holds, from the root down, the
    messages of these nodes that have a non-empty text.  When the parent
    links lead into a cycle, the loop does not end. *)
Theorem extractMessages_branch (current_node : string) :
  (forall path fuel,
      ancestry mapping current_node path -> (length path < fuel)%nat ->
      extractMessages mapping current_node fuel = Some (omap toMessage (reverse path)))
  /\ (forall j k nodeId,
        climb mapping j current_node = Some nodeId ->
        (0 < k)%nat -> climb mapping k nodeId = Some nodeId ->
        forall fuel, extractMessages mapping current_node fuel = None).
Proof.
  split.
  - intros path fuel Hpath Hfuel. unfold extractMessages.
    by rewrite (collect_ancestry _ _ Hpath fuel []).
  - intros j k nodeId Hj Hk Hcycle fuel. unfold extractMessages.
    pose proof (collect_climb j current_node nodeId Hj fuel []) as Hrun.
    destruct (decide (j <= fuel)%nat); [| by rewrite Hrun].
    destruct Hrun as [nodes' ->]. by rewrite (collect_cycle k nodeId Hk Hcycle).
Qed.

End Branch.

(** A conversation with a regenerated answer: the root has two children,
    and only the branch of the current node is exported. *)
Lemma extractMessages_branch_witness :
  let text := fun t => Some (Transcript.NodeMessage "m" "user" (Some t) 0 0) in
  let mapping : gmap string Transcript.node :=
    {["root" := Transcript.Node "" (text "question");
      "old" := Transcript.Node "root" (text "first answer");
      "new" := Transcript.Node "root" (text "second answer")]} in
  Transcript.x_content <$> default [] (Transcript.extractMessages mapping "new" 3)
  = ["question"; "second answer"].
Proof.
  intros text mapping.
  rewrite (proj1 (extractMessages_branch mapping "new")
             [Transcript.Node "root" (text "second answer");
              Transcript.Node "" (text "question")] 3%nat).
  - reflexivity.
  - apply Transcript.ancestry_parent; [done | done |].
    apply Transcript.ancestry_parent; [done | done |].
    apply Transcript.ancestry_root. by left.
  - simpl. lia.
Defined.

(** ** The index of the options page *)

Section IndexView.

Import OptionsPage.

Lemma countStep_fold (key : string) (entries : list entry) (acc : gmap string Z) :
  default 0 (foldl countStep acc entries !! key)
  = default 0 (acc !! key)
    + Z.of_nat (length (filter (fun e => str_or (e_status e) "unknown" = key) entries)).
Proof.
  revert acc. induction entries as [| e entries IH]; intros acc; simpl; [lia |].
  rewrite IH, filter_cons. unfold countStep. rewrite num_or_zero.
  destruct (decide (str_or (e_status e) "unknown" = key)) as [-> | Hne].
  - rewrite lookup_insert_eq. simpl. lia.
  - by rewrite lookup_insert_ne.
Qed.

Lemma buildEntry_status (s : syncState) (id : string) :
  e_status (buildEntry s id) ∈ ["updated"; "unchanged"; "error"; "unknown"].
Proof.
  unfold buildEntry. cbn. destruct (lastRun s !! id) as [[[] ? ? ?] |]; cbn; set_solver.
Qed.

(** Entries whose status is one of four names fall into four classes. *)
Lemma four_classes (entries : list entry) :
  Forall (fun e => e_status e ∈ ["updated"; "unchanged"; "error"; "unknown"]) entries ->
  length entries
  = (length (filter (fun e => str_or (e_status e) "unknown" = "updated") entries)
     + length (filter (fun e => str_or (e_status e) "unknown" = "unchanged") entries)
     + length (filter (fun e => str_or (e_status e) "unknown" = "error") entries)
     + length (filter (fun e => str_or (e_status e) "unknown" = "unknown") entries))%nat.
Proof.
  induction 1 as [| e entries He _ IH]; [done |].
  rewrite !filter_cons. simpl. rewrite IH.
  assert (e_status e = "updated" \/ e_status e = "unchanged" \/ e_status e = "error"
          \/ e_status e = "unknown") as [-> | [-> | [-> | ->]]] by set_solver;
    unfold str_or; repeat case_decide; simplify_eq; simpl; lia.
Qed.

(** X19.  The index of the options page shows one entry for each id that
    has metadata or a watermark, and no other: an id with a run record only
    is not shown.  The four status counts it prints add up to the number of
    entries, and each is the number of entries that the status filter shows
    for that status. *)
Theorem index_view (s : syncState) :
  let entries := buildIndexEntries s in
  let counts := statusCounts entries in
  NoDup (e_id <$> entries)
  /\ (forall id, id ∈ e_id <$> entries <-> is_Some (meta s !! id)
                                           \/ is_Some (conversations s !! id))
  /\ shownCount counts "updated" + shownCount counts "unchanged"
     + shownCount counts "error" + shownCount counts "unknown"
     = Z.of_nat (length entries)
  /\ (forall key, key <> "all" ->
                  shownCount counts key = Z.of_nat (length (filterByStatus key entries))).
Proof.
  intros entries counts.
  assert (e_id <$> entries = elements (dom (meta s) ∪ dom (conversations s))) as Hids.
  { unfold entries, buildIndexEntries. rewrite <- list_fmap_compose.
    generalize (elements (dom (meta s) ∪ dom (conversations s))).
    intros l. induction l as [| i l IH]; [done |]. rewrite fmap_cons. by f_equal. }
  assert (forall key,
             shownCount counts key
             = Z.of_nat (length (filter (fun e => str_or (e_status e) "unknown" = key)
                                        entries))) as Hcount.
  { intros key. unfold shownCount, counts, statusCounts.
    rewrite num_or_zero, countStep_fold, lookup_empty. simpl. lia. }
  split_and!.
  - rewrite Hids. apply NoDup_elements.
  - intros id. rewrite Hids, elem_of_elements, elem_of_union, !elem_of_dom. done.
  - rewrite !Hcount, (four_classes entries); [lia |].
    unfold entries, buildIndexEntries. apply Forall_fmap, Forall_forall.
    intros id _. apply buildEntry_status.
  - intros key Hkey. rewrite Hcount. unfold filterByStatus. by rewrite decide_False.
Qed.

End IndexView.

(** ** Against a remote that lists newest first *)

Section SortedRemote.

Import Content.

Section Listing.

Context (R : captured) (all : list item) (r : nat).
Hypothesis Hserves : serves (cap_env R) all.
Hypothesis Hsorted : newestFirst all.
Hypothesis Hroom : (length all <= r + 100 * maxPages)%nat.

Lemma fetch_slice (n : nat) :
  fetchConversationPage (fetchJson (cap_env R)) (Z.of_nat n) 100
  = inr (buildPage (Z.of_nat n) 100
           (RawPage (take 100 (drop n all)) (Some (Z.of_nat (length all))) None)).
Proof.
  unfold fetchConversationPage. simpl. rewrite Hserves, Nat2Z.id.
  by change (Z.to_nat 100) with 100%nat.
Qed.

(** [pageMinUpdate] is 0 or the observed time of an item of the page. *)
Lemma pageMin_attained (its : list item) (m : Z) :
  foldl pageMinStep m its = m
  \/ exists it, it ∈ its /\ observedTime it = foldl pageMinStep m its.
Proof.
  revert m. induction its as [| i its IH]; intros m; [by left |]. simpl.
  destruct (IH (pageMinStep m i)) as [-> | (it & Hit & Heq)].
  - unfold pageMinStep. repeat case_decide; [right | right | by left];
      exists i; (split; [by left | done]).
  - right. exists it. split; [by right | done].
Qed.

(** The listing leaves out no wanted item from its start offset on. *)
Lemma pagesListed_covers (fuel pc : nat) (it : item) :
  (maxPages < fuel + pc)%nat ->
  it ∈ drop (r + 100 * pc) all -> wanted R it ->
  it ∈ itemsOf (pagesListed R fuel (Z.of_nat (r + 100 * pc)) 100 pc).
Proof.
  revert pc. induction fuel as [| fuel IH]; intros pc Hfuel Hit Hwant.
  { rewrite drop_ge in Hit by (simpl in Hfuel; lia). by apply elem_of_nil in Hit. }
  set (n := (r + 100 * pc)%nat) in *.
  rewrite pagesListed_S, fetch_slice.
  set (its := take 100 (drop n all)).
  assert (length its = Nat.min 100 (length all - n)) as Hlen
    by (unfold its; by rewrite length_take, length_drop).
  unfold buildPage. cbn [raw_items raw_total raw_has_more default items page_limit].
  unfold id. fold its.
  destruct (decide (its = [])) as [Hnil | Hne].
  { rewrite Hnil in Hlen. change (length (@nil item)) with 0%nat in Hlen.
    rewrite drop_ge in Hit by lia. by apply elem_of_nil in Hit. }
  destruct (decide (maxPages < S pc)%nat) as [Hceil | Hpages].
  { destruct Hne. apply length_zero_iff_nil. rewrite Hlen. unfold n. lia. }
  assert (forall l, itemsOf (Page its (Z.of_nat (length all))
                               (bool_decide (Z.of_nat n + Z.of_nat (length its)
                                             < Z.of_nat (length all)))
                               100 (computePageMinUpdate its) :: l)
                    = its ++ itemsOf l) as -> by done.
  rewrite <- (take_drop 100 (drop n all)) in Hit. fold its in Hit.
  apply elem_of_app in Hit as [Hit | Hit]; [apply elem_of_app; by left |].
  apply elem_of_app. right.
  unfold shouldContinue. cbn [hasMore items].
  destruct (stopForTime R _) eqn:Hstop; cbn [negb andb].
  - apply stopForTime_spec in Hstop as (W & HW & _ & Hmin & Hle).
    cbn [pageMinUpdate] in Hmin, Hle. unfold wanted in Hwant. rewrite HW in Hwant.
    destruct (pageMin_attained its 0) as [Hzero | (it0 & Hit0 & Heq)]; [done |].
    fold (computePageMinUpdate its) in Heq.
    assert (observedTime it <= observedTime it0); [| lia].
    apply (StronglySorted_app_1_elem_of
             (fun a b => observedTime b <= observedTime a)
             its (drop 100 (drop n all)) it0 it); [| done | done].
    unfold its. rewrite take_drop.
    apply (StronglySorted_app_1_r (fun a b => observedTime b <= observedTime a)
             (take n all)).
    by rewrite take_drop.
  - rewrite drop_drop in Hit.
    destruct (bool_decide _ || bool_decide _) eqn:Hmore.
    + assert (length its = 100%nat) as Hfull.
      { apply orb_true_iff in Hmore as [Hm | Hm]; apply bool_decide_eq_true in Hm; lia. }
      rewrite Hfull.
      replace (Z.of_nat n + Z.of_nat 100) with (Z.of_nat (r + 100 * S pc)) by (unfold n; lia).
      apply IH; [lia | | done].
      by replace (r + 100 * S pc)%nat with (n + 100)%nat by (unfold n; lia).
    + apply orb_false_iff in Hmore as [Hm1 Hm2].
      apply bool_decide_eq_false in Hm1, Hm2.
      rewrite drop_ge in Hit by lia. by apply elem_of_nil in Hit.
Qed.

End Listing.

(** X20.  Against a remote that serves a list of at most 20000
    conversations newest first, the listing of a run leaves out nothing it
    should see: from its start offset on, a full pass lists every
    conversation, and a partial pass lists every conversation that is newer
    than the largest known watermark.  When a partial pass completes, each
    of these is reported as fetched or as failed. *)
Theorem sorted_listing_is_complete (X : circumstances) (w : world) (all : list item)
    (r : nat) :
  serves (the_env X) all -> newestFirst all ->
  (length all <= r + 100 * maxPages)%nat ->
  offset (contentStart X w).2 = Z.of_nat r ->
  let R := (contentStart X w).1 in
  (forall it, it ∈ drop r all -> wanted R it ->
              it ∈ itemsOf (listed R (contentStart X w).2))
  /\ (forall c ix it,
        contentRun X w = Completed c ix -> forceFullInventory R = false ->
        it ∈ all -> getMaxKnownUpdateTime (knownConversations R) < observedTime it ->
        item_id it ∈ fetchedIds (outbox c) \/ item_id it ∈ failedIds (outbox c)).
Proof.
  intros Hserves Hsorted Hroom Hoff R.
  assert (forall it, it ∈ drop r all -> wanted R it ->
                     it ∈ itemsOf (listed R (contentStart X w).2)) as Hlisted.
  { intros it Hit Hwant. unfold listed. rewrite Hoff.
    replace r with (r + 100 * 0)%nat in Hit |- * by lia.
    change (limit (contentStart X w).2) with 100.
    change (pageCount (contentStart X w).2) with 0%nat.
    apply (pagesListed_covers R all r Hserves Hsorted Hroom); [lia | done | done]. }
  split; [exact Hlisted |].
  intros c ix it Hrun Hpart Hit Hnew.
  pose proof (contentStart_mode X w) as Hmode. cbn zeta in Hmode. fold R in Hmode.
  rewrite Hpart in Hmode.
  assert (r = 0%nat) as ->.
  { rewrite contentStart_offset in Hoff. fold R in Hoff. rewrite Hpart in Hoff. lia. }
  assert (it ∈ itemsOf (listed R (contentStart X w).2)) as Hin.
  { apply Hlisted; [done |]. unfold wanted. by rewrite Hmode. }
  assert (~ unchanged R it) as Hchanged.
  { unfold unchanged.
    destruct (getMaxKnownUpdateTime_spec (knownConversations R)) as (_ & Hmax & _).
    specialize (Hmax (item_id it)). lia. }
  destruct (completed_settled X w c ix Hrun)
    as (cs & mid & tot & u & s & e & n & Ho & _ & _ & _ & Hqs & _ & _ & _ & _ & _ & _
        & _ & Hfetch & Hfail).
  fold R in Hfetch, Hfail.
  unfold queueIds in Hfetch, Hfail. rewrite Hqs in Hfetch, Hfail.
  rewrite fmap_nil, filter_nil, app_nil_r in Hfetch, Hfail.
  assert (item_id it ∈ changedIds R (itemsOf (listed R (contentStart X w).2))) as Hid.
  { unfold changedIds. apply list_elem_of_fmap. exists it. split; [done |].
    by apply list_elem_of_filter. }
  assert (fetchedIds (outbox c) = fetchedIds (outbox cs)
          /\ failedIds (outbox c) = failedIds (outbox cs)) as [-> ->].
  { unfold fetchedIds, failedIds. rewrite Ho, !omap_app. simpl. by rewrite !app_nil_r. }
  destruct (fetchable (cap_env R) (item_id it)) eqn:Hf.
  - left. rewrite Hfetch. by apply list_elem_of_filter.
  - right. rewrite Hfail. by apply list_elem_of_filter.
Qed.

Lemma sorted_listing_is_complete_witness :
  let X := Scenario.at_ Scenario.healthy Scenario.keep Scenario.day in
  match contentRun X Scenario.oneKnown with
  | Completed c ix => "B" ∈ fetchedIds (outbox c) \/ "B" ∈ failedIds (outbox c)
  | Failed _ => False
  end.
Proof.
  intros X.
  destruct (contentRun X Scenario.oneKnown) as [c ix |] eqn:Hout; [| by vm_compute in Hout].
  assert (newestFirst [Scenario.convB; Scenario.convA]) as Hsorted.
  { repeat constructor. by vm_compute. }
  destruct (sorted_listing_is_complete X Scenario.oneKnown
              [Scenario.convB; Scenario.convA] 0) as [_ Hnew];
    [done | exact Hsorted | cbn [length]; unfold maxPages; lia | reflexivity |].
  apply (Hnew c ix Scenario.convB Hout); [reflexivity | by left | by vm_compute].
Defined.

End SortedRemote.

(** ** What index.json lists after a run *)

Section IndexContents.

Import Content.

Lemma seenHaveMeta_sameData (c c' : state) :
  sameData c c' -> seenHaveMeta c -> seenHaveMeta c'.
Proof. intros (Hm & Hi & _). unfold seenHaveMeta. by rewrite Hm, Hi. Qed.

Lemma classifyItem_seenHaveMeta (R : captured) (pageIndex : nat) (c : state) (it : item) :
  seenHaveMeta c -> seenHaveMeta (classifyItem R pageIndex c it).
Proof.
  unfold seenHaveMeta. intros Hc.
  destruct (classifyItem_extends R pageIndex c it) as (Hdom & _).
  rewrite classifyItem_currentIds.
  assert (item_id it ∈ dom (metaMap (classifyItem R pageIndex c it))) as Hid.
  { destruct (decide (observedTime it <= watermark (knownConversations R) (item_id it)))
      as [Hle | Hgt].
    - destruct (classifyItem_unchanged R pageIndex c it Hle) as (_ & -> & _).
      rewrite dom_insert. set_solver.
    - rewrite (classifyItem_pending R pageIndex c it) by lia. cbn.
      rewrite dom_insert. set_solver. }
  set_solver.
Qed.

Lemma workerStep_seenHaveMeta (R : captured) (c : state) (k : nat) :
  seenHaveMeta c -> seenHaveMeta (workerStep R c k).
Proof.
  unfold seenHaveMeta. intros Hc. rewrite workerStep_currentIds.
  destruct (workerStep_extends R c k) as (Hdom & _). set_solver.
Qed.

Lemma writeIndex_ids (m : gmap string metaEntry) :
  NoDup (item_id <$> writeIndex m)
  /\ forall id, id ∈ item_id <$> writeIndex m <-> id ∈ dom m.
Proof.
  assert (item_id <$> writeIndex m ≡ₚ (map_to_list m).*1) as Hperm.
  { unfold writeIndex. rewrite <- list_fmap_compose.
    rewrite <- (merge_sort_Permutation newerFirst (map_to_list m)) at 2.
    generalize (merge_sort newerFirst (map_to_list m)). intros l.
    induction l as [| [id e] l IH]; [done |]. rewrite !fmap_cons. by f_equal. }
  split.
  - rewrite Hperm. apply NoDup_fst_map_to_list.
  - intros id. rewrite Hperm, elem_of_dom. split.
    + intros ([id' e] & -> & Hin%elem_of_map_to_list)%list_elem_of_fmap. by exists e.
    + intros [e He]. apply list_elem_of_fmap. exists (id, e). split; [done |].
      by apply elem_of_map_to_list.
Qed.

(** X21.  The index.json that a completed run writes has one entry for
    each conversation it knows afterwards: the ids listed in the run and,
    unless the run completed a full inventory, the ids it had metadata for
    at the start, from storage or from the index.json it found.  The count
    sent with the completion is the number of entries. *)
Theorem index_lists_what_is_known (X : circumstances) (w : world) (c : state)
    (ix : list item) :
  contentRun X w = Completed c ix ->
  let R := (contentStart X w).1 in
  let c0 := (contentStart X w).2 in
  NoDup (item_id <$> ix)
  /\ (forall id,
        id ∈ item_id <$> ix
        <-> id ∈ idsOf (itemsOf (listed R c0))
            \/ (didFullInventory c = false /\ is_Some (metaMap c0 !! id)))
  /\ exists tot u s e full,
      last (outbox c) = Some (MsgSyncComplete tot u s e full (Z.of_nat (length ix))).
Proof.
  intros Hrun R c0.
  pose proof (completed_currentIds X w c ix Hrun) as Hids. fold R c0 in Hids.
  destruct (completed_run X w c ix Hrun)
    as (cs & tot & n & Hc & Hix & Hacc & _ & Hext & c1 & sched' & Hloop & Hcs).
  fold R c0 in Hc, Hacc, Hext, Hloop, Hcs.
  destruct Hacc as (_ & _ & Hupper & _). destruct Hext as (Hlower & _).
  assert (seenHaveMeta cs) as Hseen.
  { rewrite Hcs. apply settleAll_rule; [apply workerStep_seenHaveMeta |].
    eapply (seenHaveMeta_sameData c1); [by repeat split |].
    change c1 with (exitState (LoopBreak c1 sched')). rewrite <- Hloop.
    apply (listingLoop_data R seenHaveMeta);
      [apply seenHaveMeta_sameData | intros; by apply classifyItem_seenHaveMeta
       | apply workerStep_seenHaveMeta |].
    destruct (contentStart_fields X w) as (_ & _ & _ & _ & Hi & _). fold c0 in Hi.
    unfold seenHaveMeta. rewrite Hi. apply empty_subseteq. }
  destruct (removalPass_fields R cs) as (_ & _ & Hf3 & _ & Hi3).
  assert (currentIds cs = idsOf (itemsOf (listed R c0))) as Hcur.
  { rewrite <- Hids, Hc. cbn. by rewrite Hi3. }
  assert (didFullInventory c = didFullInventory cs) as Hfull.
  { rewrite Hc. cbn. by rewrite Hf3. }
  assert (forall id, id ∈ dom (metaMap c)
                     <-> id ∈ idsOf (itemsOf (listed R c0))
                         \/ (didFullInventory c = false /\ is_Some (metaMap c0 !! id)))
    as Hdom.
  { intros id. rewrite Hfull, <- Hcur, Hc. cbn [metaMap post set_outbox].
    unfold seenHaveMeta in Hseen.
    destruct (didFullInventory cs) eqn:Hd.
    - destruct (removalPass_full R cs Hd) as (Hm & _).
      rewrite elem_of_dom, Hm. case_decide as Hin.
      + rewrite <- elem_of_dom. split; [by left | intros _; by apply Hseen].
      + split; [by intros [? ?] |]. by intros [? | [? _]].
    - rewrite (removalPass_partial R cs Hd). rewrite <- elem_of_dom. split.
      + intros Hin. apply Hupper in Hin. apply elem_of_union in Hin as [Hin | Hin].
        * right. by split.
        * by left.
      + intros [Hin | [_ Hin]]; [by apply Hseen | by apply Hlower]. }
  destruct (writeIndex_ids (metaMap c)) as [Hnodup Hmem]. rewrite <- Hix in Hnodup, Hmem.
  split_and!.
  - exact Hnodup.
  - intros id. by rewrite Hmem, Hdom.
  - rewrite contentRun_runFrom in Hrun.
    apply runFrom_completed in Hrun as (c1' & sched'' & _ & _ & Hix' & tot' & Hc').
    rewrite Hc'. cbn [outbox post set_outbox]. rewrite last_snoc, Hix'.
    assert (forall m : gmap string metaEntry, length (writeIndex m) = size m) as ->.
    { intros m. unfold writeIndex.
      by rewrite length_fmap, merge_sort_Permutation, length_map_to_list. }
    by eauto 10.
Qed.

Lemma index_lists_what_is_known_witness :
  let X := Scenario.at_ Scenario.healthy Scenario.keep Scenario.day in
  match contentRun X Scenario.threeKnown with
  | Completed c ix => forall id, id ∈ item_id <$> ix <-> id = "B" \/ id = "A"
  | Failed _ => False
  end.
Proof.
  intros X.
  destruct (contentRun X Scenario.threeKnown) as [c ix |] eqn:Hout;
    [| by vm_compute in Hout].
  destruct (index_lists_what_is_known X Scenario.threeKnown c ix Hout) as (_ & Hmem & _).
  assert (match contentRun X Scenario.threeKnown with
          | Completed c' _ => didFullInventory c' = true
          | Failed _ => True
          end) as Hfull by (by vm_compute).
  rewrite Hout in Hfull.
  intros id. rewrite Hmem, Hfull.
  assert (idsOf (itemsOf (listed (contentStart X Scenario.threeKnown).1
                                 (contentStart X Scenario.threeKnown).2))
          = {["B"; "A"]}) as -> by (by vm_compute).
  rewrite elem_of_union, !elem_of_singleton.
  split; [intros [? | [? _]]; done | by left].
Defined.

End IndexContents.

(** ** Two partial passes and the stored watermarks *)

Section CarriedTimes.

Import Content.

Context (R : captured) (T : string -> Z) (stored : gmap string Z).

Lemma carried_sameData (c c' : state) :
  sameData c c' ->
  carried T (knownConversations R) stored c -> carried T (knownConversations R) stored c'.
Proof.
  intros Hs [Hk Hc]. split; [by eapply floorKept_sameData |].
  destruct Hs as (_ & _ & _ & Ho & _). by rewrite Ho.
Qed.

Lemma progress_carries (msgs : list message) :
  Forall (fun m => isProgress m = true) msgs -> Forall (carries T) msgs.
Proof. intros H. eapply Forall_impl; [exact H |]. by intros []. Qed.

Lemma classifyItem_carried (pageIndex : nat) (c : state) (it : item) :
  observedTime it = T (item_id it) ->
  carried T (knownConversations R) stored c ->
  carried T (knownConversations R) stored (classifyItem R pageIndex c it).
Proof.
  intros HT [Hk Hc]. split; [by apply classifyItem_floorKept |].
  destruct (decide (observedTime it <= watermark (knownConversations R) (item_id it)))
    as [Hold | Hnew].
  - destruct (classifyItem_unchanged R pageIndex c it Hold)
      as (_ & _ & _ & _ & _ & _ & progress & -> & Hp).
    apply Forall_app. split; [done |]. constructor; [| by apply progress_carries].
    unfold carries, listedEntry. cbn. lia.
  - by rewrite classifyItem_pending by lia.
Qed.

Lemma workerStep_carried (c : state) (k : nat) :
  carried T (knownConversations R) stored c ->
  carried T (knownConversations R) stored (workerStep R c k).
Proof.
  intros [Hk Hc]. split; [by apply workerStep_floorKept |].
  unfold workerStep. destruct (queue c !! k) as [pl |] eqn:Hq; [| done].
  destruct Hk as (_ & _ & Hqueue).
  destruct (Hqueue pl) as (HT & _ & _); [by eapply list_elem_of_lookup_2 |].
  unfold processItem.
  match goal with
  | |- context [markPageItemDone R ?i ?c4] =>
      destruct (markPageItemDone_progressOnly R i c4) as ((progress & -> & Hp) & _)
  end.
  apply Forall_app. split; [| by apply progress_carries].
  destruct (fetchConversation (cap_env R) (item_id (p_item pl))) as [err | conv]; cbn.
  { apply Forall_app. split; [done | by repeat constructor]. }
  destruct (writeConversation (cap_env R) (item_id (p_item pl)) conv); cbn.
  { apply Forall_app. split; [done | by repeat constructor]. }
  apply Forall_app. split; [done |]. constructor; [| constructor].
  unfold carries. cbn. lia.
Qed.

Lemma settled_carried (sched sched' : list (list nat)) (c0 c1 : state) :
  (forall it, it ∈ itemsOf (listed R c0) -> observedTime it = T (item_id it)) ->
  carried T (knownConversations R) stored c0 ->
  listingLoop R (S maxPages) sched c0 = LoopBreak c1 sched' ->
  carried T (knownConversations R) stored (settleAll R c1 sched').
Proof.
  intros HT Hc0 Hloop.
  apply (settleAll_data R (carried T (knownConversations R) stored));
    [apply carried_sameData | apply workerStep_carried |].
  change c1 with (exitState (LoopBreak c1 sched')). rewrite <- Hloop.
  apply (listingLoop_listed_rule R (carried T (knownConversations R) stored));
    [apply carried_sameData | apply workerStep_carried | | done].
  intros pg it pageIndex c' Hpg Hit. apply classifyItem_carried, HT.
  unfold itemsOf, listed. apply list_elem_of_bind. by exists pg.
Qed.

End CarriedTimes.

Section CarriedByListener.

Import Background.

Lemma onMessage_carried (now : Z) (msg : message) (b : state) (id : string) (t : Z) :
  timeOf msg = Some (id, t) ->
  t <= watermark (conversations (nextState (onMessage now msg b))) id.
Proof.
  intros Hmsg.
  destruct msg as [full ro lim | pr tot cur | i ttl ct t' | i ttl ct t'
                  | i err | tot u sk e full n | err]; try done;
    injection Hmsg as -> ->; cbn; unfold bumpCheckpoint;
    rewrite maybeCheckpoint_nextState; cbn; rewrite recordItem_conversations;
    unfold watermark at 1; rewrite lookup_insert_eq; simpl; lia.
Qed.

Lemma deliver_nextState_raises (clock : nat -> Z) (msgs : list message) (k : nat)
    (b : state) :
  Forall (fun m => reportsFullInventory m = false) msgs ->
  raises (nextState b) (nextState (deliver clock k msgs b)).
Proof.
  intros Hmsgs. rewrite Forall_forall in Hmsgs.
  apply (deliver_invariant (fun b' => raises (nextState b) (nextState b')) clock msgs);
    [| apply raises_refl].
  intros j msg b' Hin _ Hb'. eapply raises_trans; [done | apply onMessage_raises; auto].
Qed.

(** Once a message about a skipped or fetched conversation is handled, the
    watermark of its id is at least the time it carries, and the ordinary
    messages after it do not lower it. *)
Lemma deliver_carried (clock : nat -> Z) (msgs : list message) (k : nat) (b : state)
    (msg : message) (id : string) (t : Z) :
  Forall (fun m => ordinary m = true) msgs -> settled b = Pending ->
  msg ∈ msgs -> timeOf msg = Some (id, t) ->
  t <= watermark (conversations (nextState (deliver clock k msgs b))) id.
Proof.
  revert k b. induction msgs as [| m msgs IH]; intros k b Hmsgs Hb Hin Hmsg.
  { by apply elem_of_nil in Hin. }
  apply Forall_cons in Hmsgs as [Hm Hmsgs].
  cbn [deliver]. unfold receive. rewrite Hb.
  apply elem_of_cons in Hin as [<- | Hin].
  - pose proof (onMessage_carried (clock k) msg b id t Hmsg) as Hnow.
    assert (raises (nextState (onMessage (clock k) msg b))
                   (nextState (deliver clock (S k) msgs (onMessage (clock k) msg b))))
      as Hlater.
    { apply deliver_nextState_raises. eapply Forall_impl; [exact Hmsgs |]. by intros []. }
    specialize (Hlater id). lia.
  - apply IH; [done | by rewrite ordinary_open | done | done].
Qed.

Lemma complete_partial_conversations (s0 : syncState) (now tot u sk e n : Z) (b : state) :
  settled b = Pending ->
  conversations (persisted s0 (receive now (MsgSyncComplete tot u sk e false n) b))
  = conversations (nextState b).
Proof.
  intros Hb. unfold receive. rewrite Hb. cbn. by destruct (fullInventoryMode b).
Qed.

End CarriedByListener.

Section IdempotenceRun.

Import Content.

Lemma contentStart_carried (X : circumstances) (w : world) (T : string -> Z) :
  carried T (knownConversations (contentStart X w).1) (conversations (storage w))
          (contentStart X w).2.
Proof.
  split; [apply contentStart_floorKept |].
  destruct (contentStart_cursor X w) as (-> & _). by repeat constructor.
Qed.

(** The messages of a completed run carry at least the times of the
    records they are about. *)
Lemma completed_carries (X : circumstances) (w : world) (T : string -> Z) (c : state)
    (ix : list item) :
  contentRun X w = Completed c ix ->
  (forall it, it ∈ itemsOf (listed (contentStart X w).1 (contentStart X w).2) ->
              observedTime it = T (item_id it)) ->
  Forall (carries T) (outbox c).
Proof.
  intros Hrun HT.
  destruct (completed_run X w c ix Hrun) as (cs & tot & n & Hc & _ & _ & _ & _ & Hloop).
  destruct Hloop as (c1 & sched' & Hloop & Hcs).
  assert (carried T (knownConversations (contentStart X w).1) (conversations (storage w)) cs)
    as [_ Hout].
  { rewrite Hcs. eapply settled_carried; [exact HT | | exact Hloop].
    apply contentStart_carried. }
  destruct (removalPass_fields (contentStart X w).1 cs) as (_ & _ & _ & Ho3 & _).
  rewrite Hc. cbn. rewrite Ho3. apply Forall_app. split; [done | by repeat constructor].
Qed.




End IdempotenceRun.
